(** * Suroi server core: bit stream codec, collision filter, gas,
      visibility index, dirty-set projection and player damage.

    A shallow embedding of the TypeScript sources.  JavaScript numbers are
    embedded as exact rationals ([Q]), without rounding, [NaN] or infinities (a
    division by zero yields [0] here; the statements below stay clear of the
    places where that would matter); integers read from or written to the wire
    are [Z]; JavaScript [Set]s of game objects are finite sets of object
    references. *)

From Stdlib Require Import ZArith QArith Qpower Qround Qabs Lqa Lia.
From stdpp Require Import base option list functions gmap sets strings.

Local Open Scope Q_scope.

(** ** JavaScript number helpers *)

Definition Qlt_bool (a b : Q) : bool := negb (Qle_bool b a).

(** Truncation toward zero, as the JavaScript bit operators do to their
    operands, then reduction to a signed 32-bit integer. *)
Definition trunc (q : Q) : Z := Z.quot (Qnum q) (Zpos (Qden q)).

Definition wrap32 (z : Z) : Z := ((z + 2 ^ 31) mod 2 ^ 32 - 2 ^ 31)%Z.

Definition ToInt32 (q : Q) : Z := wrap32 (trunc q).

(** [a << b]: the shift count is taken modulo 32 and the result is a signed
    32-bit integer. *)
Definition shl (a : Z) (b : nat) : Z := wrap32 (a * 2 ^ (Z.of_nat b mod 32))%Z.

(** [Math.round]: nearest integer, halves rounded up. *)
Definition Math_round (q : Q) : Z := Qfloor (q + (1 # 2)).

Record Vector := v { x : Q; y : Q }.

(** ** The underlying bit stream *)

(** Little-endian bit lists. *)
Fixpoint bits_of (n : nat) (z : Z) : list bool :=
  match n with
  | O => []
  | S n' => Z.odd z :: bits_of n' (Z.div2 z)
  end.

Fixpoint value_of (l : list bool) : Z :=
  match l with
  | [] => 0
  | b :: l' => Z.b2z b + 2 * value_of l'
  end%Z.

(** Modelled from the spec: the [BitStream] base class comes from the external
    bit-buffer package.  It wraps a fixed-capacity buffer with an independent
    read cursor and write cursor measured in bits; [writeBits] stores the low
    [bits] bits of the value (unsigned on read), and reading or writing past
    the end of the buffer is fatal ([None]). *)
Record BitStream := mkStream {
  buffer : list bool;
  writeIndex : nat;
  readIndex : nat
}.

Definition alloc (length : nat) : BitStream :=
  {| buffer := replicate (8 * length) false; writeIndex := 0; readIndex := 0 |}.

Definition writeBits (value : Q) (bits : nat) (s : BitStream) : option BitStream :=
  if decide (writeIndex s + bits ≤ length (buffer s))%nat then
    Some {| buffer := take (writeIndex s) (buffer s)
                      ++ bits_of bits (ToInt32 value)
                      ++ drop (writeIndex s + bits) (buffer s);
            writeIndex := writeIndex s + bits;
            readIndex := readIndex s |}
  else None.

Definition readBits (bits : nat) (s : BitStream) : option (Z * BitStream) :=
  if decide (readIndex s + bits ≤ length (buffer s))%nat then
    Some (value_of (take bits (drop (readIndex s) (buffer s))),
          {| buffer := buffer s;
             writeIndex := writeIndex s;
             readIndex := readIndex s + bits |})
  else None.


Definition readBoolean (s : BitStream) : option (bool * BitStream) :=
  '(k, s') ← readBits 1 s; Some (negb (k =? 0)%Z, s').

(** ** Constants of the wire format (common/src/constants.ts) *)

Inductive ObjectCategory := Player_cat | Obstacle_cat | Explosion_cat | DeathMarker_cat | Loot_cat.

Definition PacketType_members : nat := 10.
Definition ObjectCategory_members : nat := 5.

(** A TypeScript numeric enum object carries a forward and a reverse entry for
    every member, so [Object.keys] sees twice the member count. *)
Definition enum_keys (members : nat) : Z := 2 * Z.of_nat members.

Definition calculateEnumPacketBits (members : nat) : nat :=
  Z.to_nat (Z.log2_up (enum_keys members / 2)).

Definition OBJECT_CATEGORY_BITS : nat := calculateEnumPacketBits ObjectCategory_members.
Definition MIN_OBJECT_SCALE : Q := 1 # 4.
Definition MAX_OBJECT_SCALE : Q := 2.

(** ** SuroiBitStream (common/src/utils/suroiBitStream.ts) *)

Definition writeFloat (value min max : Q) (bitCount : nat) (s : BitStream)
  : option BitStream :=
  let range := inject_Z (shl 1 bitCount - 1) in
  let clamped := if Qlt_bool value max
                 then (if Qlt_bool min value then value else min)
                 else max in
  writeBits (((clamped - min) / (max - min)) * range + (1 # 2)) bitCount s.

Definition readFloat (min max : Q) (bitCount : nat) (s : BitStream)
  : option (Q * BitStream) :=
  let range := inject_Z (shl 1 bitCount - 1) in
  '(k, s') ← readBits bitCount s;
  Some (min + (max - min) * inject_Z k / range, s').

Definition writeVector2 (px py minX minY maxX maxY : Q) (bitCount : nat)
    (s : BitStream) : option BitStream :=
  s1 ← writeFloat px minX maxX bitCount s;
  writeFloat py minY maxY bitCount s1.


Definition readVector (minX minY maxX maxY : Q) (bitCount : nat) (s : BitStream)
  : option (Vector * BitStream) :=
  '(rx, s1) ← readFloat minX maxX bitCount s;
  '(ry, s2) ← readFloat minY maxY bitCount s1;
  Some ({| x := rx; y := ry |}, s2).





Definition writePosition2 (px py : Q) (s : BitStream) : option BitStream :=
  writeVector2 px (720 - py) 0 0 1024 1024 16 s.

Definition writePosition (vector : Vector) (s : BitStream) : option BitStream :=
  writePosition2 (x vector) (y vector) s.

Definition readPosition (s : BitStream) : option (Vector * BitStream) :=
  readVector 0 0 1024 1024 16 s.



Definition writeScale (value : Q) (s : BitStream) : option BitStream :=
  writeFloat value MIN_OBJECT_SCALE MAX_OBJECT_SCALE 8 s.

Definition readScale (s : BitStream) : option (Q * BitStream) :=
  readFloat MIN_OBJECT_SCALE MAX_OBJECT_SCALE 8 s.

(** The rotation mode of an obstacle definition; [mode_other] stands for any
    string the [switch] statements do not list (among them "none"). *)
Inductive RotationMode := full | limited | binary | mode_other.

Section Rotation.
(** [Math.PI] has no rational value and [normalizeAngle] lives in
    common/src/utils/math.ts, which is not among the sources: both are
    parameters. *)
Variable PI : Q.
Variable normalizeAngle : Q -> Q.

Definition writeRotation (value : Q) (bitCount : nat) (s : BitStream)
  : option BitStream :=
  writeFloat value (- PI) PI bitCount s.

Definition readRotation (bitCount : nat) (s : BitStream)
  : option (Q * BitStream) :=
  readFloat (- PI) PI bitCount s.

Definition writeObstacleRotation (value : Q) (mode : RotationMode)
    (s : BitStream) : option BitStream :=
  match mode with
  | full => writeRotation value 4 s
  | limited => writeBits value 2 s
  | binary => writeBits value 1 s
  | mode_other => Some s
  end.

Definition readObstacleRotation (mode : RotationMode) (s : BitStream)
  : option (Q * BitStream) :=
  match mode with
  | full => readRotation 4 s
  | limited =>
      '(k, s') ← readBits 2 s; Some (normalizeAngle (inject_Z k * (PI / 2)), s')
  | binary =>
      '(b, s') ← readBoolean s; Some (if b : bool then PI / 2 else 0, s')
  | mode_other => Some (0, s)
  end.
End Rotation.

(** [field_at s i n z]: the [n] bits of the buffer from bit [i] on hold the
    low [n] bits of [z]. *)
Definition field_at (s : BitStream) (i n : nat) (z : Z) : Prop :=
  take n (drop i (buffer s)) = bits_of n z /\ (i + n <= length (buffer s))%nat.

(** [reads_back w r s P]: writing with [w] on [s] succeeds, reading the result
    with [r] succeeds, the value read satisfies [P], and the read cursor has
    caught up with the write cursor. *)
Definition reads_back {B : Type} (w : BitStream -> option BitStream)
    (r : BitStream -> option (B * BitStream)) (s : BitStream) (P : B -> Prop) : Prop :=
  exists s1 b s2, w s = Some s1 /\ r s1 = Some (b, s2) /\ P b
                  /\ readIndex s2 = writeIndex s2.

(** The quantisation step of a [bitCount]-bit float field over [[min,max]]. *)
Definition float_step (min max : Q) (bitCount : nat) : Q :=
  (max - min) / inject_Z (2 ^ Z.of_nat bitCount - 1).

(** ** Collision filtering (server/src/game.ts, server/src/objects) *)

Record CollisionFilter := mkFilter {
  player : bool;
  obstacle : bool;
  bullet : bool;
  loot : bool
}.

(** The part of a [GameObject] that a fixture's user data exposes to the
    collision predicate. *)
Record UserData := mkUserData {
  is_ : CollisionFilter;
  collidesWith : CollisionFilter
}.

Definition shouldCollide (thisObject thatObject : UserData) : bool :=
  if player (is_ thisObject) then player (collidesWith thatObject)
  else if obstacle (is_ thisObject) then obstacle (collidesWith thatObject)
  else if bullet (is_ thisObject) then bullet (collidesWith thatObject)
  else if loot (is_ thisObject) then loot (collidesWith thatObject)
  else false.

Inductive Kind := KPlayer | KObstacle | KBullet | KLoot.

Definition flag (k : Kind) (f : CollisionFilter) : bool :=
  match k with
  | KPlayer => player f
  | KObstacle => obstacle f
  | KBullet => bullet f
  | KLoot => loot f
  end.

(** The number of kinds a filter names. *)
Definition kinds_set (f : CollisionFilter) : nat :=
  Nat.b2n (player f) + Nat.b2n (obstacle f) + Nat.b2n (bullet f) + Nat.b2n (loot f).

(** [Player.is] and [Player.collidesWith] (server/src/objects/player.ts). *)
Definition Player_data : UserData :=
  {| is_ := {| player := true; obstacle := false; bullet := false; loot := false |};
     collidesWith := {| player := false; obstacle := true; bullet := true; loot := false |} |}.

(** [DeathMarker] (server/src/objects/deathMarker.ts). *)
Definition DeathMarker_data : UserData :=
  {| is_ := {| player := false; obstacle := false; bullet := false; loot := false |};
     collidesWith := {| player := false; obstacle := false; bullet := false; loot := false |} |}.

(** The user data of the world boundaries ([Game.createWorldBoundary]), which
    stand in the world as obstacles. *)
Definition Boundary_data : UserData :=
  {| is_ := {| player := false; obstacle := true; bullet := false; loot := false |};
     collidesWith := {| player := true; obstacle := false; bullet := true; loot := true |} |}.

(** Modelled from the spec: the class [Obstacle] (server/src/objects/obstacle.ts)
    is missing.  Obstacles are of kind obstacle and collide with players,
    bullets and loot, as the world boundaries do. *)
Definition Obstacle_data : UserData := Boundary_data.

(** Modelled from the spec: the class [Bullet] (server/src/objects/bullet.ts) is
    missing.  Bullets are of kind bullet and collide with players and
    obstacles, not with each other or with loot. *)
Definition Bullet_data : UserData :=
  {| is_ := {| player := false; obstacle := false; bullet := true; loot := false |};
     collidesWith := {| player := true; obstacle := true; bullet := false; loot := false |} |}.

(** Modelled from the spec: the class [Loot] (server/src/objects/loot.ts) is
    missing.  Loot is of kind loot and collides with obstacles and other loot
    only. *)
Definition Loot_data : UserData :=
  {| is_ := {| player := false; obstacle := false; bullet := false; loot := true |};
     collidesWith := {| player := false; obstacle := true; bullet := false; loot := true |} |}.

(** The documented matrix, read from the first object's side. *)
Definition documented_matrix : Prop :=
  shouldCollide Player_data Obstacle_data = true
  /\ shouldCollide Player_data Player_data = false
  /\ shouldCollide Player_data Loot_data = false
  /\ shouldCollide Bullet_data Player_data = true
  /\ shouldCollide Bullet_data Obstacle_data = true
  /\ shouldCollide Bullet_data Bullet_data = false
  /\ shouldCollide Bullet_data Loot_data = false
  /\ shouldCollide Loot_data Obstacle_data = true
  /\ shouldCollide Loot_data Loot_data = true
  /\ shouldCollide Loot_data Player_data = false
  /\ shouldCollide Loot_data Bullet_data = false.

(** ** Gas (server/src/game.ts) *)

Inductive GasState := Inactive | Waiting | Advancing.

Definition GasState_eqb (a b : GasState) : bool :=
  match a, b with
  | Inactive, Inactive | Waiting, Waiting | Advancing, Advancing => true
  | _, _ => false
  end.

Inductive GasMode := Normal | Debug | Disabled.

(** One entry of the [GasStages] table (server/src/data/gasStages.ts, not among
    the sources); the fields are the ones [advanceGas] reads. *)
Record GasStage := mkStage {
  stage_state : GasState;
  stage_duration : Q;
  stage_oldRadius : Q;
  stage_newRadius : Q;
  stage_dps : Q
}.

Record Gas := mkGas {
  stage : nat;
  state : GasState;
  initialDuration : Q;
  countdownStart : Q;
  percentage : Q;
  oldPosition : Vector;
  newPosition : Vector;
  oldRadius : Q;
  newRadius : Q;
  currentPosition : Vector;
  currentRadius : Q;
  dps : Q;
  ticksSinceLastDamage : nat
}.

(** The fields of [Game] that the gas code reads and writes. *)
Record GasGame := mkGasGame {
  gas : Gas;
  gasDirty : bool;
  gasPercentageDirty : bool;
  now : Q
}.

Definition initial_gas : Gas :=
  {| stage := 0; state := Inactive; initialDuration := 0; countdownStart := 0;
     percentage := 0;
     oldPosition := v 360 360; newPosition := v 360 360;
     oldRadius := 512; newRadius := 512;
     currentPosition := v 360 360; currentRadius := 512;
     dps := 0; ticksSinceLastDamage := 0 |}.

Definition vClone (a : Vector) : Vector := v (x a) (y a).

(** [lerp] and [vecLerp] (server/src/utils/misc.ts). *)
Definition lerp (start end_ percentage : Q) : Q :=
  start * (1 - percentage) + end_ * percentage.

Definition vecLerp (start end_ : Vector) (percentage : Q) : Vector :=
  v (x start * (1 - percentage) + x end_ * percentage)
    (y start * (1 - percentage) + y end_ * percentage).

(** Modelled from the spec: [distanceSquared] (common/src/utils/math.ts) is
    missing; it is the squared distance between two points. *)
Definition distanceSquared (a b : Vector) : Q :=
  (x a - x b) * (x a - x b) + (y a - y b) * (y a - y b).

Definition isInGas (position : Vector) (g : Gas) : bool :=
  Qle_bool (currentRadius g ^ 2) (distanceSquared position (currentPosition g)).

Section GasStagesTable.
(** The configuration, the stage table and the random point picker
    ([randomPointInsideCircle], common/src/utils/random.ts) are given. *)
Variable mode : GasMode.
Variable overrideDuration : Q.
Variable GasStages : list GasStage.
Variable randomPointInsideCircle : Vector -> Q -> Vector.

(** [advanceGas]: the new state and the delay, in seconds, after which the next
    call is scheduled, if any. *)
Definition advanceGas (G : GasGame) : GasGame * option Q :=
  match mode with
  | Disabled => (G, None)
  | _ =>
    match GasStages !! (stage (gas G) + 1)%nat with
    | None => (G, None)
    | Some currentStage =>
      let g := gas G in
      let duration :=
        match mode with
        | Debug => if negb (Qeq_bool (stage_duration currentStage) 0)
                   then overrideDuration else stage_duration currentStage
        | _ => stage_duration currentStage
        end in
      let waiting := GasState_eqb (stage_state currentStage) Waiting in
      let oldPosition' := if waiting then vClone (newPosition g) else oldPosition g in
      let newPosition' :=
        if waiting then
          if negb (Qeq_bool (stage_newRadius currentStage) 0)
          then randomPointInsideCircle oldPosition'
                 (stage_oldRadius currentStage - stage_newRadius currentStage)
          else vClone oldPosition'
        else newPosition g in
      ({| gas := {| stage := S (stage g);
                    state := stage_state currentStage;
                    initialDuration := duration;
                    countdownStart := now G;
                    percentage := 1;
                    oldPosition := oldPosition';
                    newPosition := newPosition';
                    oldRadius := stage_oldRadius currentStage;
                    newRadius := stage_newRadius currentStage;
                    currentPosition :=
                      if waiting then vClone oldPosition' else currentPosition g;
                    currentRadius :=
                      if waiting then stage_oldRadius currentStage else currentRadius g;
                    dps := stage_dps currentStage;
                    ticksSinceLastDamage := ticksSinceLastDamage g |};
            gasDirty := true;
            gasPercentageDirty := true;
            now := now G |},
       if negb (Qeq_bool duration 0) then Some duration else None)
    end
  end.

(** The gas part of one tick, run with the clock reading [Date_now]: the new
    state and whether gas damage is dealt this tick. *)
Definition tickGas (Date_now : Q) (G : GasGame) : GasGame * bool :=
  let g := gas G in
  let active := negb (GasState_eqb (state g) Inactive) in
  let percentage' :=
    if active then (Date_now - countdownStart g) / (1000 * initialDuration g)
    else percentage g in
  let ticks := S (ticksSinceLastDamage g) in
  let gasDamage := (30 <=? ticks)%nat in
  let interpolate := gasDamage && GasState_eqb (state g) Advancing in
  ({| gas := {| stage := stage g;
                state := state g;
                initialDuration := initialDuration g;
                countdownStart := countdownStart g;
                percentage := percentage';
                oldPosition := oldPosition g;
                newPosition := newPosition g;
                oldRadius := oldRadius g;
                newRadius := newRadius g;
                currentPosition :=
                  if interpolate
                  then vecLerp (oldPosition g) (newPosition g) percentage'
                  else currentPosition g;
                currentRadius :=
                  if interpolate
                  then lerp (oldRadius g) (newRadius g) percentage'
                  else currentRadius g;
                dps := dps g;
                ticksSinceLastDamage := if gasDamage then 0%nat else ticks |};
        gasDirty := gasDirty G;
        gasPercentageDirty := if active then true else gasPercentageDirty G;
        now := Date_now |},
   gasDamage).

Inductive GasEvent := Tick (Date_now : Q) | AdvanceGas.

Definition gas_step (e : GasEvent) (G : GasGame) : GasGame :=
  match e with
  | Tick Date_now => fst (tickGas Date_now G)
  | AdvanceGas => fst (advanceGas G)
  end.

Definition gas_run (es : list GasEvent) (G : GasGame) : GasGame :=
  fold_left (fun G e => gas_step e G) es G.
End GasStagesTable.

(** The smallest radius a stage that runs its course leaves behind. *)
Definition stage_low (st : GasStage) : Q :=
  match stage_state st with
  | Waiting => stage_oldRadius st
  | _ => stage_newRadius st
  end.

(** A stage table that only ever shrinks the safe zone: no stage grows, every
    stage from the second on starts no larger than the one before it ends,
    the first one no larger than the initial radius, and advancing stages
    take time.  (Entry 0 of the table is never read.) *)
Definition stages_shrink (T : list GasStage) : Prop :=
  (forall i st, T !! i = Some st -> stage_newRadius st <= stage_oldRadius st)
  /\ (forall i a b, (1 <= i)%nat -> T !! i = Some a -> T !! S i = Some b ->
        stage_oldRadius b <= stage_low a)
  /\ (forall st, T !! 1%nat = Some st -> stage_oldRadius st <= 512)
  /\ (forall i st, T !! i = Some st -> stage_state st = Advancing ->
        0 < stage_duration st).

(** A clock reading that does not run backwards and, while the gas advances,
    stays within the duration of the stage. *)
Definition event_ok (e : GasEvent) (G : GasGame) : Prop :=
  match e with
  | Tick Date_now =>
      now G <= Date_now
      /\ (state (gas G) = Advancing ->
          Date_now - countdownStart (gas G) <= 1000 * initialDuration (gas G))
  | AdvanceGas => True
  end.

Section GasRuns.
Variable mode : GasMode.
Variable overrideDuration : Q.
Variable GasStages : list GasStage.
Variable randomPointInsideCircle : Vector -> Q -> Vector.

Fixpoint clock_ok (es : list GasEvent) (G : GasGame) : Prop :=
  match es with
  | [] => True
  | e :: es' =>
      event_ok e G
      /\ clock_ok es' (gas_step mode overrideDuration GasStages randomPointInsideCircle e G)
  end.

(** What holds of every state the gas reaches. *)
Definition gas_inv (G : GasGame) : Prop :=
  let g := gas G in
  match stage g with
  | O => state g = Inactive /\ currentRadius g == 512
  | S _ =>
      exists st, GasStages !! stage g = Some st
        /\ state g = stage_state st
        /\ oldRadius g = stage_oldRadius st
        /\ newRadius g = stage_newRadius st
        /\ stage_low st <= currentRadius g
        /\ (state g = Advancing ->
              0 < initialDuration g
              /\ countdownStart g <= now G
              /\ lerp (oldRadius g) (newRadius g)
                   ((now G - countdownStart g) / (1000 * initialDuration g))
                 <= currentRadius g)
  end.
End GasRuns.

Definition new_game (Date_now : Q) : GasGame :=
  {| gas := initial_gas; gasDirty := false; gasPercentageDirty := false;
     now := Date_now |}.

(** A shrinking table: wait at 512, advance to 256, wait at 256. *)
Definition sample_stages : list GasStage :=
  [ {| stage_state := Inactive; stage_duration := 0;
       stage_oldRadius := 512; stage_newRadius := 512; stage_dps := 0 |};
    {| stage_state := Waiting; stage_duration := 10;
       stage_oldRadius := 512; stage_newRadius := 256; stage_dps := 0 |};
    {| stage_state := Advancing; stage_duration := 10;
       stage_oldRadius := 512; stage_newRadius := 256; stage_dps := 1 |};
    {| stage_state := Waiting; stage_duration := 10;
       stage_oldRadius := 256; stage_newRadius := 128; stage_dps := 1 |} ].

(** ** Game objects (server/src/objects/player.ts, server/src/types) *)

(** Objects are known by reference; a reference stands for the identity of a
    JavaScript object. *)
Abbreviation ObjRef := nat.

(** [Player.movement] and [Player.dirty]. *)
Module Movement.
Record t := mk {
  up : bool;
  down : bool;
  left : bool;
  right : bool;
  moving : bool;
  angle : Q
}.
End Movement.

Module Dirty.
Record t := mk {
  health : bool;
  adrenaline : bool;
  activeWeaponIndex : bool;
  weapons : bool;
  inventory : bool;
  activePlayerId : bool;
  zoom : bool;
  action : bool
}.
End Dirty.

(** A game object with the fields the code below reads or writes.  [category]
    tells the class ([instanceof Player] is [category = Player_cat]); the
    fields from [deathPosition] on are those of [Player] and carry no meaning
    for other objects.  [bodyPosition] is the position of the physics body
    for a player and the position itself for any other object. *)
Record GameObject := mkObject {
  category : ObjectCategory;
  bodyPosition : Vector;
  dead : bool;
  deathPosition : option Vector;
  zoom : Z;
  xCullDist : Q;
  yCullDist : Q;
  health : Q;
  adrenaline : Q;
  invulnerable : bool;
  joined : bool;
  disconnected : bool;
  kills : nat;
  damageDone : Q;
  damageTaken : Q;
  killedBy : option ObjRef;
  hitEffect : bool;
  attacking : bool;
  movement : Movement.t;
  dirty : Dirty.t;
  action : option nat;
  items : list (string * Q);
  movesSinceLastUpdate : nat;
  visibleObjects : gset ObjRef;
  nearObjects : gset ObjRef;
  partialDirtyObjects : gset ObjRef;
  fullDirtyObjects : gset ObjRef;
  deletedObjects : gset ObjRef
}.

Definition with_dead (a : bool) (o : GameObject) : GameObject :=
  {| category := category o; bodyPosition := bodyPosition o; dead := a;
     deathPosition := deathPosition o; zoom := zoom o; xCullDist := xCullDist o;
     yCullDist := yCullDist o; health := health o; adrenaline := adrenaline o;
     invulnerable := invulnerable o; joined := joined o;
     disconnected := disconnected o; kills := kills o; damageDone := damageDone o;
     damageTaken := damageTaken o; killedBy := killedBy o; hitEffect := hitEffect o;
     attacking := attacking o; movement := movement o; dirty := dirty o;
     action := action o; items := items o;
     movesSinceLastUpdate := movesSinceLastUpdate o;
     visibleObjects := visibleObjects o; nearObjects := nearObjects o;
     partialDirtyObjects := partialDirtyObjects o;
     fullDirtyObjects := fullDirtyObjects o; deletedObjects := deletedObjects o |}.

Definition with_deathPosition (a : option Vector) (o : GameObject) : GameObject :=
  {| category := category o; bodyPosition := bodyPosition o; dead := dead o;
     deathPosition := a; zoom := zoom o; xCullDist := xCullDist o;
     yCullDist := yCullDist o; health := health o; adrenaline := adrenaline o;
     invulnerable := invulnerable o; joined := joined o;
     disconnected := disconnected o; kills := kills o; damageDone := damageDone o;
     damageTaken := damageTaken o; killedBy := killedBy o; hitEffect := hitEffect o;
     attacking := attacking o; movement := movement o; dirty := dirty o;
     action := action o; items := items o;
     movesSinceLastUpdate := movesSinceLastUpdate o;
     visibleObjects := visibleObjects o; nearObjects := nearObjects o;
     partialDirtyObjects := partialDirtyObjects o;
     fullDirtyObjects := fullDirtyObjects o; deletedObjects := deletedObjects o |}.

Definition with_health (a : Q) (o : GameObject) : GameObject :=
  {| category := category o; bodyPosition := bodyPosition o; dead := dead o;
     deathPosition := deathPosition o; zoom := zoom o; xCullDist := xCullDist o;
     yCullDist := yCullDist o; health := a; adrenaline := adrenaline o;
     invulnerable := invulnerable o; joined := joined o;
     disconnected := disconnected o; kills := kills o; damageDone := damageDone o;
     damageTaken := damageTaken o; killedBy := killedBy o; hitEffect := hitEffect o;
     attacking := attacking o; movement := movement o; dirty := dirty o;
     action := action o; items := items o;
     movesSinceLastUpdate := movesSinceLastUpdate o;
     visibleObjects := visibleObjects o; nearObjects := nearObjects o;
     partialDirtyObjects := partialDirtyObjects o;
     fullDirtyObjects := fullDirtyObjects o; deletedObjects := deletedObjects o |}.

Definition with_adrenaline (a : Q) (o : GameObject) : GameObject :=
  {| category := category o; bodyPosition := bodyPosition o; dead := dead o;
     deathPosition := deathPosition o; zoom := zoom o; xCullDist := xCullDist o;
     yCullDist := yCullDist o; health := health o; adrenaline := a;
     invulnerable := invulnerable o; joined := joined o;
     disconnected := disconnected o; kills := kills o; damageDone := damageDone o;
     damageTaken := damageTaken o; killedBy := killedBy o; hitEffect := hitEffect o;
     attacking := attacking o; movement := movement o; dirty := dirty o;
     action := action o; items := items o;
     movesSinceLastUpdate := movesSinceLastUpdate o;
     visibleObjects := visibleObjects o; nearObjects := nearObjects o;
     partialDirtyObjects := partialDirtyObjects o;
     fullDirtyObjects := fullDirtyObjects o; deletedObjects := deletedObjects o |}.

Definition with_invulnerable (a : bool) (o : GameObject) : GameObject :=
  {| category := category o; bodyPosition := bodyPosition o; dead := dead o;
     deathPosition := deathPosition o; zoom := zoom o; xCullDist := xCullDist o;
     yCullDist := yCullDist o; health := health o; adrenaline := adrenaline o;
     invulnerable := a; joined := joined o; disconnected := disconnected o;
     kills := kills o; damageDone := damageDone o; damageTaken := damageTaken o;
     killedBy := killedBy o; hitEffect := hitEffect o; attacking := attacking o;
     movement := movement o; dirty := dirty o; action := action o; items := items o;
     movesSinceLastUpdate := movesSinceLastUpdate o;
     visibleObjects := visibleObjects o; nearObjects := nearObjects o;
     partialDirtyObjects := partialDirtyObjects o;
     fullDirtyObjects := fullDirtyObjects o; deletedObjects := deletedObjects o |}.

Definition with_kills (a : nat) (o : GameObject) : GameObject :=
  {| category := category o; bodyPosition := bodyPosition o; dead := dead o;
     deathPosition := deathPosition o; zoom := zoom o; xCullDist := xCullDist o;
     yCullDist := yCullDist o; health := health o; adrenaline := adrenaline o;
     invulnerable := invulnerable o; joined := joined o;
     disconnected := disconnected o; kills := a; damageDone := damageDone o;
     damageTaken := damageTaken o; killedBy := killedBy o; hitEffect := hitEffect o;
     attacking := attacking o; movement := movement o; dirty := dirty o;
     action := action o; items := items o;
     movesSinceLastUpdate := movesSinceLastUpdate o;
     visibleObjects := visibleObjects o; nearObjects := nearObjects o;
     partialDirtyObjects := partialDirtyObjects o;
     fullDirtyObjects := fullDirtyObjects o; deletedObjects := deletedObjects o |}.

Definition with_damageDone (a : Q) (o : GameObject) : GameObject :=
  {| category := category o; bodyPosition := bodyPosition o; dead := dead o;
     deathPosition := deathPosition o; zoom := zoom o; xCullDist := xCullDist o;
     yCullDist := yCullDist o; health := health o; adrenaline := adrenaline o;
     invulnerable := invulnerable o; joined := joined o;
     disconnected := disconnected o; kills := kills o; damageDone := a;
     damageTaken := damageTaken o; killedBy := killedBy o; hitEffect := hitEffect o;
     attacking := attacking o; movement := movement o; dirty := dirty o;
     action := action o; items := items o;
     movesSinceLastUpdate := movesSinceLastUpdate o;
     visibleObjects := visibleObjects o; nearObjects := nearObjects o;
     partialDirtyObjects := partialDirtyObjects o;
     fullDirtyObjects := fullDirtyObjects o; deletedObjects := deletedObjects o |}.

Definition with_damageTaken (a : Q) (o : GameObject) : GameObject :=
  {| category := category o; bodyPosition := bodyPosition o; dead := dead o;
     deathPosition := deathPosition o; zoom := zoom o; xCullDist := xCullDist o;
     yCullDist := yCullDist o; health := health o; adrenaline := adrenaline o;
     invulnerable := invulnerable o; joined := joined o;
     disconnected := disconnected o; kills := kills o; damageDone := damageDone o;
     damageTaken := a; killedBy := killedBy o; hitEffect := hitEffect o;
     attacking := attacking o; movement := movement o; dirty := dirty o;
     action := action o; items := items o;
     movesSinceLastUpdate := movesSinceLastUpdate o;
     visibleObjects := visibleObjects o; nearObjects := nearObjects o;
     partialDirtyObjects := partialDirtyObjects o;
     fullDirtyObjects := fullDirtyObjects o; deletedObjects := deletedObjects o |}.

Definition with_killedBy (a : option ObjRef) (o : GameObject) : GameObject :=
  {| category := category o; bodyPosition := bodyPosition o; dead := dead o;
     deathPosition := deathPosition o; zoom := zoom o; xCullDist := xCullDist o;
     yCullDist := yCullDist o; health := health o; adrenaline := adrenaline o;
     invulnerable := invulnerable o; joined := joined o;
     disconnected := disconnected o; kills := kills o; damageDone := damageDone o;
     damageTaken := damageTaken o; killedBy := a; hitEffect := hitEffect o;
     attacking := attacking o; movement := movement o; dirty := dirty o;
     action := action o; items := items o;
     movesSinceLastUpdate := movesSinceLastUpdate o;
     visibleObjects := visibleObjects o; nearObjects := nearObjects o;
     partialDirtyObjects := partialDirtyObjects o;
     fullDirtyObjects := fullDirtyObjects o; deletedObjects := deletedObjects o |}.

Definition with_hitEffect (a : bool) (o : GameObject) : GameObject :=
  {| category := category o; bodyPosition := bodyPosition o; dead := dead o;
     deathPosition := deathPosition o; zoom := zoom o; xCullDist := xCullDist o;
     yCullDist := yCullDist o; health := health o; adrenaline := adrenaline o;
     invulnerable := invulnerable o; joined := joined o;
     disconnected := disconnected o; kills := kills o; damageDone := damageDone o;
     damageTaken := damageTaken o; killedBy := killedBy o; hitEffect := a;
     attacking := attacking o; movement := movement o; dirty := dirty o;
     action := action o; items := items o;
     movesSinceLastUpdate := movesSinceLastUpdate o;
     visibleObjects := visibleObjects o; nearObjects := nearObjects o;
     partialDirtyObjects := partialDirtyObjects o;
     fullDirtyObjects := fullDirtyObjects o; deletedObjects := deletedObjects o |}.

Definition with_attacking (a : bool) (o : GameObject) : GameObject :=
  {| category := category o; bodyPosition := bodyPosition o; dead := dead o;
     deathPosition := deathPosition o; zoom := zoom o; xCullDist := xCullDist o;
     yCullDist := yCullDist o; health := health o; adrenaline := adrenaline o;
     invulnerable := invulnerable o; joined := joined o;
     disconnected := disconnected o; kills := kills o; damageDone := damageDone o;
     damageTaken := damageTaken o; killedBy := killedBy o; hitEffect := hitEffect o;
     attacking := a; movement := movement o; dirty := dirty o; action := action o;
     items := items o; movesSinceLastUpdate := movesSinceLastUpdate o;
     visibleObjects := visibleObjects o; nearObjects := nearObjects o;
     partialDirtyObjects := partialDirtyObjects o;
     fullDirtyObjects := fullDirtyObjects o; deletedObjects := deletedObjects o |}.

Definition with_movement (a : Movement.t) (o : GameObject) : GameObject :=
  {| category := category o; bodyPosition := bodyPosition o; dead := dead o;
     deathPosition := deathPosition o; zoom := zoom o; xCullDist := xCullDist o;
     yCullDist := yCullDist o; health := health o; adrenaline := adrenaline o;
     invulnerable := invulnerable o; joined := joined o;
     disconnected := disconnected o; kills := kills o; damageDone := damageDone o;
     damageTaken := damageTaken o; killedBy := killedBy o; hitEffect := hitEffect o;
     attacking := attacking o; movement := a; dirty := dirty o; action := action o;
     items := items o; movesSinceLastUpdate := movesSinceLastUpdate o;
     visibleObjects := visibleObjects o; nearObjects := nearObjects o;
     partialDirtyObjects := partialDirtyObjects o;
     fullDirtyObjects := fullDirtyObjects o; deletedObjects := deletedObjects o |}.

Definition with_dirty (a : Dirty.t) (o : GameObject) : GameObject :=
  {| category := category o; bodyPosition := bodyPosition o; dead := dead o;
     deathPosition := deathPosition o; zoom := zoom o; xCullDist := xCullDist o;
     yCullDist := yCullDist o; health := health o; adrenaline := adrenaline o;
     invulnerable := invulnerable o; joined := joined o;
     disconnected := disconnected o; kills := kills o; damageDone := damageDone o;
     damageTaken := damageTaken o; killedBy := killedBy o; hitEffect := hitEffect o;
     attacking := attacking o; movement := movement o; dirty := a; action := action o;
     items := items o; movesSinceLastUpdate := movesSinceLastUpdate o;
     visibleObjects := visibleObjects o; nearObjects := nearObjects o;
     partialDirtyObjects := partialDirtyObjects o;
     fullDirtyObjects := fullDirtyObjects o; deletedObjects := deletedObjects o |}.

Definition with_items (a : list (string * Q)) (o : GameObject) : GameObject :=
  {| category := category o; bodyPosition := bodyPosition o; dead := dead o;
     deathPosition := deathPosition o; zoom := zoom o; xCullDist := xCullDist o;
     yCullDist := yCullDist o; health := health o; adrenaline := adrenaline o;
     invulnerable := invulnerable o; joined := joined o;
     disconnected := disconnected o; kills := kills o; damageDone := damageDone o;
     damageTaken := damageTaken o; killedBy := killedBy o; hitEffect := hitEffect o;
     attacking := attacking o; movement := movement o; dirty := dirty o;
     action := action o; items := a; movesSinceLastUpdate := movesSinceLastUpdate o;
     visibleObjects := visibleObjects o; nearObjects := nearObjects o;
     partialDirtyObjects := partialDirtyObjects o;
     fullDirtyObjects := fullDirtyObjects o; deletedObjects := deletedObjects o |}.

Definition with_movesSinceLastUpdate (a : nat) (o : GameObject) : GameObject :=
  {| category := category o; bodyPosition := bodyPosition o; dead := dead o;
     deathPosition := deathPosition o; zoom := zoom o; xCullDist := xCullDist o;
     yCullDist := yCullDist o; health := health o; adrenaline := adrenaline o;
     invulnerable := invulnerable o; joined := joined o;
     disconnected := disconnected o; kills := kills o; damageDone := damageDone o;
     damageTaken := damageTaken o; killedBy := killedBy o; hitEffect := hitEffect o;
     attacking := attacking o; movement := movement o; dirty := dirty o;
     action := action o; items := items o; movesSinceLastUpdate := a;
     visibleObjects := visibleObjects o; nearObjects := nearObjects o;
     partialDirtyObjects := partialDirtyObjects o;
     fullDirtyObjects := fullDirtyObjects o; deletedObjects := deletedObjects o |}.

Definition with_visibleObjects (a : gset ObjRef) (o : GameObject) : GameObject :=
  {| category := category o; bodyPosition := bodyPosition o; dead := dead o;
     deathPosition := deathPosition o; zoom := zoom o; xCullDist := xCullDist o;
     yCullDist := yCullDist o; health := health o; adrenaline := adrenaline o;
     invulnerable := invulnerable o; joined := joined o;
     disconnected := disconnected o; kills := kills o; damageDone := damageDone o;
     damageTaken := damageTaken o; killedBy := killedBy o; hitEffect := hitEffect o;
     attacking := attacking o; movement := movement o; dirty := dirty o;
     action := action o; items := items o;
     movesSinceLastUpdate := movesSinceLastUpdate o; visibleObjects := a;
     nearObjects := nearObjects o; partialDirtyObjects := partialDirtyObjects o;
     fullDirtyObjects := fullDirtyObjects o; deletedObjects := deletedObjects o |}.

Definition with_nearObjects (a : gset ObjRef) (o : GameObject) : GameObject :=
  {| category := category o; bodyPosition := bodyPosition o; dead := dead o;
     deathPosition := deathPosition o; zoom := zoom o; xCullDist := xCullDist o;
     yCullDist := yCullDist o; health := health o; adrenaline := adrenaline o;
     invulnerable := invulnerable o; joined := joined o;
     disconnected := disconnected o; kills := kills o; damageDone := damageDone o;
     damageTaken := damageTaken o; killedBy := killedBy o; hitEffect := hitEffect o;
     attacking := attacking o; movement := movement o; dirty := dirty o;
     action := action o; items := items o;
     movesSinceLastUpdate := movesSinceLastUpdate o;
     visibleObjects := visibleObjects o; nearObjects := a;
     partialDirtyObjects := partialDirtyObjects o;
     fullDirtyObjects := fullDirtyObjects o; deletedObjects := deletedObjects o |}.

Definition with_partialDirtyObjects (a : gset ObjRef) (o : GameObject) : GameObject :=
  {| category := category o; bodyPosition := bodyPosition o; dead := dead o;
     deathPosition := deathPosition o; zoom := zoom o; xCullDist := xCullDist o;
     yCullDist := yCullDist o; health := health o; adrenaline := adrenaline o;
     invulnerable := invulnerable o; joined := joined o;
     disconnected := disconnected o; kills := kills o; damageDone := damageDone o;
     damageTaken := damageTaken o; killedBy := killedBy o; hitEffect := hitEffect o;
     attacking := attacking o; movement := movement o; dirty := dirty o;
     action := action o; items := items o;
     movesSinceLastUpdate := movesSinceLastUpdate o;
     visibleObjects := visibleObjects o; nearObjects := nearObjects o;
     partialDirtyObjects := a; fullDirtyObjects := fullDirtyObjects o;
     deletedObjects := deletedObjects o |}.

Definition with_fullDirtyObjects (a : gset ObjRef) (o : GameObject) : GameObject :=
  {| category := category o; bodyPosition := bodyPosition o; dead := dead o;
     deathPosition := deathPosition o; zoom := zoom o; xCullDist := xCullDist o;
     yCullDist := yCullDist o; health := health o; adrenaline := adrenaline o;
     invulnerable := invulnerable o; joined := joined o;
     disconnected := disconnected o; kills := kills o; damageDone := damageDone o;
     damageTaken := damageTaken o; killedBy := killedBy o; hitEffect := hitEffect o;
     attacking := attacking o; movement := movement o; dirty := dirty o;
     action := action o; items := items o;
     movesSinceLastUpdate := movesSinceLastUpdate o;
     visibleObjects := visibleObjects o; nearObjects := nearObjects o;
     partialDirtyObjects := partialDirtyObjects o; fullDirtyObjects := a;
     deletedObjects := deletedObjects o |}.

Definition with_deletedObjects (a : gset ObjRef) (o : GameObject) : GameObject :=
  {| category := category o; bodyPosition := bodyPosition o; dead := dead o;
     deathPosition := deathPosition o; zoom := zoom o; xCullDist := xCullDist o;
     yCullDist := yCullDist o; health := health o; adrenaline := adrenaline o;
     invulnerable := invulnerable o; joined := joined o;
     disconnected := disconnected o; kills := kills o; damageDone := damageDone o;
     damageTaken := damageTaken o; killedBy := killedBy o; hitEffect := hitEffect o;
     attacking := attacking o; movement := movement o; dirty := dirty o;
     action := action o; items := items o;
     movesSinceLastUpdate := movesSinceLastUpdate o;
     visibleObjects := visibleObjects o; nearObjects := nearObjects o;
     partialDirtyObjects := partialDirtyObjects o;
     fullDirtyObjects := fullDirtyObjects o; deletedObjects := a |}.

(** ** The game (server/src/game.ts) *)

Inductive KillFeedMessage :=
| JoinKillFeedMessage (player : ObjRef) (joined : bool)
| KillKillFeedMessage (killed killedBy : ObjRef) (weaponUsed : option nat).

Inductive Packet :=
| KillPacket (killer killed : ObjRef) (weaponUsed : option nat)
| GameOverPacket (player : ObjRef) (won : bool).

(** What the code does to its collaborators: sockets, the physics world, the
    id allocator, the inventory and timers. *)
Inductive Effect :=
| SendPacket (to : ObjRef) (packet : Packet)
| DestroyBody (object : ObjRef)
| CancelAction (player : ObjRef)
| GiveId (object : ObjRef)
| DropWeapon (player : ObjRef) (slot : nat)
| ScheduleEndGame.

Module Game.
Record t := mk {
  objects : ObjRef -> GameObject;
  staticObjects : gset ObjRef;
  dynamicObjects : gset ObjRef;
  visibleObjects : gmap Z (gmap Z (gmap Z (gset ObjRef)));
  updateObjects : bool;
  aliveCountDirty : bool;
  partialDirtyObjects : gset ObjRef;
  fullDirtyObjects : gset ObjRef;
  deletedObjects : gset ObjRef;
  livingPlayers : gset ObjRef;
  connectedPlayers : gset ObjRef;
  loot : gset ObjRef;
  killFeedMessages : list KillFeedMessage;
  started : bool;
  over : bool;
  nextRef : ObjRef;
  effects : list Effect
}.

Definition with_objects (a : ObjRef -> GameObject) (g : t) : t :=
  {| objects := a; staticObjects := staticObjects g;
     dynamicObjects := dynamicObjects g; visibleObjects := visibleObjects g;
     updateObjects := updateObjects g; aliveCountDirty := aliveCountDirty g;
     partialDirtyObjects := partialDirtyObjects g;
     fullDirtyObjects := fullDirtyObjects g; deletedObjects := deletedObjects g;
     livingPlayers := livingPlayers g; connectedPlayers := connectedPlayers g;
     loot := loot g; killFeedMessages := killFeedMessages g; started := started g;
     over := over g; nextRef := nextRef g; effects := effects g |}.

Definition with_dynamicObjects (a : gset ObjRef) (g : t) : t :=
  {| objects := objects g; staticObjects := staticObjects g; dynamicObjects := a;
     visibleObjects := visibleObjects g; updateObjects := updateObjects g;
     aliveCountDirty := aliveCountDirty g;
     partialDirtyObjects := partialDirtyObjects g;
     fullDirtyObjects := fullDirtyObjects g; deletedObjects := deletedObjects g;
     livingPlayers := livingPlayers g; connectedPlayers := connectedPlayers g;
     loot := loot g; killFeedMessages := killFeedMessages g; started := started g;
     over := over g; nextRef := nextRef g; effects := effects g |}.

Definition with_visibleObjects (a : gmap Z (gmap Z (gmap Z (gset ObjRef)))) (g : t) : t :=
  {| objects := objects g; staticObjects := staticObjects g;
     dynamicObjects := dynamicObjects g; visibleObjects := a;
     updateObjects := updateObjects g; aliveCountDirty := aliveCountDirty g;
     partialDirtyObjects := partialDirtyObjects g;
     fullDirtyObjects := fullDirtyObjects g; deletedObjects := deletedObjects g;
     livingPlayers := livingPlayers g; connectedPlayers := connectedPlayers g;
     loot := loot g; killFeedMessages := killFeedMessages g; started := started g;
     over := over g; nextRef := nextRef g; effects := effects g |}.

Definition with_updateObjects (a : bool) (g : t) : t :=
  {| objects := objects g; staticObjects := staticObjects g;
     dynamicObjects := dynamicObjects g; visibleObjects := visibleObjects g;
     updateObjects := a; aliveCountDirty := aliveCountDirty g;
     partialDirtyObjects := partialDirtyObjects g;
     fullDirtyObjects := fullDirtyObjects g; deletedObjects := deletedObjects g;
     livingPlayers := livingPlayers g; connectedPlayers := connectedPlayers g;
     loot := loot g; killFeedMessages := killFeedMessages g; started := started g;
     over := over g; nextRef := nextRef g; effects := effects g |}.

Definition with_aliveCountDirty (a : bool) (g : t) : t :=
  {| objects := objects g; staticObjects := staticObjects g;
     dynamicObjects := dynamicObjects g; visibleObjects := visibleObjects g;
     updateObjects := updateObjects g; aliveCountDirty := a;
     partialDirtyObjects := partialDirtyObjects g;
     fullDirtyObjects := fullDirtyObjects g; deletedObjects := deletedObjects g;
     livingPlayers := livingPlayers g; connectedPlayers := connectedPlayers g;
     loot := loot g; killFeedMessages := killFeedMessages g; started := started g;
     over := over g; nextRef := nextRef g; effects := effects g |}.

Definition with_partialDirtyObjects (a : gset ObjRef) (g : t) : t :=
  {| objects := objects g; staticObjects := staticObjects g;
     dynamicObjects := dynamicObjects g; visibleObjects := visibleObjects g;
     updateObjects := updateObjects g; aliveCountDirty := aliveCountDirty g;
     partialDirtyObjects := a; fullDirtyObjects := fullDirtyObjects g;
     deletedObjects := deletedObjects g; livingPlayers := livingPlayers g;
     connectedPlayers := connectedPlayers g; loot := loot g;
     killFeedMessages := killFeedMessages g; started := started g; over := over g;
     nextRef := nextRef g; effects := effects g |}.

Definition with_fullDirtyObjects (a : gset ObjRef) (g : t) : t :=
  {| objects := objects g; staticObjects := staticObjects g;
     dynamicObjects := dynamicObjects g; visibleObjects := visibleObjects g;
     updateObjects := updateObjects g; aliveCountDirty := aliveCountDirty g;
     partialDirtyObjects := partialDirtyObjects g; fullDirtyObjects := a;
     deletedObjects := deletedObjects g; livingPlayers := livingPlayers g;
     connectedPlayers := connectedPlayers g; loot := loot g;
     killFeedMessages := killFeedMessages g; started := started g; over := over g;
     nextRef := nextRef g; effects := effects g |}.

Definition with_deletedObjects (a : gset ObjRef) (g : t) : t :=
  {| objects := objects g; staticObjects := staticObjects g;
     dynamicObjects := dynamicObjects g; visibleObjects := visibleObjects g;
     updateObjects := updateObjects g; aliveCountDirty := aliveCountDirty g;
     partialDirtyObjects := partialDirtyObjects g;
     fullDirtyObjects := fullDirtyObjects g; deletedObjects := a;
     livingPlayers := livingPlayers g; connectedPlayers := connectedPlayers g;
     loot := loot g; killFeedMessages := killFeedMessages g; started := started g;
     over := over g; nextRef := nextRef g; effects := effects g |}.

Definition with_livingPlayers (a : gset ObjRef) (g : t) : t :=
  {| objects := objects g; staticObjects := staticObjects g;
     dynamicObjects := dynamicObjects g; visibleObjects := visibleObjects g;
     updateObjects := updateObjects g; aliveCountDirty := aliveCountDirty g;
     partialDirtyObjects := partialDirtyObjects g;
     fullDirtyObjects := fullDirtyObjects g; deletedObjects := deletedObjects g;
     livingPlayers := a; connectedPlayers := connectedPlayers g; loot := loot g;
     killFeedMessages := killFeedMessages g; started := started g; over := over g;
     nextRef := nextRef g; effects := effects g |}.

Definition with_loot (a : gset ObjRef) (g : t) : t :=
  {| objects := objects g; staticObjects := staticObjects g;
     dynamicObjects := dynamicObjects g; visibleObjects := visibleObjects g;
     updateObjects := updateObjects g; aliveCountDirty := aliveCountDirty g;
     partialDirtyObjects := partialDirtyObjects g;
     fullDirtyObjects := fullDirtyObjects g; deletedObjects := deletedObjects g;
     livingPlayers := livingPlayers g; connectedPlayers := connectedPlayers g;
     loot := a; killFeedMessages := killFeedMessages g; started := started g;
     over := over g; nextRef := nextRef g; effects := effects g |}.

Definition with_killFeedMessages (a : list KillFeedMessage) (g : t) : t :=
  {| objects := objects g; staticObjects := staticObjects g;
     dynamicObjects := dynamicObjects g; visibleObjects := visibleObjects g;
     updateObjects := updateObjects g; aliveCountDirty := aliveCountDirty g;
     partialDirtyObjects := partialDirtyObjects g;
     fullDirtyObjects := fullDirtyObjects g; deletedObjects := deletedObjects g;
     livingPlayers := livingPlayers g; connectedPlayers := connectedPlayers g;
     loot := loot g; killFeedMessages := a; started := started g; over := over g;
     nextRef := nextRef g; effects := effects g |}.

Definition with_over (a : bool) (g : t) : t :=
  {| objects := objects g; staticObjects := staticObjects g;
     dynamicObjects := dynamicObjects g; visibleObjects := visibleObjects g;
     updateObjects := updateObjects g; aliveCountDirty := aliveCountDirty g;
     partialDirtyObjects := partialDirtyObjects g;
     fullDirtyObjects := fullDirtyObjects g; deletedObjects := deletedObjects g;
     livingPlayers := livingPlayers g; connectedPlayers := connectedPlayers g;
     loot := loot g; killFeedMessages := killFeedMessages g; started := started g;
     over := a; nextRef := nextRef g; effects := effects g |}.

Definition with_nextRef (a : ObjRef) (g : t) : t :=
  {| objects := objects g; staticObjects := staticObjects g;
     dynamicObjects := dynamicObjects g; visibleObjects := visibleObjects g;
     updateObjects := updateObjects g; aliveCountDirty := aliveCountDirty g;
     partialDirtyObjects := partialDirtyObjects g;
     fullDirtyObjects := fullDirtyObjects g; deletedObjects := deletedObjects g;
     livingPlayers := livingPlayers g; connectedPlayers := connectedPlayers g;
     loot := loot g; killFeedMessages := killFeedMessages g; started := started g;
     over := over g; nextRef := a; effects := effects g |}.

Definition with_effects (a : list Effect) (g : t) : t :=
  {| objects := objects g; staticObjects := staticObjects g;
     dynamicObjects := dynamicObjects g; visibleObjects := visibleObjects g;
     updateObjects := updateObjects g; aliveCountDirty := aliveCountDirty g;
     partialDirtyObjects := partialDirtyObjects g;
     fullDirtyObjects := fullDirtyObjects g; deletedObjects := deletedObjects g;
     livingPlayers := livingPlayers g; connectedPlayers := connectedPlayers g;
     loot := loot g; killFeedMessages := killFeedMessages g; started := started g;
     over := over g; nextRef := nextRef g; effects := a |}.
End Game.

(** The [position] getter: for a player, where it died, or else where its body
    is. *)
Definition position (o : GameObject) : Vector :=
  match category o, deathPosition o with
  | Player_cat, Some p => p
  | _, _ => bodyPosition o
  end.

(** [object instanceof Player]. *)
Definition isPlayer (o : GameObject) : bool :=
  match category o with
  | Player_cat => true
  | _ => false
  end.

(** The test both culling loops make: strictly inside the rectangle. *)
Definition in_window (p : Vector) (minX minY maxX maxY : Q) : bool :=
  Qlt_bool minX (x p) && Qlt_bool (x p) maxX
  && Qlt_bool minY (y p) && Qlt_bool (y p) maxY.

(** ** The map (server/src/map.ts): precomputed visibility *)

Definition Map_width : Q := 720.
Definition Map_height : Q := 720.
Definition supportedZoomLevels : list Z := [48; 96]%Z.

(** The integers [0 .. bound], the range of [for (let i = 0; i <= bound; i++)]. *)
Definition upto (bound : Q) : list Z := seqZ 0 (Qfloor bound + 1).

(** The set built for the cell with indices [cx], [cy]. *)
Definition cellObjects (g : Game.t) (zoomLevel cx cy : Z) : gset ObjRef :=
  let xCullDist := inject_Z zoomLevel * (175 # 100) in
  let yCullDist := inject_Z zoomLevel * (135 # 100) in
  let minX := inject_Z (cx * 10) - xCullDist in
  let minY := inject_Z (cy * 10) - yCullDist in
  let maxX := inject_Z (cx * 10) + xCullDist in
  let maxY := inject_Z (cy * 10) + yCullDist in
  filter (fun object =>
            in_window (position (Game.objects g object)) minX minY maxX maxY = true)
         (Game.staticObjects g).

Definition columnObjects (g : Game.t) (zoomLevel cx : Z) : gmap Z (gset ObjRef) :=
  fold_left (fun column cy => <[(cy * 10)%Z := cellObjects g zoomLevel cx cy]> column)
            (upto (Map_height / 10)) ∅.

Definition levelObjects (g : Game.t) (zoomLevel : Z) : gmap Z (gmap Z (gset ObjRef)) :=
  fold_left (fun level cx => <[(cx * 10)%Z := columnObjects g zoomLevel cx]> level)
            (upto (Map_width / 10)) ∅.

(** The second half of the [Map] constructor ("Calculate visible objects"),
    run once the static objects are in place. *)
Definition calculateVisibleObjects (g : Game.t) : Game.t :=
  Game.with_visibleObjects
    (fold_left (fun all zoomLevel => <[zoomLevel := levelObjects g zoomLevel]> all)
               supportedZoomLevels (Game.visibleObjects g))
    g.

(** ** Visible objects of a player *)

(** [table[X][Y]] on a table of columns: a missing column throws ([None]); a
    missing entry of a column that exists reads as [undefined], which the
    code below only ever hands to [new Set], that is, as the empty set. *)
Definition cellAt (table : gmap Z (gmap Z (gset ObjRef))) (X Y : Z)
  : option (gset ObjRef) :=
  column ← table !! X; Some (default ∅ (column !! Y)).

(** [Game.getVisibleObjects]; [None] stands for a thrown error (an unknown zoom
    level, or a column that does not exist). *)
Definition getVisibleObjects (pos : Vector) (zoomLevel : Z) (g : Game.t)
  : option (gset ObjRef) :=
  atZoom ← Game.visibleObjects g !! zoomLevel;
  if Qlt_bool (x pos) 0 || Qlt_bool Map_width (x pos)
     || Qlt_bool (y pos) 0 || Qlt_bool Map_height (y pos)
  then Some ∅
  else cellAt atZoom (Math_round (x pos / 10) * 10)%Z (Math_round (y pos / 10) * 10)%Z.

Definition updObject (r : ObjRef) (f : GameObject -> GameObject) (g : Game.t) : Game.t :=
  Game.with_objects (<[r := f (Game.objects g r)]> (Game.objects g)) g.

(** One turn of the loop over the dynamic objects in [updateVisibleObjects]. *)
Definition visitDynamicObject (this : ObjRef) (minX minY maxX maxY : Q)
    (acc : gset ObjRef * Game.t) (object : ObjRef) : gset ObjRef * Game.t :=
  let '(newVisibleObjects, g) := acc in
  if in_window (position (Game.objects g object)) minX minY maxX maxY then
    let g1 :=
      if decide (object ∈ visibleObjects (Game.objects g this)) then g
      else updObject this
             (fun p => with_fullDirtyObjects ({[object]} ∪ fullDirtyObjects p) p) g in
    let g2 :=
      if negb (dead (Game.objects g1 this))
         && isPlayer (Game.objects g1 object)
         && negb (bool_decide (this ∈ visibleObjects (Game.objects g1 object)))
      then
        updObject object
          (fun q => with_fullDirtyObjects ({[this]} ∪ fullDirtyObjects q)
                      (with_visibleObjects ({[this]} ∪ visibleObjects q) q)) g1
      else g1 in
    ({[object]} ∪ newVisibleObjects, g2)
  else if decide (object ∈ visibleObjects (Game.objects g this)) then
    (newVisibleObjects,
     updObject this
       (fun p => with_deletedObjects ({[object]} ∪ deletedObjects p) p) g)
  else (newVisibleObjects, g).

(** [Player.updateVisibleObjects]; [None] when a lookup in the precomputed
    grid throws. *)
Definition updateVisibleObjects (this : ObjRef) (g : Game.t) : option Game.t :=
  let g0 := updObject this (with_movesSinceLastUpdate 0%nat) g in
  let pos := position (Game.objects g0 this) in
  let approximateX := (Math_round (x pos / 10) * 10)%Z in
  let approximateY := (Math_round (y pos / 10) * 10)%Z in
  near ← getVisibleObjects pos 48 g0;
  let g1 := updObject this (with_nearObjects near) g0 in
  start ← match Game.visibleObjects g1 !! zoom (Game.objects g1 this) with
          | Some visibleAtZoom => cellAt visibleAtZoom approximateX approximateY
          | None => Some near
          end;
  let me := Game.objects g1 this in
  let minX := x pos - xCullDist me in
  let minY := y pos - yCullDist me in
  let maxX := x pos + xCullDist me in
  let maxY := y pos + yCullDist me in
  let '(newVisibleObjects, g2) :=
    fold_left (visitDynamicObject this minX minY maxX maxY)
              (elements (Game.dynamicObjects g1)) (start, g1) in
  let g3 :=
    updObject this
      (fun p => with_fullDirtyObjects
                  (filter (fun object => object ∉ visibleObjects p) newVisibleObjects
                   ∪ fullDirtyObjects p) p) g2 in
  let g4 :=
    updObject this
      (fun p => with_deletedObjects
                  (filter (fun object => object ∉ newVisibleObjects) (visibleObjects p)
                   ∪ deletedObjects p) p) g3 in
  Some (updObject this (with_visibleObjects newVisibleObjects) g4).

(** ** Dirty-set projection in the tick (server/src/game.ts) *)

(** The three loops the tick runs for one connected, joined player. *)
Definition projectFullObjects (player : ObjRef) (g : Game.t) : Game.t :=
  if decide (size (Game.fullDirtyObjects g) ≠ 0%nat) then
    updObject player
      (fun p => with_fullDirtyObjects
                  (filter (fun object => object ∈ visibleObjects p)
                          (Game.fullDirtyObjects g)
                   ∪ fullDirtyObjects p) p) g
  else g.

Definition projectPartialObjects (player : ObjRef) (g : Game.t) : Game.t :=
  if decide (size (Game.partialDirtyObjects g) ≠ 0%nat) then
    updObject player
      (fun p => with_partialDirtyObjects
                  (filter (fun object => object ∈ visibleObjects p
                                         /\ object ∉ fullDirtyObjects p)
                          (Game.partialDirtyObjects g)
                   ∪ partialDirtyObjects p) p) g
  else g.

Definition projectDeletedObjects (player : ObjRef) (g : Game.t) : Game.t :=
  if decide (size (Game.deletedObjects g) ≠ 0%nat) then
    updObject player
      (fun p => with_deletedObjects
                  (filter (fun object => object ∈ visibleObjects p /\ object ≠ player)
                          (Game.deletedObjects g)
                   ∪ deletedObjects p) p) g
  else g.

Definition projectDirtyObjects (player : ObjRef) (g : Game.t) : Game.t :=
  projectDeletedObjects player
    (projectPartialObjects player (projectFullObjects player g)).

(** A game with no object in any set; every reference holds [object]. *)
Definition blank_game (object : GameObject) : Game.t :=
  {| Game.objects := fun _ => object;
     Game.staticObjects := ∅; Game.dynamicObjects := ∅; Game.visibleObjects := ∅;
     Game.updateObjects := false; Game.aliveCountDirty := false;
     Game.partialDirtyObjects := ∅; Game.fullDirtyObjects := ∅;
     Game.deletedObjects := ∅;
     Game.livingPlayers := ∅; Game.connectedPlayers := ∅; Game.loot := ∅;
     Game.killFeedMessages := []; Game.started := false; Game.over := false;
     Game.nextRef := 0%nat; Game.effects := [] |}.

(** An object as its constructor leaves it: a player starts invulnerable with
    full health and empty sets. *)
Definition new_object (cat : ObjectCategory) (pos : Vector) : GameObject :=
  {| category := cat; bodyPosition := pos; dead := false; deathPosition := None;
     zoom := 48; xCullDist := 48 * (3 # 2); yCullDist := 48 * (5 # 4);
     health := 100; adrenaline := 0; invulnerable := true;
     joined := false; disconnected := false;
     kills := 0; damageDone := 0; damageTaken := 0; killedBy := None;
     hitEffect := false; attacking := false;
     movement := Movement.mk false false false false false 0;
     dirty := Dirty.mk true true true true true true true false;
     action := None; items := [];
     movesSinceLastUpdate := 0;
     visibleObjects := ∅; nearObjects := ∅; partialDirtyObjects := ∅;
     fullDirtyObjects := ∅; deletedObjects := ∅ |}.

(** The scenario of the dirty-set reconciliation: player [0] sees [A = 1] and
    [B = 2]; [B] and [C = 3] are full-dirty, [A] is partial-dirty, [D = 4] is
    deleted. *)
Definition reconciliation_scenario : Game.t :=
  Game.with_deletedObjects {[4%nat]}
    (Game.with_partialDirtyObjects {[1%nat]}
       (Game.with_fullDirtyObjects {[2%nat; 3%nat]}
          (updObject 0%nat (with_visibleObjects {[1%nat; 2%nat]})
             (blank_game (new_object Player_cat (v 360 360)))))).

(** Player [0] sees itself and is among the objects deleted this tick. *)
Definition self_deleted_scenario : Game.t :=
  Game.with_deletedObjects {[0%nat]}
    (updObject 0%nat (with_visibleObjects {[0%nat]})
       (blank_game (new_object Player_cat (v 360 360)))).

(** One static object, [62] units above the corner cell of the map. *)
Definition window_scenario : Game.t :=
  {| Game.objects := fun _ => new_object Obstacle_cat (v 0 62);
     Game.staticObjects := {[1%nat]}; Game.dynamicObjects := ∅;
     Game.visibleObjects := ∅;
     Game.updateObjects := false; Game.aliveCountDirty := false;
     Game.partialDirtyObjects := ∅; Game.fullDirtyObjects := ∅;
     Game.deletedObjects := ∅;
     Game.livingPlayers := ∅; Game.connectedPlayers := ∅; Game.loot := ∅;
     Game.killFeedMessages := []; Game.started := false; Game.over := false;
     Game.nextRef := 2%nat; Game.effects := [] |}.

(** [p] lies strictly inside the rectangle around [(cx, cy)] with the given
    half-width and half-height. *)
Definition strictly_within (p : Vector) (cx cy halfWidth halfHeight : Q) : Prop :=
  cx - halfWidth < x p /\ x p < cx + halfWidth
  /\ cy - halfHeight < y p /\ y p < cy + halfHeight.

(** The precomputed set for zoom level [zoomLevel] and the cell with indices
    [cx], [cy], if there is one. *)
Definition precomputed (g : Game.t) (zoomLevel cx cy : Z) : option (gset ObjRef) :=
  atZoom ← Game.visibleObjects g !! zoomLevel;
  column ← atZoom !! (cx * 10)%Z;
  column !! (cy * 10)%Z.

(** [obj_grows a b]: [b] is [a] with larger visible, full-dirty and deleted
    sets, same class, position and liveness, and everything that [b] sees and
    [a] did not see is full-dirty in [b]. *)
Definition obj_grows (a b : GameObject) : Prop :=
  category b = category a /\ bodyPosition b = bodyPosition a
  /\ deathPosition b = deathPosition a /\ dead b = dead a
  /\ visibleObjects a ⊆ visibleObjects b
  /\ fullDirtyObjects a ⊆ fullDirtyObjects b
  /\ deletedObjects a ⊆ deletedObjects b
  /\ (forall o, o ∈ visibleObjects b -> o ∈ visibleObjects a \/ o ∈ fullDirtyObjects b).

Definition grows (g g' : Game.t) : Prop :=
  forall r, obj_grows (Game.objects g r) (Game.objects g' r).

(** The position is on the map. *)
Definition on_the_map (p : Vector) : Prop :=
  0 <= x p /\ x p <= Map_width /\ 0 <= y p /\ y p <= Map_height.

(** The precomputed grid of [g] is the one the map constructor builds. *)
Definition grid_built (g : Game.t) : Prop :=
  exists pre, Game.visibleObjects pre = ∅
              /\ Game.visibleObjects g = Game.visibleObjects (calculateVisibleObjects pre).

(** The window [updateVisibleObjects] tests the dynamic objects against. *)
Definition in_cull_window (viewer object : GameObject) : bool :=
  in_window (position object)
    (x (position viewer) - xCullDist viewer) (y (position viewer) - yCullDist viewer)
    (x (position viewer) + xCullDist viewer) (y (position viewer) + yCullDist viewer).

(** What the loop needs to know of a player [q] that is to see [this]. *)
Definition to_be_seen (this q : ObjRef) (minX minY maxX maxY : Q) (g : Game.t) : Prop :=
  dead (Game.objects g this) = false
  /\ isPlayer (Game.objects g q) = true
  /\ in_window (position (Game.objects g q)) minX minY maxX maxY = true
  /\ (this ∈ visibleObjects (Game.objects g q) -> this ∈ fullDirtyObjects (Game.objects g q)).

(** What [updateVisibleObjects] leaves behind for [this], going from [g] to
    [g']: new objects are full-dirty, lost objects are deleted, and every other
    player that comes to see [this] has it full-dirty. *)
Definition visibility_marks (this : ObjRef) (g g' : Game.t) : Prop :=
  let old := visibleObjects (Game.objects g this) in
  let new := visibleObjects (Game.objects g' this) in
  (forall o, o ∈ new -> o ∉ old -> o ∈ fullDirtyObjects (Game.objects g' this))
  /\ (forall o, o ∈ old -> o ∉ new -> o ∈ deletedObjects (Game.objects g' this))
  /\ (forall q, q <> this -> q ∈ Game.dynamicObjects g ->
        isPlayer (Game.objects g q) = true ->
        dead (Game.objects g this) = false ->
        in_cull_window (Game.objects g this) (Game.objects g q) = true ->
        this ∉ visibleObjects (Game.objects g q) ->
        this ∈ visibleObjects (Game.objects g' q)
        /\ this ∈ fullDirtyObjects (Game.objects g' q))
  /\ (forall q, q <> this ->
        this ∉ visibleObjects (Game.objects g q) ->
        this ∈ visibleObjects (Game.objects g' q) ->
        this ∈ fullDirtyObjects (Game.objects g' q)).

(** Two players ten units apart in the middle of an otherwise empty map, with
    the grid in place; neither has seen anything yet. *)
Definition two_players : Game.t :=
  calculateVisibleObjects
    (Game.with_dynamicObjects {[0%nat; 1%nat]}
       (updObject 1%nat (fun _ => new_object Player_cat (v 370 360))
          (blank_game (new_object Player_cat (v 360 360))))).

(** ** Damage (server/src/objects/player.ts) *)

(** The [health] and [adrenaline] setters. *)
Definition health_setter (h : Q) (p : GameObject) : GameObject :=
  let d := dirty p in
  with_dirty
    (Dirty.mk true (Dirty.adrenaline d) (Dirty.activeWeaponIndex d) (Dirty.weapons d)
       (Dirty.inventory d) (Dirty.activePlayerId d) (Dirty.zoom d) (Dirty.action d))
    (with_health (if Qlt_bool 100 h then 100 else h) p).

Definition adrenaline_setter (a : Q) (p : GameObject) : GameObject :=
  let d := dirty p in
  let a1 := if Qlt_bool a 0 then 0 else a in
  let a2 := if Qlt_bool 100 a1 then 100 else a1 in
  with_dirty
    (Dirty.mk (Dirty.health d) true (Dirty.activeWeaponIndex d) (Dirty.weapons d)
       (Dirty.inventory d) (Dirty.activePlayerId d) (Dirty.zoom d) (Dirty.action d))
    (with_adrenaline a2 p).

Definition emit (e : Effect) (g : Game.t) : Game.t :=
  Game.with_effects (Game.effects g ++ [e]) g.

(** A new object takes the next free reference. *)
Definition allocate (o : GameObject) (g : Game.t) : ObjRef * Game.t :=
  (Game.nextRef g,
   Game.with_nextRef (S (Game.nextRef g))
     (Game.with_objects (<[Game.nextRef g := o]> (Game.objects g)) g)).

(** [Game.removeObject]. *)
Definition removeObject (object : ObjRef) (g : Game.t) : Game.t :=
  Game.with_updateObjects true (emit (GiveId object) g).

(** [Game.addLoot]; the item type and the count of the new loot are left out. *)
Definition addLoot (pos : Vector) (g : Game.t) : Game.t :=
  let '(loot, g1) := allocate (new_object Loot_cat pos) g in
  Game.with_updateObjects true
    (Game.with_fullDirtyObjects ({[loot]} ∪ Game.fullDirtyObjects g1)
       (Game.with_dynamicObjects ({[loot]} ∪ Game.dynamicObjects g1)
          (Game.with_loot ({[loot]} ∪ Game.loot g1) g1))).

(** "Send kill packets": attribution to a source that is a player. *)
Definition die_attribute (this : ObjRef) (source : option ObjRef)
    (weaponUsed : option nat) (g : Game.t) : Game.t :=
  match source with
  | Some s =>
      if isPlayer (Game.objects g s) then
        let g1 := updObject this (with_killedBy (Some s)) g in
        let g2 := if negb (s =? this)%nat
                  then updObject s (fun q => with_kills (S (kills q)) q) g1
                  else g1 in
        let g3 := emit (SendPacket s (KillPacket s this weaponUsed)) g2 in
        Game.with_killFeedMessages
          (Game.killFeedMessages g3 ++ [KillKillFeedMessage this s weaponUsed]) g3
      else g
  | None => g
  end.

(** "Destroy physics body; reset movement and attacking variables", up to the
    snapshot of the position. *)
Definition die_resetIntent (this : ObjRef) (g : Game.t) : Game.t :=
  updObject this
    (fun p =>
       let m := movement p in
       let p1 := with_attacking false
                   (with_movement
                      (Movement.mk false false false false
                         (Movement.moving m) (Movement.angle m)) p) in
       with_deathPosition (Some (position p1)) p1) g.

(** From the alive-count flag to the removal from the world. *)
Definition die_release (this : ObjRef) (g : Game.t) : Game.t :=
  let g1 := Game.with_aliveCountDirty true g in
  let g2 := updObject this (adrenaline_setter 0) g1 in
  let g3 := match action (Game.objects g2 this) with
            | Some _ => emit (CancelAction this) g2
            | None => g2
            end in
  let g4 := Game.with_livingPlayers (Game.livingPlayers g3 ∖ {[this]}) g3 in
  let g5 := Game.with_dynamicObjects (Game.dynamicObjects g4 ∖ {[this]}) g4 in
  removeObject this g5.

(** "Drop loot": the three weapon slots, then every item held.  [Inventory]
    is not among the sources: each [this.inventory.dropWeapon(i)] is recorded
    as a [DropWeapon] effect handed to the inventory, and the loot such a call
    may release is left out of this model; the loot created here is that of
    the loop over the items. *)
Definition die_dropLoot (this : ObjRef) (g : Game.t) : Game.t :=
  let g1 := emit (DropWeapon this 2)
              (emit (DropWeapon this 1) (emit (DropWeapon this 0) g)) in
  let held := items (Game.objects g1 this) in
  let g2 := fold_left
              (fun ga item =>
                 if Qlt_bool 0 (snd item)
                 then addLoot (position (Game.objects ga this)) ga
                 else ga)
              held g1 in
  updObject this
    (with_items (map (fun item => (fst item, if Qlt_bool 0 (snd item) then 0 else snd item))
                     held)) g2.

(** "Create death marker". *)
Definition die_deathMarker (this : ObjRef) (g : Game.t) : Game.t :=
  let '(deathMarker, g1) :=
    allocate (new_object DeathMarker_cat (position (Game.objects g this))) g in
  Game.with_fullDirtyObjects ({[deathMarker]} ∪ Game.fullDirtyObjects g1)
    (Game.with_dynamicObjects ({[deathMarker]} ∪ Game.dynamicObjects g1) g1).

(** "Winning logic". *)
Definition die_winning (g : Game.t) : Game.t :=
  if Game.started g then
    match size (Game.livingPlayers g) with
    | 1%nat =>
        let g1 := emit ScheduleEndGame (Game.with_over true g) in
        match elements (Game.livingPlayers g1) with
        | lastManStanding :: _ =>
            emit (SendPacket lastManStanding (GameOverPacket lastManStanding true)) g1
        | [] => g1
        end
    | 0%nat => emit ScheduleEndGame (Game.with_over true g)
    | _ => g
    end
  else g.

(** "Send game over to dead player". *)
Definition die_notify (this : ObjRef) (g : Game.t) : Game.t :=
  if negb (disconnected (Game.objects g this))
  then emit (SendPacket this (GameOverPacket this false)) g
  else g.

(** The death sequence, the body of [if (this.health <= 0 && !this.dead)]. *)
Definition die (this : ObjRef) (source : option ObjRef) (weaponUsed : option nat)
    (g : Game.t) : Game.t :=
  let g1 := updObject this (fun p => with_dead true (health_setter 0 p)) g in
  let g2 := die_resetIntent this (die_attribute this source weaponUsed g1) in
  let g3 := emit (DestroyBody this) g2 in
  die_notify this
    (die_winning (die_deathMarker this (die_dropLoot this (die_release this g3)))).

(** "Calculate damage amount". *)
Definition damageAmount (me : GameObject) (amount : Q) : Q :=
  let amount1 := if Qlt_bool 100 (health me - amount)
                 then - (100 - health me) else amount in
  let amount2 := if Qle_bool (health me - amount1) 0 then health me else amount1 in
  if dead me then 0 else amount2.

(** "Decrease health; update damage done and damage taken", and the two
    partial-dirty marks. *)
Definition applyDamage (this : ObjRef) (amount : Q) (source : option ObjRef)
    (g : Game.t) : Game.t :=
  let sourceIsPlayer := match source with
                        | Some s => isPlayer (Game.objects g s)
                        | None => false
                        end in
  let g1 := updObject this (fun p => health_setter (health p - amount) p) g in
  let g2 := if Qlt_bool 0 amount
            then updObject this
                   (fun p =>
                      let p1 := with_damageTaken (damageTaken p + amount) p in
                      if sourceIsPlayer then with_hitEffect true p1 else p1) g1
            else g1 in
  let g3 := match source with
            | Some s =>
                if sourceIsPlayer && negb (s =? this)%nat
                then updObject s (fun q => with_damageDone (damageDone q + amount) q) g2
                else g2
            | None => g2
            end in
  let g4 := updObject this
              (fun p => with_partialDirtyObjects ({[this]} ∪ partialDirtyObjects p) p)
              g3 in
  Game.with_partialDirtyObjects ({[this]} ∪ Game.partialDirtyObjects g4) g4.

(** [Player.damage]. *)
Definition damage (this : ObjRef) (amount : Q) (source : option ObjRef)
    (weaponUsed : option nat) (g : Game.t) : Game.t :=
  let me := Game.objects g this in
  if invulnerable me then g
  else
    let g1 := applyDamage this (damageAmount me amount) source g in
    if Qle_bool (health (Game.objects g1 this)) 0 && negb (dead (Game.objects g1 this))
    then die this source weaponUsed g1
    else g1.

(** The call runs the death sequence: the player can be hurt, is not dead yet,
    and the amount takes all the health that is left. *)
Definition fatal (me : GameObject) (amount : Q) : Prop :=
  invulnerable me = false /\ dead me = false /\ health me - amount <= 0.

(** How often the death sequence of [r] has run: it destroys the body once. *)
Definition is_destroy (r : ObjRef) (e : Effect) : bool :=
  match e with
  | DestroyBody o => (o =? r)%nat
  | _ => false
  end.

Definition deaths (r : ObjRef) (g : Game.t) : nat :=
  length (List.filter (is_destroy r) (Game.effects g)).

(** A call [this.damage(amount, source, weaponUsed)]. *)
Record DamageCall := mkCall {
  call_this : ObjRef;
  call_amount : Q;
  call_source : option ObjRef;
  call_weaponUsed : option nat
}.

Definition damage_calls (calls : list DamageCall) (g : Game.t) : Game.t :=
  fold_left
    (fun ga c => damage (call_this c) (call_amount c) (call_source c) (call_weaponUsed c) ga)
    calls g.

(** [keeps r g g']: going from [g] to [g'] no reference is given back, and an
    object [r] that exists in [g] keeps its health, its liveness and its
    invulnerability, and its death sequence has not run in between. *)
Definition keeps (r : ObjRef) (g g' : Game.t) : Prop :=
  (Game.nextRef g <= Game.nextRef g')%nat
  /\ ((r < Game.nextRef g)%nat ->
      health (Game.objects g' r) = health (Game.objects g r)
      /\ dead (Game.objects g' r) = dead (Game.objects g r)
      /\ invulnerable (Game.objects g' r) = invulnerable (Game.objects g r)
      /\ deaths r g' = deaths r g).

(** What holds of a player across damage calls: it has a reference, its health
    is within bounds, and its death sequence has run iff it is dead. *)
Definition damage_inv (this : ObjRef) (g : Game.t) : Prop :=
  (this < Game.nextRef g)%nat
  /\ 0 <= health (Game.objects g this) <= 100
  /\ deaths this g = Nat.b2n (dead (Game.objects g this)).

(** The contract of one call [this.damage(amount, source, weaponUsed)] that
    takes the game from [g] to [g']. *)
Definition damage_spec (this : ObjRef) (amount : Q) (g g' : Game.t) : Prop :=
  let me := Game.objects g this in
  let me' := Game.objects g' this in
  (invulnerable me = true -> g' = g)
  /\ 0 <= health me' <= 100
  /\ (deaths this g' = S (deaths this g) <-> fatal me amount)
  /\ (fatal me amount -> dead me' = true /\ health me' == 0)
  /\ (~ fatal me amount -> deaths this g' = deaths this g /\ dead me' = dead me)
  /\ (deaths this g' <= 1)%nat.

(** Two players that can be hurt, both at full health. *)
Definition duel : Game.t :=
  Game.with_nextRef 2%nat
    (Game.with_livingPlayers {[0%nat; 1%nat]}
       (Game.with_dynamicObjects {[0%nat; 1%nat]}
          (blank_game (with_invulnerable false (new_object Player_cat (v 360 360)))))).

(** Thirty ticks, 30 ms apart, the last one at [last] ms. *)
Definition thirty_ticks (last : Z) : list GasEvent :=
  map (fun k => Tick (inject_Z (last - 30 * (29 - k)))) (seqZ 0 30).

(** ** Float fields, level by level (common/src/utils/suroiBitStream.ts) *)

(** The value [writeFloat] maps: its input brought into [[min,max]]. *)
Definition clamped (value min max : Q) : Q :=
  if Qlt_bool value max then (if Qlt_bool min value then value else min) else max.

(** The number [writeFloat] hands to [writeBits], truncated as [writeBits]
    does. *)
Definition float_field (value min max : Q) (bitCount : nat) : Z :=
  trunc (((clamped value min max - min) / (max - min))
         * inject_Z (shl 1 bitCount - 1) + (1 # 2)).

(** What [readFloat] makes of the raw field [k]. *)
Definition float_level (min max : Q) (bitCount : nat) (k : Z) : Q :=
  min + (max - min) * inject_Z k / inject_Z (shl 1 bitCount - 1).

(** ** Object types on the wire (common/src/utils/suroiBitStream.ts) *)

Section ObjectTypes.
(** The class [ObjectType] (common/src/utils/objectType.ts) and the table
    [ObjectDefinitionsList] are not among the sources.  Of the class, the
    stream uses the fields [category] and [idNumber] and the two factory
    functions; of the table, whether a category has definitions and, if so,
    their [bitCount]. *)
Variable ObjectType : Type.
Variable typeCategory : ObjectType -> Z.
Variable typeIdNumber : ObjectType -> Q.
Variable fromNumber : Z -> Z -> ObjectType.
Variable categoryOnly : Z -> ObjectType.
Variable ObjectDefinitionsList : Z -> option nat.

Definition writeObjectTypeNoCategory (type : ObjectType) (s : BitStream)
  : option BitStream :=
  match ObjectDefinitionsList (typeCategory type) with
  | Some bitCount => writeBits (typeIdNumber type) bitCount s
  | None => Some s
  end.

Definition writeObjectType (type : ObjectType) (s : BitStream) : option BitStream :=
  s1 ← writeBits (inject_Z (typeCategory type)) OBJECT_CATEGORY_BITS s;
  writeObjectTypeNoCategory type s1.

Definition readObjectTypeNoCategory (category : Z) (s : BitStream)
  : option (ObjectType * BitStream) :=
  match ObjectDefinitionsList category with
  | Some bitCount =>
      '(idNumber, s') ← readBits bitCount s; Some (fromNumber category idNumber, s')
  | None => Some (categoryOnly category, s)
  end.

Definition readObjectType (s : BitStream) : option (ObjectType * BitStream) :=
  '(category, s1) ← readBits OBJECT_CATEGORY_BITS s;
  readObjectTypeNoCategory category s1.

(** The object type a reader rebuilds from the category and the id number. *)
Definition rebuilt (category idNumber : Z) : ObjectType :=
  match ObjectDefinitionsList category with
  | Some _ => fromNumber category idNumber
  | None => categoryOnly category
  end.

(** The bits an object type of the category takes after its category tag. *)
Definition idNumber_bits (category : Z) : nat :=
  match ObjectDefinitionsList category with
  | Some bitCount => bitCount
  | None => 0
  end.
End ObjectTypes.

(** ** Counting the events of a gas run *)

Definition is_tick (e : GasEvent) : bool :=
  match e with
  | Tick _ => true
  | AdvanceGas => false
  end.

(** The ticks and the [advanceGas] calls of a run. *)
Definition ticks_of (es : list GasEvent) : nat := length (List.filter is_tick es).

Definition advances_of (es : list GasEvent) : nat :=
  length (List.filter (fun e => negb (is_tick e)) es).

(** [a] lies between [b] and [c], whichever of the two is the larger. *)
Definition between (a b c : Q) : Prop :=
  (b <= a /\ a <= c) \/ (c <= a /\ a <= b).

(** ** What a player comes to see *)

(** The precomputed set [updateVisibleObjects] starts from: the set of the
    nearest grid point at the player's zoom level or, for a zoom level without
    a grid, the player's near objects.  [None] when a lookup throws. *)
Definition startingCell (this : ObjRef) (g : Game.t) : option (gset ObjRef) :=
  let me := Game.objects g this in
  let pos := position me in
  near ← getVisibleObjects pos 48 g;
  match Game.visibleObjects g !! zoom me with
  | Some visibleAtZoom =>
      cellAt visibleAtZoom (Math_round (x pos / 10) * 10)%Z (Math_round (y pos / 10) * 10)%Z
  | None => Some near
  end.

(** ** Frames for the death sequence *)

(** The fields of the game that only the named steps of the death sequence
    write: all but the objects, the next reference, the three sets that new
    objects join, the update flag and the effects. *)
Definition same_settings (g g' : Game.t) : Prop :=
  Game.staticObjects g' = Game.staticObjects g
  /\ Game.visibleObjects g' = Game.visibleObjects g
  /\ Game.aliveCountDirty g' = Game.aliveCountDirty g
  /\ Game.partialDirtyObjects g' = Game.partialDirtyObjects g
  /\ Game.deletedObjects g' = Game.deletedObjects g
  /\ Game.livingPlayers g' = Game.livingPlayers g
  /\ Game.connectedPlayers g' = Game.connectedPlayers g
  /\ Game.killFeedMessages g' = Game.killFeedMessages g
  /\ Game.started g' = Game.started g
  /\ Game.over g' = Game.over g.

(** [g'] is [g] with [n] more loot objects, all at [pos]: they take the next
    [n] references and join the loot, the dynamic objects and the full-dirty
    objects; the objects there were stay as they are. *)
Definition loot_spawned (pos : Vector) (n : nat) (g g' : Game.t) : Prop :=
  Game.nextRef g' = (Game.nextRef g + n)%nat
  /\ (forall r, (r < Game.nextRef g)%nat -> Game.objects g' r = Game.objects g r)
  /\ (forall r, (Game.nextRef g <= r < Game.nextRef g + n)%nat ->
        Game.objects g' r = new_object Loot_cat pos)
  /\ (forall r, r ∈ Game.loot g'
        <-> r ∈ Game.loot g \/ (Game.nextRef g <= r < Game.nextRef g + n)%nat)
  /\ (forall r, r ∈ Game.dynamicObjects g'
        <-> r ∈ Game.dynamicObjects g \/ (Game.nextRef g <= r < Game.nextRef g + n)%nat)
  /\ (forall r, r ∈ Game.fullDirtyObjects g'
        <-> r ∈ Game.fullDirtyObjects g \/ (Game.nextRef g <= r < Game.nextRef g + n)%nat)
  /\ Game.updateObjects g' = (Game.updateObjects g || (0 <? n)%nat)
  /\ Game.effects g' = Game.effects g
  /\ same_settings g g'.

(** The items of an inventory that are dropped: those with a positive count. *)
Definition dropped (held : list (string * Q)) : nat :=
  length (List.filter (fun item => Qlt_bool 0 (snd item)) held).

(** The fields of the game that [Player.damage] never writes. *)
Definition settings (g : Game.t)
  : gset ObjRef * gmap Z (gmap Z (gmap Z (gset ObjRef))) * gset ObjRef * bool * gset ObjRef :=
  (Game.staticObjects g, Game.visibleObjects g, Game.connectedPlayers g,
   Game.started g, Game.deletedObjects g).

(** The fields of an object that [Player.damage] never writes, with its
    position, which the death sequence keeps by recording it. *)
Definition view (o : GameObject) :=
  (category o, position o, zoom o, xCullDist o, yCullDist o, joined o, disconnected o,
   invulnerable o, visibleObjects o, nearObjects o, fullDirtyObjects o, deletedObjects o,
   movesSinceLastUpdate o, action o).

(** [g'] has the settings of [g], gives no reference back, and shows every
    object of [g] as [g] does. *)
Definition scene_kept (g g' : Game.t) : Prop :=
  settings g' = settings g
  /\ (Game.nextRef g <= Game.nextRef g')%nat
  /\ (forall r, (r < Game.nextRef g)%nat ->
        view (Game.objects g' r) = view (Game.objects g r)).

(** The player a kill is attributed to: the source of the call, if it is a
    player. *)
Definition killer (source : option ObjRef) (g : Game.t) : option ObjRef :=
  match source with
  | Some s => if isPlayer (Game.objects g s) then Some s else None
  | None => None
  end.

(** The inventory after the items held have been dropped. *)
Definition emptied (held : list (string * Q)) : list (string * Q) :=
  map (fun item => (fst item, if Qlt_bool 0 (snd item) then 0 else snd item)) held.

(** The death sequence in two halves: up to the removal from the world, and
    from the dropping of the loot on. *)
Definition die_first (this : ObjRef) (source : option ObjRef) (weaponUsed : option nat)
    (g : Game.t) : Game.t :=
  die_release this
    (emit (DestroyBody this)
       (die_resetIntent this
          (die_attribute this source weaponUsed
             (updObject this (fun p => with_dead true (health_setter 0 p)) g)))).

Definition die_last (this : ObjRef) (g : Game.t) : Game.t :=
  die_notify this (die_winning (die_deathMarker this (die_dropLoot this g))).

(** The player as the first half of its death sequence leaves it. *)
Definition fallen (credit : option ObjRef) (me : GameObject) : GameObject :=
  let p1 := with_dead true (health_setter 0 me) in
  let p2 := match credit with
            | Some s => with_killedBy (Some s) p1
            | None => p1
            end in
  let m := movement p2 in
  let p3 := with_attacking false
              (with_movement
                 (Movement.mk false false false false (Movement.moving m) (Movement.angle m))
                 p2) in
  adrenaline_setter 0 (with_deathPosition (Some (position p3)) p3).

(** What the first half sends and records. *)
Definition first_effects (this : ObjRef) (credit : option ObjRef)
    (weaponUsed : option nat) (me : GameObject) : list Effect :=
  match credit with
  | Some s => [SendPacket s (KillPacket s this weaponUsed)]
  | None => []
  end
  ++ [DestroyBody this]
  ++ match action me with
     | Some _ => [CancelAction this]
     | None => []
     end
  ++ [GiveId this].

Definition first_messages (this : ObjRef) (credit : option ObjRef)
    (weaponUsed : option nat) : list KillFeedMessage :=
  match credit with
  | Some s => [KillKillFeedMessage this s weaponUsed]
  | None => []
  end.

(** What the winning logic sends, and what it makes of the [over] flag, by the
    players still alive. *)
Definition winning_effects (started : bool) (living : gset ObjRef) : list Effect :=
  if started then
    match size living with
    | 1%nat =>
        ScheduleEndGame
        :: match elements living with
           | lastManStanding :: _ =>
               [SendPacket lastManStanding (GameOverPacket lastManStanding true)]
           | [] => []
           end
    | 0%nat => [ScheduleEndGame]
    | _ => []
    end
  else [].

Definition winning_over (started over : bool) (living : gset ObjRef) : bool :=
  if started then
    match size living with
    | 0%nat | 1%nat => true
    | _ => over
    end
  else over.

(** The notice to the dead player. *)
Definition notify_effects (this : ObjRef) (me : GameObject) : list Effect :=
  if negb (disconnected me) then [SendPacket this (GameOverPacket this false)] else [].

(** The player as the bookkeeping of [damage] leaves it, before any death
    sequence: [amount] is the amount already brought within bounds, [byPlayer]
    tells whether the source is a player. *)
Definition hurt (this : ObjRef) (amount : Q) (byPlayer : bool) (me : GameObject)
  : GameObject :=
  let p1 := health_setter (health me - amount) me in
  let p2 := if Qlt_bool 0 amount
            then (let q := with_damageTaken (damageTaken p1 + amount) p1 in
                  if byPlayer then with_hitEffect true q else q)
            else p1 in
  with_partialDirtyObjects ({[this]} ∪ partialDirtyObjects p2) p2.

(** What has been sent and done to the collaborators between [g] and [g']. *)
Definition sent_since (g g' : Game.t) : list Effect :=
  drop (length (Game.effects g)) (Game.effects g').

(** ** The second loop of the tick (server/src/game.ts) *)

(** One turn of the loop over the connected players, up to the packets it
    then sends: a player that has not joined is skipped; the visible objects
    are recomputed when the player has moved more than 8 times or the game
    asks for it; then the dirty sets are projected.  [None] when
    [updateVisibleObjects] throws. *)
Definition tickPlayerObjects (player : ObjRef) (g : Game.t) : option Game.t :=
  if negb (joined (Game.objects g player)) then Some g
  else
    g1 ← (if (8 <? movesSinceLastUpdate (Game.objects g player))%nat
             || Game.updateObjects g
          then updateVisibleObjects player g
          else Some g);
    Some (projectDirtyObjects player g1).

(** A player, hurt but alive, shares the map with a second player. *)
Definition wounded_duel : Game.t :=
  {| Game.objects :=
       <[0%nat := with_items [("gauze"%string, 2); ("cola"%string, 0)]
                    (with_health 20 (Game.objects duel 0%nat))]> (Game.objects duel);
     Game.staticObjects := ∅; Game.dynamicObjects := {[0%nat; 1%nat]};
     Game.visibleObjects := ∅;
     Game.updateObjects := false; Game.aliveCountDirty := false;
     Game.partialDirtyObjects := ∅; Game.fullDirtyObjects := ∅;
     Game.deletedObjects := ∅;
     Game.livingPlayers := {[0%nat; 1%nat]}; Game.connectedPlayers := {[0%nat; 1%nat]};
     Game.loot := ∅;
     Game.killFeedMessages := []; Game.started := true; Game.over := false;
     Game.nextRef := 2%nat; Game.effects := [] |}.

(** A player in a running game: joined, alive and open to damage, at [pos]
    with health [hp] and inventory [held]. *)
Definition joined_player (pos : Vector) (hp : Q) (held : list (string * Q)) : GameObject :=
  {| category := Player_cat; bodyPosition := pos; dead := false; deathPosition := None;
     zoom := 48; xCullDist := 48 * (3 # 2); yCullDist := 48 * (5 # 4);
     health := hp; adrenaline := 0; invulnerable := false;
     joined := true; disconnected := false;
     kills := 0; damageDone := 0; damageTaken := 0; killedBy := None;
     hitEffect := false; attacking := false;
     movement := Movement.mk false false false false false 0;
     dirty := Dirty.mk true true true true true true true false;
     action := None; items := held;
     movesSinceLastUpdate := 0;
     visibleObjects := {[0%nat; 1%nat]}; nearObjects := ∅; partialDirtyObjects := ∅;
     fullDirtyObjects := ∅; deletedObjects := ∅ |}.

(** Two joined players ten units apart in the middle of an otherwise empty
    map with its grid in place; each sees both, and the first is wounded. *)
Definition watched_duel : Game.t :=
  calculateVisibleObjects
    {| Game.objects :=
         <[0%nat := joined_player (v 360 360) 20 [("gauze"%string, 2); ("cola"%string, 0)]]>
           (fun _ => joined_player (v 370 360) 100 []);
       Game.staticObjects := ∅; Game.dynamicObjects := {[0%nat; 1%nat]};
       Game.visibleObjects := ∅;
       Game.updateObjects := false; Game.aliveCountDirty := false;
       Game.partialDirtyObjects := ∅; Game.fullDirtyObjects := ∅;
       Game.deletedObjects := ∅;
       Game.livingPlayers := {[0%nat; 1%nat]}; Game.connectedPlayers := {[0%nat; 1%nat]};
       Game.loot := ∅;
       Game.killFeedMessages := []; Game.started := true; Game.over := false;
       Game.nextRef := 2%nat; Game.effects := [] |}.


(** The loop over the items of the inventory in the death sequence
    ([for (const item in this.inventory.items)], player.ts 416-422): one
    [addLoot] at the player's position for every item held in positive number,
    whose count is then set to [0]. *)
Definition dropItems (this : ObjRef) (g : Game.t) : Game.t :=
  let held := items (Game.objects g this) in
  let g2 := fold_left
              (fun ga item =>
                 if Qlt_bool 0 (snd item)
                 then addLoot (position (Game.objects ga this)) ga
                 else ga)
              held g in
  updObject this
    (with_items (map (fun item => (fst item, if Qlt_bool 0 (snd item) then 0 else snd item))
                     held)) g2.

(** ** Strings on the wire (common/src/utils/suroiBitStream.ts) *)
















(** ** What the typed helper pairs give back *)






(** ** The float fields in double precision *)

(** The number [writeFloat] hands to [writeBits] and the number [readFloat]
    returns, with every arithmetic operation followed by the rounding [rnd],
    in the order the source evaluates them. *)
Section Rounded.
Variable rnd : Q -> Q.

Definition rounded_field (value min max : Q) (bitCount : nat) : Q :=
  let range := inject_Z (shl 1 bitCount - 1) in
  rnd (rnd (rnd (rnd (clamped value min max - min) / rnd (max - min)) * range) + (1 # 2)).

Definition rounded_level (min max : Q) (bitCount : nat) (k : Z) : Q :=
  let range := inject_Z (shl 1 bitCount - 1) in
  rnd (min + rnd (rnd (rnd (max - min) * inject_Z k) / range)).
End Rounded.

(** The unit roundoff of double precision. *)
Definition unit_roundoff : Q := 1 # 9007199254740992.

(** The bound the rounding analysis gives for a float field of [bitCount]
    bits over [[min,max]]: half a quantisation step and what the roundings
    add. *)
Definition rounded_bound (min max : Q) (bitCount : nat) : Q :=
  let range := inject_Z (2 ^ Z.of_nat bitCount - 1) in
  (max - min) / range * ((1 # 2) + (9 * range + 1) * unit_roundoff)
  + 7 * unit_roundoff * (max - min) + unit_roundoff * Qabs min.

Module Double.
(** A JavaScript number is an IEEE 754 binary64 value, and every arithmetic
    operation returns the exact result rounded to the nearest number with a
    53-bit significand, ties to even.  [round] is that rounding on the
    rationals.  The exponent is unbounded here: overflow to an infinity, the
    gradual underflow below [2^-1022] and [NaN] are outside this model. *)

(** [exponent q] is the integer [e] with [2^e <= |q| < 2^(e+1)], for [q]
    other than [0]. *)
Definition exponent (q : Q) : Z :=
  let e := (Z.log2 (Z.abs (Qnum q)) - Z.log2 (Zpos (Qden q)))%Z in
  if Qle_bool (2 ^ e) (Qabs q) then e else (e - 1)%Z.

Definition nearest_even (m : Q) : Z :=
  let f := Qfloor m in
  match Qcompare (m - inject_Z f) (1 # 2) with
  | Lt => f
  | Gt => (f + 1)%Z
  | Eq => if Z.even f then f else (f + 1)%Z
  end.

Definition round (q : Q) : Q :=
  if Qeq_bool q 0 then 0
  else let ulp := 2 ^ (exponent q - 52) in
       inject_Z (nearest_even (q / ulp)) * ulp.

Definition add (a b : Q) : Q := round (a + b).
Definition sub (a b : Q) : Q := round (a - b).
Definition mul (a b : Q) : Q := round (a * b).
Definition div (a b : Q) : Q := round (a / b).

(** [Math.PI], the double nearest to the number pi. *)
Definition Math_PI : Q := 884279719003555 # 281474976710656.

Definition writeFloat (value min max : Q) (bitCount : nat) (s : BitStream)
  : option BitStream :=
  let range := inject_Z (shl 1 bitCount - 1) in
  let clamped := if Qlt_bool value max
                 then (if Qlt_bool min value then value else min)
                 else max in
  writeBits (add (mul (div (sub clamped min) (sub max min)) range) (1 # 2)) bitCount s.

Definition readFloat (min max : Q) (bitCount : nat) (s : BitStream)
  : option (Q * BitStream) :=
  let range := inject_Z (shl 1 bitCount - 1) in
  '(k, s') ← readBits bitCount s;
  Some (add min (div (mul (sub max min) (inject_Z k)) range), s').

Definition writeVector2 (px py minX minY maxX maxY : Q) (bitCount : nat)
    (s : BitStream) : option BitStream :=
  s1 ← writeFloat px minX maxX bitCount s;
  writeFloat py minY maxY bitCount s1.

Definition readVector (minX minY maxX maxY : Q) (bitCount : nat) (s : BitStream)
  : option (Vector * BitStream) :=
  '(rx, s1) ← readFloat minX maxX bitCount s;
  '(ry, s2) ← readFloat minY maxY bitCount s1;
  Some ({| x := rx; y := ry |}, s2).

Definition writePosition2 (px py : Q) (s : BitStream) : option BitStream :=
  writeVector2 px (sub 720 py) 0 0 1024 1024 16 s.

Definition writePosition (vector : Vector) (s : BitStream) : option BitStream :=
  writePosition2 (x vector) (y vector) s.

Definition readPosition (s : BitStream) : option (Vector * BitStream) :=
  readVector 0 0 1024 1024 16 s.

Definition writeRotation (value : Q) (bitCount : nat) (s : BitStream)
  : option BitStream :=
  writeFloat value (- Math_PI) Math_PI bitCount s.

Definition readRotation (bitCount : nat) (s : BitStream) : option (Q * BitStream) :=
  readFloat (- Math_PI) Math_PI bitCount s.

Definition writeScale (value : Q) (s : BitStream) : option BitStream :=
  writeFloat value MIN_OBJECT_SCALE MAX_OBJECT_SCALE 8 s.

Definition readScale (s : BitStream) : option (Q * BitStream) :=
  readFloat MIN_OBJECT_SCALE MAX_OBJECT_SCALE 8 s.
End Double.

(** Three doubles at which rounding decides the field: 0.48676470588235293
    (a scale), 0.5078202487220569 and 0.007812619211108568 (coordinates). *)
Definition scale_near_tie : Q := 8768773392115495 # 18014398509481984.
Definition coordinate_near_tie : Q := 285877385364481 # 562949953421312.
Definition coordinate_near_half : Q := 281479271743489 # 36028797018963968.

(** * Properties *)

(** ** Number helpers *)

Lemma Qlt_bool_iff (a b : Q) : Qlt_bool a b = true <-> a < b.
Proof.
  unfold Qlt_bool. rewrite negb_true_iff.
  destruct (Qle_bool b a) eqn:E.
  - apply Qle_bool_iff in E. split; [discriminate | intros; lra].
  - split; [intros _ | reflexivity].
    destruct (Qlt_le_dec a b) as [|Hle]; [assumption|].
    apply Qle_bool_iff in Hle. congruence.
Qed.

Lemma Qlt_bool_false (a b : Q) : Qlt_bool a b = false <-> b <= a.
Proof.
  unfold Qlt_bool. rewrite negb_false_iff. apply Qle_bool_iff.
Qed.


(** ** Bit lists *)

Lemma bits_of_length (n : nat) (z : Z) : length (bits_of n z) = n.
Proof. revert z. induction n as [|n IH]; intros z; simpl; [reflexivity | now rewrite IH]. Qed.

Lemma value_of_bits_of (n : nat) (z : Z) :
  value_of (bits_of n z) = (z mod 2 ^ Z.of_nat n)%Z.
Proof.
  revert z. induction n as [|n IH]; intros z.
  - simpl. now rewrite Z.mod_1_r.
  - cbn [bits_of value_of]. rewrite IH.
    rewrite Nat2Z.inj_succ, Z.pow_succ_r by lia.
    rewrite Z.rem_mul_r by lia.
    rewrite <- Z.div2_div, <- Z.bit0_mod, Z.bit0_odd. lia.
Qed.

Lemma wrap32_mod (n : nat) (z : Z) :
  (n <= 32)%nat -> (wrap32 z mod 2 ^ Z.of_nat n = z mod 2 ^ Z.of_nat n)%Z.
Proof.
  intros Hn. unfold wrap32.
  assert (H32 : (2 ^ 32 = 2 ^ Z.of_nat n * 2 ^ (32 - Z.of_nat n))%Z).
  { rewrite <- Z.pow_add_r by lia. f_equal. lia. }
  assert (H31 : (2 ^ 31 = 2 ^ 32 * 1 - 2 ^ 31)%Z) by reflexivity.
  assert (Hp : (0 < 2 ^ Z.of_nat n)%Z) by (apply Z.pow_pos_nonneg; lia).
  assert (Hq : (0 < 2 ^ (32 - Z.of_nat n))%Z) by (apply Z.pow_pos_nonneg; lia).
  rewrite (Z.mod_eq (z + 2 ^ 31) (2 ^ 32)) by lia.
  set (k := ((z + 2 ^ 31) / 2 ^ 32)%Z).
  replace (z + 2 ^ 31 - 2 ^ 32 * k - 2 ^ 31)%Z
    with (z + (- k * 2 ^ (32 - Z.of_nat n)) * 2 ^ Z.of_nat n)%Z by (rewrite H32; ring).
  apply Z.mod_add. lia.
Qed.

Lemma trunc_floor (q : Q) : 0 <= q -> trunc q = Qfloor q.
Proof.
  destruct q as [n d]. unfold Qle, trunc, Qfloor. simpl. intros H.
  apply Z.quot_div_nonneg; lia.
Qed.

Lemma trunc_inject_Z (k : Z) : trunc (inject_Z k) = k.
Proof. unfold trunc. simpl. apply Z.quot_1_r. Qed.

(** ** Raw bit fields *)

Lemma writeBits_spec (q : Q) (n : nat) (s : BitStream) :
  (writeIndex s + n <= length (buffer s))%nat ->
  exists s', writeBits q n s = Some s'
    /\ writeIndex s' = (writeIndex s + n)%nat
    /\ readIndex s' = readIndex s
    /\ length (buffer s') = length (buffer s)
    /\ field_at s' (writeIndex s) n (ToInt32 q)
    /\ (forall i m z, (i + m <= writeIndex s)%nat -> field_at s i m z -> field_at s' i m z).
Proof.
  intros Hroom. unfold writeBits. rewrite decide_True by assumption.
  eexists; split; [reflexivity|]. cbn [writeIndex readIndex buffer].
  assert (Hlen : length (take (writeIndex s) (buffer s) ++ bits_of n (ToInt32 q)
                         ++ drop (writeIndex s + n) (buffer s)) = length (buffer s)).
  { rewrite !length_app, length_take, bits_of_length, length_drop. lia. }
  split; [reflexivity|]. split; [reflexivity|]. split; [exact Hlen|].
  unfold field_at; cbn [buffer]. rewrite Hlen. split; [split; [|lia]|].
  - rewrite drop_app_length' by (rewrite length_take; lia).
    rewrite take_app_length' by (symmetry; apply bits_of_length). reflexivity.
  - intros i m z Him [Hf Hl]. split; [|exact Hl]. rewrite <- Hf.
    rewrite !take_drop_commute.
    rewrite take_app_le by (rewrite length_take; lia).
    rewrite take_take. do 2 f_equal. lia.
Qed.

Lemma readBits_spec (n : nat) (z : Z) (s : BitStream) :
  field_at s (readIndex s) n z ->
  readBits n s = Some ((z mod 2 ^ Z.of_nat n)%Z,
                       {| buffer := buffer s; writeIndex := writeIndex s;
                          readIndex := readIndex s + n |}).
Proof.
  intros [Hf Hl]. unfold readBits. rewrite decide_True by assumption.
  rewrite Hf, value_of_bits_of. reflexivity.
Qed.

(** ** Float quantisation *)

Lemma shl_1_small (b : nat) : (b <= 30)%nat -> shl 1 b = (2 ^ Z.of_nat b)%Z.
Proof.
  intros Hb. unfold shl, wrap32.
  rewrite (Z.mod_small (Z.of_nat b) 32) by lia.
  rewrite Z.mul_1_l.
  assert (0 < 2 ^ Z.of_nat b <= 2 ^ 30)%Z.
  { split; [apply Z.pow_pos_nonneg; lia | apply Z.pow_le_mono_r; lia]. }
  rewrite Z.mod_small; lia.
Qed.

Lemma Qdiv_zero_den (a d : Q) : d == 0 -> a / d == 0.
Proof. intros H. unfold Qdiv. rewrite H. unfold Qinv; simpl. ring. Qed.

(** The integer that [writeFloat] hands to [writeBits], and how far the value
    [readFloat] rebuilds from it lies from the original. *)
Lemma quantise_bound (value min max : Q) (b : nat) :
  (1 <= b <= 30)%nat -> min <= value <= max ->
  let range := inject_Z (shl 1 b - 1) in
  let clamped := if Qlt_bool value max
                 then (if Qlt_bool min value then value else min)
                 else max in
  let k := trunc (((clamped - min) / (max - min)) * range + (1 # 2)) in
  (0 <= k < 2 ^ Z.of_nat b)%Z
  /\ Qabs (min + (max - min) * inject_Z k / range - value)
       <= (max - min) / (2 * range).
Proof.
  intros Hb [Hlo Hhi] range clamped k.
  assert (Hcl : clamped == value).
  { subst clamped. destruct (Qlt_bool value max) eqn:E1.
    - destruct (Qlt_bool min value) eqn:E2; [reflexivity|].
      apply Qlt_bool_false in E2. lra.
    - apply Qlt_bool_false in E1. lra. }
  assert (HR : (1 <= shl 1 b - 1)%Z /\ (shl 1 b = 2 ^ Z.of_nat b)%Z).
  { rewrite shl_1_small by lia. split; [|reflexivity].
    assert (2 ^ 1 <= 2 ^ Z.of_nat b)%Z by (apply Z.pow_le_mono_r; lia). lia. }
  destruct HR as [HR1 HR2].
  assert (HRq : 1 <= range).
  { subst range. change 1 with (inject_Z 1). rewrite <- Zle_Qle. exact HR1. }
  set (t := (clamped - min) / (max - min)) in *.
  assert (Ht : 0 <= t <= 1 /\ t * (max - min) == value - min).
  { destruct (Qlt_le_dec min max) as [Hlt|Hge].
    - assert (Hd : 0 < max - min) by lra.
      split.
      + subst t. split.
        * apply Qle_shift_div_l; [exact Hd | lra].
        * apply Qle_shift_div_r; [exact Hd | lra].
      + subst t. unfold Qdiv. rewrite <- Qmult_assoc, (Qmult_comm (/ _)).
        rewrite Qmult_inv_r by lra. rewrite Hcl. ring.
    - assert (Hd : max - min == 0) by lra.
      assert (Ht0 : t == 0) by (subst t; now apply Qdiv_zero_den).
      split; [rewrite Ht0; lra | rewrite Ht0, Hd; lra]. }
  destruct Ht as [[Ht0 Ht1] Htd].
  assert (Ha : 0 <= t * range + (1 # 2)) by nra.
  assert (Hk : k = Qfloor (t * range + (1 # 2))) by (subst k; now apply trunc_floor).
  pose proof (Qfloor_le (t * range + (1 # 2))) as Hfl.
  pose proof (Qlt_floor (t * range + (1 # 2))) as Hfu.
  rewrite <- Hk in Hfl, Hfu. rewrite inject_Z_plus in Hfu.
  change (inject_Z 1) with 1 in Hfu.
  split.
  - split.
    + rewrite Hk. change 0%Z with (Qfloor 0). now apply Qfloor_resp_le.
    + rewrite <- HR2. rewrite Zlt_Qlt.
      assert (inject_Z (shl 1 b) == range + 1).
      { subst range. change 1 with (inject_Z 1). rewrite <- inject_Z_plus.
        now replace (shl 1 b - 1 + 1)%Z with (shl 1 b) by lia. }
      rewrite H. nra.
  - set (kq := inject_Z k) in *.
    set (ir := / range).
    assert (Hir : ir * range == 1) by (subst ir; rewrite Qmult_comm; apply Qmult_inv_r; lra).
    assert (Hirp : 0 <= ir) by (subst ir; apply Qinv_le_0_compat; lra).
    assert (Hb2 : (max - min) / (2 * range) == (max - min) * ir * (1 # 2)).
    { subst ir. unfold Qdiv. rewrite Qinv_mult_distr. change (/ 2) with (1 # 2). ring. }
    rewrite Hb2. unfold Qdiv. fold ir.
    assert (E : min + (max - min) * kq * ir - value
                == (max - min) * ir * (kq - t * range)).
    { transitivity ((max - min) * kq * ir - t * (max - min) * (ir * range));
        [rewrite Hir, Htd; ring | ring]. }
    rewrite E. apply Qabs_Qle_condition.
    assert (Hdp : 0 <= (max - min) * ir) by (apply Qmult_le_0_compat; lra).
    split; nra.
Qed.

Lemma writeFloat_spec (value min max : Q) (b : nat) (s : BitStream) :
  (1 <= b <= 30)%nat -> min <= value <= max ->
  (writeIndex s + b <= length (buffer s))%nat ->
  exists s' z, writeFloat value min max b s = Some s'
    /\ writeIndex s' = (writeIndex s + b)%nat
    /\ readIndex s' = readIndex s
    /\ length (buffer s') = length (buffer s)
    /\ field_at s' (writeIndex s) b z
    /\ (forall i m z', (i + m <= writeIndex s)%nat -> field_at s i m z' -> field_at s' i m z')
    /\ Qabs (min + (max - min) * inject_Z (z mod 2 ^ Z.of_nat b)
                   / inject_Z (shl 1 b - 1) - value)
         <= (max - min) / (2 * inject_Z (shl 1 b - 1)).
Proof.
  intros Hb Hv Hroom. unfold writeFloat.
  destruct (quantise_bound value min max b Hb Hv) as [Hk Herr].
  cbv zeta in Hk, Herr.
  set (q := (_ / (max - min)) * _ + (1 # 2)) in *.
  destruct (writeBits_spec q b s Hroom) as (s' & Hw & Hwi & Hri & Hlen & Hf & Hfr).
  exists s', (ToInt32 q).
  split; [exact Hw|]. split; [exact Hwi|]. split; [exact Hri|].
  split; [exact Hlen|]. split; [exact Hf|]. split; [exact Hfr|].
  unfold ToInt32. rewrite wrap32_mod by lia.
  rewrite Z.mod_small by exact Hk. exact Herr.
Qed.

Lemma readFloat_spec (min max : Q) (b : nat) (z : Z) (s : BitStream) :
  field_at s (readIndex s) b z ->
  readFloat min max b s
  = Some (min + (max - min) * inject_Z (z mod 2 ^ Z.of_nat b) / inject_Z (shl 1 b - 1),
          {| buffer := buffer s; writeIndex := writeIndex s;
             readIndex := readIndex s + b |}).
Proof.
  intros Hf. unfold readFloat. rewrite (readBits_spec b z s Hf). reflexivity.
Qed.


(** Writing a float and reading it back, on a stream whose read cursor sits at
    the write cursor. *)
Lemma float_roundtrip (value min max : Q) (b : nat) (s : BitStream) :
  (1 <= b <= 30)%nat -> min <= value <= max ->
  readIndex s = writeIndex s ->
  (writeIndex s + b <= length (buffer s))%nat ->
  reads_back (writeFloat value min max b) (readFloat min max b) s
    (fun r => Qabs (r - value) <= (max - min) / (2 * inject_Z (shl 1 b - 1))).
Proof.
  intros Hb Hv Hidx Hroom.
  destruct (writeFloat_spec value min max b s Hb Hv Hroom)
    as (s' & z & Hw & Hwi & Hri & Hlen & Hf & _ & Herr).
  exists s'. eexists. eexists. split; [exact Hw|].
  rewrite <- Hidx, <- Hri in Hf.
  rewrite (readFloat_spec min max b z s' Hf). split; [reflexivity|].
  split; [exact Herr|]. cbn. lia.
Qed.

Lemma half_step_eq (min max : Q) (b : nat) :
  (b <= 30)%nat ->
  (max - min) / (2 * inject_Z (shl 1 b - 1)) == float_step min max b * (1 # 2).
Proof.
  intros Hb. unfold float_step. rewrite shl_1_small by lia.
  unfold Qdiv. rewrite Qinv_mult_distr. change (/ 2) with (1 # 2). ring.
Qed.






(** ** Typed helper pairs *)

Lemma raw_roundtrip (bits : nat) (k : Z) (s : BitStream) :
  (bits <= 32)%nat -> (0 <= k < 2 ^ Z.of_nat bits)%Z ->
  readIndex s = writeIndex s ->
  (writeIndex s + bits <= length (buffer s))%nat ->
  reads_back (writeBits (inject_Z k) bits) (readBits bits) s (fun r => r = k).
Proof.
  intros Hb Hk Hidx Hroom.
  destruct (writeBits_spec (inject_Z k) bits s Hroom)
    as (s' & Hw & Hwi & Hri & Hlen & Hf & _).
  exists s'. eexists. eexists. split; [exact Hw|].
  rewrite <- Hidx, <- Hri in Hf.
  rewrite (readBits_spec bits _ s' Hf). split; [reflexivity|]. split.
  - unfold ToInt32. rewrite wrap32_mod by exact Hb.
    rewrite trunc_inject_Z. now apply Z.mod_small.
  - cbn. lia.
Qed.

Lemma position_roundtrip (px py : Q) (s : BitStream) :
  0 <= px <= 1024 -> 0 <= 720 - py <= 1024 ->
  readIndex s = writeIndex s ->
  (writeIndex s + 32 <= length (buffer s))%nat ->
  reads_back (writePosition {| x := px; y := py |}) readPosition s
    (fun p => Qabs (x p - px) <= float_step 0 1024 16 * (1 # 2)
              /\ Qabs (y p - (720 - py)) <= float_step 0 1024 16 * (1 # 2)).
Proof.
  intros Hx Hy Hidx Hroom.
  unfold writePosition, writePosition2, writeVector2, readPosition, readVector.
  cbn [x y].
  destruct (writeFloat_spec px 0 1024 16 s ltac:(lia) Hx ltac:(lia))
    as (s1 & z1 & Hw1 & Hwi1 & Hri1 & Hlen1 & Hf1 & _ & Herr1).
  destruct (writeFloat_spec (720 - py) 0 1024 16 s1 ltac:(lia) Hy ltac:(lia))
    as (s2 & z2 & Hw2 & Hwi2 & Hri2 & Hlen2 & Hf2 & Hfr2 & Herr2).
  assert (Hfx : field_at s2 (readIndex s2) 16 z1).
  { rewrite Hri2, Hri1, Hidx. apply Hfr2; [lia | exact Hf1]. }
  exists s2. eexists. eexists. split.
  { rewrite Hw1. cbn. exact Hw2. }
  rewrite (readFloat_spec 0 1024 16 z1 s2 Hfx). cbn [mbind option_bind].
  rewrite (readFloat_spec 0 1024 16 z2).
  2:{ cbn [readIndex buffer]. rewrite Hri2, Hri1, Hidx, <- Hwi1. exact Hf2. }
  cbn [mbind option_bind]. split; [reflexivity|]. cbn [x y readIndex writeIndex].
  split; [|lia]. split.
  - rewrite <- half_step_eq by lia. exact Herr1.
  - rewrite <- half_step_eq by lia. exact Herr2.
Qed.


Section RotationPairs.
Variable PI : Q.
Variable normalizeAngle : Q -> Q.



Lemma full_roundtrip (value : Q) (s : BitStream) :
  - PI <= value <= PI -> readIndex s = writeIndex s ->
  (writeIndex s + 4 <= length (buffer s))%nat ->
  reads_back (writeObstacleRotation PI value full)
             (readObstacleRotation PI normalizeAngle full) s
             (fun r => Qabs (r - value) <= float_step (- PI) PI 4 * (1 # 2)).
Proof.
  intros Hv Hidx Hroom.
  destruct (float_roundtrip value (- PI) PI 4 s ltac:(lia) Hv Hidx Hroom)
    as (s1 & r & s2 & Hw & Hr & Herr & Hcur).
  exists s1, r, s2. repeat (split; [assumption|]). split; [|assumption].
  rewrite <- half_step_eq by lia. exact Herr.
Qed.
End RotationPairs.

(** ** Collision filter *)

Lemma shouldCollide_sound (A B : UserData) :
  shouldCollide A B = true ->
  exists k, flag k (is_ A) = true /\ flag k (collidesWith B) = true.
Proof.
  unfold shouldCollide.
  destruct (player (is_ A)) eqn:E1; [intros H; exists KPlayer; now split|].
  destruct (obstacle (is_ A)) eqn:E2; [intros H; exists KObstacle; now split|].
  destruct (bullet (is_ A)) eqn:E3; [intros H; exists KBullet; now split|].
  destruct (loot (is_ A)) eqn:E4; [intros H; exists KLoot; now split|].
  discriminate.
Qed.

(** C5, as stated: an object of two kinds is only asked about the first. *)
Lemma shouldCollide_first_kind_only :
  let A := {| is_ := {| player := true; obstacle := true; bullet := false; loot := false |};
              collidesWith := {| player := false; obstacle := false; bullet := false; loot := false |} |} in
  let B := {| is_ := {| player := false; obstacle := false; bullet := false; loot := false |};
              collidesWith := {| player := false; obstacle := true; bullet := false; loot := false |} |} in
  ~ (shouldCollide A B = true
     <-> exists k, flag k (is_ A) = true /\ flag k (collidesWith B) = true).
Proof.
  intros A B [_ H].
  assert (Hc : shouldCollide A B = true) by (apply H; exists KObstacle; now split).
  discriminate Hc.
Qed.

(** C5 (amended): when the first object is of at most one kind, as every class
    of the game is, the predicate holds iff the second object's [collidesWith]
    flag is set for a kind of the first; and the classes give the documented
    matrix. *)
Theorem shouldCollide_single_kind (A B : UserData) :
  (kinds_set (is_ A) <= 1)%nat ->
  (shouldCollide A B = true
   <-> exists k, flag k (is_ A) = true /\ flag k (collidesWith B) = true)
  /\ documented_matrix.
Proof.
  intros Hone. split; [split; [apply shouldCollide_sound|] | repeat split].
  intros [k [Hk Hc]]. unfold shouldCollide, kinds_set in *.
  destruct (is_ A) as [p o b l]. cbn [player obstacle bullet loot flag] in *.
  destruct k, p, o, b, l; cbn in *; try discriminate; try lia; exact Hc.
Qed.

Lemma shouldCollide_single_kind_witness :
  (shouldCollide Bullet_data Player_data = true
   <-> exists k, flag k (is_ Bullet_data) = true /\ flag k (collidesWith Player_data) = true)
  /\ documented_matrix.
Proof.
  apply (shouldCollide_single_kind Bullet_data Player_data). vm_compute. lia.
Defined.

(** ** Gas *)

Lemma GasState_eqb_eq (a b : GasState) : GasState_eqb a b = true <-> a = b.
Proof. destruct a, b; simpl; split; intros H; congruence. Qed.

Lemma lerp_antitone (a b p1 p2 : Q) :
  b <= a -> p1 <= p2 -> lerp a b p2 <= lerp a b p1.
Proof. unfold lerp. intros Hab Hp. nra. Qed.

Lemma lerp_ge_end (a b p : Q) : b <= a -> p <= 1 -> b <= lerp a b p.
Proof. unfold lerp. intros Hab Hp. nra. Qed.

Lemma lerp_start (a b p : Q) : p == 0 -> lerp a b p == a.
Proof. unfold lerp. intros ->. ring. Qed.

Lemma Qdiv_le_mono (a b d : Q) : 0 < d -> a <= b -> a / d <= b / d.
Proof.
  intros Hd Hab. unfold Qdiv. apply Qmult_le_compat_r; [exact Hab|].
  apply Qinv_le_0_compat. lra.
Qed.

Section GasProofs.
Variable mode : GasMode.
Variable overrideDuration : Q.
Variable GasStages : list GasStage.
Variable randomPointInsideCircle : Vector -> Q -> Vector.
Hypothesis Hshrink : stages_shrink GasStages.
Hypothesis Hoverride : mode = Debug -> 0 < overrideDuration.

Abbreviation advance := (advanceGas mode overrideDuration GasStages randomPointInsideCircle).
Abbreviation step := (gas_step mode overrideDuration GasStages randomPointInsideCircle).
Abbreviation run := (gas_run mode overrideDuration GasStages randomPointInsideCircle).
Abbreviation inv := (gas_inv GasStages).

Lemma tick_keeps_inv (d : Q) (G : GasGame) :
  inv G -> event_ok (Tick d) G ->
  inv (fst (tickGas d G))
  /\ currentRadius (gas (fst (tickGas d G))) <= currentRadius (gas G).
Proof.
  destruct Hshrink as (Hno & Hchain & Hfirst & Hdur).
  unfold gas_inv, event_ok, tickGas. cbn [fst gas stage state currentRadius
    oldRadius newRadius initialDuration countdownStart now].
  destruct (stage (gas G)) as [|n] eqn:Hst.
  - intros [Hs Hr] _. rewrite Hs. cbn. rewrite andb_false_r.
    split; [split; [reflexivity | exact Hr] | lra].
  - intros (st & Hlk & Hs & Ho & Hn & Hlow & Hadv) [Hclock Hwithin].
    destruct (GasState_eqb (state (gas G)) Advancing) eqn:Ea.
    + apply GasState_eqb_eq in Ea.
      destruct (Hadv Ea) as (HD & Hcs & Hl). specialize (Hwithin Ea).
      assert (HD' : 0 < 1000 * initialDuration (gas G)) by lra.
      assert (Hact : negb (GasState_eqb (state (gas G)) Inactive) = true)
        by (rewrite Ea; reflexivity).
      rewrite Hact.
      set (p := (now G - countdownStart (gas G)) / (1000 * initialDuration (gas G))) in *.
      set (p' := (d - countdownStart (gas G)) / (1000 * initialDuration (gas G))).
      assert (Hpp : p <= p') by (apply Qdiv_le_mono; [exact HD' | lra]).
      assert (Hp1 : p' <= 1) by (apply Qle_shift_div_r; [exact HD' | lra]).
      assert (Hba : newRadius (gas G) <= oldRadius (gas G))
        by (rewrite Ho, Hn; eapply Hno; exact Hlk).
      assert (Hstep : lerp (oldRadius (gas G)) (newRadius (gas G)) p'
                      <= currentRadius (gas G)).
      { eapply Qle_trans; [apply lerp_antitone; [exact Hba | exact Hpp] | exact Hl]. }
      assert (Hlowst : stage_low st = newRadius (gas G)).
      { unfold stage_low. rewrite <- Hs, Ea. exact (eq_sym Hn). }
      rewrite andb_true_r.
      destruct (30 <=? S (ticksSinceLastDamage (gas G)))%nat.
      * split; [|exact Hstep].
        exists st. split; [exact Hlk|]. split; [exact Hs|]. split; [exact Ho|]. split; [exact Hn|]. split.
        -- rewrite Hlowst. apply lerp_ge_end; assumption.
        -- intros _. split; [exact HD|]. split; [lra|]. apply Qle_refl.
      * split; [|apply Qle_refl].
        exists st. split; [exact Hlk|]. split; [exact Hs|]. split; [exact Ho|]. split; [exact Hn|]. split; [exact Hlow|].
        intros _. split; [exact HD|]. split; [lra | exact Hstep].
    + rewrite andb_false_r. split; [|apply Qle_refl].
      exists st. split; [exact Hlk|]. split; [exact Hs|]. split; [exact Ho|]. split; [exact Hn|]. split; [exact Hlow|].
      intros Hx. rewrite Hx in Ea. discriminate.
Qed.

Lemma advance_keeps_inv (G : GasGame) :
  inv G ->
  inv (fst (advance G))
  /\ currentRadius (gas (fst (advance G))) <= currentRadius (gas G).
Proof.
  destruct Hshrink as (Hno & Hchain & Hfirst & Hdur).
  intros Hinv. unfold advanceGas.
  assert (Hsame : inv G /\ currentRadius (gas G) <= currentRadius (gas G))
    by (split; [exact Hinv | apply Qle_refl]).
  destruct (GasStages !! (stage (gas G) + 1)%nat) as [cs|] eqn:Hcs;
    [|destruct mode; exact Hsame].
  rewrite Nat.add_1_r in Hcs.
  (* the radius the state sits at is no smaller than the next stage's start *)
  assert (Hstart : stage_oldRadius cs <= currentRadius (gas G)).
  { unfold gas_inv in Hinv. destruct (stage (gas G)) as [|n] eqn:Hst.
    - destruct Hinv as [_ Hr]. rewrite Hr. now apply Hfirst.
    - destruct Hinv as (st & Hlk & _ & _ & _ & Hlow & _).
      eapply Qle_trans; [eapply (Hchain (S n)); [lia | exact Hlk | exact Hcs] | exact Hlow]. }
  assert (Hcsno : stage_newRadius cs <= stage_oldRadius cs) by (eapply Hno; exact Hcs).
  destruct mode eqn:Hm; [ | | exact Hsame];
    (split;
     [ unfold gas_inv;
       cbn [fst gas stage state currentRadius oldRadius newRadius
            initialDuration countdownStart now];
       exists cs; split; [exact Hcs|]; do 3 (split; [reflexivity|]); split;
       [ unfold stage_low;
         destruct (stage_state cs); cbn [GasState_eqb]; [lra | apply Qle_refl | lra]
       | intros Hadv; rewrite Hadv; cbn [GasState_eqb];
         assert (Hpos : 0 < stage_duration cs)
           by (eapply Hdur; [exact Hcs | exact Hadv]);
         split; [|split; [apply Qle_refl|]];
         [ first [ exact Hpos
                 | destruct (Qeq_bool (stage_duration cs) 0); cbn [negb];
                   [exact Hpos | now apply Hoverride] ]
         | rewrite lerp_start; [exact Hstart | unfold Qdiv; ring] ] ]
     | cbn [fst gas currentRadius];
       destruct (GasState_eqb (stage_state cs) Waiting);
       [exact Hstart | apply Qle_refl] ]).
Qed.

Lemma step_keeps_inv (e : GasEvent) (G : GasGame) :
  inv G -> event_ok e G ->
  inv (step e G) /\ currentRadius (gas (step e G)) <= currentRadius (gas G).
Proof.
  intros Hinv Hok. destruct e as [d|].
  - now apply tick_keeps_inv.
  - now apply advance_keeps_inv.
Qed.

Lemma run_keeps_inv (es : list GasEvent) (G : GasGame) :
  inv G -> clock_ok mode overrideDuration GasStages randomPointInsideCircle es G ->
  inv (run es G).
Proof.
  revert G. induction es as [|e es IH]; intros G Hinv Hok; [exact Hinv|].
  destruct Hok as [He Hrest]. cbn [gas_run fold_left].
  apply IH; [|exact Hrest]. now apply step_keeps_inv.
Qed.

Lemma clock_ok_app (es : list GasEvent) (e : GasEvent) (G : GasGame) :
  clock_ok mode overrideDuration GasStages randomPointInsideCircle (es ++ [e]) G ->
  clock_ok mode overrideDuration GasStages randomPointInsideCircle es G
  /\ event_ok e (run es G).
Proof.
  revert G. induction es as [|e' es IH]; intros G Hok.
  - destruct Hok as [He _]. split; [exact I | exact He].
  - destruct Hok as [He' Hrest]. destruct (IH _ Hrest) as [H1 H2].
    split; [split; assumption | exact H2].
Qed.

Lemma new_game_inv (t0 : Q) : inv (new_game t0).
Proof. split; reflexivity. Qed.

(** C8 (amended): with a stage table that only shrinks, and a clock that does
    not run backwards and stays within the duration of an advancing stage, no
    call of [advanceGas] and no tick raises [currentRadius]. *)
Theorem gas_radius_never_increases (t0 : Q) (es : list GasEvent) (e : GasEvent) :
  clock_ok mode overrideDuration GasStages randomPointInsideCircle (es ++ [e]) (new_game t0) ->
  currentRadius (gas (run (es ++ [e]) (new_game t0)))
  <= currentRadius (gas (run es (new_game t0))).
Proof.
  intros Hok. apply clock_ok_app in Hok. destruct Hok as [Hes He].
  unfold gas_run. rewrite fold_left_app. cbn [fold_left].
  apply step_keeps_inv; [|exact He].
  apply run_keeps_inv; [apply new_game_inv | exact Hes].
Qed.
End GasProofs.

Lemma sample_stages_shrink : stages_shrink sample_stages.
Proof.
  unfold stages_shrink, sample_stages. repeat split.
  - intros i st H. destruct i as [|[|[|[|i]]]]; cbn in H; try discriminate;
      injection H as <-; cbn; discriminate.
  - intros i a b Hi Ha Hb. destruct i as [|[|[|[|i]]]]; cbn in Ha, Hb; try discriminate;
      try lia; injection Ha as <-; injection Hb as <-; cbn; discriminate.
  - intros st H. cbn in H. injection H as <-. cbn. discriminate.
  - intros i st H Hadv. destruct i as [|[|[|[|i]]]]; cbn in H; try discriminate;
      injection H as <-; cbn in *; try discriminate; reflexivity.
Qed.

(** C8, as stated: the table only shrinks, but the thirtieth tick of the
    advancing stage comes 20 ms after the stage has run out, before the next
    call of [advanceGas]: it extrapolates the radius below the stage's target,
    and the next stage puts it back up. *)
Lemma gas_radius_rises_after_late_tick :
  let run := gas_run Normal 0 sample_stages (fun p _ => p) in
  let es := [AdvanceGas; AdvanceGas] ++ thirty_ticks 10020 in
  stages_shrink sample_stages
  /\ currentRadius (gas (run es (new_game 0))) < 256
  /\ currentRadius (gas (run (es ++ [AdvanceGas]) (new_game 0))) == 256
  /\ ~ currentRadius (gas (run (es ++ [AdvanceGas]) (new_game 0)))
       <= currentRadius (gas (run es (new_game 0))).
Proof.
  cbv zeta. split; [exact sample_stages_shrink|].
  split; [vm_compute; reflexivity|]. split; [vm_compute; reflexivity|].
  vm_compute. intros H. apply H. reflexivity.
Qed.

Lemma gas_radius_never_increases_witness :
  let run := gas_run Normal 0 sample_stages (fun p _ => p) in
  let es := [AdvanceGas; AdvanceGas] ++ thirty_ticks 9000 in
  currentRadius (gas (run (es ++ [AdvanceGas]) (new_game 0)))
  <= currentRadius (gas (run es (new_game 0))).
Proof.
  cbv zeta.
  apply (gas_radius_never_increases Normal 0 sample_stages (fun p _ => p)
           sample_stages_shrink).
  - intros H. discriminate H.
  - vm_compute. repeat split; intros; discriminate.
Defined.

(** C9, as stated: a point exactly on the circle is in the gas. *)
Lemma isInGas_on_the_boundary :
  ~ (isInGas (v 872 360) initial_gas = true
     <-> currentRadius initial_gas ^ 2
         < distanceSquared (v 872 360) (currentPosition initial_gas)).
Proof.
  intros [H _]. assert (Hlt := H eq_refl). vm_compute in Hlt. discriminate Hlt.
Qed.

(** C9 (amended): [isInGas] holds iff the squared distance to the centre is at
    least the squared radius; the circle itself is in the gas. *)
Theorem isInGas_iff (position : Vector) (g : Gas) :
  isInGas position g = true
  <-> currentRadius g ^ 2 <= distanceSquared position (currentPosition g).
Proof. unfold isInGas. apply Qle_bool_iff. Qed.

(** ** Dirty-set projection *)

Lemma objects_updObject (r : ObjRef) (f : GameObject -> GameObject) (g : Game.t) :
  Game.objects (updObject r f g) r = f (Game.objects g r).
Proof. unfold updObject. cbn. apply fn_lookup_insert. Qed.

Lemma objects_updObject_ne (r r' : ObjRef) (f : GameObject -> GameObject) (g : Game.t) :
  r <> r' -> Game.objects (updObject r f g) r' = Game.objects g r'.
Proof. intros Hne. unfold updObject. cbn. now apply fn_lookup_insert_ne. Qed.

Lemma size_zero_filter (P : ObjRef -> Prop) `{!forall o, Decision (P o)}
    (X Y : gset ObjRef) :
  ~ size X ≠ 0%nat -> Y = filter P X ∪ Y.
Proof.
  intros Hs. apply dec_stable, size_empty_inv in Hs.
  apply set_eq. intros o. rewrite elem_of_union, elem_of_filter.
  split; [auto|]. intros [[_ Ho]|Ho]; [|exact Ho].
  apply Hs in Ho. now apply not_elem_of_empty in Ho.
Qed.

Lemma projectFullObjects_spec (player : ObjRef) (g : Game.t) :
  let p := Game.objects g player in
  let g' := projectFullObjects player g in
  let p' := Game.objects g' player in
  fullDirtyObjects p'
  = filter (fun o => o ∈ visibleObjects p) (Game.fullDirtyObjects g) ∪ fullDirtyObjects p
  /\ visibleObjects p' = visibleObjects p
  /\ partialDirtyObjects p' = partialDirtyObjects p
  /\ deletedObjects p' = deletedObjects p
  /\ Game.partialDirtyObjects g' = Game.partialDirtyObjects g
  /\ Game.deletedObjects g' = Game.deletedObjects g.
Proof.
  cbv zeta. unfold projectFullObjects. case_decide.
  - rewrite objects_updObject. cbn. repeat split.
  - split; [now apply size_zero_filter | repeat split].
Qed.

Lemma projectPartialObjects_spec (player : ObjRef) (g : Game.t) :
  let p := Game.objects g player in
  let g' := projectPartialObjects player g in
  let p' := Game.objects g' player in
  partialDirtyObjects p'
  = filter (fun o => o ∈ visibleObjects p /\ o ∉ fullDirtyObjects p)
           (Game.partialDirtyObjects g) ∪ partialDirtyObjects p
  /\ visibleObjects p' = visibleObjects p
  /\ fullDirtyObjects p' = fullDirtyObjects p
  /\ deletedObjects p' = deletedObjects p
  /\ Game.deletedObjects g' = Game.deletedObjects g.
Proof.
  cbv zeta. unfold projectPartialObjects. case_decide.
  - rewrite objects_updObject. cbn. repeat split.
  - split; [now apply size_zero_filter | repeat split].
Qed.

Lemma projectDeletedObjects_spec (player : ObjRef) (g : Game.t) :
  let p := Game.objects g player in
  let p' := Game.objects (projectDeletedObjects player g) player in
  deletedObjects p'
  = filter (fun o => o ∈ visibleObjects p /\ o <> player) (Game.deletedObjects g)
    ∪ deletedObjects p
  /\ visibleObjects p' = visibleObjects p
  /\ fullDirtyObjects p' = fullDirtyObjects p
  /\ partialDirtyObjects p' = partialDirtyObjects p.
Proof.
  cbv zeta. unfold projectDeletedObjects. case_decide.
  - rewrite objects_updObject. cbn. repeat split.
  - split; [now apply size_zero_filter | repeat split].
Qed.

(** The player's sets after the three loops. *)
Lemma projectDirtyObjects_sets (player : ObjRef) (g : Game.t) :
  let p := Game.objects g player in
  let p' := Game.objects (projectDirtyObjects player g) player in
  visibleObjects p' = visibleObjects p
  /\ fullDirtyObjects p'
     = filter (fun o => o ∈ visibleObjects p) (Game.fullDirtyObjects g)
       ∪ fullDirtyObjects p
  /\ partialDirtyObjects p'
     = filter (fun o => o ∈ visibleObjects p /\ o ∉ fullDirtyObjects p')
              (Game.partialDirtyObjects g)
       ∪ partialDirtyObjects p
  /\ deletedObjects p'
     = filter (fun o => o ∈ visibleObjects p /\ o <> player) (Game.deletedObjects g)
       ∪ deletedObjects p.
Proof.
  cbv zeta. unfold projectDirtyObjects.
  destruct (projectFullObjects_spec player g) as (F1 & F2 & F3 & F4 & F5 & F6).
  destruct (projectPartialObjects_spec player (projectFullObjects player g))
    as (P1 & P2 & P3 & P4 & P5).
  destruct (projectDeletedObjects_spec player
              (projectPartialObjects player (projectFullObjects player g)))
    as (D1 & D2 & D3 & D4).
  rewrite D2, D3, D4, D1, P1, P2, P3, P4, P5, F1, F2, F3, F4, F5, F6. repeat split.
Qed.

(** C3: after the three loops, an object is in the player's full set iff it
    was there or is full-dirty and visible; in the partial set iff it was
    there or is partial-dirty, visible and not in the player's full set; in
    the deleted set iff it was there or is deleted, visible and not the player.
    In the scenario the player ends with full [{B}], partial [{A}] and no
    deleted object. *)
Theorem dirty_set_reconciliation (player : ObjRef) (g : Game.t) :
  let p := Game.objects g player in
  let p' := Game.objects (projectDirtyObjects player g) player in
  (forall o, o ∈ fullDirtyObjects p'
     <-> (o ∈ Game.fullDirtyObjects g /\ o ∈ visibleObjects p)
         \/ o ∈ fullDirtyObjects p)
  /\ (forall o, o ∈ partialDirtyObjects p'
     <-> (o ∈ Game.partialDirtyObjects g /\ o ∈ visibleObjects p
          /\ o ∉ fullDirtyObjects p')
         \/ o ∈ partialDirtyObjects p)
  /\ (forall o, o ∈ deletedObjects p'
     <-> (o ∈ Game.deletedObjects g /\ o ∈ visibleObjects p /\ o <> player)
         \/ o ∈ deletedObjects p)
  /\ (let q := Game.objects (projectDirtyObjects 0%nat reconciliation_scenario) 0%nat in
      fullDirtyObjects q = {[2%nat]}
      /\ partialDirtyObjects q = {[1%nat]}
      /\ deletedObjects q = ∅).
Proof.
  cbv zeta.
  destruct (projectDirtyObjects_sets player g) as (_ & Hf & Hp & Hd).
  split; [|split; [|split]].
  - intros o. rewrite Hf, elem_of_union, elem_of_filter. tauto.
  - intros o. rewrite Hp, elem_of_union, elem_of_filter. tauto.
  - intros o. rewrite Hd, elem_of_union, elem_of_filter. tauto.
  - destruct (projectDirtyObjects_sets 0%nat reconciliation_scenario)
      as (_ & Sf & Sp & Sd).
    cbv zeta in Sf, Sp, Sd. rewrite Sp, Sd, Sf.
    change (Game.fullDirtyObjects reconciliation_scenario) with ({[2%nat; 3%nat]} : gset nat).
    change (Game.partialDirtyObjects reconciliation_scenario) with ({[1%nat]} : gset nat).
    change (Game.deletedObjects reconciliation_scenario) with ({[4%nat]} : gset nat).
    change (Game.objects reconciliation_scenario 0%nat)
      with (with_visibleObjects {[1%nat; 2%nat]} (new_object Player_cat (v 360 360))).
    cbn [with_visibleObjects visibleObjects fullDirtyObjects partialDirtyObjects
         deletedObjects new_object].
    repeat split; apply set_eq; intros o;
      rewrite ?elem_of_union, ?elem_of_filter, ?elem_of_union, ?elem_of_filter,
              ?elem_of_singleton, ?elem_of_empty; lia.
Qed.

(** ** Precomputed visibility *)

Lemma in_window_iff (p : Vector) (minX minY maxX maxY : Q) :
  in_window p minX minY maxX maxY = true
  <-> minX < x p /\ x p < maxX /\ minY < y p /\ y p < maxY.
Proof.
  unfold in_window. rewrite !andb_true_iff, !Qlt_bool_iff. tauto.
Qed.

(** A loop that stores [f c] under [key c] for every [c] of a list. *)
Lemma lookup_fold_insert {V : Type} (key : Z -> Z) (f : Z -> V) (l : list Z)
    (m0 : gmap Z V) (c : Z) :
  (forall a b, key a = key b -> a = b) -> c ∈ l ->
  fold_left (fun m a => <[key a := f a]> m) l m0 !! key c = Some (f c).
Proof.
  intros Hinj. revert c. induction l as [|a l IH] using rev_ind; intros c Hc.
  - now apply elem_of_nil in Hc.
  - rewrite fold_left_app. cbn [fold_left].
    destruct (decide (a = c)) as [->|Hne].
    + apply lookup_insert_eq.
    + rewrite lookup_insert_ne by (intros E; apply Hinj in E; contradiction).
      apply IH. apply elem_of_app in Hc as [Hc|Hc]; [exact Hc|].
      apply list_elem_of_singleton in Hc. congruence.
Qed.

Lemma elem_of_upto_72 (c : Z) : (0 <= c <= 72)%Z -> c ∈ upto (720 / 10).
Proof.
  intros Hc. unfold upto. change (Qfloor (720 / 10)) with 72%Z.
  apply elem_of_seqZ. lia.
Qed.

Lemma calculateVisibleObjects_cell (g : Game.t) (zoomLevel cx cy : Z) :
  zoomLevel ∈ supportedZoomLevels -> (0 <= cx <= 72)%Z -> (0 <= cy <= 72)%Z ->
  precomputed (calculateVisibleObjects g) zoomLevel cx cy
  = Some (cellObjects g zoomLevel cx cy).
Proof.
  intros Hz Hx Hy. unfold precomputed, calculateVisibleObjects.
  cbn [Game.visibleObjects Game.with_visibleObjects].
  rewrite (lookup_fold_insert (fun z => z) (levelObjects g) supportedZoomLevels
             (Game.visibleObjects g) zoomLevel (fun a b E => E) Hz).
  cbn [mbind option_bind]. unfold levelObjects.
  rewrite (lookup_fold_insert (fun c => (c * 10)%Z) (columnObjects g zoomLevel)
             (upto (Map_width / 10)) ∅ cx); [|intros a b E; lia|now apply elem_of_upto_72].
  cbn [mbind option_bind]. unfold columnObjects.
  apply (lookup_fold_insert (fun c => (c * 10)%Z) (cellObjects g zoomLevel cx)
           (upto (Map_height / 10)) ∅ cy); [intros a b E; lia|now apply elem_of_upto_72].
Qed.

Lemma elem_of_cellObjects (g : Game.t) (zoomLevel cx cy : Z) (o : ObjRef) :
  o ∈ cellObjects g zoomLevel cx cy
  <-> o ∈ Game.staticObjects g
      /\ strictly_within (position (Game.objects g o))
           (inject_Z (cx * 10)) (inject_Z (cy * 10))
           (inject_Z zoomLevel * (175 # 100)) (inject_Z zoomLevel * (135 # 100)).
Proof.
  unfold cellObjects, strictly_within. rewrite elem_of_filter, in_window_iff. tauto.
Qed.

(** C7, as stated: at zoom 48 an object 62 units above the cell is in the
    cell's set, though 62 is more than 48 * 1.25. *)
Lemma cell_window_is_taller :
  precomputed (calculateVisibleObjects window_scenario) 48 0 0
  = Some (cellObjects window_scenario 48 0 0)
  /\ 1%nat ∈ cellObjects window_scenario 48 0 0
  /\ ~ strictly_within (position (Game.objects window_scenario 1%nat))
         (inject_Z (0 * 10)) (inject_Z (0 * 10))
         (inject_Z 48 * (175 # 100)) (inject_Z 48 * (125 # 100)).
Proof.
  split; [|split].
  - apply calculateVisibleObjects_cell; [|lia|lia].
    apply list_elem_of_here.
  - apply elem_of_cellObjects. split.
    + change (1%nat ∈ ({[1%nat]} : gset nat)). now apply elem_of_singleton.
    + unfold strictly_within. cbn. repeat split.
  - unfold strictly_within. cbn. intros (_ & _ & _ & H). discriminate H.
Qed.

(** C7 (amended): for each supported zoom level and each cell of the 10-unit
    grid, the precomputed set holds exactly the static objects strictly inside
    the window around the cell with half-width zoom * 1.75 and half-height
    zoom * 1.35. *)
Theorem precomputed_cells (g : Game.t) (zoomLevel cx cy : Z) :
  zoomLevel ∈ supportedZoomLevels -> (0 <= cx <= 72)%Z -> (0 <= cy <= 72)%Z ->
  exists cell,
    precomputed (calculateVisibleObjects g) zoomLevel cx cy = Some cell
    /\ forall o, o ∈ cell
         <-> o ∈ Game.staticObjects g
             /\ strictly_within (position (Game.objects g o))
                  (inject_Z (cx * 10)) (inject_Z (cy * 10))
                  (inject_Z zoomLevel * (175 # 100)) (inject_Z zoomLevel * (135 # 100)).
Proof.
  intros Hz Hx Hy. exists (cellObjects g zoomLevel cx cy).
  split; [now apply calculateVisibleObjects_cell|].
  intros o. apply elem_of_cellObjects.
Qed.

Lemma precomputed_cells_witness :
  exists cell,
    precomputed (calculateVisibleObjects window_scenario) 96 36 36 = Some cell
    /\ forall o, o ∈ cell
         <-> o ∈ Game.staticObjects window_scenario
             /\ strictly_within (position (Game.objects window_scenario o))
                  (inject_Z (36 * 10)) (inject_Z (36 * 10))
                  (inject_Z 96 * (175 # 100)) (inject_Z 96 * (135 # 100)).
Proof.
  apply (precomputed_cells window_scenario 96 36 36).
  - apply list_elem_of_further, list_elem_of_here.
  - lia.
  - lia.
Defined.

(** ** Visible objects of a player *)

Lemma obj_grows_refl (a : GameObject) : obj_grows a a.
Proof. unfold obj_grows. repeat split; auto. Qed.

Lemma obj_grows_trans (a b c : GameObject) :
  obj_grows a b -> obj_grows b c -> obj_grows a c.
Proof.
  intros (A1 & A2 & A3 & A4 & A5 & A6 & A7 & A8) (B1 & B2 & B3 & B4 & B5 & B6 & B7 & B8).
  unfold obj_grows. repeat split; try congruence.
  - intros o Ho. apply B5, A5, Ho.
  - intros o Ho. apply B6, A6, Ho.
  - intros o Ho. apply B7, A7, Ho.
  - intros o Ho. destruct (B8 o Ho) as [Hb|Hc]; [|now right].
    destruct (A8 o Hb) as [Ha|Hf]; [now left | right; apply B6, Hf].
Qed.

Lemma grows_refl (g : Game.t) : grows g g.
Proof. intros r. apply obj_grows_refl. Qed.

Lemma grows_trans (g1 g2 g3 : Game.t) : grows g1 g2 -> grows g2 g3 -> grows g1 g3.
Proof. intros H1 H2 r. eapply obj_grows_trans; [apply H1 | apply H2]. Qed.

Lemma grows_updObject (r : ObjRef) (f : GameObject -> GameObject) (g : Game.t) :
  obj_grows (Game.objects g r) (f (Game.objects g r)) -> grows g (updObject r f g).
Proof.
  intros Hf r'. destruct (decide (r = r')) as [<-|Hne].
  - now rewrite objects_updObject.
  - rewrite objects_updObject_ne by exact Hne. apply obj_grows_refl.
Qed.

Lemma obj_grows_full (o : ObjRef) (p : GameObject) :
  obj_grows p (with_fullDirtyObjects ({[o]} ∪ fullDirtyObjects p) p).
Proof.
  unfold obj_grows. cbn. repeat split; auto.
  intros o' Ho'. apply elem_of_union. now right.
Qed.

Lemma obj_grows_deleted (o : ObjRef) (p : GameObject) :
  obj_grows p (with_deletedObjects ({[o]} ∪ deletedObjects p) p).
Proof.
  unfold obj_grows. cbn. repeat split; auto.
  intros o' Ho'. apply elem_of_union. now right.
Qed.

Lemma obj_grows_seen (this : ObjRef) (q : GameObject) :
  obj_grows q (with_fullDirtyObjects ({[this]} ∪ fullDirtyObjects q)
                 (with_visibleObjects ({[this]} ∪ visibleObjects q) q)).
Proof.
  unfold obj_grows. cbn. repeat split; auto.
  - intros o' Ho'. apply elem_of_union. now right.
  - intros o' Ho'. apply elem_of_union. now right.
  - intros o' Ho'. apply elem_of_union in Ho' as [Ho'|Ho']; [right | now left].
    apply elem_of_union. now left.
Qed.

(** One turn of the loop only grows the game, and the new visible set. *)
Lemma visitDynamicObject_grows (this : ObjRef) (minX minY maxX maxY : Q)
    (nv : gset ObjRef) (g : Game.t) (object : ObjRef) :
  nv ⊆ fst (visitDynamicObject this minX minY maxX maxY (nv, g) object)
  /\ grows g (snd (visitDynamicObject this minX minY maxX maxY (nv, g) object)).
Proof.
  unfold visitDynamicObject.
  destruct (in_window _ minX minY maxX maxY).
  - cbn [fst snd]. split; [intros o Ho; apply elem_of_union; now right|].
    set (g1 := if decide (object ∈ visibleObjects (Game.objects g this)) then g else _).
    assert (H1 : grows g g1).
    { subst g1. case_decide; [apply grows_refl|].
      apply grows_updObject, obj_grows_full. }
    destruct (_ && _ && _); [|exact H1].
    eapply grows_trans; [exact H1|]. apply grows_updObject, obj_grows_seen.
  - case_decide; cbn [fst snd]; (split; [reflexivity|]).
    + apply grows_updObject, obj_grows_deleted.
    + apply grows_refl.
Qed.

Lemma fold_visit_grows (this : ObjRef) (minX minY maxX maxY : Q)
    (l : list ObjRef) (nv : gset ObjRef) (g : Game.t) :
  nv ⊆ fst (fold_left (visitDynamicObject this minX minY maxX maxY) l (nv, g))
  /\ grows g (snd (fold_left (visitDynamicObject this minX minY maxX maxY) l (nv, g))).
Proof.
  revert nv g. induction l as [|ob l IH]; intros nv g.
  - cbn. split; [reflexivity | apply grows_refl].
  - cbn [fold_left].
    destruct (visitDynamicObject_grows this minX minY maxX maxY nv g ob) as [Hn Hg].
    destruct (visitDynamicObject this minX minY maxX maxY (nv, g) ob) as [nv1 g1].
    cbn [fst snd] in Hn, Hg. destruct (IH nv1 g1) as [Hn' Hg'].
    split; [etransitivity; eassumption | eapply grows_trans; eassumption].
Qed.

Lemma position_grows (a b : GameObject) : obj_grows a b -> position b = position a.
Proof.
  intros (H1 & H2 & H3 & _). unfold position. now rewrite H1, H2, H3.
Qed.

Lemma isPlayer_grows (a b : GameObject) : obj_grows a b -> isPlayer b = isPlayer a.
Proof. intros (H1 & _). unfold isPlayer. now rewrite H1. Qed.


Lemma to_be_seen_grows (this q : ObjRef) (minX minY maxX maxY : Q) (g g' : Game.t) :
  grows g g' -> to_be_seen this q minX minY maxX maxY g ->
  to_be_seen this q minX minY maxX maxY g'.
Proof.
  intros Hg (Hd & Hp & Hw & Hv). unfold to_be_seen.
  pose proof (Hg this) as (_ & _ & _ & Hdead & _).
  pose proof (Hg q) as Hq.
  rewrite Hdead, (isPlayer_grows _ _ Hq), (position_grows _ _ Hq).
  repeat (split; [assumption|]).
  destruct Hq as (_ & _ & _ & _ & _ & Hfull & _ & Hnew).
  intros Hin. destruct (Hnew _ Hin) as [Hold|Hf]; [apply Hfull, Hv, Hold | exact Hf].
Qed.

Lemma visitDynamicObject_seen (this q : ObjRef) (minX minY maxX maxY : Q)
    (nv : gset ObjRef) (g : Game.t) :
  q <> this -> to_be_seen this q minX minY maxX maxY g ->
  let g' := snd (visitDynamicObject this minX minY maxX maxY (nv, g) q) in
  this ∈ visibleObjects (Game.objects g' q)
  /\ this ∈ fullDirtyObjects (Game.objects g' q).
Proof.
  intros Hne (Hd & Hp & Hw & Hv). cbv zeta. unfold visitDynamicObject.
  rewrite Hw. cbn [snd].
  set (g1 := if decide (q ∈ visibleObjects (Game.objects g this)) then g else _).
  assert (Hq : Game.objects g1 q = Game.objects g q).
  { subst g1. case_decide; [reflexivity|]. apply objects_updObject_ne. congruence. }
  assert (Hthis : dead (Game.objects g1 this) = false).
  { subst g1. case_decide; [exact Hd|]. rewrite objects_updObject. exact Hd. }
  rewrite Hthis, Hq, Hp. cbn [negb andb].
  destruct (decide (this ∈ visibleObjects (Game.objects g q))) as [Hin|Hnin].
  - rewrite (bool_decide_eq_true_2 _ Hin). cbn [negb]. rewrite Hq. auto.
  - rewrite (bool_decide_eq_false_2 _ Hnin). cbn [negb].
    rewrite objects_updObject, Hq. cbn.
    split; apply elem_of_union; left; now apply elem_of_singleton.
Qed.

Lemma fold_visit_seen (this q : ObjRef) (minX minY maxX maxY : Q)
    (l : list ObjRef) (nv : gset ObjRef) (g : Game.t) :
  q <> this -> q ∈ l -> to_be_seen this q minX minY maxX maxY g ->
  let g' := snd (fold_left (visitDynamicObject this minX minY maxX maxY) l (nv, g)) in
  this ∈ visibleObjects (Game.objects g' q)
  /\ this ∈ fullDirtyObjects (Game.objects g' q).
Proof.
  intros Hne. cbv zeta. revert nv g.
  induction l as [|ob l IH]; intros nv g Hq Hseen.
  - now apply elem_of_nil in Hq.
  - cbn [fold_left].
    pose proof (visitDynamicObject_grows this minX minY maxX maxY nv g ob) as [_ Hg].
    apply elem_of_cons in Hq as [->|Hq].
    + pose proof (visitDynamicObject_seen this ob minX minY maxX maxY nv g Hne Hseen)
        as [Hv Hf].
      cbv zeta in Hv, Hf.
      destruct (visitDynamicObject this minX minY maxX maxY (nv, g) ob) as [nv1 g1].
      cbn [snd] in Hv, Hf.
      destruct (fold_visit_grows this minX minY maxX maxY l nv1 g1) as [_ Hrest].
      destruct (Hrest ob) as (_ & _ & _ & _ & Hvis & Hfull & _).
      split; [apply Hvis, Hv | apply Hfull, Hf].
    + destruct (visitDynamicObject this minX minY maxX maxY (nv, g) ob) as [nv1 g1].
      cbn [snd] in Hg. apply IH; [exact Hq|].
      eapply to_be_seen_grows; eassumption.
Qed.

(** The shape of a successful [updateVisibleObjects]: the loop over the dynamic
    objects runs from a game that differs from [g] in two fields of [this], and
    the three last assignments touch [this] only. *)
Lemma updateVisibleObjects_shape (this : ObjRef) (g g' : Game.t) :
  updateVisibleObjects this g = Some g' ->
  exists (near start : gset ObjRef),
    let g1 := updObject this (with_nearObjects near)
                (updObject this (with_movesSinceLastUpdate 0%nat) g) in
    let me := Game.objects g this in
    let r := fold_left
               (visitDynamicObject this
                  (x (position me) - xCullDist me) (y (position me) - yCullDist me)
                  (x (position me) + xCullDist me) (y (position me) + yCullDist me))
               (elements (Game.dynamicObjects g)) (start, g1) in
    let p2 := Game.objects (snd r) this in
    (forall q, q <> this -> Game.objects g' q = Game.objects (snd r) q)
    /\ visibleObjects (Game.objects g' this) = fst r
    /\ fullDirtyObjects (Game.objects g' this)
       = filter (fun o => o ∉ visibleObjects p2) (fst r) ∪ fullDirtyObjects p2
    /\ deletedObjects (Game.objects g' this)
       = filter (fun o => o ∉ fst r) (visibleObjects p2) ∪ deletedObjects p2.
Proof.
  unfold updateVisibleObjects. intros H.
  set (g0 := updObject this (with_movesSinceLastUpdate 0%nat) g) in *.
  assert (E0 : Game.objects g0 this = with_movesSinceLastUpdate 0%nat (Game.objects g this))
    by apply objects_updObject.
  assert (Epos : position (Game.objects g0 this) = position (Game.objects g this))
    by (rewrite E0; reflexivity).
  rewrite Epos in H.
  destruct (getVisibleObjects (position (Game.objects g this)) 48 g0) as [near|];
    [|discriminate H].
  cbn [mbind option_bind] in H.
  set (g1 := updObject this (with_nearObjects near) g0) in *.
  assert (E1 : Game.objects g1 this
               = with_nearObjects near (with_movesSinceLastUpdate 0%nat (Game.objects g this)))
    by (subst g1; rewrite objects_updObject, E0; reflexivity).
  destruct (match Game.visibleObjects g1 !! zoom (Game.objects g1 this) with
            | Some visibleAtZoom => _
            | None => Some near
            end) as [start|]; [|discriminate H].
  cbn [mbind option_bind] in H.
  rewrite E1 in H. cbn [xCullDist yCullDist with_nearObjects with_movesSinceLastUpdate] in H.
  change (Game.dynamicObjects g1) with (Game.dynamicObjects g) in H.
  exists near, start. cbv zeta. subst g1 g0.
  destruct (fold_left _ (elements (Game.dynamicObjects g)) _) as [nv g2].
  injection H as <-. cbn [fst snd].
  split; [|split; [|split]].
  - intros q Hq. now rewrite !objects_updObject_ne by congruence.
  - now rewrite objects_updObject.
  - rewrite objects_updObject. cbn [fullDirtyObjects with_visibleObjects].
    rewrite objects_updObject. cbn [fullDirtyObjects with_deletedObjects].
    now rewrite objects_updObject.
  - rewrite objects_updObject. cbn [deletedObjects with_visibleObjects].
    rewrite objects_updObject. cbn [deletedObjects with_deletedObjects].
    now rewrite objects_updObject.
Qed.

Lemma updateVisibleObjects_marks (this : ObjRef) (g g' : Game.t) :
  updateVisibleObjects this g = Some g' -> visibility_marks this g g'.
Proof.
  intros H. apply updateVisibleObjects_shape in H.
  destruct H as (near & start & H). cbv zeta in H.
  set (g1 := updObject this (with_nearObjects near)
               (updObject this (with_movesSinceLastUpdate 0%nat) g)) in *.
  set (me := Game.objects g this) in *.
  set (minX := x (position me) - xCullDist me) in *.
  set (minY := y (position me) - yCullDist me) in *.
  set (maxX := x (position me) + xCullDist me) in *.
  set (maxY := y (position me) + yCullDist me) in *.
  (* the game the loop starts from agrees with [g] on all that matters *)
  assert (Hpre : forall r,
            visibleObjects (Game.objects g1 r) = visibleObjects (Game.objects g r)
            /\ fullDirtyObjects (Game.objects g1 r) = fullDirtyObjects (Game.objects g r)
            /\ dead (Game.objects g1 r) = dead (Game.objects g r)
            /\ isPlayer (Game.objects g1 r) = isPlayer (Game.objects g r)
            /\ position (Game.objects g1 r) = position (Game.objects g r)).
  { intros r. subst g1. destruct (decide (this = r)) as [<-|Hne].
    - rewrite !objects_updObject. repeat split.
    - rewrite !objects_updObject_ne by exact Hne. repeat split. }
  destruct (fold_visit_grows this minX minY maxX maxY
              (elements (Game.dynamicObjects g)) start g1) as [_ Hgrow].
  pose proof (fold_visit_seen this) as Hseen.
  specialize (fun q => Hseen q minX minY maxX maxY
                         (elements (Game.dynamicObjects g)) start g1).
  cbv zeta in Hseen.
  destruct (fold_left _ (elements (Game.dynamicObjects g)) (start, g1)) as [nv g2].
  cbn [fst snd] in *.
  destruct H as (Hother & Hvis & Hfull & Hdel).
  unfold visibility_marks. cbv zeta. rewrite Hvis, Hfull, Hdel.
  destruct (Hgrow this) as (_ & _ & _ & _ & Gvis & Gfull & _ & Gnew).
  destruct (Hpre this) as (Pvis & Pfull & _).
  rewrite Pvis in Gvis, Gnew.
  split; [|split; [|split]].
  - intros o Hnew Hold. apply elem_of_union.
    destruct (decide (o ∈ visibleObjects (Game.objects g2 this))) as [Hin|Hnin].
    + right. destruct (Gnew o Hin) as [Ho|Ho]; [contradiction | exact Ho].
    + left. apply elem_of_filter. split; assumption.
  - intros o Hold Hnew. apply elem_of_union. left.
    apply elem_of_filter. split; [exact Hnew | apply Gvis, Hold].
  - intros q Hq Hdyn Hplayer Halive Hwin Hunseen.
    rewrite (Hother q Hq). apply Hseen; [exact Hq | now apply elem_of_elements |].
    destruct (Hpre q) as (Qvis & _ & _ & Qplayer & Qpos).
    destruct (Hpre this) as (_ & _ & Tdead & _).
    unfold to_be_seen. rewrite Tdead, Qplayer, Qpos, Qvis.
    repeat (split; [assumption|]). intros Hin. contradiction.
  - intros q Hq Hunseen Hsees. rewrite (Hother q Hq) in Hsees |- *.
    destruct (Hgrow q) as (_ & _ & _ & _ & _ & _ & _ & Qnew).
    destruct (Hpre q) as (Qvis & _). rewrite Qvis in Qnew.
    destruct (Qnew this Hsees) as [Ho|Ho]; [contradiction | exact Ho].
Qed.

Lemma Math_round_cell (c : Q) : 0 <= c -> c <= 720 -> (0 <= Math_round (c / 10) <= 72)%Z.
Proof.
  intros H0 H1. unfold Math_round.
  assert (Hq : c / 10 == c * (1 # 10)) by reflexivity.
  split.
  - change 0%Z with (Qfloor 0). apply Qfloor_resp_le. rewrite Hq. lra.
  - change 72%Z with (Qfloor (72 + (1 # 2))). apply Qfloor_resp_le. rewrite Hq. lra.
Qed.

Lemma cellAt_precomputed (g : Game.t) (zoomLevel cx cy : Z)
    (atZoom : gmap Z (gmap Z (gset ObjRef))) (cell : gset ObjRef) :
  Game.visibleObjects g !! zoomLevel = Some atZoom ->
  precomputed g zoomLevel cx cy = Some cell ->
  cellAt atZoom (cx * 10) (cy * 10) = Some cell.
Proof.
  intros Hz. unfold precomputed, cellAt. rewrite Hz. cbn [mbind option_bind].
  destruct (atZoom !! (cx * 10)%Z) as [column|]; [|discriminate].
  cbn [mbind option_bind]. now intros ->.
Qed.

Lemma getVisibleObjects_on_the_map (pos : Vector) (zoomLevel : Z) (g : Game.t)
    (cell : gset ObjRef) :
  on_the_map pos ->
  precomputed g zoomLevel (Math_round (x pos / 10)) (Math_round (y pos / 10)) = Some cell ->
  getVisibleObjects pos zoomLevel g = Some cell.
Proof.
  intros (Hx0 & Hx1 & Hy0 & Hy1) Hcell. unfold getVisibleObjects.
  destruct (Game.visibleObjects g !! zoomLevel) as [atZoom|] eqn:Hz;
    [|unfold precomputed in Hcell; rewrite Hz in Hcell; discriminate].
  cbn [mbind option_bind].
  assert (E1 : Qlt_bool (x pos) 0 = false) by now apply Qlt_bool_false.
  assert (E2 : Qlt_bool Map_width (x pos) = false) by now apply Qlt_bool_false.
  assert (E3 : Qlt_bool (y pos) 0 = false) by now apply Qlt_bool_false.
  assert (E4 : Qlt_bool Map_height (y pos) = false) by now apply Qlt_bool_false.
  rewrite E1, E2, E3, E4. cbn [orb].
  now apply (cellAt_precomputed g zoomLevel).
Qed.

Lemma grid_built_levels (g : Game.t) (zoomLevel : Z) :
  grid_built g -> is_Some (Game.visibleObjects g !! zoomLevel) ->
  zoomLevel ∈ supportedZoomLevels.
Proof.
  intros (pre & Hempty & Hgrid) Hsome. rewrite Hgrid in Hsome.
  unfold calculateVisibleObjects in Hsome.
  cbn [Game.visibleObjects Game.with_visibleObjects fold_left supportedZoomLevels] in Hsome.
  rewrite Hempty in Hsome.
  destruct (decide (zoomLevel = 96%Z)) as [->|H96];
    [apply list_elem_of_further, list_elem_of_here|].
  destruct (decide (zoomLevel = 48%Z)) as [->|H48]; [apply list_elem_of_here|].
  rewrite !lookup_insert_ne, lookup_empty in Hsome by congruence.
  now destruct Hsome.
Qed.

Lemma grid_built_cell (g : Game.t) (zoomLevel cx cy : Z) :
  grid_built g -> zoomLevel ∈ supportedZoomLevels ->
  (0 <= cx <= 72)%Z -> (0 <= cy <= 72)%Z ->
  is_Some (precomputed g zoomLevel cx cy).
Proof.
  intros (pre & _ & Hgrid) Hz Hx Hy. unfold precomputed. rewrite Hgrid.
  fold (precomputed (calculateVisibleObjects pre) zoomLevel cx cy).
  rewrite calculateVisibleObjects_cell by assumption. eexists. reflexivity.
Qed.

Lemma updateVisibleObjects_defined (this : ObjRef) (g : Game.t) :
  grid_built g -> on_the_map (position (Game.objects g this)) ->
  is_Some (updateVisibleObjects this g).
Proof.
  intros Hgrid Hmap. unfold updateVisibleObjects.
  set (g0 := updObject this (with_movesSinceLastUpdate 0%nat) g).
  assert (E0 : Game.objects g0 this = with_movesSinceLastUpdate 0%nat (Game.objects g this))
    by apply objects_updObject.
  assert (Epos : position (Game.objects g0 this) = position (Game.objects g this))
    by (rewrite E0; reflexivity).
  rewrite Epos. set (pos := position (Game.objects g this)) in *.
  assert (Hgrid0 : grid_built g0) by exact Hgrid.
  destruct Hmap as (Hx0 & Hx1 & Hy0 & Hy1).
  pose proof (Math_round_cell (x pos) Hx0 Hx1) as Hcx.
  pose proof (Math_round_cell (y pos) Hy0 Hy1) as Hcy.
  destruct (grid_built_cell g0 48 _ _ Hgrid0 ltac:(apply list_elem_of_here) Hcx Hcy)
    as [near Hnear].
  rewrite (getVisibleObjects_on_the_map pos 48 g0 near) by (repeat split; assumption).
  cbn [mbind option_bind].
  set (g1 := updObject this (with_nearObjects near) g0).
  assert (Hgrid1 : grid_built g1) by exact Hgrid.
  set (z := zoom (Game.objects g1 this)).
  destruct (Game.visibleObjects g1 !! z) as [atZoom|] eqn:Hz.
  - assert (Hlevel : z ∈ supportedZoomLevels)
      by (apply (grid_built_levels g1); [exact Hgrid1 | rewrite Hz; eexists; reflexivity]).
    destruct (grid_built_cell g1 z _ _ Hgrid1 Hlevel Hcx Hcy) as [start Hstart].
    rewrite (cellAt_precomputed g1 z _ _ atZoom start Hz Hstart).
    cbn [mbind option_bind].
    destruct (fold_left _ _ _). eexists. reflexivity.
  - cbn [mbind option_bind]. destruct (fold_left _ _ _). eexists. reflexivity.
Qed.

(** C6: on a map whose grid is in place, [updateVisibleObjects] succeeds for a
    player on the map; every object that enters the player's visible set is in
    its full-dirty set, every object that leaves it is in its deleted set, and
    every other player that newly sees this player has it in its own visible
    and full-dirty sets. *)
Theorem visible_set_update (this : ObjRef) (g : Game.t) :
  grid_built g -> on_the_map (position (Game.objects g this)) ->
  exists g', updateVisibleObjects this g = Some g' /\ visibility_marks this g g'.
Proof.
  intros Hgrid Hmap.
  destruct (updateVisibleObjects_defined this g Hgrid Hmap) as [g' Hg'].
  exists g'. split; [exact Hg' | now apply updateVisibleObjects_marks].
Qed.

Lemma visible_set_update_witness :
  exists g', updateVisibleObjects 0%nat two_players = Some g'
             /\ visibility_marks 0%nat two_players g'.
Proof.
  apply (visible_set_update 0%nat two_players).
  - eexists. split; [|reflexivity]. reflexivity.
  - unfold on_the_map. cbn. repeat split; discriminate.
Defined.

(** ** Damage *)

Lemma keeps_refl (r : ObjRef) (g : Game.t) : keeps r g g.
Proof. split; [reflexivity | auto]. Qed.

Lemma keeps_trans (r : ObjRef) (g1 g2 g3 : Game.t) :
  keeps r g1 g2 -> keeps r g2 g3 -> keeps r g1 g3.
Proof.
  intros [N1 K1] [N2 K2]. split; [lia|]. intros Hr.
  destruct (K1 Hr) as (A1 & A2 & A3 & A4).
  destruct (K2 ltac:(lia)) as (B1 & B2 & B3 & B4).
  repeat split; congruence.
Qed.

(** A step that leaves the objects, the effects and the next reference alone. *)
Lemma keeps_same (r : ObjRef) (g g' : Game.t) :
  Game.objects g' = Game.objects g -> Game.effects g' = Game.effects g ->
  Game.nextRef g' = Game.nextRef g -> keeps r g g'.
Proof.
  intros Ho He Hn. unfold keeps, deaths. rewrite Ho, He, Hn. auto.
Qed.

Lemma keeps_updObject (r r' : ObjRef) (f : GameObject -> GameObject) (g : Game.t) :
  (forall p, health (f p) = health p /\ dead (f p) = dead p
             /\ invulnerable (f p) = invulnerable p) ->
  keeps r g (updObject r' f g).
Proof.
  intros Hf. split; [reflexivity|]. intros _.
  destruct (decide (r' = r)) as [->|Hne].
  - rewrite objects_updObject. destruct (Hf (Game.objects g r)) as (H1 & H2 & H3).
    repeat split; assumption.
  - rewrite objects_updObject_ne by exact Hne. repeat split.
Qed.

Lemma deaths_emit (r : ObjRef) (e : Effect) (g : Game.t) :
  deaths r (emit e g) = (deaths r g + if is_destroy r e then 1 else 0)%nat.
Proof.
  unfold deaths, emit. cbn [Game.effects Game.with_effects].
  rewrite List.filter_app, length_app. cbn [List.filter].
  now destruct (is_destroy r e).
Qed.

Lemma keeps_emit (r : ObjRef) (e : Effect) (g : Game.t) :
  is_destroy r e = false -> keeps r g (emit e g).
Proof.
  intros He. split; [reflexivity|]. intros _. rewrite deaths_emit, He.
  repeat split. lia.
Qed.

Lemma keeps_allocate (r : ObjRef) (o : GameObject) (g : Game.t) :
  keeps r g (snd (allocate o g)).
Proof.
  unfold allocate. cbn [snd]. split; [cbn; lia|]. intros Hr. cbn.
  rewrite fn_lookup_insert_ne by lia. repeat split.
Qed.

Lemma keeps_addLoot (r : ObjRef) (pos : Vector) (g : Game.t) :
  keeps r g (addLoot pos g).
Proof.
  unfold addLoot.
  pose proof (keeps_allocate r (new_object Loot_cat pos) g) as Ha.
  destruct (allocate (new_object Loot_cat pos) g) as [loot g1]. cbn [snd] in Ha.
  apply (keeps_trans r g g1 _ Ha). now apply keeps_same.
Qed.

Lemma keeps_die_attribute (r this : ObjRef) (source : option ObjRef)
    (weaponUsed : option nat) (g : Game.t) :
  keeps r g (die_attribute this source weaponUsed g).
Proof.
  unfold die_attribute. destruct source as [s|]; [|apply keeps_refl].
  destruct (isPlayer (Game.objects g s)); [|apply keeps_refl].
  set (g1 := updObject this (with_killedBy (Some s)) g).
  set (g2 := if negb (s =? this)%nat then _ else g1).
  set (g3 := emit _ g2).
  assert (H1 : keeps r g g1) by (apply keeps_updObject; intros p; repeat split).
  assert (H2 : keeps r g1 g2).
  { subst g2. destruct (negb (s =? this)%nat); [|apply keeps_refl].
    apply keeps_updObject. intros p. repeat split. }
  assert (H3 : keeps r g2 g3) by (apply keeps_emit; reflexivity).
  apply (keeps_trans r g g1 _ H1), (keeps_trans r g1 g2 _ H2), (keeps_trans r g2 g3 _ H3).
  now apply keeps_same.
Qed.

Lemma keeps_die_resetIntent (r this : ObjRef) (g : Game.t) :
  keeps r g (die_resetIntent this g).
Proof. apply keeps_updObject. intros p. repeat split. Qed.

Lemma keeps_die_release (r this : ObjRef) (g : Game.t) :
  keeps r g (die_release this g).
Proof.
  unfold die_release, removeObject.
  set (g1 := Game.with_aliveCountDirty true g).
  set (g2 := updObject this (adrenaline_setter 0) g1).
  set (g3 := match action (Game.objects g2 this) with Some _ => _ | None => g2 end).
  set (g4 := Game.with_livingPlayers _ g3).
  set (g5 := Game.with_dynamicObjects _ g4).
  assert (H1 : keeps r g g1) by now apply keeps_same.
  assert (H2 : keeps r g1 g2) by (apply keeps_updObject; intros p; repeat split).
  assert (H3 : keeps r g2 g3).
  { subst g3. destruct (action (Game.objects g2 this));
      [apply keeps_emit; reflexivity | apply keeps_refl]. }
  assert (H4 : keeps r g3 g4) by now apply keeps_same.
  assert (H5 : keeps r g4 g5) by now apply keeps_same.
  assert (H6 : keeps r g5 (emit (GiveId this) g5)) by (apply keeps_emit; reflexivity).
  apply (keeps_trans r g g1 _ H1), (keeps_trans r g1 g2 _ H2), (keeps_trans r g2 g3 _ H3),
        (keeps_trans r g3 g4 _ H4), (keeps_trans r g4 g5 _ H5), (keeps_trans r g5 _ _ H6).
  now apply keeps_same.
Qed.

Lemma keeps_die_dropLoot (r this : ObjRef) (g : Game.t) :
  keeps r g (die_dropLoot this g).
Proof.
  unfold die_dropLoot.
  set (g0 := emit (DropWeapon this 0) g).
  set (g0' := emit (DropWeapon this 1) g0).
  set (g1 := emit (DropWeapon this 2) g0').
  assert (H1 : keeps r g g1).
  { apply (keeps_trans r g g0); [apply keeps_emit; reflexivity|].
    apply (keeps_trans r g0 g0'); apply keeps_emit; reflexivity. }
  apply (keeps_trans r g g1 _ H1).
  set (held := items (Game.objects g1 this)).
  set (visit := fun ga item => if Qlt_bool 0 (snd item)
                               then addLoot (position (Game.objects ga this)) ga else ga).
  apply (keeps_trans r g1 (fold_left visit held g1));
    [|apply keeps_updObject; intros p; repeat split].
  generalize held as l. generalize g1 as ga.
  intros ga l. revert ga. induction l as [|item l IH]; intros ga.
  - apply keeps_refl.
  - cbn [fold_left]. apply (keeps_trans r ga (visit ga item)); [|apply IH].
    subst visit. cbv beta.
    destruct (Qlt_bool 0 (snd item)); [apply keeps_addLoot | apply keeps_refl].
Qed.

Lemma keeps_die_deathMarker (r this : ObjRef) (g : Game.t) :
  keeps r g (die_deathMarker this g).
Proof.
  unfold die_deathMarker.
  pose proof (keeps_allocate r
                (new_object DeathMarker_cat (position (Game.objects g this))) g) as Ha.
  destruct (allocate _ g) as [marker g1]. cbn [snd] in Ha.
  apply (keeps_trans r g g1 _ Ha). now apply keeps_same.
Qed.

Lemma keeps_die_winning (r : ObjRef) (g : Game.t) : keeps r g (die_winning g).
Proof.
  unfold die_winning. destruct (Game.started g); [|apply keeps_refl].
  assert (Hover : keeps r g (emit ScheduleEndGame (Game.with_over true g))).
  { apply (keeps_trans r g (Game.with_over true g));
      [now apply keeps_same | apply keeps_emit; reflexivity]. }
  destruct (size (Game.livingPlayers g)) as [|[|n]]; [exact Hover | | apply keeps_refl].
  destruct (elements _) as [|lastManStanding rest]; [exact Hover|].
  apply (keeps_trans r g _ _ Hover). apply keeps_emit; reflexivity.
Qed.

Lemma keeps_die_notify (r this : ObjRef) (g : Game.t) : keeps r g (die_notify this g).
Proof.
  unfold die_notify. destruct (negb _); [apply keeps_emit; reflexivity | apply keeps_refl].
Qed.

(** Everything the death sequence does after the body is destroyed. *)
Lemma keeps_die_tail (r this : ObjRef) (g : Game.t) :
  keeps r g
    (die_notify this
       (die_winning (die_deathMarker this (die_dropLoot this (die_release this g))))).
Proof.
  apply (keeps_trans r g _ _ (keeps_die_release r this g)).
  apply (keeps_trans r _ _ _ (keeps_die_dropLoot r this _)).
  apply (keeps_trans r _ _ _ (keeps_die_deathMarker r this _)).
  apply (keeps_trans r _ _ _ (keeps_die_winning r _)).
  apply keeps_die_notify.
Qed.

Lemma keeps_updObject_ne (r r' : ObjRef) (f : GameObject -> GameObject) (g : Game.t) :
  r' <> r -> keeps r g (updObject r' f g).
Proof.
  intros Hne. split; [reflexivity|]. intros _.
  rewrite objects_updObject_ne by exact Hne. repeat split.
Qed.

Lemma keeps_die_head (r this : ObjRef) (source : option ObjRef)
    (weaponUsed : option nat) (g : Game.t) :
  keeps r g (die_resetIntent this (die_attribute this source weaponUsed g)).
Proof.
  apply (keeps_trans r g _ _ (keeps_die_attribute r this source weaponUsed g)).
  apply keeps_die_resetIntent.
Qed.

(** The death sequence leaves every other object as it is. *)
Lemma die_other (r this : ObjRef) (source : option ObjRef) (weaponUsed : option nat)
    (g : Game.t) :
  this <> r -> keeps r g (die this source weaponUsed g).
Proof.
  intros Hne. unfold die.
  set (g1 := updObject this _ g).
  set (g2 := die_resetIntent this _).
  set (g3 := emit (DestroyBody this) g2).
  apply (keeps_trans r g g1); [now apply keeps_updObject_ne|].
  apply (keeps_trans r g1 g2); [apply keeps_die_head|].
  apply (keeps_trans r g2 g3); [|apply keeps_die_tail].
  apply keeps_emit. cbn. now apply Nat.eqb_neq.
Qed.

(** The death sequence on the player itself. *)
Lemma die_this (this : ObjRef) (source : option ObjRef) (weaponUsed : option nat)
    (g : Game.t) :
  (this < Game.nextRef g)%nat ->
  let g' := die this source weaponUsed g in
  health (Game.objects g' this) = 0
  /\ dead (Game.objects g' this) = true
  /\ invulnerable (Game.objects g' this) = invulnerable (Game.objects g this)
  /\ deaths this g' = S (deaths this g)
  /\ (Game.nextRef g <= Game.nextRef g')%nat.
Proof.
  intros Hr. cbv zeta. unfold die.
  set (g1 := updObject this (fun p => with_dead true (health_setter 0 p)) g).
  set (g2 := die_resetIntent this _).
  set (g3 := emit (DestroyBody this) g2).
  assert (E1 : Game.objects g1 this = with_dead true (health_setter 0 (Game.objects g this)))
    by apply objects_updObject.
  destruct (keeps_die_head this this source weaponUsed g1 : keeps this g1 g2) as [N2 K2].
  destruct (K2 Hr) as (H2 & D2 & I2 & C2).
  destruct (keeps_die_tail this this g3) as [N3 K3].
  destruct (K3 ltac:(exact (Nat.lt_le_trans _ _ _ Hr N2))) as (H3 & D3 & I3 & C3).
  change (Game.objects g3 this) with (Game.objects g2 this) in H3, D3, I3.
  change (Game.nextRef g3) with (Game.nextRef g2) in N3.
  change (Game.nextRef g1) with (Game.nextRef g) in N2.
  rewrite H3, D3, I3, C3, H2, D2, I2, E1.
  subst g3. rewrite deaths_emit, C2. cbn [is_destroy]. rewrite Nat.eqb_refl.
  repeat split; [|lia]. unfold deaths. cbn. lia.
Qed.

Lemma applyDamage_other (r this : ObjRef) (amount : Q) (source : option ObjRef)
    (g : Game.t) :
  this <> r -> keeps r g (applyDamage this amount source g).
Proof.
  intros Hne. unfold applyDamage.
  set (sourceIsPlayer := match source with Some s => _ | None => false end).
  set (g1 := updObject this _ g).
  set (g2 := if Qlt_bool 0 amount then _ else g1).
  set (g3 := match source with Some s => _ | None => g2 end).
  set (g4 := updObject this _ g3).
  assert (H1 : keeps r g g1) by now apply keeps_updObject_ne.
  assert (H2 : keeps r g1 g2).
  { subst g2. destruct (Qlt_bool 0 amount); [now apply keeps_updObject_ne | apply keeps_refl]. }
  assert (H3 : keeps r g2 g3).
  { subst g3. destruct source as [s|]; [|apply keeps_refl].
    destruct (sourceIsPlayer && negb (s =? this)%nat); [|apply keeps_refl].
    apply keeps_updObject. intros p. repeat split. }
  assert (H4 : keeps r g3 g4) by now apply keeps_updObject_ne.
  apply (keeps_trans r g g1 _ H1), (keeps_trans r g1 g2 _ H2), (keeps_trans r g2 g3 _ H3),
        (keeps_trans r g3 g4 _ H4).
  now apply keeps_same.
Qed.

(** What [applyDamage] does to the player that is hurt. *)
Lemma applyDamage_this (this : ObjRef) (amount : Q) (source : option ObjRef)
    (g : Game.t) :
  (this < Game.nextRef g)%nat ->
  let me := Game.objects g this in
  let g' := applyDamage this amount source g in
  health (Game.objects g' this)
  = (if Qlt_bool 100 (health me - amount) then 100 else health me - amount)
  /\ dead (Game.objects g' this) = dead me
  /\ invulnerable (Game.objects g' this) = invulnerable me
  /\ deaths this g' = deaths this g
  /\ (Game.nextRef g <= Game.nextRef g')%nat.
Proof.
  intros Hr. cbv zeta. unfold applyDamage.
  set (sourceIsPlayer := match source with Some s => _ | None => false end).
  set (g1 := updObject this _ g).
  set (g2 := if Qlt_bool 0 amount then _ else g1).
  set (g3 := match source with Some s => _ | None => g2 end).
  set (g4 := updObject this _ g3).
  set (g5 := Game.with_partialDirtyObjects _ g4).
  assert (E1 : Game.objects g1 this
               = health_setter (health (Game.objects g this) - amount) (Game.objects g this))
    by exact (objects_updObject this _ g).
  assert (H2 : keeps this g1 g2).
  { subst g2. destruct (Qlt_bool 0 amount); [|apply keeps_refl].
    apply keeps_updObject. intros p. destruct sourceIsPlayer; repeat split. }
  assert (H3 : keeps this g2 g3).
  { subst g3. destruct source as [s|]; [|apply keeps_refl].
    destruct (sourceIsPlayer && negb (s =? this)%nat); [|apply keeps_refl].
    apply keeps_updObject. intros p. repeat split. }
  assert (H4 : keeps this g3 g4) by (apply keeps_updObject; intros p; repeat split).
  assert (H5 : keeps this g4 g5) by now apply keeps_same.
  pose proof (keeps_trans _ _ _ _ (keeps_trans _ _ _ _ (keeps_trans _ _ _ _ H2 H3) H4) H5)
    as [N K].
  change (Game.nextRef g1) with (Game.nextRef g) in N, K.
  destruct (K Hr) as (A1 & A2 & A3 & A4).
  rewrite A1, A2, A3, A4, E1. repeat split. exact N.
Qed.

Lemma damage_other (r this : ObjRef) (amount : Q) (source : option ObjRef)
    (weaponUsed : option nat) (g : Game.t) :
  this <> r -> keeps r g (damage this amount source weaponUsed g).
Proof.
  intros Hne. unfold damage.
  destruct (invulnerable (Game.objects g this)); [apply keeps_refl|].
  set (g1 := applyDamage this _ source g).
  pose proof (applyDamage_other r this (damageAmount (Game.objects g this) amount)
                source g Hne : keeps r g g1) as H1.
  destruct (_ && _); [|exact H1].
  apply (keeps_trans r g g1 _ H1). now apply die_other.
Qed.

(** The health [applyDamage] leaves, by cases on the call. *)
Lemma damaged_health (me : GameObject) (amount : Q) :
  0 <= health me <= 100 ->
  let a := damageAmount me amount in
  let h := if Qlt_bool 100 (health me - a) then 100 else health me - a in
  0 <= h <= 100
  /\ (dead me = true -> h == health me)
  /\ (dead me = false -> health me - amount <= 0 -> Qle_bool h 0 = true)
  /\ (dead me = false -> 0 < health me - amount -> Qle_bool h 0 = false).
Proof.
  intros [H0 H100]. cbv zeta. unfold damageAmount.
  destruct (dead me).
  - assert (E : Qlt_bool 100 (health me - 0) = false) by (apply Qlt_bool_false; lra).
    rewrite E. split; [lra|]. split; [intros _; lra|].
    split; intros Hd; discriminate Hd.
  - destruct (Qlt_bool 100 (health me - amount)) eqn:E1.
    + apply Qlt_bool_iff in E1.
      assert (E2 : Qle_bool (health me - - (100 - health me)) 0 = false).
      { destruct (Qle_bool _ 0) eqn:E; [|reflexivity]. apply Qle_bool_iff in E. lra. }
      rewrite E2.
      assert (E3 : Qlt_bool 100 (health me - - (100 - health me)) = false)
        by (apply Qlt_bool_false; lra).
      rewrite E3. split; [lra|]. split; [intros Hd; discriminate Hd|].
      split; [intros _ Hle; lra | intros _ _; exact E2].
    + apply Qlt_bool_false in E1.
      destruct (Qle_bool (health me - amount) 0) eqn:E2.
      * assert (E3 : Qlt_bool 100 (health me - health me) = false)
          by (apply Qlt_bool_false; lra).
        rewrite E3. apply Qle_bool_iff in E2.
        split; [lra|]. split; [intros Hd; discriminate Hd|].
        split; [intros _ _; apply Qle_bool_iff; lra | intros _ Hpos; lra].
      * assert (E3 : Qlt_bool 100 (health me - amount) = false)
          by (apply Qlt_bool_false; lra).
        rewrite E3.
        assert (Hpos : 0 < health me - amount).
        { destruct (Qlt_le_dec 0 (health me - amount)) as [|Hle]; [assumption|].
          apply Qle_bool_iff in Hle. congruence. }
        split; [lra|]. split; [intros Hd; discriminate Hd|].
        split; [intros _ Hle; lra | intros _ _; exact E2].
Qed.

(** One call on a player that can be hurt: either the call is fatal and the
    death sequence runs, or it is not and the player stays as alive as it was. *)
Lemma damage_this (this : ObjRef) (amount : Q) (source : option ObjRef)
    (weaponUsed : option nat) (g : Game.t) :
  (this < Game.nextRef g)%nat ->
  0 <= health (Game.objects g this) <= 100 ->
  invulnerable (Game.objects g this) = false ->
  let me := Game.objects g this in
  let g' := damage this amount source weaponUsed g in
  let me' := Game.objects g' this in
  (Game.nextRef g <= Game.nextRef g')%nat
  /\ 0 <= health me' <= 100
  /\ ((fatal me amount /\ health me' == 0 /\ dead me' = true
       /\ deaths this g' = S (deaths this g))
      \/ (~ fatal me amount /\ dead me' = dead me /\ deaths this g' = deaths this g)).
Proof.
  intros Hr Hh Hinv. cbv zeta. unfold damage. rewrite Hinv.
  set (me := Game.objects g this) in *.
  set (g1 := applyDamage this (damageAmount me amount) source g).
  destruct (applyDamage_this this (damageAmount me amount) source g Hr)
    as (A1 & A2 & A3 & A4 & A5).
  fold me g1 in A1, A2, A3, A4, A5.
  destruct (damaged_health me amount Hh) as (B1 & B2 & B3 & B4).
  cbv zeta in B1, B2, B3, B4. rewrite <- A1 in B1, B2, B3, B4.
  rewrite A2.
  destruct (dead me) eqn:Hdead.
  - rewrite andb_false_r. split; [exact A5|]. split; [exact B1|].
    right. split; [|split; [exact A2 | exact A4]].
    intros (_ & Hd & _). congruence.
  - cbn [negb]. rewrite andb_true_r.
    destruct (Qlt_le_dec 0 (health me - amount)) as [Hpos|Hle].
    + rewrite (B4 eq_refl Hpos). split; [exact A5|]. split; [exact B1|].
      right. split; [|split; [exact A2 | exact A4]].
      intros (_ & _ & Hle). lra.
    + rewrite (B3 eq_refl Hle).
      destruct (die_this this source weaponUsed g1 ltac:(lia)) as (D1 & D2 & D3 & D4 & D5).
      cbv zeta in D1, D2, D3, D4, D5.
      split; [lia|]. rewrite D1, D2, D4, A4.
      split; [split; discriminate|].
      left. repeat split; assumption.
Qed.

Lemma damage_keeps_inv (this : ObjRef) (c : DamageCall) (g : Game.t) :
  damage_inv this g ->
  damage_inv this (damage (call_this c) (call_amount c) (call_source c)
                     (call_weaponUsed c) g).
Proof.
  intros (Hr & Hh & Hd). destruct c as [t amount source weaponUsed].
  cbn [call_this call_amount call_source call_weaponUsed].
  destruct (decide (t = this)) as [->|Hne].
  - destruct (invulnerable (Game.objects g this)) eqn:Hinv.
    + unfold damage. rewrite Hinv. repeat split; tauto.
    + destruct (damage_this this amount source weaponUsed g Hr Hh Hinv) as (N & B & C).
      cbv zeta in N, B, C. split; [lia|]. split; [exact B|].
      destruct C as [((_ & Halive & _) & _ & D2 & D3) | (_ & D2 & D3)].
      * rewrite D3, D2, Hd, Halive. reflexivity.
      * rewrite D3, D2. exact Hd.
  - destruct (damage_other this t amount source weaponUsed g Hne) as [N K].
    destruct (K Hr) as (K1 & K2 & _ & K4).
    split; [lia|]. rewrite K1, K2, K4. split; assumption.
Qed.

Lemma damage_calls_keep_inv (this : ObjRef) (calls : list DamageCall) (g : Game.t) :
  damage_inv this g -> damage_inv this (damage_calls calls g).
Proof.
  revert g. induction calls as [|c calls IH]; intros g Hinv; [exact Hinv|].
  cbn [damage_calls fold_left]. apply IH. now apply damage_keeps_inv.
Qed.

(** C4: after any history of damage calls, a call on an invulnerable player
    changes nothing; otherwise the health stays within [[0,100]], and the death
    sequence runs on this call iff the player is not dead and the amount takes
    all the health left, which leaves the player dead at health 0; over the
    whole history it has run at most once. *)
Theorem damage_contract (this : ObjRef) (history : list DamageCall) (amount : Q)
    (source : option ObjRef) (weaponUsed : option nat) (g0 : Game.t) :
  damage_inv this g0 ->
  damage_spec this amount (damage_calls history g0)
    (damage this amount source weaponUsed (damage_calls history g0)).
Proof.
  intros Hinv0.
  pose proof (damage_calls_keep_inv this history g0 Hinv0) as Hinv.
  set (g := damage_calls history g0) in *.
  pose proof (damage_keeps_inv this (mkCall this amount source weaponUsed) g Hinv)
    as (_ & Hh' & Hd').
  cbn [call_this call_amount call_source call_weaponUsed] in Hh', Hd'.
  destruct Hinv as (Hr & Hh & Hd).
  unfold damage_spec. cbv zeta.
  split; [intros Hinvul; unfold damage; now rewrite Hinvul|].
  split; [exact Hh'|].
  assert (Hone : (deaths this (damage this amount source weaponUsed g) <= 1)%nat).
  { rewrite Hd'.
    destruct (dead (Game.objects (damage this amount source weaponUsed g) this));
      cbn [Nat.b2n]; lia. }
  destruct (invulnerable (Game.objects g this)) eqn:Hinvul.
  - assert (Hsame : damage this amount source weaponUsed g = g)
      by (unfold damage; now rewrite Hinvul).
    rewrite Hsame.
    assert (Hnot : ~ fatal (Game.objects g this) amount)
      by (intros (Hf & _); congruence).
    split; [split; [lia | intros Hf; contradiction]|].
    split; [intros Hf; contradiction|]. split; [auto | rewrite Hsame in Hone; exact Hone].
  - destruct (damage_this this amount source weaponUsed g Hr Hh Hinvul) as (_ & _ & C).
    cbv zeta in C.
    destruct C as [(Hf & C1 & C2 & C3) | (Hnf & C2 & C3)].
    + split; [split; [intros _; exact Hf | intros _; exact C3]|].
      split; [intros _; split; assumption|].
      split; [intros Hnf; contradiction | exact Hone].
    + split; [split; [rewrite C3; lia | intros Hf; contradiction]|].
      split; [intros Hf; contradiction|]. split; [auto | exact Hone].
Qed.

Lemma damage_contract_witness :
  damage_spec 0%nat 100
    (damage_calls [mkCall 0%nat 30 (Some 1%nat) None; mkCall 1%nat 5 (Some 0%nat) None] duel)
    (damage 0%nat 100 (Some 1%nat) None
       (damage_calls [mkCall 0%nat 30 (Some 1%nat) None; mkCall 1%nat 5 (Some 0%nat) None]
          duel)).
Proof.
  apply (damage_contract 0%nat
           [mkCall 0%nat 30 (Some 1%nat) None; mkCall 1%nat 5 (Some 0%nat) None]
           100 (Some 1%nat) None duel).
  unfold damage_inv. cbn. split; [lia|]. split; [split; discriminate | reflexivity].
Defined.

(** * Further properties *)

(** ** Float fields, level by level *)

Lemma clamped_range (value min max : Q) :
  min <= max -> min <= clamped value min max <= max.
Proof.
  intros Hmm. unfold clamped.
  destruct (Qlt_bool value max) eqn:E1.
  - apply Qlt_bool_iff in E1. destruct (Qlt_bool min value) eqn:E2.
    + apply Qlt_bool_iff in E2. lra.
    + lra.
  - lra.
Qed.

Lemma clamped_id (value min max : Q) :
  min <= value <= max -> clamped value min max == value.
Proof.
  intros [Hlo Hhi]. unfold clamped.
  destruct (Qlt_bool value max) eqn:E1.
  - destruct (Qlt_bool min value) eqn:E2; [reflexivity|].
    apply Qlt_bool_false in E2. lra.
  - apply Qlt_bool_false in E1. lra.
Qed.

Lemma clamped_high (value min max : Q) : max <= value -> clamped value min max = max.
Proof.
  intros H. unfold clamped.
  assert (E : Qlt_bool value max = false) by now apply Qlt_bool_false.
  now rewrite E.
Qed.

Lemma clamped_low (value min max : Q) :
  min < max -> value <= min -> clamped value min max = min.
Proof.
  intros Hmm H. unfold clamped.
  assert (E1 : Qlt_bool value max = true) by (apply Qlt_bool_iff; lra).
  assert (E2 : Qlt_bool min value = false) by now apply Qlt_bool_false.
  now rewrite E1, E2.
Qed.

Lemma clamped_mono (v1 v2 min max : Q) :
  min <= max -> v1 <= v2 -> clamped v1 min max <= clamped v2 min max.
Proof.
  intros Hmm Hv. unfold clamped.
  destruct (Qlt_bool v1 max) eqn:A1; destruct (Qlt_bool v2 max) eqn:A2;
    destruct (Qlt_bool min v1) eqn:B1; destruct (Qlt_bool min v2) eqn:B2;
    repeat match goal with
           | H : Qlt_bool _ _ = true |- _ => apply Qlt_bool_iff in H
           | H : Qlt_bool _ _ = false |- _ => apply Qlt_bool_false in H
           end; lra.
Qed.

Lemma range_pos (b : nat) :
  (1 <= b <= 30)%nat ->
  shl 1 b = (2 ^ Z.of_nat b)%Z /\ 1 <= inject_Z (shl 1 b - 1).
Proof.
  intros Hb. rewrite shl_1_small by lia. split; [reflexivity|].
  change 1 with (inject_Z 1). rewrite <- Zle_Qle.
  assert (2 ^ 1 <= 2 ^ Z.of_nat b)%Z by (apply Z.pow_le_mono_r; lia). lia.
Qed.

(** The share of the range that a value in [[min,max]] takes. *)
Lemma share_range (c min max : Q) :
  min < max -> min <= c <= max ->
  0 <= (c - min) / (max - min) <= 1.
Proof.
  intros Hmm [Hlo Hhi]. assert (Hd : 0 < max - min) by lra. split.
  - apply Qle_shift_div_l; [exact Hd | lra].
  - apply Qle_shift_div_r; [exact Hd | lra].
Qed.

Lemma share_mono (c1 c2 min max : Q) :
  min < max -> c1 <= c2 -> (c1 - min) / (max - min) <= (c2 - min) / (max - min).
Proof.
  intros Hmm Hc. apply Qdiv_le_mono; lra.
Qed.

Lemma float_field_floor (value min max : Q) (b : nat) :
  (1 <= b <= 30)%nat -> min < max ->
  float_field value min max b
  = Qfloor (((clamped value min max - min) / (max - min))
            * inject_Z (shl 1 b - 1) + (1 # 2)).
Proof.
  intros Hb Hmm. unfold float_field. apply trunc_floor.
  destruct (range_pos b Hb) as [_ HR].
  pose proof (share_range (clamped value min max) min max Hmm
                (clamped_range value min max ltac:(lra))) as [Ht0 Ht1].
  nra.
Qed.

Lemma float_field_range (value min max : Q) (b : nat) :
  (1 <= b <= 30)%nat -> min < max ->
  (0 <= float_field value min max b <= 2 ^ Z.of_nat b - 1)%Z.
Proof.
  intros Hb Hmm. rewrite float_field_floor by assumption.
  destruct (range_pos b Hb) as [HR2 HR].
  pose proof (share_range (clamped value min max) min max Hmm
                (clamped_range value min max ltac:(lra))) as [Ht0 Ht1].
  set (t := (clamped value min max - min) / (max - min)) in *.
  rewrite <- HR2. split.
  - change 0%Z with (Qfloor 0). apply Qfloor_resp_le. nra.
  - pose proof (Qfloor_le (t * inject_Z (shl 1 b - 1) + (1 # 2))) as Hfl.
    assert (Hz : (Qfloor (t * inject_Z (shl 1 b - 1) + (1 # 2)) < shl 1 b - 1 + 1)%Z).
    { rewrite Zlt_Qlt, inject_Z_plus. change (inject_Z 1) with 1. nra. }
    lia.
Qed.

Lemma float_field_mono (v1 v2 min max : Q) (b : nat) :
  (1 <= b <= 30)%nat -> min < max -> v1 <= v2 ->
  (float_field v1 min max b <= float_field v2 min max b)%Z.
Proof.
  intros Hb Hmm Hv. rewrite !float_field_floor by assumption.
  destruct (range_pos b Hb) as [_ HR].
  apply Qfloor_resp_le.
  pose proof (share_mono (clamped v1 min max) (clamped v2 min max) min max Hmm
                (clamped_mono v1 v2 min max ltac:(lra) Hv)) as Hs.
  nra.
Qed.

Lemma float_level_mono (min max : Q) (b : nat) (k1 k2 : Z) :
  (1 <= b <= 30)%nat -> min <= max -> (k1 <= k2)%Z ->
  float_level min max b k1 <= float_level min max b k2.
Proof.
  intros Hb Hmm Hk. unfold float_level.
  destruct (range_pos b Hb) as [_ HR].
  rewrite Zle_Qle in Hk.
  assert (Hd : (max - min) * inject_Z k1 <= (max - min) * inject_Z k2) by nra.
  assert (H := Qdiv_le_mono _ _ (inject_Z (shl 1 b - 1)) ltac:(lra) Hd). lra.
Qed.

Lemma float_level_bounds (min max : Q) (b : nat) (k : Z) :
  (1 <= b <= 30)%nat -> min <= max -> (0 <= k <= 2 ^ Z.of_nat b - 1)%Z ->
  min <= float_level min max b k <= max
  /\ float_level min max b 0 == min
  /\ float_level min max b (2 ^ Z.of_nat b - 1) == max.
Proof.
  intros Hb Hmm Hk.
  destruct (range_pos b Hb) as [HR2 HR].
  assert (E0 : float_level min max b 0 == min).
  { unfold float_level. unfold Qdiv. change (inject_Z 0) with 0. ring. }
  assert (E1 : float_level min max b (2 ^ Z.of_nat b - 1) == max).
  { unfold float_level. rewrite <- HR2. field. lra. }
  split; [|split; assumption]. split.
  - apply Qle_trans with (float_level min max b 0); [rewrite E0; lra|].
    apply float_level_mono; [assumption | assumption | lia].
  - apply Qle_trans with (float_level min max b (2 ^ Z.of_nat b - 1)); [|rewrite E1; lra].
    apply float_level_mono; [assumption | assumption | lia].
Qed.

(** A level is the field of itself. *)
Lemma float_field_level (min max : Q) (b : nat) (k : Z) :
  (1 <= b <= 30)%nat -> min < max -> (0 <= k <= 2 ^ Z.of_nat b - 1)%Z ->
  float_field (float_level min max b k) min max b = k.
Proof.
  intros Hb Hmm Hk. rewrite float_field_floor by assumption.
  destruct (range_pos b Hb) as [HR2 HR].
  destruct (float_level_bounds min max b k Hb ltac:(lra) Hk) as (Hin & _ & _).
  assert (E : (clamped (float_level min max b k) min max - min) / (max - min)
              * inject_Z (shl 1 b - 1) + (1 # 2)
              == inject_Z k + (1 # 2)).
  { rewrite (clamped_id _ min max Hin). unfold float_level. field. lra. }
  rewrite E.
  assert (Hlo : inject_Z k <= inject_Z k + (1 # 2)) by lra.
  assert (Hhi : inject_Z k + (1 # 2) < inject_Z (k + 1))
    by (rewrite inject_Z_plus; change (inject_Z 1) with 1; lra).
  pose proof (Qfloor_le (inject_Z k + (1 # 2))) as Hfl.
  pose proof (Qlt_floor (inject_Z k + (1 # 2))) as Hfu.
  assert (inject_Z (Qfloor (inject_Z k + (1 # 2))) < inject_Z (k + 1)) by lra.
  assert (inject_Z k < inject_Z (Qfloor (inject_Z k + (1 # 2)) + 1)) by lra.
  rewrite <- Zlt_Qlt in *. lia.
Qed.

Lemma writeBits_trunc (q : Q) (n : nat) (s : BitStream) :
  writeBits q n s = writeBits (inject_Z (trunc q)) n s.
Proof. unfold writeBits, ToInt32. now rewrite trunc_inject_Z. Qed.

(** What is read back after [writeFloat]: the level of the field. *)
Lemma float_decodes (value min max : Q) (b : nat) (s : BitStream) :
  (1 <= b <= 30)%nat -> min < max ->
  readIndex s = writeIndex s ->
  (writeIndex s + b <= length (buffer s))%nat ->
  reads_back (writeFloat value min max b) (readFloat min max b) s
    (fun r => r = float_level min max b (float_field value min max b)).
Proof.
  intros Hb Hmm Hidx Hroom.
  pose proof (float_field_range value min max b Hb Hmm) as Hk.
  destruct (raw_roundtrip b (float_field value min max b) s ltac:(lia) ltac:(lia)
              Hidx Hroom) as (s1 & r & s2 & Hw & Hr & -> & Hcur).
  exists s1. eexists. exists s2. split.
  - unfold writeFloat. cbv zeta. rewrite writeBits_trunc. exact Hw.
  - unfold readFloat. cbv zeta. rewrite Hr. cbn [mbind option_bind].
    split; [reflexivity|]. split; [reflexivity | exact Hcur].
Qed.

Lemma readFloat_is_level (min max : Q) (b : nat) (s s' : BitStream) (r : Q) :
  readFloat min max b s = Some (r, s') ->
  exists k, (0 <= k <= 2 ^ Z.of_nat b - 1)%Z /\ r = float_level min max b k.
Proof.
  unfold readFloat, readBits. cbv zeta.
  destruct (decide _) as [Hroom|]; [|discriminate].
  cbn [mbind option_bind]. intros H. injection H as <- _.
  eexists. split; [|reflexivity].
  set (l := take b (drop (readIndex s) (buffer s))).
  assert (Hl : (length l <= b)%nat) by (subst l; rewrite length_take; lia).
  assert (Hv : forall l : list bool, (0 <= value_of l <= 2 ^ Z.of_nat (length l) - 1)%Z).
  { clear. induction l as [|a l IH]; [cbn; lia|].
    cbn [value_of length]. rewrite Nat2Z.inj_succ, Z.pow_succ_r by lia.
    destruct a; cbn [Z.b2z]; lia. }
  specialize (Hv l).
  assert (2 ^ Z.of_nat (length l) <= 2 ^ Z.of_nat b)%Z by (apply Z.pow_le_mono_r; lia).
  lia.
Qed.

(** X1: whatever [readFloat] has returned is written and read back unchanged:
    a second round of encoding and decoding loses nothing. *)
Theorem float_reencoding_is_exact (min max : Q) (b : nat) (s0 s1 s : BitStream) (r : Q) :
  (1 <= b <= 30)%nat -> min < max ->
  readFloat min max b s0 = Some (r, s1) ->
  readIndex s = writeIndex s ->
  (writeIndex s + b <= length (buffer s))%nat ->
  reads_back (writeFloat r min max b) (readFloat min max b) s (fun r' => r' = r).
Proof.
  intros Hb Hmm Hread Hidx Hroom.
  destruct (readFloat_is_level min max b s0 s1 r Hread) as (k & Hk & ->).
  destruct (float_decodes (float_level min max b k) min max b s Hb Hmm Hidx Hroom)
    as (sa & r' & sb & Hw & Hr & -> & Hcur).
  exists sa. eexists. exists sb.
  split; [exact Hw|]. split; [exact Hr|]. split; [|exact Hcur].
  now rewrite float_field_level.
Qed.

Lemma float_reencoding_is_exact_witness :
  reads_back (writeFloat (1 # 3) 0 1 2) (readFloat 0 1 2) (alloc 1)
    (fun r' => r' = (1 # 3)).
Proof.
  pose (s0 := {| buffer := [true; false]; writeIndex := 2; readIndex := 0 |}).
  pose (s1 := {| buffer := [true; false]; writeIndex := 2; readIndex := 2 |}).
  assert (E : 0 + (1 - 0) * inject_Z 1 / inject_Z (shl 1 2 - 1) = 1 # 3) by reflexivity.
  rewrite <- E.
  apply (float_reencoding_is_exact 0 1 2 s0 s1 (alloc 1)).
  - lia.
  - reflexivity.
  - reflexivity.
  - reflexivity.
  - simpl. lia.
Defined.

(** X3: quantisation keeps the order: of two inputs, in or out of range, the
    smaller never reads back as the larger. *)
Theorem float_order_preserved (v1 v2 min max : Q) (b : nat) (s : BitStream) :
  (1 <= b <= 30)%nat -> min < max -> v1 <= v2 ->
  readIndex s = writeIndex s ->
  (writeIndex s + b <= length (buffer s))%nat ->
  exists r1 r2,
    reads_back (writeFloat v1 min max b) (readFloat min max b) s (fun r => r = r1)
    /\ reads_back (writeFloat v2 min max b) (readFloat min max b) s (fun r => r = r2)
    /\ r1 <= r2.
Proof.
  intros Hb Hmm Hv Hidx Hroom.
  exists (float_level min max b (float_field v1 min max b)),
         (float_level min max b (float_field v2 min max b)).
  split; [now apply float_decodes|]. split; [now apply float_decodes|].
  apply float_level_mono; [exact Hb | lra | now apply float_field_mono].
Qed.

Lemma float_order_preserved_witness :
  exists r1 r2,
    reads_back (writeFloat (1 # 3) 0 1 8) (readFloat 0 1 8) (alloc 1) (fun r => r = r1)
    /\ reads_back (writeFloat (1 # 2) 0 1 8) (readFloat 0 1 8) (alloc 1) (fun r => r = r2)
    /\ r1 <= r2.
Proof.
  apply (float_order_preserved (1 # 3) (1 # 2) 0 1 8 (alloc 1)).
  - lia.
  - reflexivity.
  - discriminate.
  - reflexivity.
  - simpl. lia.
Defined.

(** ** Typed pairs not met so far *)

Section ObjectTypePairs.
Variable ObjectType : Type.
Variable typeCategory : ObjectType -> Z.
Variable typeIdNumber : ObjectType -> Q.
Variable fromNumber : Z -> Z -> ObjectType.
Variable categoryOnly : Z -> ObjectType.
Variable ObjectDefinitionsList : Z -> option nat.

(** Writing the id number of a type, and what any reader placed at the old
    write cursor of the same buffer then reads. *)
Lemma writeObjectTypeNoCategory_spec (type : ObjectType) (idNumber : Z) (s : BitStream) :
  typeIdNumber type = inject_Z idNumber ->
  (forall bitCount, ObjectDefinitionsList (typeCategory type) = Some bitCount ->
     (bitCount <= 32)%nat /\ (0 <= idNumber < 2 ^ Z.of_nat bitCount)%Z) ->
  (writeIndex s + idNumber_bits ObjectDefinitionsList (typeCategory type)
   <= length (buffer s))%nat ->
  exists s1,
    writeObjectTypeNoCategory ObjectType typeCategory typeIdNumber
      ObjectDefinitionsList type s = Some s1
    /\ writeIndex s1
       = (writeIndex s + idNumber_bits ObjectDefinitionsList (typeCategory type))%nat
    /\ readIndex s1 = readIndex s
    /\ (forall i m z, (i + m <= writeIndex s)%nat -> field_at s i m z -> field_at s1 i m z)
    /\ (forall sr, buffer sr = buffer s1 -> readIndex sr = writeIndex s ->
          exists sr',
            readObjectTypeNoCategory ObjectType fromNumber categoryOnly
              ObjectDefinitionsList (typeCategory type) sr
            = Some (rebuilt ObjectType fromNumber categoryOnly ObjectDefinitionsList
                      (typeCategory type) idNumber, sr')
            /\ writeIndex sr' = writeIndex sr
            /\ readIndex sr' = writeIndex s1).
Proof.
  intros Hid Hfits Hroom.
  unfold writeObjectTypeNoCategory, readObjectTypeNoCategory, rebuilt, idNumber_bits in *.
  destruct (ObjectDefinitionsList (typeCategory type)) as [bitCount|] eqn:Hdef.
  - destruct (Hfits bitCount eq_refl) as [Hb Hk].
    destruct (writeBits_spec (inject_Z idNumber) bitCount s Hroom)
      as (s1 & Hw & Hwi & Hri & Hlen & Hf & Hfr).
    exists s1. rewrite Hid. split; [exact Hw|]. split; [exact Hwi|].
    split; [exact Hri|]. split; [exact Hfr|].
    intros sr Hbuf Hrd.
    assert (Hf' : field_at sr (readIndex sr) bitCount (ToInt32 (inject_Z idNumber))).
    { unfold field_at in *. rewrite Hbuf, Hrd. exact Hf. }
    rewrite (readBits_spec bitCount _ sr Hf'). cbn [mbind option_bind].
    unfold ToInt32. rewrite wrap32_mod by exact Hb.
    rewrite trunc_inject_Z, Z.mod_small by exact Hk.
    eexists. split; [reflexivity|]. cbn [readIndex writeIndex]. split; [reflexivity | lia].
  - exists s. split; [reflexivity|]. split; [lia|]. split; [reflexivity|].
    split; [auto|]. intros sr Hbuf Hrd. exists sr.
    split; [reflexivity|]. split; [reflexivity | lia].
Qed.

(** Writing an object type and reading it back, with and without the
    category tag. *)
Lemma object_type_roundtrip (type : ObjectType) (idNumber : Z) (s : BitStream) :
  (0 <= typeCategory type < 2 ^ Z.of_nat OBJECT_CATEGORY_BITS)%Z ->
  typeIdNumber type = inject_Z idNumber ->
  (forall bitCount, ObjectDefinitionsList (typeCategory type) = Some bitCount ->
     (bitCount <= 32)%nat /\ (0 <= idNumber < 2 ^ Z.of_nat bitCount)%Z) ->
  readIndex s = writeIndex s ->
  (writeIndex s + OBJECT_CATEGORY_BITS
   + idNumber_bits ObjectDefinitionsList (typeCategory type) <= length (buffer s))%nat ->
  reads_back
    (writeObjectType ObjectType typeCategory typeIdNumber ObjectDefinitionsList type)
    (readObjectType ObjectType fromNumber categoryOnly ObjectDefinitionsList) s
    (fun r => r = rebuilt ObjectType fromNumber categoryOnly ObjectDefinitionsList
                    (typeCategory type) idNumber)
  /\ reads_back
       (writeObjectTypeNoCategory ObjectType typeCategory typeIdNumber
          ObjectDefinitionsList type)
       (readObjectTypeNoCategory ObjectType fromNumber categoryOnly
          ObjectDefinitionsList (typeCategory type)) s
       (fun r => r = rebuilt ObjectType fromNumber categoryOnly ObjectDefinitionsList
                       (typeCategory type) idNumber)
  /\ (forall s', writeObjectType ObjectType typeCategory typeIdNumber
                   ObjectDefinitionsList type s = Some s' ->
        writeIndex s'
        = (writeIndex s + OBJECT_CATEGORY_BITS
           + idNumber_bits ObjectDefinitionsList (typeCategory type))%nat).
Proof.
  intros Hcat Hid Hfits Hidx Hroom.
  destruct (writeBits_spec (inject_Z (typeCategory type)) OBJECT_CATEGORY_BITS s
              ltac:(lia)) as (s1 & Hw1 & Hwi1 & Hri1 & Hlen1 & Hf1 & _).
  destruct (writeObjectTypeNoCategory_spec type idNumber s1 Hid Hfits ltac:(lia))
    as (s2 & Hw2 & Hwi2 & Hri2 & Hfr2 & Hrd2).
  assert (Hwrite : writeObjectType ObjectType typeCategory typeIdNumber
                     ObjectDefinitionsList type s = Some s2).
  { unfold writeObjectType. rewrite Hw1. cbn [mbind option_bind]. exact Hw2. }
  split; [|split].
  - assert (Hf : field_at s2 (readIndex s2) OBJECT_CATEGORY_BITS
                   (ToInt32 (inject_Z (typeCategory type)))).
    { rewrite Hri2, Hri1, Hidx. apply Hfr2; [lia | exact Hf1]. }
    destruct (Hrd2 {| buffer := buffer s2; writeIndex := writeIndex s2;
                      readIndex := readIndex s2 + OBJECT_CATEGORY_BITS |})
      as (s3 & Hr3 & Hwi3 & Hri3).
    { reflexivity. }
    { cbn [readIndex]. lia. }
    exists s2, (rebuilt ObjectType fromNumber categoryOnly ObjectDefinitionsList
                  (typeCategory type) idNumber), s3.
    split; [exact Hwrite|]. split; [|split; [reflexivity|]].
    + unfold readObjectType. rewrite (readBits_spec OBJECT_CATEGORY_BITS _ s2 Hf).
      cbn [mbind option_bind]. unfold ToInt32.
      rewrite wrap32_mod by (vm_compute; lia).
      rewrite trunc_inject_Z, Z.mod_small by exact Hcat. exact Hr3.
    + rewrite Hri3, Hwi3. reflexivity.
  - destruct (writeObjectTypeNoCategory_spec type idNumber s Hid Hfits ltac:(lia))
      as (sa & Hwa & Hwia & Hria & _ & Hrda).
    destruct (Hrda sa eq_refl) as (sb & Hrb & Hwib & Hrib).
    { rewrite Hria. exact Hidx. }
    exists sa. eexists. exists sb. split; [exact Hwa|]. split; [exact Hrb|].
    split; [reflexivity|]. rewrite Hrib, Hwib. reflexivity.
  - intros s' Hs'. rewrite Hwrite in Hs'. injection Hs' as <-. lia.
Qed.
(** X6: an object type is read back as the type rebuilt from its category and
    id number ([fromNumber] for a category with definitions, [categoryOnly]
    for any other), with or without the category tag, and the writer advances
    by the width of the tag plus the bit count of the category's definitions. *)
Theorem object_type_read_back (type : ObjectType) (idNumber : Z) (s : BitStream) :
  (0 <= typeCategory type < 2 ^ Z.of_nat OBJECT_CATEGORY_BITS)%Z ->
  typeIdNumber type = inject_Z idNumber ->
  (forall bitCount, ObjectDefinitionsList (typeCategory type) = Some bitCount ->
     (bitCount <= 32)%nat /\ (0 <= idNumber < 2 ^ Z.of_nat bitCount)%Z) ->
  readIndex s = writeIndex s ->
  (writeIndex s + OBJECT_CATEGORY_BITS
   + idNumber_bits ObjectDefinitionsList (typeCategory type) <= length (buffer s))%nat ->
  reads_back
    (writeObjectType ObjectType typeCategory typeIdNumber ObjectDefinitionsList type)
    (readObjectType ObjectType fromNumber categoryOnly ObjectDefinitionsList) s
    (fun r => r = rebuilt ObjectType fromNumber categoryOnly ObjectDefinitionsList
                    (typeCategory type) idNumber)
  /\ reads_back
       (writeObjectTypeNoCategory ObjectType typeCategory typeIdNumber
          ObjectDefinitionsList type)
       (readObjectTypeNoCategory ObjectType fromNumber categoryOnly
          ObjectDefinitionsList (typeCategory type)) s
       (fun r => r = rebuilt ObjectType fromNumber categoryOnly ObjectDefinitionsList
                       (typeCategory type) idNumber)
  /\ (forall s', writeObjectType ObjectType typeCategory typeIdNumber
                   ObjectDefinitionsList type s = Some s' ->
        writeIndex s'
        = (writeIndex s + OBJECT_CATEGORY_BITS
           + idNumber_bits ObjectDefinitionsList (typeCategory type))%nat).
Proof. exact (object_type_roundtrip type idNumber s). Qed.
End ObjectTypePairs.

(** A table with definitions for the categories 1 (64 of them) and 4 (32),
    over object types that are pairs of a category and an id number. *)
Lemma object_type_read_back_witness :
  let ObjectType := (Z * Z)%type in
  let typeCategory := fun t : ObjectType => fst t in
  let typeIdNumber := fun t : ObjectType => inject_Z (snd t) in
  let fromNumber := fun category idNumber : Z => (category, idNumber) in
  let categoryOnly := fun category : Z => (category, (-1)%Z) in
  let ObjectDefinitionsList := fun category : Z =>
        if (category =? 1)%Z then Some 6%nat
        else if (category =? 4)%Z then Some 5%nat else None in
  let type : ObjectType := (4, 17)%Z in
  reads_back
    (writeObjectType ObjectType typeCategory typeIdNumber ObjectDefinitionsList type)
    (readObjectType ObjectType fromNumber categoryOnly ObjectDefinitionsList) (alloc 1)
    (fun r => r = rebuilt ObjectType fromNumber categoryOnly ObjectDefinitionsList
                    (typeCategory type) 17)
  /\ reads_back
       (writeObjectTypeNoCategory ObjectType typeCategory typeIdNumber
          ObjectDefinitionsList type)
       (readObjectTypeNoCategory ObjectType fromNumber categoryOnly
          ObjectDefinitionsList (typeCategory type)) (alloc 1)
       (fun r => r = rebuilt ObjectType fromNumber categoryOnly ObjectDefinitionsList
                       (typeCategory type) 17)
  /\ (forall s', writeObjectType ObjectType typeCategory typeIdNumber
                   ObjectDefinitionsList type (alloc 1) = Some s' ->
        writeIndex s'
        = (writeIndex (alloc 1) + OBJECT_CATEGORY_BITS
           + idNumber_bits ObjectDefinitionsList (typeCategory type))%nat).
Proof.
  cbv zeta.
  apply (object_type_read_back (Z * Z)%type (fun t => fst t)
           (fun t => inject_Z (snd t)) (fun category idNumber => (category, idNumber))
           (fun category => (category, (-1)%Z))
           (fun category => if (category =? 1)%Z then Some 6%nat
                            else if (category =? 4)%Z then Some 5%nat else None)
           (4, 17)%Z 17 (alloc 1)).
  - vm_compute. split; [discriminate | reflexivity].
  - reflexivity.
  - intros bitCount H. cbn in H. injection H as <-. split; [lia|]. vm_compute.
    split; [discriminate | reflexivity].
  - reflexivity.
  - vm_compute. lia.
Defined.

(** X7: the bit count computed for an enumeration holds every one of its
    members, each member is read back as written, and no smaller count would
    do. *)
Theorem enum_bits_hold_every_member (members : nat) (k : Z) (s : BitStream) :
  (1 <= members)%nat -> (Z.of_nat members <= 2 ^ 32)%Z ->
  (0 <= k < Z.of_nat members)%Z ->
  readIndex s = writeIndex s ->
  (writeIndex s + calculateEnumPacketBits members <= length (buffer s))%nat ->
  reads_back (writeBits (inject_Z k) (calculateEnumPacketBits members))
             (readBits (calculateEnumPacketBits members)) s (fun r => r = k)
  /\ (Z.of_nat members <= 2 ^ Z.of_nat (calculateEnumPacketBits members))%Z
  /\ ((2 <= members)%nat ->
      (2 ^ (Z.of_nat (calculateEnumPacketBits members) - 1) < Z.of_nat members)%Z).
Proof.
  intros Hm H32 Hk Hidx Hroom.
  unfold calculateEnumPacketBits, enum_keys in *.
  replace (2 * Z.of_nat members / 2)%Z with (Z.of_nat members) in *
    by (rewrite Z.mul_comm, Z.div_mul; lia).
  set (n := Z.of_nat members) in *.
  assert (Hnonneg : (0 <= Z.log2_up n)%Z) by apply Z.log2_up_nonneg.
  rewrite Z2Nat.id in * by exact Hnonneg.
  assert (Hup : (n <= 2 ^ Z.log2_up n)%Z).
  { destruct (decide (n = 1%Z)) as [->|Hne]; [cbn; lia|].
    apply Z.log2_up_spec. lia. }
  assert (Hle : (Z.log2_up n <= 32)%Z).
  { apply Z.log2_up_le_pow2; lia. }
  split; [|split].
  - apply raw_roundtrip; [lia | rewrite Z2Nat.id by exact Hnonneg; lia | exact Hidx | exact Hroom].
  - exact Hup.
  - intros H2. replace (Z.log2_up n - 1)%Z with (Z.pred (Z.log2_up n)) by lia.
    apply Z.log2_up_spec. lia.
Qed.

Lemma enum_bits_hold_every_member_witness :
  reads_back (writeBits (inject_Z 9) (calculateEnumPacketBits PacketType_members))
             (readBits (calculateEnumPacketBits PacketType_members)) (alloc 1)
             (fun r => r = 9%Z)
  /\ (Z.of_nat PacketType_members
      <= 2 ^ Z.of_nat (calculateEnumPacketBits PacketType_members))%Z
  /\ ((2 <= PacketType_members)%nat ->
      (2 ^ (Z.of_nat (calculateEnumPacketBits PacketType_members) - 1)
       < Z.of_nat PacketType_members)%Z).
Proof.
  apply (enum_bits_hold_every_member PacketType_members 9 (alloc 1)).
  - unfold PacketType_members. lia.
  - vm_compute. discriminate.
  - unfold PacketType_members. lia.
  - reflexivity.
  - vm_compute. lia.
Defined.

(** ** Interpolation (server/src/utils/misc.ts) *)

(** X8: [lerp] starts at [start], ends at [end], stays between the two for a
    percentage in [[0,1]], and read backwards it is the interpolation from the
    other end; [vecLerp] is [lerp] on each coordinate. *)
Theorem lerp_between (start end_ percentage : Q) (a b : Vector) :
  lerp start end_ 0 == start
  /\ lerp start end_ 1 == end_
  /\ (0 <= percentage <= 1 -> between (lerp start end_ percentage) start end_)
  /\ lerp start end_ percentage == lerp end_ start (1 - percentage)
  /\ x (vecLerp a b percentage) = lerp (x a) (x b) percentage
  /\ y (vecLerp a b percentage) = lerp (y a) (y b) percentage.
Proof.
  unfold lerp, between. split; [ring|]. split; [ring|]. split; [|split; [ring|]].
  - intros [H0 H1]. destruct (Qlt_le_dec start end_) as [Hlt|Hge].
    + left. split; nra.
    + right. split; nra.
  - split; reflexivity.
Qed.

(** ** Gas: cadence, stages and the safe map *)

Section GasCadence.
Variable mode : GasMode.
Variable overrideDuration : Q.
Variable GasStages : list GasStage.
Variable randomPointInsideCircle : Vector -> Q -> Vector.

Abbreviation advance := (advanceGas mode overrideDuration GasStages randomPointInsideCircle).
Abbreviation step := (gas_step mode overrideDuration GasStages randomPointInsideCircle).
Abbreviation run := (gas_run mode overrideDuration GasStages randomPointInsideCircle).

Lemma run_app (es es' : list GasEvent) (G : GasGame) :
  run (es ++ es') G = run es' (run es G).
Proof. unfold gas_run. apply fold_left_app. Qed.

Lemma advance_counter (G : GasGame) :
  ticksSinceLastDamage (gas (fst (advance G))) = ticksSinceLastDamage (gas G).
Proof.
  unfold advanceGas. destruct mode; try reflexivity;
    destruct (GasStages !! _); reflexivity.
Qed.

Lemma tick_counter (d : Q) (G : GasGame) :
  (ticksSinceLastDamage (gas G) < 30)%nat ->
  ticksSinceLastDamage (gas (fst (tickGas d G)))
  = (S (ticksSinceLastDamage (gas G)) mod 30)%nat
  /\ (snd (tickGas d G) = true <-> (S (ticksSinceLastDamage (gas G)) mod 30 = 0)%nat).
Proof.
  intros Hc. unfold tickGas. cbn [fst snd gas ticksSinceLastDamage].
  set (c := ticksSinceLastDamage (gas G)) in *.
  destruct (30 <=? S c)%nat eqn:E.
  - apply Nat.leb_le in E. assert (S c = 30)%nat as -> by lia.
    split; [reflexivity | split; reflexivity].
  - apply Nat.leb_gt in E. rewrite Nat.mod_small by lia.
    split; [reflexivity | split; [discriminate | lia]].
Qed.

Lemma succ_mod_30 (c : nat) : (S (c mod 30) mod 30 = S c mod 30)%nat.
Proof.
  replace (S (c mod 30)) with (c mod 30 + 1)%nat by lia.
  replace (S c) with (c + 1)%nat by lia.
  apply Nat.Div0.add_mod_idemp_l.
Qed.

Lemma run_counter (es : list GasEvent) (G : GasGame) :
  (ticksSinceLastDamage (gas G) < 30)%nat ->
  ticksSinceLastDamage (gas (run es G))
  = ((ticksSinceLastDamage (gas G) + ticks_of es) mod 30)%nat.
Proof.
  intros Hc. induction es as [|e es IH] using rev_ind.
  - unfold gas_run, ticks_of. cbn [fold_left List.filter length].
    rewrite Nat.add_0_r. symmetry. now apply Nat.mod_small.
  - rewrite run_app. cbn [gas_run fold_left].
    unfold ticks_of in *. rewrite List.filter_app, length_app.
    assert (Hlt : (ticksSinceLastDamage (gas (run es G)) < 30)%nat)
      by (rewrite IH; apply Nat.mod_upper_bound; lia).
    destruct e as [d|]; cbn [gas_step List.filter is_tick length].
    + destruct (tick_counter d (run es G) Hlt) as [-> _]. rewrite IH.
      rewrite succ_mod_30. f_equal. lia.
    + rewrite advance_counter, IH. f_equal. lia.
Qed.

(** X9: gas damage falls due on every thirtieth tick and on no other, however
    the calls of [advanceGas] are interleaved: the tick counter is the number
    of ticks so far modulo 30. *)
Theorem gas_damage_every_30_ticks (es : list GasEvent) (d t0 : Q) :
  ticksSinceLastDamage (gas (run es (new_game t0))) = (ticks_of es mod 30)%nat
  /\ (snd (tickGas d (run es (new_game t0))) = true
      <-> (S (ticks_of es) mod 30 = 0)%nat).
Proof.
  assert (H0 : (ticksSinceLastDamage (gas (new_game t0)) < 30)%nat) by (cbn; lia).
  pose proof (run_counter es (new_game t0) H0) as Hrun. cbn [new_game gas initial_gas
    ticksSinceLastDamage Nat.add] in Hrun.
  split; [exact Hrun|].
  assert (Hlt : (ticksSinceLastDamage (gas (run es (new_game t0))) < 30)%nat)
    by (rewrite Hrun; apply Nat.mod_upper_bound; lia).
  destruct (tick_counter d _ Hlt) as [_ ->]. rewrite Hrun.
  now rewrite succ_mod_30.
Qed.

Lemma advance_stage (G : GasGame) :
  stage (gas (fst (advance G)))
  = match mode with
    | Disabled => stage (gas G)
    | _ => if decide (S (stage (gas G)) < length GasStages)%nat
           then S (stage (gas G)) else stage (gas G)
    end.
Proof.
  unfold advanceGas. destruct mode.
  - destruct (GasStages !! _) eqn:E.
    + apply lookup_lt_Some in E. rewrite decide_True by lia. reflexivity.
    + apply lookup_ge_None in E. rewrite decide_False by lia. reflexivity.
  - destruct (GasStages !! _) eqn:E.
    + apply lookup_lt_Some in E. rewrite decide_True by lia. reflexivity.
    + apply lookup_ge_None in E. rewrite decide_False by lia. reflexivity.
  - reflexivity.
Qed.

(** X10: the stage index is the number of calls of [advanceGas] so far, capped
    at the last index of the stage table; with the gas disabled it stays 0.
    Ticks never move it, and a call past the end of the table changes
    nothing and schedules nothing. *)
Theorem gas_stage_counts_advances (es : list GasEvent) (t0 : Q) (G : GasGame) :
  stage (gas (run es (new_game t0)))
  = match mode with
    | Disabled => 0%nat
    | _ => Nat.min (advances_of es) (length GasStages - 1)
    end
  /\ ((length GasStages <= S (stage (gas G)))%nat -> advance G = (G, None)).
Proof.
  split.
  - induction es as [|e es IH] using rev_ind.
    + cbn. now destruct mode.
    + rewrite run_app. cbn [gas_run fold_left].
      unfold advances_of in *. rewrite List.filter_app, length_app.
      destruct e as [d|]; cbn [gas_step List.filter is_tick negb length].
      * unfold tickGas. cbn [fst gas stage]. rewrite IH, Nat.add_0_r. reflexivity.
      * rewrite advance_stage, IH. destruct mode; [| |reflexivity];
          (destruct (decide _); lia).
  - intros Hend. unfold advanceGas.
    assert (E : GasStages !! (stage (gas G) + 1)%nat = None)
      by (apply lookup_ge_None; lia).
    rewrite E. now destruct mode.
Qed.

Lemma tick_inactive (d : Q) (G : GasGame) :
  state (gas G) = Inactive ->
  state (gas (fst (tickGas d G))) = Inactive
  /\ currentRadius (gas (fst (tickGas d G))) = currentRadius (gas G)
  /\ currentPosition (gas (fst (tickGas d G))) = currentPosition (gas G).
Proof.
  intros Hs. unfold tickGas. cbn [fst gas state currentRadius currentPosition].
  rewrite Hs. cbn [GasState_eqb]. rewrite andb_false_r. auto.
Qed.
End GasCadence.

Lemma initial_gas_is_off_the_map (position : Vector) (g : Gas) :
  on_the_map position ->
  currentRadius g = 512 -> currentPosition g = v 360 360 ->
  isInGas position g = false.
Proof.
  intros (Hx0 & Hx1 & Hy0 & Hy1) Hr Hp. unfold isInGas, distanceSquared.
  rewrite Hr, Hp. cbn [x y]. unfold Map_width, Map_height in *.
  destruct (Qle_bool _ _) eqn:E; [|reflexivity].
  apply Qle_bool_iff in E.
  assert (H512 : (512 : Q) ^ 2 == 262144) by reflexivity. rewrite H512 in E.
  nra.
Qed.

(** X11: until [advanceGas] is first called, and for ever when the gas is
    disabled, no position on the map is in the gas. *)
Theorem map_is_safe_before_gas (mode : GasMode) (overrideDuration : Q)
    (GasStages : list GasStage) (randomPointInsideCircle : Vector -> Q -> Vector)
    (times : list Q) (es : list GasEvent) (t0 : Q) (position : Vector) :
  on_the_map position ->
  isInGas position
    (gas (gas_run mode overrideDuration GasStages randomPointInsideCircle
            (map Tick times) (new_game t0))) = false
  /\ isInGas position
       (gas (gas_run Disabled overrideDuration GasStages randomPointInsideCircle
               es (new_game t0))) = false.
Proof.
  intros Hmap.
  assert (Hinv : forall m es,
             (m = Disabled \/ advances_of es = 0%nat) ->
             let G := gas_run m overrideDuration GasStages randomPointInsideCircle
                        es (new_game t0) in
             state (gas G) = Inactive /\ currentRadius (gas G) = 512
             /\ currentPosition (gas G) = v 360 360).
  { intros m l Hm. cbv zeta. induction l as [|e l IH] using rev_ind.
    - cbn. auto.
    - rewrite run_app. cbn [gas_run fold_left].
      assert (Hm' : m = Disabled \/ advances_of l = 0%nat).
      { destruct Hm as [Hm|Hm]; [now left | right].
        unfold advances_of in *. rewrite List.filter_app, length_app in Hm. lia. }
      destruct (IH Hm') as (Hs & Hr & Hp).
      destruct e as [d|]; cbn [gas_step].
      + destruct (tick_inactive d _ Hs) as (-> & -> & ->). auto.
      + destruct Hm as [->|Hm].
        * cbn [advanceGas fst]. auto.
        * unfold advances_of in Hm. rewrite List.filter_app, length_app in Hm.
          cbn in Hm. lia. }
  split.
  - destruct (Hinv mode (map Tick times)) as (_ & Hr & Hp).
    { right. unfold advances_of. induction times as [|t l IH]; [reflexivity | exact IH]. }
    now apply initial_gas_is_off_the_map.
  - destruct (Hinv Disabled es ltac:(now left)) as (_ & Hr & Hp).
    now apply initial_gas_is_off_the_map.
Qed.

Lemma map_is_safe_before_gas_witness :
  isInGas (v 0 720)
    (gas (gas_run Normal 0 sample_stages (fun p _ => p)
            (map Tick [30; 60; 90]) (new_game 0))) = false
  /\ isInGas (v 0 720)
       (gas (gas_run Disabled 0 sample_stages (fun p _ => p)
               [AdvanceGas; Tick 30; AdvanceGas] (new_game 0))) = false.
Proof.
  apply (map_is_safe_before_gas Normal 0 sample_stages (fun p _ => p)
           [30; 60; 90] [AdvanceGas; Tick 30; AdvanceGas] 0 (v 0 720)).
  unfold on_the_map. cbn. repeat split; discriminate.
Defined.

(** X12: on a damage tick of an advancing stage that falls within the stage, the
    radius lies between the old and the new radius and the centre between the
    old and the new centre; at the very end of the stage both are on target. *)
Theorem advancing_gas_stays_between (Date_now : Q) (G : GasGame) :
  state (gas G) = Advancing ->
  ticksSinceLastDamage (gas G) = 29%nat ->
  0 < initialDuration (gas G) ->
  countdownStart (gas G) <= Date_now <= countdownStart (gas G) + 1000 * initialDuration (gas G) ->
  let g := gas G in
  let g' := gas (fst (tickGas Date_now G)) in
  between (currentRadius g') (oldRadius g) (newRadius g)
  /\ between (x (currentPosition g')) (x (oldPosition g)) (x (newPosition g))
  /\ between (y (currentPosition g')) (y (oldPosition g)) (y (newPosition g))
  /\ (Date_now == countdownStart g + 1000 * initialDuration g ->
      currentRadius g' == newRadius g
      /\ x (currentPosition g') == x (newPosition g)
      /\ y (currentPosition g') == y (newPosition g)).
Proof.
  intros Hs Hc Hd [Hlo Hhi]. cbv zeta.
  unfold tickGas. cbn [fst gas currentRadius currentPosition].
  rewrite Hs, Hc. cbn [GasState_eqb negb Nat.leb andb].
  set (p := (Date_now - countdownStart (gas G)) / (1000 * initialDuration (gas G))).
  assert (Hp : 0 <= p <= 1).
  { subst p. split.
    - apply Qle_shift_div_l; lra.
    - apply Qle_shift_div_r; lra. }
  assert (Hbetween : forall a b, between (a * (1 - p) + b * p) a b).
  { intros a b. unfold between. destruct (Qlt_le_dec a b); [left | right]; split; nra. }
  split; [apply Hbetween|]. split; [apply Hbetween|]. split; [apply Hbetween|].
  intros Hend.
  assert (Hp1 : p == 1).
  { subst p. rewrite Hend. field. lra. }
  unfold lerp. cbn [x y vecLerp]. rewrite !Hp1. repeat split; ring.
Qed.

Lemma advancing_gas_stays_between_witness :
  let G := gas_run Normal 0 sample_stages (fun p _ => p)
             ([AdvanceGas; AdvanceGas] ++ removelast (thirty_ticks 900)) (new_game 0) in
  let g := gas G in
  let g' := gas (fst (tickGas 900 G)) in
  between (currentRadius g') (oldRadius g) (newRadius g)
  /\ between (x (currentPosition g')) (x (oldPosition g)) (x (newPosition g))
  /\ between (y (currentPosition g')) (y (oldPosition g)) (y (newPosition g))
  /\ (900 == countdownStart g + 1000 * initialDuration g ->
      currentRadius g' == newRadius g
      /\ x (currentPosition g') == x (newPosition g)
      /\ y (currentPosition g') == y (newPosition g)).
Proof.
  cbv zeta.
  apply (advancing_gas_stays_between 900
           (gas_run Normal 0 sample_stages (fun p _ => p)
              ([AdvanceGas; AdvanceGas] ++ removelast (thirty_ticks 900)) (new_game 0))).
  - vm_compute. reflexivity.
  - vm_compute. reflexivity.
  - vm_compute. reflexivity.
  - vm_compute. split; discriminate.
Defined.

(** ** Visible objects: the precomputed part *)

Lemma Math_round_near (c : Q) :
  c - 5 < inject_Z (Math_round (c / 10) * 10) /\ inject_Z (Math_round (c / 10) * 10) <= c + 5.
Proof.
  unfold Math_round.
  assert (Hq : c / 10 * 10 == c) by (field; discriminate).
  set (q := c / 10) in *.
  pose proof (Qfloor_le (q + (1 # 2))) as Hfl.
  pose proof (Qlt_floor (q + (1 # 2))) as Hfu.
  rewrite inject_Z_plus in Hfu. change (inject_Z 1) with 1 in Hfu.
  rewrite inject_Z_mult. change (inject_Z 10) with 10.
  split; lra.
Qed.

Lemma not_on_the_map (pos : Vector) :
  ~ on_the_map pos ->
  Qlt_bool (x pos) 0 || Qlt_bool Map_width (x pos)
  || Qlt_bool (y pos) 0 || Qlt_bool Map_height (y pos) = true.
Proof.
  intros Hoff. unfold on_the_map in Hoff.
  destruct (Qlt_bool (x pos) 0) eqn:E1; [reflexivity|].
  destruct (Qlt_bool Map_width (x pos)) eqn:E2; [reflexivity|].
  destruct (Qlt_bool (y pos) 0) eqn:E3; [reflexivity|].
  destruct (Qlt_bool Map_height (y pos)) eqn:E4; [reflexivity|].
  apply Qlt_bool_false in E1, E2, E3, E4. exfalso. apply Hoff. auto.
Qed.

Lemma calculateVisibleObjects_levels (g0 : Game.t) (zoomLevel : Z) :
  Game.visibleObjects g0 = ∅ -> zoomLevel ∉ supportedZoomLevels ->
  Game.visibleObjects (calculateVisibleObjects g0) !! zoomLevel = None.
Proof.
  intros Hempty Hz. destruct (_ !! zoomLevel) eqn:E; [|reflexivity].
  exfalso. apply Hz. apply (grid_built_levels (calculateVisibleObjects g0)).
  - exists g0. split; [exact Hempty | reflexivity].
  - rewrite E. eexists. reflexivity.
Qed.

Lemma calculateVisibleObjects_level_some (g0 : Game.t) (zoomLevel : Z) :
  zoomLevel ∈ supportedZoomLevels ->
  is_Some (Game.visibleObjects (calculateVisibleObjects g0) !! zoomLevel).
Proof.
  intros Hz.
  pose proof (calculateVisibleObjects_cell g0 zoomLevel 0 0 Hz ltac:(lia) ltac:(lia)) as H.
  unfold precomputed in H.
  destruct (_ !! zoomLevel); [eexists; reflexivity | discriminate H].
Qed.

(** X13: once the map has computed the grid, [getVisibleObjects] throws for a
    zoom level that is not supported, returns the empty set for a position off
    the map, and for a position on the map the set computed for the nearest
    grid point. *)
Theorem getVisibleObjects_by_cases (pos : Vector) (zoomLevel : Z) (g0 : Game.t) :
  Game.visibleObjects g0 = ∅ ->
  (zoomLevel ∉ supportedZoomLevels ->
   getVisibleObjects pos zoomLevel (calculateVisibleObjects g0) = None)
  /\ (zoomLevel ∈ supportedZoomLevels -> ~ on_the_map pos ->
      getVisibleObjects pos zoomLevel (calculateVisibleObjects g0) = Some ∅)
  /\ (zoomLevel ∈ supportedZoomLevels -> on_the_map pos ->
      getVisibleObjects pos zoomLevel (calculateVisibleObjects g0)
      = Some (cellObjects g0 zoomLevel (Math_round (x pos / 10)) (Math_round (y pos / 10)))).
Proof.
  intros Hempty. split; [|split].
  - intros Hz. unfold getVisibleObjects.
    now rewrite (calculateVisibleObjects_levels g0 zoomLevel Hempty Hz).
  - intros Hz Hoff. unfold getVisibleObjects.
    destruct (calculateVisibleObjects_level_some g0 zoomLevel Hz) as [atZoom ->].
    cbn [mbind option_bind]. now rewrite (not_on_the_map pos Hoff).
  - intros Hz Hmap. apply getVisibleObjects_on_the_map; [exact Hmap|].
    destruct Hmap as (Hx0 & Hx1 & Hy0 & Hy1).
    apply calculateVisibleObjects_cell; [exact Hz | |]; now apply Math_round_cell.
Qed.


Lemma getVisibleObjects_by_cases_witness :
  (64%Z ∉ supportedZoomLevels ->
   getVisibleObjects (v 0 60) 64 (calculateVisibleObjects window_scenario) = None)
  /\ (64%Z ∈ supportedZoomLevels -> ~ on_the_map (v 0 60) ->
      getVisibleObjects (v 0 60) 64 (calculateVisibleObjects window_scenario) = Some ∅)
  /\ (64%Z ∈ supportedZoomLevels -> on_the_map (v 0 60) ->
      getVisibleObjects (v 0 60) 64 (calculateVisibleObjects window_scenario)
      = Some (cellObjects window_scenario 64 (Math_round (x (v 0 60) / 10))
                (Math_round (y (v 0 60) / 10)))).
Proof.
  apply (getVisibleObjects_by_cases (v 0 60) 64 window_scenario).
  reflexivity.
Defined.

(** X14: for a position on the map and a supported zoom level [Z],
    [getVisibleObjects] returns static objects only, each strictly within
    [Z * 1.75 + 5] of the position across and [Z * 1.35 + 5] up and down, and
    it returns every static object strictly within [Z * 1.75 - 5] and
    [Z * 1.35 - 5]. *)
Theorem visible_statics_within_margin (pos : Vector) (zoomLevel : Z) (g0 : Game.t) :
  Game.visibleObjects g0 = ∅ -> zoomLevel ∈ supportedZoomLevels -> on_the_map pos ->
  exists cell,
    getVisibleObjects pos zoomLevel (calculateVisibleObjects g0) = Some cell
    /\ (forall o, o ∈ cell ->
          o ∈ Game.staticObjects g0
          /\ strictly_within (position (Game.objects g0 o)) (x pos) (y pos)
               (inject_Z zoomLevel * (175 # 100) + 5)
               (inject_Z zoomLevel * (135 # 100) + 5))
    /\ (forall o, o ∈ Game.staticObjects g0 ->
          strictly_within (position (Game.objects g0 o)) (x pos) (y pos)
            (inject_Z zoomLevel * (175 # 100) - 5)
            (inject_Z zoomLevel * (135 # 100) - 5) ->
          o ∈ cell).
Proof.
  intros Hempty Hz Hmap.
  eexists. split.
  { apply getVisibleObjects_on_the_map; [exact Hmap|].
    destruct Hmap as (Hx0 & Hx1 & Hy0 & Hy1).
    apply calculateVisibleObjects_cell; [exact Hz | |]; now apply Math_round_cell. }
  pose proof (Math_round_near (x pos)) as [Hx1 Hx2].
  pose proof (Math_round_near (y pos)) as [Hy1 Hy2].
  split.
  - intros o Ho. apply elem_of_cellObjects in Ho as [Hs Hw]. split; [exact Hs|].
    unfold strictly_within in *. lra.
  - intros o Hs Hw. apply elem_of_cellObjects. split; [exact Hs|].
    unfold strictly_within in *. lra.
Qed.

Lemma visible_statics_within_margin_witness :
  exists cell,
    getVisibleObjects (v 3 4) 48 (calculateVisibleObjects window_scenario) = Some cell
    /\ (forall o, o ∈ cell ->
          o ∈ Game.staticObjects window_scenario
          /\ strictly_within (position (Game.objects window_scenario o)) (x (v 3 4)) (y (v 3 4))
               (inject_Z 48 * (175 # 100) + 5)
               (inject_Z 48 * (135 # 100) + 5))
    /\ (forall o, o ∈ Game.staticObjects window_scenario ->
          strictly_within (position (Game.objects window_scenario o)) (x (v 3 4)) (y (v 3 4))
            (inject_Z 48 * (175 # 100) - 5)
            (inject_Z 48 * (135 # 100) - 5) ->
          o ∈ cell).
Proof.
  apply (visible_statics_within_margin (v 3 4) 48 window_scenario).
  - reflexivity.
  - apply list_elem_of_here.
  - unfold on_the_map. cbn. repeat split; discriminate.
Defined.

(** ** Visible objects: the whole set *)

(** The loop over the dynamic objects adds to the new visible set exactly the
    objects in the window. *)
Lemma fold_visit_members (this : ObjRef) (minX minY maxX maxY : Q)
    (l : list ObjRef) (nv : gset ObjRef) (g : Game.t) (o : ObjRef) :
  o ∈ fst (fold_left (visitDynamicObject this minX minY maxX maxY) l (nv, g))
  <-> o ∈ nv
      \/ (o ∈ l /\ in_window (position (Game.objects g o)) minX minY maxX maxY = true).
Proof.
  revert nv g. induction l as [|ob l IH]; intros nv g.
  - cbn. split; [auto | intros [H|[H _]]; [exact H | now apply elem_of_nil in H]].
  - cbn [fold_left].
    pose proof (visitDynamicObject_grows this minX minY maxX maxY nv g ob) as [_ Hg].
    assert (Hfst : fst (visitDynamicObject this minX minY maxX maxY (nv, g) ob)
                   = if in_window (position (Game.objects g ob)) minX minY maxX maxY
                     then {[ob]} ∪ nv else nv).
    { unfold visitDynamicObject. destruct (in_window _ _ _ _ _); [reflexivity|].
      now case_decide. }
    destruct (visitDynamicObject this minX minY maxX maxY (nv, g) ob) as [nv1 g1].
    cbn [fst snd] in Hg, Hfst. rewrite IH, Hfst.
    rewrite (position_grows _ _ (Hg o)). rewrite elem_of_cons.
    destruct (in_window (position (Game.objects g ob)) minX minY maxX maxY) eqn:E.
    + rewrite elem_of_union, elem_of_singleton. split.
      * intros [[->|H]|[H1 H2]]; auto.
      * intros [H|[[->|H1] H2]]; auto.
    + split.
      * intros [H|[H1 H2]]; auto.
      * intros [H|[[->|H1] H2]]; auto. congruence.
Qed.

(** What the loop never writes stays as it is, in every object. *)
Lemma fold_visit_keeps {A : Type} (proj : GameObject -> A) (this : ObjRef)
    (minX minY maxX maxY : Q) (l : list ObjRef) (nv : gset ObjRef) (g : Game.t) :
  (forall s p, proj (with_fullDirtyObjects s p) = proj p) ->
  (forall s p, proj (with_deletedObjects s p) = proj p) ->
  (forall s p, proj (with_visibleObjects s p) = proj p) ->
  forall r,
    proj (Game.objects
            (snd (fold_left (visitDynamicObject this minX minY maxX maxY) l (nv, g))) r)
    = proj (Game.objects g r).
Proof.
  intros Hf Hd Hv. revert nv g. induction l as [|ob l IH]; intros nv g r; [reflexivity|].
  cbn [fold_left].
  assert (Hstep : proj (Game.objects
                          (snd (visitDynamicObject this minX minY maxX maxY (nv, g) ob)) r)
                  = proj (Game.objects g r)).
  { assert (Hupd : forall (f : GameObject -> GameObject) r' g0,
               (forall p, proj (f p) = proj p) ->
               proj (Game.objects (updObject r' f g0) r) = proj (Game.objects g0 r)).
    { intros f r' g0 Hfp. destruct (decide (r' = r)) as [->|Hne].
      - now rewrite objects_updObject.
      - now rewrite objects_updObject_ne. }
    unfold visitDynamicObject. destruct (in_window _ _ _ _ _).
    - cbn [snd].
      set (g1 := if decide (ob ∈ visibleObjects (Game.objects g this)) then g else _).
      assert (H1 : proj (Game.objects g1 r) = proj (Game.objects g r)).
      { subst g1. case_decide; [reflexivity|]. apply Hupd. intros p. apply Hf. }
      destruct (_ && _ && _); [|exact H1].
      rewrite Hupd; [exact H1|]. intros p. now rewrite Hf, Hv.
    - case_decide; cbn [snd]; [|reflexivity]. apply Hupd. intros p. apply Hd. }
  destruct (visitDynamicObject this minX minY maxX maxY (nv, g) ob) as [nv1 g1].
  cbn [snd] in Hstep. now rewrite IH.
Qed.

Lemma updateVisibleObjects_members (this : ObjRef) (g : Game.t) :
  (forall g', updateVisibleObjects this g = Some g' ->
        exists near start,
          getVisibleObjects (position (Game.objects g this)) 48 g = Some near
          /\ startingCell this g = Some start
          /\ (forall o, o ∈ visibleObjects (Game.objects g' this)
                <-> o ∈ start
                    \/ (o ∈ Game.dynamicObjects g
                        /\ in_cull_window (Game.objects g this) (Game.objects g o) = true))
          /\ nearObjects (Game.objects g' this) = near
          /\ movesSinceLastUpdate (Game.objects g' this) = 0%nat).
Proof.
  unfold updateVisibleObjects, startingCell.
  set (g0 := updObject this (with_movesSinceLastUpdate 0%nat) g).
  assert (E0 : Game.objects g0 this = with_movesSinceLastUpdate 0%nat (Game.objects g this))
    by apply objects_updObject.
  assert (Epos : position (Game.objects g0 this) = position (Game.objects g this))
    by (rewrite E0; reflexivity).
  rewrite Epos. set (me := Game.objects g this). set (pos := position me).
  change (getVisibleObjects pos 48 g0) with (getVisibleObjects pos 48 g).
  destruct (getVisibleObjects pos 48 g) as [near|]; [|intros g' H; discriminate H].
  cbn [mbind option_bind].
  set (g1 := updObject this (with_nearObjects near) g0).
  assert (E1 : Game.objects g1 this
               = with_nearObjects near (with_movesSinceLastUpdate 0%nat me))
    by (subst g1; rewrite objects_updObject, E0; reflexivity).
  rewrite E1. cbn [zoom xCullDist yCullDist with_nearObjects with_movesSinceLastUpdate].
  change (Game.visibleObjects g1) with (Game.visibleObjects g).
  change (Game.dynamicObjects g1) with (Game.dynamicObjects g).
  destruct (match Game.visibleObjects g !! zoom me with
            | Some visibleAtZoom => _
            | None => Some near
            end) as [start|]; [|intros g' H; discriminate H].
  cbn [mbind option_bind].
  pose proof (fold_visit_members this (x pos - xCullDist me) (y pos - yCullDist me)
                (x pos + xCullDist me) (y pos + yCullDist me)
                (elements (Game.dynamicObjects g)) start g1) as Hmem.
  pose proof (fun A proj => @fold_visit_keeps A proj this
                (x pos - xCullDist me) (y pos - yCullDist me)
                (x pos + xCullDist me) (y pos + yCullDist me)
                (elements (Game.dynamicObjects g)) start g1) as Hkeep.
  destruct (fold_left _ (elements (Game.dynamicObjects g)) (start, g1)) as [nv g2].
  cbn [fst snd] in Hmem, Hkeep.
  intros g' H. injection H as <-. exists near, start.
  split; [reflexivity|]. split; [reflexivity|].
  repeat first
    [ rewrite objects_updObject
    | progress cbn [visibleObjects nearObjects movesSinceLastUpdate with_visibleObjects
                    with_deletedObjects with_fullDirtyObjects] ].
  split; [|split].
  - intros o. rewrite Hmem, elem_of_elements.
    assert (Ho : position (Game.objects g1 o) = position (Game.objects g o)).
    { subst g1 g0. destruct (decide (this = o)) as [<-|Hne].
      - rewrite !objects_updObject. reflexivity.
      - now rewrite !objects_updObject_ne. }
    rewrite Ho. unfold in_cull_window. fold me pos. reflexivity.
  - rewrite (Hkeep _ nearObjects) by reflexivity. now rewrite E1.
  - rewrite (Hkeep _ movesSinceLastUpdate) by reflexivity. now rewrite E1.
Qed.

Lemma updateVisibleObjects_throws (this : ObjRef) (g : Game.t) :
  updateVisibleObjects this g = None <-> startingCell this g = None.
Proof.
  unfold updateVisibleObjects, startingCell.
  set (g0 := updObject this (with_movesSinceLastUpdate 0%nat) g).
  assert (E0 : Game.objects g0 this = with_movesSinceLastUpdate 0%nat (Game.objects g this))
    by apply objects_updObject.
  rewrite E0.
  change (position (with_movesSinceLastUpdate 0%nat (Game.objects g this)))
    with (position (Game.objects g this)).
  change (getVisibleObjects (position (Game.objects g this)) 48 g0)
    with (getVisibleObjects (position (Game.objects g this)) 48 g).
  destruct (getVisibleObjects (position (Game.objects g this)) 48 g) as [near|];
    [|split; reflexivity].
  cbn [mbind option_bind].
  set (g1 := updObject this (with_nearObjects near) g0).
  assert (E1 : Game.objects g1 this
               = with_nearObjects near (with_movesSinceLastUpdate 0%nat (Game.objects g this)))
    by (subst g1; rewrite objects_updObject, E0; reflexivity).
  rewrite E1. cbn [zoom xCullDist yCullDist with_nearObjects with_movesSinceLastUpdate].
  change (Game.visibleObjects g1) with (Game.visibleObjects g).
  destruct (match Game.visibleObjects g !! zoom (Game.objects g this) with
            | Some visibleAtZoom => _
            | None => Some near
            end) as [start|]; [|split; reflexivity].
  cbn [mbind option_bind]. destruct (fold_left _ _ _).
  split; intros H; discriminate H.
Qed.

(** X15: [updateVisibleObjects] throws exactly when a lookup in the grid does;
    otherwise the player's new visible set is the precomputed set of its grid
    point together with the dynamic objects strictly inside its cull window,
    its near objects are the zoom-48 set of the grid point, and its move
    counter is back at 0. *)
Theorem updateVisibleObjects_result (this : ObjRef) (g : Game.t) :
  (updateVisibleObjects this g = None <-> startingCell this g = None)
  /\ (forall g', updateVisibleObjects this g = Some g' ->
        exists near start,
          getVisibleObjects (position (Game.objects g this)) 48 g = Some near
          /\ startingCell this g = Some start
          /\ (forall o, o ∈ visibleObjects (Game.objects g' this)
                <-> o ∈ start
                    \/ (o ∈ Game.dynamicObjects g
                        /\ in_cull_window (Game.objects g this) (Game.objects g o) = true))
          /\ nearObjects (Game.objects g' this) = near
          /\ movesSinceLastUpdate (Game.objects g' this) = 0%nat).
Proof.
  split; [apply updateVisibleObjects_throws | apply updateVisibleObjects_members].
Qed.

(** ** Loot *)

Lemma same_settings_refl (g : Game.t) : same_settings g g.
Proof. unfold same_settings. repeat split. Qed.

Lemma same_settings_trans (g1 g2 g3 : Game.t) :
  same_settings g1 g2 -> same_settings g2 g3 -> same_settings g1 g3.
Proof.
  unfold same_settings.
  intros (A1 & A2 & A3 & A4 & A5 & A6 & A7 & A8 & A9 & A10)
         (B1 & B2 & B3 & B4 & B5 & B6 & B7 & B8 & B9 & B10).
  repeat split; congruence.
Qed.

Lemma loot_spawned_none (pos : Vector) (g : Game.t) : loot_spawned pos 0 g g.
Proof.
  unfold loot_spawned. rewrite Nat.add_0_r, orb_false_r.
  split; [reflexivity|]. split; [reflexivity|]. split; [intros r Hr; lia|].
  repeat (split; [intros r; split; [auto | intros [H|H]; [exact H | lia]]|]).
  repeat split.
Qed.

Lemma addLoot_spawns (pos : Vector) (g : Game.t) : loot_spawned pos 1 g (addLoot pos g).
Proof.
  unfold loot_spawned, addLoot, allocate.
  cbn [Game.nextRef Game.objects Game.loot Game.dynamicObjects Game.fullDirtyObjects
       Game.updateObjects Game.effects Game.with_updateObjects
       Game.with_fullDirtyObjects Game.with_dynamicObjects Game.with_loot
       Game.with_nextRef Game.with_objects].
  split; [lia|]. split; [intros r Hr; apply fn_lookup_insert_ne; lia|].
  split.
  { intros r Hr. assert (r = Game.nextRef g) as -> by lia. apply fn_lookup_insert. }
  assert (Hin : forall (r : ObjRef) (X : gset ObjRef),
            r ∈ {[Game.nextRef g]} ∪ X
            <-> r ∈ X \/ (Game.nextRef g <= r < Game.nextRef g + 1)%nat).
  { intros r X. rewrite elem_of_union, elem_of_singleton. split.
    - intros [->|H]; [right; lia | now left].
    - intros [H|H]; [now right | left; lia]. }
  split; [intros r; apply Hin|]. split; [intros r; apply Hin|].
  split; [intros r; apply Hin|].
  split; [now rewrite orb_true_r|]. split; [reflexivity|].
  unfold same_settings. repeat split.
Qed.

Lemma loot_spawned_trans (pos : Vector) (n m : nat) (g1 g2 g3 : Game.t) :
  loot_spawned pos n g1 g2 -> loot_spawned pos m g2 g3 ->
  loot_spawned pos (n + m) g1 g3.
Proof.
  intros (A1 & A2 & A3 & A4 & A5 & A6 & A7 & A8 & A9)
         (B1 & B2 & B3 & B4 & B5 & B6 & B7 & B8 & B9).
  unfold loot_spawned. split; [lia|]. split.
  { intros r Hr. rewrite B2 by lia. now apply A2. }
  split.
  { intros r Hr. destruct (decide (r < Game.nextRef g2)%nat) as [Hlt|Hge].
    - rewrite B2 by exact Hlt. apply A3. lia.
    - apply B3. lia. }
  assert (Hin : forall (X1 X2 X3 : gset ObjRef),
            (forall r, r ∈ X2 <-> r ∈ X1 \/ (Game.nextRef g1 <= r < Game.nextRef g1 + n)%nat) ->
            (forall r, r ∈ X3 <-> r ∈ X2 \/ (Game.nextRef g2 <= r < Game.nextRef g2 + m)%nat) ->
            forall r, r ∈ X3
                      <-> r ∈ X1 \/ (Game.nextRef g1 <= r < Game.nextRef g1 + (n + m))%nat).
  { intros X1 X2 X3 H12 H23 r. rewrite H23, H12. split.
    - intros [[H|H]|H]; [now left | right; lia | right; lia].
    - intros [H|H]; [left; now left|].
      destruct (decide (r < Game.nextRef g2)%nat); [left; right; lia | right; lia]. }
  split; [now apply (Hin _ _ _ A4 B4)|].
  split; [now apply (Hin _ _ _ A5 B5)|].
  split; [now apply (Hin _ _ _ A6 B6)|].
  split.
  { rewrite B7, A7. destruct n, m; cbn; rewrite ?orb_false_r, ?orb_true_r; reflexivity. }
  split; [congruence|]. eapply same_settings_trans; eassumption.
Qed.

(** The loop that drops the items held: one loot object for every item with a
    positive count. *)
Lemma drop_items_spawns (this : ObjRef) (held : list (string * Q)) (g : Game.t) :
  (this < Game.nextRef g)%nat ->
  loot_spawned (position (Game.objects g this)) (dropped held) g
    (fold_left
       (fun ga item =>
          if Qlt_bool 0 (snd item)
          then addLoot (position (Game.objects ga this)) ga
          else ga)
       held g).
Proof.
  revert g. induction held as [|item held IH]; intros g Hr.
  - apply loot_spawned_none.
  - cbn [fold_left]. unfold dropped. cbn [List.filter].
    destruct (Qlt_bool 0 (snd item)).
    + cbn [length]. change (S ?n) with (1 + n)%nat.
      pose proof (addLoot_spawns (position (Game.objects g this)) g) as H1.
      eapply loot_spawned_trans; [exact H1|].
      destruct H1 as (N1 & O1 & _).
      specialize (IH (addLoot (position (Game.objects g this)) g) ltac:(lia)).
      rewrite (O1 this Hr) in IH. exact IH.
    + now apply IH.
Qed.

(** ** What damage leaves alone *)

Lemma scene_kept_refl (g : Game.t) : scene_kept g g.
Proof. unfold scene_kept. auto. Qed.

Lemma scene_kept_trans (g1 g2 g3 : Game.t) :
  scene_kept g1 g2 -> scene_kept g2 g3 -> scene_kept g1 g3.
Proof.
  intros (A1 & A2 & A3) (B1 & B2 & B3). unfold scene_kept.
  split; [congruence|]. split; [lia|].
  intros r Hr. rewrite B3 by lia. now apply A3.
Qed.

(** A step that leaves the objects, the next reference and the settings. *)
Lemma scene_kept_same (g g' : Game.t) :
  Game.objects g' = Game.objects g -> Game.nextRef g' = Game.nextRef g ->
  settings g' = settings g -> scene_kept g g'.
Proof.
  intros Ho Hn Hs. unfold scene_kept. rewrite Ho, Hn. auto.
Qed.

Lemma scene_kept_updObject (r : ObjRef) (f : GameObject -> GameObject) (g : Game.t) :
  (forall p, view (f p) = view p) -> scene_kept g (updObject r f g).
Proof.
  intros Hf. unfold scene_kept. split; [reflexivity|]. split; [reflexivity|].
  intros r' _. destruct (decide (r = r')) as [<-|Hne].
  - now rewrite objects_updObject.
  - now rewrite objects_updObject_ne.
Qed.

Lemma scene_kept_emit (e : Effect) (g : Game.t) : scene_kept g (emit e g).
Proof. now apply scene_kept_same. Qed.

Lemma scene_kept_allocate (o : GameObject) (g : Game.t) :
  scene_kept g (snd (allocate o g)).
Proof.
  unfold scene_kept, allocate. cbn [snd]. split; [reflexivity|].
  split; [cbn; lia|]. intros r Hr. cbn. now rewrite fn_lookup_insert_ne by lia.
Qed.

Lemma scene_kept_spawned (pos : Vector) (n : nat) (g g' : Game.t) :
  loot_spawned pos n g g' -> scene_kept g g'.
Proof.
  intros (N & O & _ & _ & _ & _ & _ & _ & S).
  destruct S as (S1 & S2 & S3 & S4 & S5 & S6 & S7 & S8 & S9 & S10).
  unfold scene_kept, settings. rewrite S1, S2, S5, S7, S9.
  split; [reflexivity|]. split; [lia|]. intros r Hr. now rewrite O.
Qed.

Lemma view_health_setter (h : Q) (p : GameObject) : view (health_setter h p) = view p.
Proof. reflexivity. Qed.

Lemma view_adrenaline_setter (a : Q) (p : GameObject) :
  view (adrenaline_setter a p) = view p.
Proof. reflexivity. Qed.

Lemma position_snapshot (p : GameObject) :
  position (with_deathPosition (Some (position p)) p) = position p.
Proof. unfold position. cbn. now destruct (category p), (deathPosition p). Qed.

Lemma scene_kept_die_attribute (this : ObjRef) (source : option ObjRef)
    (weaponUsed : option nat) (g : Game.t) :
  scene_kept g (die_attribute this source weaponUsed g).
Proof.
  unfold die_attribute. destruct source as [s|]; [|apply scene_kept_refl].
  destruct (isPlayer (Game.objects g s)); [|apply scene_kept_refl].
  set (g1 := updObject this (with_killedBy (Some s)) g).
  set (g2 := if negb (s =? this)%nat then _ else g1).
  set (g3 := emit _ g2).
  assert (H1 : scene_kept g g1) by (apply scene_kept_updObject; reflexivity).
  assert (H2 : scene_kept g1 g2).
  { subst g2. destruct (negb (s =? this)%nat); [|apply scene_kept_refl].
    apply scene_kept_updObject. reflexivity. }
  assert (H3 : scene_kept g2 g3) by apply scene_kept_emit.
  apply (scene_kept_trans g g1 _ H1), (scene_kept_trans g1 g2 _ H2),
        (scene_kept_trans g2 g3 _ H3).
  now apply scene_kept_same.
Qed.

Lemma scene_kept_die_resetIntent (this : ObjRef) (g : Game.t) :
  scene_kept g (die_resetIntent this g).
Proof.
  apply scene_kept_updObject. intros p. unfold view.
  rewrite position_snapshot. reflexivity.
Qed.

Lemma scene_kept_die_release (this : ObjRef) (g : Game.t) :
  scene_kept g (die_release this g).
Proof.
  unfold die_release, removeObject.
  set (g1 := Game.with_aliveCountDirty true g).
  set (g2 := updObject this (adrenaline_setter 0) g1).
  set (g3 := match action (Game.objects g2 this) with Some _ => _ | None => g2 end).
  set (g4 := Game.with_livingPlayers _ g3).
  set (g5 := Game.with_dynamicObjects _ g4).
  assert (H1 : scene_kept g g1) by now apply scene_kept_same.
  assert (H2 : scene_kept g1 g2) by (apply scene_kept_updObject; reflexivity).
  assert (H3 : scene_kept g2 g3).
  { subst g3. destruct (action (Game.objects g2 this));
      [apply scene_kept_emit | apply scene_kept_refl]. }
  assert (H4 : scene_kept g3 g4) by now apply scene_kept_same.
  assert (H5 : scene_kept g4 g5) by now apply scene_kept_same.
  assert (H6 : scene_kept g5 (emit (GiveId this) g5)) by apply scene_kept_emit.
  apply (scene_kept_trans g g1 _ H1), (scene_kept_trans g1 g2 _ H2),
        (scene_kept_trans g2 g3 _ H3), (scene_kept_trans g3 g4 _ H4),
        (scene_kept_trans g4 g5 _ H5), (scene_kept_trans g5 _ _ H6).
  now apply scene_kept_same.
Qed.

(** The three weapon slots are dropped, then the items held. *)
Lemma die_dropLoot_spawns (this : ObjRef) (g : Game.t) :
  (this < Game.nextRef g)%nat ->
  exists gm,
    loot_spawned (position (Game.objects g this)) (dropped (items (Game.objects g this)))
      (emit (DropWeapon this 2) (emit (DropWeapon this 1) (emit (DropWeapon this 0) g))) gm
    /\ die_dropLoot this g
       = updObject this (with_items (emptied (items (Game.objects g this)))) gm.
Proof.
  intros Hr. unfold die_dropLoot. eexists. split; [|reflexivity].
  exact (drop_items_spawns this (items (Game.objects g this))
           (emit (DropWeapon this 2) (emit (DropWeapon this 1) (emit (DropWeapon this 0) g)))
           Hr).
Qed.

Lemma scene_kept_die_dropLoot (this : ObjRef) (g : Game.t) :
  (this < Game.nextRef g)%nat -> scene_kept g (die_dropLoot this g).
Proof.
  intros Hr. destruct (die_dropLoot_spawns this g Hr) as (gm & Hsp & ->).
  apply (scene_kept_trans g
           (emit (DropWeapon this 2) (emit (DropWeapon this 1) (emit (DropWeapon this 0) g)))).
  { now apply scene_kept_same. }
  apply (scene_kept_trans _ gm); [exact (scene_kept_spawned _ _ _ _ Hsp)|].
  apply scene_kept_updObject. reflexivity.
Qed.

Lemma scene_kept_die_deathMarker (this : ObjRef) (g : Game.t) :
  scene_kept g (die_deathMarker this g).
Proof.
  unfold die_deathMarker.
  pose proof (scene_kept_allocate
                (new_object DeathMarker_cat (position (Game.objects g this))) g) as Ha.
  destruct (allocate _ g) as [marker g1]. cbn [snd] in Ha.
  apply (scene_kept_trans g g1 _ Ha). now apply scene_kept_same.
Qed.

Lemma scene_kept_die_winning (g : Game.t) : scene_kept g (die_winning g).
Proof.
  unfold die_winning. destruct (Game.started g); [|apply scene_kept_refl].
  assert (Hover : scene_kept g (emit ScheduleEndGame (Game.with_over true g)))
    by now apply scene_kept_same.
  destruct (size (Game.livingPlayers g)) as [|[|n]];
    [exact Hover | | apply scene_kept_refl].
  destruct (elements _) as [|lastManStanding rest]; [exact Hover|].
  apply (scene_kept_trans g _ _ Hover). apply scene_kept_emit.
Qed.

Lemma scene_kept_die_notify (this : ObjRef) (g : Game.t) :
  scene_kept g (die_notify this g).
Proof.
  unfold die_notify. destruct (negb _); [apply scene_kept_emit | apply scene_kept_refl].
Qed.

Lemma scene_kept_die (this : ObjRef) (source : option ObjRef) (weaponUsed : option nat)
    (g : Game.t) :
  (this < Game.nextRef g)%nat -> scene_kept g (die this source weaponUsed g).
Proof.
  intros Hr. unfold die.
  set (g1 := updObject this _ g).
  assert (H1 : scene_kept g g1) by (apply scene_kept_updObject; reflexivity).
  apply (scene_kept_trans g g1 _ H1).
  apply (scene_kept_trans _ _ _ (scene_kept_die_attribute this source weaponUsed g1)).
  apply (scene_kept_trans _ _ _ (scene_kept_die_resetIntent this _)).
  set (g2 := die_resetIntent this _).
  assert (Hr2 : (this < Game.nextRef g2)%nat).
  { pose proof (scene_kept_trans _ _ _ (scene_kept_die_attribute this source weaponUsed g1)
                  (scene_kept_die_resetIntent this _)) as (_ & Hn & _).
    fold g2 in Hn. change (Game.nextRef g1) with (Game.nextRef g) in Hn. lia. }
  apply (scene_kept_trans _ _ _ (scene_kept_emit (DestroyBody this) g2)).
  set (g3 := emit (DestroyBody this) g2).
  apply (scene_kept_trans _ _ _ (scene_kept_die_release this g3)).
  assert (Hr3 : (this < Game.nextRef (die_release this g3))%nat).
  { destruct (scene_kept_die_release this g3) as (_ & Hn & _).
    change (Game.nextRef g3) with (Game.nextRef g2) in Hn. lia. }
  apply (scene_kept_trans _ _ _ (scene_kept_die_dropLoot this _ Hr3)).
  apply (scene_kept_trans _ _ _ (scene_kept_die_deathMarker this _)).
  apply (scene_kept_trans _ _ _ (scene_kept_die_winning _)).
  apply scene_kept_die_notify.
Qed.

Lemma scene_kept_applyDamage (this : ObjRef) (amount : Q) (source : option ObjRef)
    (g : Game.t) :
  scene_kept g (applyDamage this amount source g).
Proof.
  unfold applyDamage.
  set (sourceIsPlayer := match source with Some s => _ | None => false end).
  set (g1 := updObject this _ g).
  set (g2 := if Qlt_bool 0 amount then _ else g1).
  set (g3 := match source with Some s => _ | None => g2 end).
  set (g4 := updObject this _ g3).
  assert (H1 : scene_kept g g1) by (apply scene_kept_updObject; reflexivity).
  assert (H2 : scene_kept g1 g2).
  { subst g2. destruct (Qlt_bool 0 amount); [|apply scene_kept_refl].
    apply scene_kept_updObject. intros p. now destruct sourceIsPlayer. }
  assert (H3 : scene_kept g2 g3).
  { subst g3. destruct source as [s|]; [|apply scene_kept_refl].
    destruct (_ && _); [|apply scene_kept_refl].
    apply scene_kept_updObject. reflexivity. }
  assert (H4 : scene_kept g3 g4) by (apply scene_kept_updObject; reflexivity).
  apply (scene_kept_trans g g1 _ H1), (scene_kept_trans g1 g2 _ H2),
        (scene_kept_trans g2 g3 _ H3), (scene_kept_trans g3 g4 _ H4).
  now apply scene_kept_same.
Qed.

Lemma scene_kept_damage (this : ObjRef) (amount : Q) (source : option ObjRef)
    (weaponUsed : option nat) (g : Game.t) :
  (this < Game.nextRef g)%nat ->
  scene_kept g (damage this amount source weaponUsed g).
Proof.
  intros Hr. unfold damage.
  destruct (invulnerable (Game.objects g this)); [apply scene_kept_refl|].
  set (g1 := applyDamage this _ source g).
  pose proof (scene_kept_applyDamage this (damageAmount (Game.objects g this) amount)
                source g : scene_kept g g1) as H1.
  destruct (_ && _); [|exact H1].
  apply (scene_kept_trans g g1 _ H1). apply scene_kept_die.
  destruct H1 as (_ & Hn & _). lia.
Qed.

(** ** The death sequence, step by step *)

Lemma die_split (this : ObjRef) (source : option ObjRef) (weaponUsed : option nat)
    (g : Game.t) :
  die this source weaponUsed g = die_last this (die_first this source weaponUsed g).
Proof. unfold die, die_last, die_first. reflexivity. Qed.

Lemma fn_insert_same (r : ObjRef) (o : GameObject) (objects : ObjRef -> GameObject) :
  (<[r := o]> objects) r = o.
Proof. apply fn_lookup_insert. Qed.

(** [a] is [b] but for its objects and its effects. *)
Ltac same_fields a b :=
  change (Game.nextRef a) with (Game.nextRef b) in *;
  change (Game.livingPlayers a) with (Game.livingPlayers b) in *;
  change (Game.dynamicObjects a) with (Game.dynamicObjects b) in *;
  change (Game.fullDirtyObjects a) with (Game.fullDirtyObjects b) in *;
  change (Game.loot a) with (Game.loot b) in *;
  change (Game.updateObjects a) with (Game.updateObjects b) in *;
  change (Game.aliveCountDirty a) with (Game.aliveCountDirty b) in *;
  change (Game.over a) with (Game.over b) in *;
  change (Game.started a) with (Game.started b) in *;
  change (Game.killFeedMessages a) with (Game.killFeedMessages b) in *.

Lemma die_attribute_spec (this : ObjRef) (source : option ObjRef)
    (weaponUsed : option nat) (g : Game.t) :
  let g' := die_attribute this source weaponUsed g in
  let credit := killer source g in
  Game.nextRef g' = Game.nextRef g
  /\ Game.livingPlayers g' = Game.livingPlayers g
  /\ Game.dynamicObjects g' = Game.dynamicObjects g
  /\ Game.fullDirtyObjects g' = Game.fullDirtyObjects g
  /\ Game.loot g' = Game.loot g
  /\ Game.updateObjects g' = Game.updateObjects g
  /\ Game.aliveCountDirty g' = Game.aliveCountDirty g
  /\ Game.over g' = Game.over g
  /\ Game.started g' = Game.started g
  /\ Game.killFeedMessages g'
     = Game.killFeedMessages g ++ first_messages this credit weaponUsed
  /\ Game.effects g'
     = Game.effects g ++ match credit with
                         | Some s => [SendPacket s (KillPacket s this weaponUsed)]
                         | None => []
                         end
  /\ Game.objects g' this
     = match credit with
       | Some s => with_killedBy (Some s) (Game.objects g this)
       | None => Game.objects g this
       end
  /\ (forall r, r <> this -> credit <> Some r -> Game.objects g' r = Game.objects g r)
  /\ (forall s, credit = Some s -> s <> this ->
        Game.objects g' s = with_kills (S (kills (Game.objects g s))) (Game.objects g s)).
Proof.
  cbv zeta. unfold die_attribute, killer, first_messages.
  destruct source as [s|].
  - destruct (isPlayer (Game.objects g s)) eqn:Hs.
    + set (g1 := updObject this (with_killedBy (Some s)) g).
      assert (E1 : Game.objects g1 this = with_killedBy (Some s) (Game.objects g this))
        by apply objects_updObject.
      assert (E1' : forall r, r <> this -> Game.objects g1 r = Game.objects g r)
        by (intros r Hr; apply objects_updObject_ne; congruence).
      destruct (Nat.eqb_spec s this) as [->|Hne]; cbn [negb].
      * do 11 (split; [reflexivity|]). split; [exact E1|].
        split; [intros r Hr _; now apply E1'|].
        intros s Hs' Hne. congruence.
      * do 11 (split; [reflexivity|]). split; [|split].
        -- change (Game.objects (updObject s (fun q => with_kills (S (kills q)) q) g1) this
                   = with_killedBy (Some s) (Game.objects g this)).
           rewrite objects_updObject_ne by exact Hne. exact E1.
        -- intros r Hr Hc.
           change (Game.objects (updObject s (fun q => with_kills (S (kills q)) q) g1) r
                   = Game.objects g r).
           rewrite objects_updObject_ne by congruence. now apply E1'.
        -- intros s' Hs' Hne'. injection Hs' as <-.
           change (Game.objects (updObject s (fun q => with_kills (S (kills q)) q) g1) s
                   = with_kills (S (kills (Game.objects g s))) (Game.objects g s)).
           rewrite objects_updObject, E1' by exact Hne. reflexivity.
    + rewrite !app_nil_r. do 12 (split; [reflexivity|]).
      split; [auto|]. intros s' Hs'. discriminate Hs'.
  - rewrite !app_nil_r. do 12 (split; [reflexivity|]).
    split; [auto|]. intros s' Hs'. discriminate Hs'.
Qed.

Lemma die_release_spec (this : ObjRef) (g : Game.t) :
  let g' := die_release this g in
  Game.nextRef g' = Game.nextRef g
  /\ Game.livingPlayers g' = Game.livingPlayers g ∖ {[this]}
  /\ Game.dynamicObjects g' = Game.dynamicObjects g ∖ {[this]}
  /\ Game.fullDirtyObjects g' = Game.fullDirtyObjects g
  /\ Game.loot g' = Game.loot g
  /\ Game.updateObjects g' = true
  /\ Game.aliveCountDirty g' = true
  /\ Game.over g' = Game.over g
  /\ Game.started g' = Game.started g
  /\ Game.killFeedMessages g' = Game.killFeedMessages g
  /\ Game.effects g'
     = Game.effects g
       ++ match action (Game.objects g this) with
          | Some _ => [CancelAction this]
          | None => []
          end
       ++ [GiveId this]
  /\ Game.objects g' this = adrenaline_setter 0 (Game.objects g this)
  /\ (forall r, r <> this -> Game.objects g' r = Game.objects g r).
Proof.
  cbv zeta. unfold die_release, removeObject.
  set (g1 := Game.with_aliveCountDirty true g).
  set (g2 := updObject this (adrenaline_setter 0) g1).
  assert (E2 : Game.objects g2 this = adrenaline_setter 0 (Game.objects g this))
    by exact (objects_updObject this _ g1).
  assert (E2' : forall r, r <> this -> Game.objects g2 r = Game.objects g r)
    by (intros r Hr; apply (objects_updObject_ne this r _ g1); congruence).
  rewrite E2. change (action (adrenaline_setter 0 (Game.objects g this)))
    with (action (Game.objects g this)).
  destruct (action (Game.objects g this)).
  - repeat (split; [reflexivity|]).
    split; [cbn; now rewrite <- app_assoc|]. split; [exact E2 | exact E2'].
  - repeat (split; [reflexivity|]). split; [exact E2 | exact E2'].
Qed.

(** The first half of the death sequence, field by field. *)
Lemma die_first_spec (this : ObjRef) (source : option ObjRef) (weaponUsed : option nat)
    (g : Game.t) :
  let g' := die_first this source weaponUsed g in
  let me := Game.objects g this in
  let credit := killer source g in
  Game.nextRef g' = Game.nextRef g
  /\ Game.livingPlayers g' = Game.livingPlayers g ∖ {[this]}
  /\ Game.dynamicObjects g' = Game.dynamicObjects g ∖ {[this]}
  /\ Game.fullDirtyObjects g' = Game.fullDirtyObjects g
  /\ Game.loot g' = Game.loot g
  /\ Game.updateObjects g' = true
  /\ Game.aliveCountDirty g' = true
  /\ Game.over g' = Game.over g
  /\ Game.started g' = Game.started g
  /\ Game.killFeedMessages g'
     = Game.killFeedMessages g ++ first_messages this credit weaponUsed
  /\ Game.effects g' = Game.effects g ++ first_effects this credit weaponUsed me
  /\ Game.objects g' this = fallen credit me
  /\ (forall r, r <> this -> credit <> Some r -> Game.objects g' r = Game.objects g r)
  /\ (forall s, credit = Some s -> s <> this ->
        Game.objects g' s = with_kills (S (kills (Game.objects g s))) (Game.objects g s)).
Proof.
  cbv zeta. unfold die_first.
  set (g1 := updObject this (fun p => with_dead true (health_setter 0 p)) g).
  assert (E1 : Game.objects g1 this = with_dead true (health_setter 0 (Game.objects g this)))
    by apply objects_updObject.
  assert (E1' : forall r, r <> this -> Game.objects g1 r = Game.objects g r)
    by (intros r Hr; apply objects_updObject_ne; congruence).
  assert (Hk : killer source g1 = killer source g).
  { unfold killer. destruct source as [s|]; [|reflexivity].
    destruct (decide (s = this)) as [->|Hne]; [now rewrite E1 | now rewrite E1']. }
  destruct (die_attribute_spec this source weaponUsed g1)
    as (A1 & A2 & A3 & A4 & A5 & A6 & A7 & A8 & A9 & A10 & A11 & A12 & A13 & A14).
  cbv zeta in A10, A11, A12, A13, A14. rewrite Hk in A10, A11, A12, A13, A14.
  set (ga := die_attribute this source weaponUsed g1) in *.
  set (g2 := die_resetIntent this ga).
  assert (E2 : Game.objects g2 this
               = (fun p =>
                    let m := movement p in
                    let p1 := with_attacking false
                                (with_movement
                                   (Movement.mk false false false false
                                      (Movement.moving m) (Movement.angle m)) p) in
                    with_deathPosition (Some (position p1)) p1) (Game.objects ga this))
    by apply objects_updObject.
  assert (E2' : forall r, r <> this -> Game.objects g2 r = Game.objects ga r)
    by (intros r Hr; apply objects_updObject_ne; congruence).
  set (g3 := emit (DestroyBody this) g2).
  destruct (die_release_spec this g3)
    as (R1 & R2 & R3 & R4 & R5 & R6 & R7 & R8 & R9 & R10 & R11 & R12 & R13).
  cbv zeta in R11.
  set (gR := die_release this g3) in *.
  change (Game.objects g3) with (Game.objects g2) in *.
  same_fields g3 ga. same_fields g1 g.
  assert (Hact : action (Game.objects g2 this) = action (Game.objects g this)).
  { rewrite E2, A12, E1. now destruct (killer source g). }
  rewrite Hact in R11.
  split; [rewrite R1; exact A1|]. split; [rewrite R2, A2; reflexivity|].
  split; [rewrite R3, A3; reflexivity|]. split; [rewrite R4; exact A4|].
  split; [rewrite R5; exact A5|]. split; [exact R6|]. split; [exact R7|].
  split; [rewrite R8; exact A8|]. split; [rewrite R9; exact A9|].
  split; [rewrite R10; exact A10|].
  split.
  { rewrite R11. change (Game.effects g3) with (Game.effects ga ++ [DestroyBody this]).
    rewrite A11. unfold first_effects. now rewrite <- !app_assoc. }
  split.
  { rewrite R12, E2, A12, E1. unfold fallen. now destruct (killer source g). }
  split.
  { intros r Hr Hc. rewrite R13, E2', A13, E1' by assumption. reflexivity. }
  intros s Hs Hne. rewrite R13, E2', (A14 s Hs Hne), E1' by assumption. reflexivity.
Qed.

Lemma die_winning_spec (g : Game.t) :
  let g' := die_winning g in
  Game.objects g' = Game.objects g
  /\ Game.nextRef g' = Game.nextRef g
  /\ Game.livingPlayers g' = Game.livingPlayers g
  /\ Game.dynamicObjects g' = Game.dynamicObjects g
  /\ Game.fullDirtyObjects g' = Game.fullDirtyObjects g
  /\ Game.loot g' = Game.loot g
  /\ Game.updateObjects g' = Game.updateObjects g
  /\ Game.aliveCountDirty g' = Game.aliveCountDirty g
  /\ Game.started g' = Game.started g
  /\ Game.killFeedMessages g' = Game.killFeedMessages g
  /\ Game.over g' = winning_over (Game.started g) (Game.over g) (Game.livingPlayers g)
  /\ Game.effects g'
     = Game.effects g ++ winning_effects (Game.started g) (Game.livingPlayers g).
Proof.
  cbv zeta. unfold die_winning, winning_over, winning_effects.
  destruct (Game.started g) eqn:Hs.
  - destruct (size (Game.livingPlayers g)) as [|[|n]].
    + repeat (split; [first [reflexivity | exact Hs]|]). reflexivity.
    + change (Game.livingPlayers (emit ScheduleEndGame (Game.with_over true g)))
        with (Game.livingPlayers g).
      destruct (elements (Game.livingPlayers g)) as [|w rest].
      * repeat (split; [first [reflexivity | exact Hs]|]). reflexivity.
      * repeat (split; [first [reflexivity | exact Hs]|]). cbn.
        now rewrite <- app_assoc.
    + repeat (split; [first [reflexivity | exact Hs]|]). now rewrite app_nil_r.
  - repeat (split; [first [reflexivity | exact Hs]|]). now rewrite app_nil_r.
Qed.

Lemma die_notify_spec (this : ObjRef) (g : Game.t) :
  let g' := die_notify this g in
  Game.objects g' = Game.objects g
  /\ Game.nextRef g' = Game.nextRef g
  /\ Game.livingPlayers g' = Game.livingPlayers g
  /\ Game.dynamicObjects g' = Game.dynamicObjects g
  /\ Game.fullDirtyObjects g' = Game.fullDirtyObjects g
  /\ Game.loot g' = Game.loot g
  /\ Game.updateObjects g' = Game.updateObjects g
  /\ Game.aliveCountDirty g' = Game.aliveCountDirty g
  /\ Game.started g' = Game.started g
  /\ Game.killFeedMessages g' = Game.killFeedMessages g
  /\ Game.over g' = Game.over g
  /\ Game.effects g' = Game.effects g ++ notify_effects this (Game.objects g this).
Proof.
  cbv zeta. unfold die_notify, notify_effects.
  destruct (negb (disconnected (Game.objects g this))).
  - repeat (split; [reflexivity|]). reflexivity.
  - repeat (split; [reflexivity|]). now rewrite app_nil_r.
Qed.

(** The second half of the death sequence, field by field. *)
Lemma die_last_spec (this : ObjRef) (g : Game.t) :
  (this < Game.nextRef g)%nat ->
  let g' := die_last this g in
  let me := Game.objects g this in
  let n := dropped (items me) in
  Game.nextRef g' = (Game.nextRef g + n + 1)%nat
  /\ Game.livingPlayers g' = Game.livingPlayers g
  /\ (forall r, r ∈ Game.dynamicObjects g'
        <-> r ∈ Game.dynamicObjects g \/ (Game.nextRef g <= r < Game.nextRef g + n + 1)%nat)
  /\ (forall r, r ∈ Game.fullDirtyObjects g'
        <-> r ∈ Game.fullDirtyObjects g \/ (Game.nextRef g <= r < Game.nextRef g + n + 1)%nat)
  /\ (forall r, r ∈ Game.loot g'
        <-> r ∈ Game.loot g \/ (Game.nextRef g <= r < Game.nextRef g + n)%nat)
  /\ Game.updateObjects g' = (Game.updateObjects g || (0 <? n)%nat)
  /\ Game.aliveCountDirty g' = Game.aliveCountDirty g
  /\ Game.started g' = Game.started g
  /\ Game.killFeedMessages g' = Game.killFeedMessages g
  /\ Game.over g' = winning_over (Game.started g) (Game.over g) (Game.livingPlayers g)
  /\ Game.effects g'
     = Game.effects g
       ++ [DropWeapon this 0; DropWeapon this 1; DropWeapon this 2]
       ++ winning_effects (Game.started g) (Game.livingPlayers g)
       ++ notify_effects this me
  /\ Game.objects g' this = with_items (emptied (items me)) me
  /\ (forall r, (r < Game.nextRef g)%nat -> r <> this ->
        Game.objects g' r = Game.objects g r)
  /\ (forall r, (Game.nextRef g <= r < Game.nextRef g + n)%nat ->
        Game.objects g' r = new_object Loot_cat (position me))
  /\ Game.objects g' (Game.nextRef g + n)%nat = new_object DeathMarker_cat (position me).
Proof.
  intros Hr. cbv zeta. unfold die_last.
  destruct (die_dropLoot_spawns this g Hr) as (gm & Hsp & ->).
  set (me := Game.objects g this) in *. set (n := dropped (items me)) in *.
  destruct Hsp as (N & O & Onew & L & D & F & U & E & S).
  destruct S as (S1 & S2 & S3 & S4 & S5 & S6 & S7 & S8 & S9 & S10).
  cbn [Game.nextRef Game.objects Game.loot Game.dynamicObjects Game.fullDirtyObjects
       Game.updateObjects Game.effects emit Game.with_effects
       Game.staticObjects Game.visibleObjects Game.aliveCountDirty
       Game.partialDirtyObjects Game.deletedObjects Game.livingPlayers
       Game.connectedPlayers Game.killFeedMessages Game.started Game.over]
    in N, O, Onew, L, D, F, U, E, S1, S2, S3, S4, S5, S6, S7, S8, S9, S10.
  set (gL := updObject this (with_items (emptied (items me))) gm).
  assert (EL : Game.objects gL this = with_items (emptied (items me)) me).
  { subst gL. rewrite objects_updObject, (O this Hr). reflexivity. }
  assert (EL' : forall r, r <> this -> Game.objects gL r = Game.objects gm r)
    by (intros r Hne; apply objects_updObject_ne; congruence).
  set (marker := Game.nextRef gm).
  set (gM := die_deathMarker this gL).
  assert (EM : Game.objects gM
               = <[marker := new_object DeathMarker_cat (position me)]> (Game.objects gL)).
  { subst gM. unfold die_deathMarker, allocate.
    cbn [Game.objects Game.with_fullDirtyObjects Game.with_dynamicObjects
         Game.with_nextRef Game.with_objects].
    rewrite EL. reflexivity. }
  destruct (die_winning_spec gM)
    as (W0 & W1 & W2 & W3 & W4 & W5 & W6 & W7 & W8 & W9 & W10 & W11).
  cbv zeta in W10, W11. set (gW := die_winning gM) in *.
  destruct (die_notify_spec this gW)
    as (T0 & T1 & T2 & T3 & T4 & T5 & T6 & T7 & T8 & T9 & T10 & T11).
  cbv zeta in T11. set (g' := die_notify this gW) in *.
  assert (Hmarker : marker = (Game.nextRef g + n)%nat) by exact N.
  assert (Hin : forall (X : gset ObjRef) (r : ObjRef),
            r ∈ {[marker]} ∪ X <-> r = marker \/ r ∈ X).
  { intros X r. now rewrite elem_of_union, elem_of_singleton. }
  split; [rewrite T1, W1; change (Game.nextRef gM) with (S marker); lia|].
  split; [rewrite T2, W2; exact S6|].
  split.
  { intros r. rewrite T3, W3.
    change (Game.dynamicObjects gM) with ({[marker]} ∪ Game.dynamicObjects gm).
    rewrite Hin, D. split.
    - intros [->|[H|H]]; [right; lia | now left | right; lia].
    - intros [H|H]; [right; now left|].
      destruct (decide (r = marker)); [now left | right; right; lia]. }
  split.
  { intros r. rewrite T4, W4.
    change (Game.fullDirtyObjects gM) with ({[marker]} ∪ Game.fullDirtyObjects gm).
    rewrite Hin, F. split.
    - intros [->|[H|H]]; [right; lia | now left | right; lia].
    - intros [H|H]; [right; now left|].
      destruct (decide (r = marker)); [now left | right; right; lia]. }
  split; [intros r; rewrite T5, W5; exact (L r)|].
  split; [rewrite T6, W6; exact U|].
  split; [rewrite T7, W7; exact S3|].
  split; [rewrite T8, W8; exact S9|].
  split; [rewrite T9, W9; exact S8|].
  split.
  { rewrite T10, W10. change (Game.started gM) with (Game.started gm).
    change (Game.over gM) with (Game.over gm).
    change (Game.livingPlayers gM) with (Game.livingPlayers gm).
    now rewrite S9, S10, S6. }
  split.
  { rewrite T11, W11. change (Game.started gM) with (Game.started gm).
    change (Game.effects gM) with (Game.effects gm).
    change (Game.livingPlayers gM) with (Game.livingPlayers gm).
    rewrite S9, S6, E, W0, EM.
    rewrite fn_lookup_insert_ne by lia. rewrite EL.
    change (disconnected (with_items (emptied (items me)) me)) with (disconnected me).
    unfold notify_effects.
    change (disconnected (with_items (emptied (items me)) me)) with (disconnected me).
    rewrite <- !app_assoc. reflexivity. }
  split; [rewrite T0, W0, EM, fn_lookup_insert_ne by lia; exact EL|].
  split.
  { intros r Hlt Hne. rewrite T0, W0, EM, fn_lookup_insert_ne by lia.
    rewrite EL' by exact Hne. now apply O. }
  split.
  { intros r Hrange. rewrite T0, W0, EM, fn_lookup_insert_ne by lia.
    rewrite EL' by lia. now apply Onew. }
  rewrite T0, W0, EM, <- Hmarker. apply fn_lookup_insert.
Qed.

(** ** A call of [damage], field by field *)

Lemma applyDamage_spec (this : ObjRef) (amount : Q) (source : option ObjRef)
    (g : Game.t) :
  let g' := applyDamage this amount source g in
  let me := Game.objects g this in
  let credit := killer source g in
  Game.nextRef g' = Game.nextRef g
  /\ Game.livingPlayers g' = Game.livingPlayers g
  /\ Game.dynamicObjects g' = Game.dynamicObjects g
  /\ Game.fullDirtyObjects g' = Game.fullDirtyObjects g
  /\ Game.loot g' = Game.loot g
  /\ Game.updateObjects g' = Game.updateObjects g
  /\ Game.aliveCountDirty g' = Game.aliveCountDirty g
  /\ Game.over g' = Game.over g
  /\ Game.started g' = Game.started g
  /\ Game.killFeedMessages g' = Game.killFeedMessages g
  /\ Game.effects g' = Game.effects g
  /\ Game.partialDirtyObjects g' = {[this]} ∪ Game.partialDirtyObjects g
  /\ Game.objects g' this = hurt this amount (bool_decide (is_Some credit)) me
  /\ (forall r, r <> this -> credit <> Some r -> Game.objects g' r = Game.objects g r)
  /\ (forall s, credit = Some s -> s <> this ->
        Game.objects g' s
        = with_damageDone (damageDone (Game.objects g s) + amount) (Game.objects g s)).
Proof.
  cbv zeta. unfold applyDamage, killer.
  set (sourceIsPlayer := match source with Some s => _ | None => false end).
  set (g1 := updObject this _ g).
  set (g2 := if Qlt_bool 0 amount then _ else g1).
  set (g3 := match source with Some s => _ | None => g2 end).
  set (g4 := updObject this _ g3).
  assert (Hby : bool_decide (is_Some (match source with
                                      | Some s => if isPlayer (Game.objects g s)
                                                  then Some s else None
                                      | None => None
                                      end)) = sourceIsPlayer).
  { subst sourceIsPlayer. destruct source as [s|]; [|reflexivity].
    destruct (isPlayer (Game.objects g s)); reflexivity. }
  rewrite Hby.
  assert (E1 : Game.objects g1 this
               = health_setter (health (Game.objects g this) - amount) (Game.objects g this))
    by exact (objects_updObject this _ g).
  assert (E1' : forall r, r <> this -> Game.objects g1 r = Game.objects g r)
    by (intros r Hr; apply objects_updObject_ne; congruence).
  assert (E2 : Game.objects g2 this
               = if Qlt_bool 0 amount
                 then (let q := with_damageTaken (damageTaken (Game.objects g1 this) + amount)
                                  (Game.objects g1 this) in
                       if sourceIsPlayer then with_hitEffect true q else q)
                 else Game.objects g1 this).
  { subst g2. destruct (Qlt_bool 0 amount); [|reflexivity].
    now rewrite objects_updObject. }
  assert (E2' : forall r, r <> this -> Game.objects g2 r = Game.objects g r).
  { intros r Hr. subst g2. destruct (Qlt_bool 0 amount); [|now apply E1'].
    rewrite objects_updObject_ne by congruence. now apply E1'. }
  assert (E3 : Game.objects g3 this = Game.objects g2 this).
  { subst g3. destruct source as [s|]; [|reflexivity].
    destruct (Nat.eqb_spec s this) as [->|Hne]; cbn [negb].
    - now rewrite andb_false_r.
    - destruct sourceIsPlayer; [|reflexivity]. cbn [andb].
      now apply objects_updObject_ne. }
  assert (E4 : Game.objects g4 this
               = with_partialDirtyObjects
                   ({[this]} ∪ partialDirtyObjects (Game.objects g3 this))
                   (Game.objects g3 this))
    by exact (objects_updObject this _ g3).
  assert (E4' : forall r, r <> this -> Game.objects g4 r = Game.objects g3 r)
    by (intros r Hr; apply objects_updObject_ne; congruence).
  assert (Hfields : Game.nextRef g3 = Game.nextRef g
                    /\ Game.livingPlayers g3 = Game.livingPlayers g
                    /\ Game.dynamicObjects g3 = Game.dynamicObjects g
                    /\ Game.fullDirtyObjects g3 = Game.fullDirtyObjects g
                    /\ Game.loot g3 = Game.loot g
                    /\ Game.updateObjects g3 = Game.updateObjects g
                    /\ Game.aliveCountDirty g3 = Game.aliveCountDirty g
                    /\ Game.over g3 = Game.over g
                    /\ Game.started g3 = Game.started g
                    /\ Game.killFeedMessages g3 = Game.killFeedMessages g
                    /\ Game.effects g3 = Game.effects g
                    /\ Game.partialDirtyObjects g3 = Game.partialDirtyObjects g).
  { subst g3 g2. destruct source as [s|];
      [destruct (sourceIsPlayer && negb (s =? this)%nat)|];
      destruct (Qlt_bool 0 amount); repeat split. }
  destruct Hfields as (F1 & F2 & F3 & F4 & F5 & F6 & F7 & F8 & F9 & F10 & F11 & F12).
  change (Game.nextRef (Game.with_partialDirtyObjects
                          ({[this]} ∪ Game.partialDirtyObjects g4) g4))
    with (Game.nextRef g3).
  repeat (split; [first [exact F1 | exact F2 | exact F3 | exact F4 | exact F5 | exact F6
                        | exact F7 | exact F8 | exact F9 | exact F10 | exact F11]|]).
  split; [cbn; now rewrite F12|].
  split.
  { change (Game.objects g4 this = hurt this amount sourceIsPlayer (Game.objects g this)).
    rewrite E4, E3, E2, E1. unfold hurt. reflexivity. }
  split.
  { intros r Hr Hc.
    change (Game.objects g4 r = Game.objects g r). rewrite E4' by exact Hr.
    subst g3. destruct source as [s|]; [|now apply E2'].
    destruct (sourceIsPlayer && negb (s =? this)%nat) eqn:Hcond; [|now apply E2'].
    apply andb_true_iff in Hcond as [Hp _]. subst sourceIsPlayer. rewrite Hp in Hc.
    rewrite objects_updObject_ne by congruence. now apply E2'. }
  intros s Hs Hne.
  change (Game.objects g4 s
          = with_damageDone (damageDone (Game.objects g s) + amount) (Game.objects g s)).
  rewrite E4' by exact Hne. subst g3. destruct source as [s'|]; [|discriminate Hs].
  subst sourceIsPlayer.
  destruct (isPlayer (Game.objects g s')); [|discriminate Hs]. injection Hs as ->.
  destruct (Nat.eqb_spec s this) as [->|_]; [contradiction|]. cbn [andb negb].
  rewrite objects_updObject, E2' by exact Hne. reflexivity.
Qed.

Lemma hurt_fields (this : ObjRef) (a : Q) (byPlayer : bool) (me : GameObject) :
  let p := hurt this a byPlayer me in
  health p = (if Qlt_bool 100 (health me - a) then 100 else health me - a)
  /\ damageTaken p = (if Qlt_bool 0 a then damageTaken me + a else damageTaken me)
  /\ hitEffect p = (if Qlt_bool 0 a && byPlayer then true else hitEffect me)
  /\ partialDirtyObjects p = {[this]} ∪ partialDirtyObjects me
  /\ dead p = dead me /\ items p = items me /\ view p = view me
  /\ damageDone p = damageDone me /\ kills p = kills me /\ killedBy p = killedBy me
  /\ adrenaline p = adrenaline me /\ attacking p = attacking me
  /\ movement p = movement me /\ deathPosition p = deathPosition me.
Proof.
  cbv zeta. unfold hurt. destruct (Qlt_bool 0 a), byPlayer; cbn; repeat split.
Qed.

Lemma fallen_fields (credit : option ObjRef) (me : GameObject) :
  let p := fallen credit me in
  dead p = true /\ health p = 0 /\ adrenaline p = 0 /\ attacking p = false
  /\ movement p = Movement.mk false false false false
                    (Movement.moving (movement me)) (Movement.angle (movement me))
  /\ deathPosition p = Some (position me)
  /\ killedBy p = match credit with Some s => Some s | None => killedBy me end
  /\ items p = items me /\ view p = view me
  /\ damageTaken p = damageTaken me /\ damageDone p = damageDone me
  /\ kills p = kills me /\ hitEffect p = hitEffect me
  /\ partialDirtyObjects p = partialDirtyObjects me.
Proof.
  cbv zeta. unfold fallen.
  assert (Hv : forall q : GameObject,
             view (with_deathPosition (Some (position q)) q) = view q).
  { intros q. unfold view. now rewrite position_snapshot. }
  destruct credit as [s|].
  - repeat (split; [reflexivity|]). split; [|repeat split].
    rewrite view_adrenaline_setter, Hv. reflexivity.
  - repeat (split; [reflexivity|]). split; [|repeat split].
    rewrite view_adrenaline_setter, Hv. reflexivity.
Qed.

Lemma view_position (a b : GameObject) : view a = view b -> position a = position b.
Proof. unfold view. intros H. now injection H. Qed.

Lemma view_fields (a b : GameObject) :
  view a = view b ->
  category a = category b /\ disconnected a = disconnected b /\ action a = action b
  /\ visibleObjects a = visibleObjects b /\ zoom a = zoom b
  /\ xCullDist a = xCullDist b /\ yCullDist a = yCullDist b
  /\ joined a = joined b /\ movesSinceLastUpdate a = movesSinceLastUpdate b
  /\ fullDirtyObjects a = fullDirtyObjects b /\ deletedObjects a = deletedObjects b
  /\ invulnerable a = invulnerable b.
Proof. unfold view. intros H. injection H. intros. repeat split; assumption. Qed.

Lemma killer_applyDamage (this : ObjRef) (amount : Q) (source source' : option ObjRef)
    (g : Game.t) :
  (forall s, source' = Some s -> (s < Game.nextRef g)%nat) ->
  killer source' (applyDamage this amount source g) = killer source' g.
Proof.
  intros Hs. unfold killer. destruct source' as [s|]; [|reflexivity].
  destruct (scene_kept_applyDamage this amount source g) as (_ & _ & Hview).
  specialize (Hview s (Hs s eq_refl)).
  apply view_fields in Hview as (Hc & _). unfold isPlayer. now rewrite Hc.
Qed.

(** A fatal call runs the death sequence on the player as the bookkeeping
    leaves it. *)
Lemma damage_fatal_eq (this : ObjRef) (amount : Q) (source : option ObjRef)
    (weaponUsed : option nat) (g : Game.t) :
  0 <= health (Game.objects g this) <= 100 ->
  fatal (Game.objects g this) amount ->
  damage this amount source weaponUsed g
  = die this source weaponUsed
      (applyDamage this (damageAmount (Game.objects g this) amount) source g).
Proof.
  intros Hh (Hinv & Hdead & Hle). unfold damage. rewrite Hinv. cbv zeta.
  set (me := Game.objects g this) in *.
  destruct (applyDamage_spec this (damageAmount me amount) source g)
    as (_ & _ & _ & _ & _ & _ & _ & _ & _ & _ & _ & _ & Hme & _).
  cbv zeta in Hme. fold me in Hme. rewrite Hme.
  destruct (hurt_fields this (damageAmount me amount)
              (bool_decide (is_Some (killer source g))) me)
    as (Hhealth & _ & _ & _ & Hd & _).
  cbv zeta in Hhealth, Hd. rewrite Hhealth, Hd, Hdead.
  destruct (damaged_health me amount Hh) as (_ & _ & B3 & _). cbv zeta in B3.
  now rewrite (B3 Hdead Hle).
Qed.

(** A fatal call on a player, field by field. *)
Lemma fatal_damage_spec (this : ObjRef) (amount : Q) (source : option ObjRef)
    (weaponUsed : option nat) (g : Game.t) :
  (this < Game.nextRef g)%nat ->
  (forall s, source = Some s -> (s < Game.nextRef g)%nat) ->
  0 <= health (Game.objects g this) <= 100 ->
  fatal (Game.objects g this) amount ->
  let g' := damage this amount source weaponUsed g in
  let me := Game.objects g this in
  let a := damageAmount me amount in
  let credit := killer source g in
  let me1 := hurt this a (bool_decide (is_Some credit)) me in
  let n := dropped (items me) in
  Game.nextRef g' = (Game.nextRef g + n + 1)%nat
  /\ Game.livingPlayers g' = Game.livingPlayers g ∖ {[this]}
  /\ (forall r, r ∈ Game.dynamicObjects g'
        <-> (r ∈ Game.dynamicObjects g /\ r <> this)
            \/ (Game.nextRef g <= r < Game.nextRef g + n + 1)%nat)
  /\ (forall r, r ∈ Game.fullDirtyObjects g'
        <-> r ∈ Game.fullDirtyObjects g \/ (Game.nextRef g <= r < Game.nextRef g + n + 1)%nat)
  /\ (forall r, r ∈ Game.loot g'
        <-> r ∈ Game.loot g \/ (Game.nextRef g <= r < Game.nextRef g + n)%nat)
  /\ Game.updateObjects g' = true
  /\ Game.aliveCountDirty g' = true
  /\ Game.started g' = Game.started g
  /\ Game.over g'
     = winning_over (Game.started g) (Game.over g) (Game.livingPlayers g ∖ {[this]})
  /\ Game.killFeedMessages g'
     = Game.killFeedMessages g ++ first_messages this credit weaponUsed
  /\ Game.effects g'
     = Game.effects g
       ++ first_effects this credit weaponUsed me
       ++ [DropWeapon this 0; DropWeapon this 1; DropWeapon this 2]
       ++ winning_effects (Game.started g) (Game.livingPlayers g ∖ {[this]})
       ++ notify_effects this me
  /\ Game.objects g' this = with_items (emptied (items me)) (fallen credit me1)
  /\ (forall s, credit = Some s -> s <> this ->
        Game.objects g' s
        = with_kills (S (kills (Game.objects g s)))
            (with_damageDone (damageDone (Game.objects g s) + a) (Game.objects g s)))
  /\ (forall r, (r < Game.nextRef g)%nat -> r <> this -> credit <> Some r ->
        Game.objects g' r = Game.objects g r)
  /\ (forall r, (Game.nextRef g <= r < Game.nextRef g + n)%nat ->
        Game.objects g' r = new_object Loot_cat (position me))
  /\ Game.objects g' (Game.nextRef g + n)%nat = new_object DeathMarker_cat (position me).
Proof.
  intros Hr Hsrc Hh Hfatal. cbv zeta.
  rewrite (damage_fatal_eq this amount source weaponUsed g Hh Hfatal), die_split.
  set (me := Game.objects g this) in *. set (a := damageAmount me amount).
  set (credit := killer source g).
  destruct (applyDamage_spec this a source g)
    as (D1 & D2 & D3 & D4 & D5 & D6 & D7 & D8 & D9 & D10 & D11 & _ & D13 & D14 & D15).
  cbv zeta in D13, D14, D15. fold me credit in D13, D14, D15.
  set (g1 := applyDamage this a source g) in *.
  assert (Hk : killer source g1 = credit) by (apply killer_applyDamage; exact Hsrc).
  set (me1 := hurt this a (bool_decide (is_Some credit)) me) in *.
  pose proof (die_first_spec this source weaponUsed g1) as F.
  cbv zeta in F. rewrite !Hk, !D13 in F.
  destruct F as (F1 & F2 & F3 & F4 & F5 & F6 & F7 & F8 & F9 & F10 & F11 & F12 & F13 & F14).
  set (gR := die_first this source weaponUsed g1) in *.
  destruct (hurt_fields this a (bool_decide (is_Some credit)) me)
    as (_ & _ & _ & _ & _ & Hitems1 & Hview1 & _).
  cbv zeta in Hitems1, Hview1. fold me1 in Hitems1, Hview1.
  destruct (fallen_fields credit me1)
    as (_ & _ & _ & _ & _ & _ & _ & HitemsR & HviewR & _).
  cbv zeta in HitemsR, HviewR.
  assert (Hpos : position (fallen credit me1) = position me)
    by (rewrite (view_position _ _ HviewR); exact (view_position _ _ Hview1)).
  assert (Hdis : disconnected (fallen credit me1) = disconnected me).
  { now apply view_fields in HviewR as (_ & -> & _), Hview1 as (_ & -> & _). }
  assert (Hact : action me1 = action me).
  { now apply view_fields in Hview1 as (_ & _ & -> & _). }
  pose proof (die_last_spec this gR ltac:(lia)) as L.
  cbv zeta in L. rewrite !F12 in L. rewrite !HitemsR, !Hitems1, !Hpos, !F1, !D1 in L.
  destruct L
    as (L1 & L2 & L3 & L4 & L5 & L6 & L7 & L8 & L9 & L10 & L11 & L12 & L13 & L14 & L15).
  set (n := dropped (items me)) in *.
  split; [exact L1|]. split; [rewrite L2, F2, D2; reflexivity|].
  split.
  { intros r. rewrite L3, F3, D3, elem_of_difference, elem_of_singleton. reflexivity. }
  split; [intros r; rewrite L4, F4, D4; reflexivity|].
  split; [intros r; rewrite L5, F5, D5; reflexivity|].
  split; [rewrite L6, F6; reflexivity|].
  split; [rewrite L7; exact F7|].
  split; [rewrite L8, F9; exact D9|].
  split; [rewrite L10, F9, F8, F2, D9, D8, D2; reflexivity|].
  split; [rewrite L9, F10, D10; reflexivity|].
  split.
  { rewrite L11, F11, F9, F2, D11, D9, D2. unfold notify_effects at 1. rewrite Hdis.
    unfold first_effects. rewrite Hact. fold (notify_effects this me).
    rewrite <- !app_assoc. reflexivity. }
  split; [exact L12|].
  split.
  { intros s Hs Hne.
    assert (Hlt : (s < Game.nextRef g)%nat).
    { apply Hsrc. unfold credit, killer in Hs. destruct source as [s'|]; [|discriminate Hs].
      destruct (isPlayer _); [congruence | discriminate Hs]. }
    rewrite (L13 s Hlt Hne), (F14 s Hs Hne), (D15 s Hs Hne). reflexivity. }
  split.
  { intros r Hlt Hne Hc. rewrite L13, F13, D14 by assumption. reflexivity. }
  split; [exact L14 | exact L15].
Qed.

(** ** What a death leaves behind *)

Lemma sent_since_app (g g' : Game.t) (l : list Effect) :
  Game.effects g' = Game.effects g ++ l -> sent_since g g' = l.
Proof. intros H. unfold sent_since. rewrite H. apply drop_app_length. Qed.

(** X16: a fatal call takes the player out of the living players and out of the
    dynamic objects, leaves every other object where it was, raises the flags
    that make the players recompute what they see, resets what the player was
    doing, freezes its position, and puts a death marker at that position
    among the dynamic and the full-dirty objects. *)
Theorem death_outcome (this : ObjRef) (amount : Q) (source : option ObjRef)
    (weaponUsed : option nat) (g : Game.t) :
  (this < Game.nextRef g)%nat ->
  (forall s, source = Some s -> (s < Game.nextRef g)%nat) ->
  0 <= health (Game.objects g this) <= 100 ->
  fatal (Game.objects g this) amount ->
  let g' := damage this amount source weaponUsed g in
  let me := Game.objects g this in
  let me' := Game.objects g' this in
  let marker := (Game.nextRef g + dropped (items me))%nat in
  Game.livingPlayers g' = Game.livingPlayers g ∖ {[this]}
  /\ (this ∉ Game.dynamicObjects g')
  /\ (forall r, (r < Game.nextRef g)%nat -> r <> this ->
        (r ∈ Game.dynamicObjects g' <-> r ∈ Game.dynamicObjects g))
  /\ Game.updateObjects g' = true
  /\ Game.aliveCountDirty g' = true
  /\ adrenaline me' = 0
  /\ attacking me' = false
  /\ movement me' = Movement.mk false false false false
                      (Movement.moving (movement me)) (Movement.angle (movement me))
  /\ position me' = position me
  /\ marker ∈ Game.dynamicObjects g'
  /\ marker ∈ Game.fullDirtyObjects g'
  /\ category (Game.objects g' marker) = DeathMarker_cat
  /\ position (Game.objects g' marker) = position me.
Proof.
  intros Hr Hsrc Hh Hfatal. cbv zeta.
  destruct (fatal_damage_spec this amount source weaponUsed g Hr Hsrc Hh Hfatal)
    as (S1 & S2 & S3 & S4 & S5 & S6 & S7 & S8 & S9 & S10 & S11 & S12 & S13 & S14 & S15 & S16).
  cbv zeta in S1, S3, S4, S5, S12, S15, S16.
  set (me := Game.objects g this) in *.
  set (credit := killer source g) in *.
  set (me1 := hurt this (damageAmount me amount) (bool_decide (is_Some credit)) me) in *.
  destruct (hurt_fields this (damageAmount me amount) (bool_decide (is_Some credit)) me)
    as (_ & _ & _ & _ & _ & _ & Hview1 & _ & _ & _ & _ & _ & Hmove1 & _).
  cbv zeta in Hview1, Hmove1. fold me1 in Hview1, Hmove1.
  destruct (fallen_fields credit me1) as (_ & _ & Fa & Ft & Fm & _ & _ & _ & Fview & _).
  cbv zeta in Fa, Ft, Fm, Fview.
  split; [exact S2|]. split.
  { rewrite S3. intros [[_ H]|H]; [now apply H | lia]. }
  split.
  { intros r Hlt Hne. rewrite S3. split.
    - intros [[H _]|H]; [exact H | lia].
    - intros H. left. now split. }
  split; [exact S6|]. split; [exact S7|].
  rewrite S12. cbn [adrenaline attacking movement with_items].
  split; [exact Fa|]. split; [exact Ft|]. split; [rewrite Fm, Hmove1; reflexivity|].
  split.
  { change (position (with_items (emptied (items me)) (fallen credit me1)))
      with (position (fallen credit me1)).
    rewrite (view_position _ _ Fview). exact (view_position _ _ Hview1). }
  split; [rewrite S3; right; lia|]. split; [rewrite S4; right; lia|].
  rewrite S16. split; reflexivity.
Qed.

Lemma death_outcome_witness :
  let g := wounded_duel in
  let g' := damage 0%nat 50 (Some 1%nat) None g in
  let me := Game.objects g 0%nat in
  let me' := Game.objects g' 0%nat in
  let marker := (Game.nextRef g + dropped (items me))%nat in
  Game.livingPlayers g' = Game.livingPlayers g ∖ {[0%nat]}
  /\ (0%nat ∉ Game.dynamicObjects g')
  /\ (forall r, (r < Game.nextRef g)%nat -> r <> 0%nat ->
        (r ∈ Game.dynamicObjects g' <-> r ∈ Game.dynamicObjects g))
  /\ Game.updateObjects g' = true
  /\ Game.aliveCountDirty g' = true
  /\ adrenaline me' = 0
  /\ attacking me' = false
  /\ movement me' = Movement.mk false false false false
                      (Movement.moving (movement me)) (Movement.angle (movement me))
  /\ position me' = position me
  /\ marker ∈ Game.dynamicObjects g'
  /\ marker ∈ Game.fullDirtyObjects g'
  /\ category (Game.objects g' marker) = DeathMarker_cat
  /\ position (Game.objects g' marker) = position me.
Proof.
  cbv zeta.
  apply (death_outcome 0%nat 50 (Some 1%nat) None wounded_duel).
  - cbn. lia.
  - intros s Hs. injection Hs as <-. cbn. lia.
  - cbn. split; discriminate.
  - unfold fatal. cbn. repeat split. discriminate.
Defined.

Lemma killer_some (source : option ObjRef) (g : Game.t) (s : ObjRef) :
  killer source g = Some s <-> source = Some s /\ isPlayer (Game.objects g s) = true.
Proof.
  unfold killer. destruct source as [s'|].
  - destruct (isPlayer (Game.objects g s')) eqn:E.
    + split; [intros H; injection H as ->; auto | intros [H _]; exact H].
    + split; [discriminate | intros [H Hp]; injection H as ->; congruence].
  - split; [discriminate | intros [H _]; discriminate H].
Qed.

Lemma killer_none (source : option ObjRef) (g : Game.t) :
  killer source g = None
  <-> (forall s, source = Some s -> isPlayer (Game.objects g s) = false).
Proof.
  unfold killer. destruct source as [s'|].
  - destruct (isPlayer (Game.objects g s')) eqn:E.
    + split; [discriminate | intros H; specialize (H s' eq_refl); congruence].
    + split; [intros _ s H; injection H as <-; exact E | reflexivity].
  - split; [intros _ s H; discriminate H | reflexivity].
Qed.

(** X17: a fatal call credits the kill to its source when the source is a
    player: the dead player records who killed it, the killer's kill count
    goes up by one unless the player killed itself, the killer is sent the
    kill packet before anything else and the kill is added to the kill feed.
    With any other source, or none, nobody is credited; and no other player's
    kill count changes. *)
Theorem kill_attribution (this : ObjRef) (amount : Q) (source : option ObjRef)
    (weaponUsed : option nat) (g : Game.t) :
  (this < Game.nextRef g)%nat ->
  (forall s, source = Some s -> (s < Game.nextRef g)%nat) ->
  0 <= health (Game.objects g this) <= 100 ->
  fatal (Game.objects g this) amount ->
  let g' := damage this amount source weaponUsed g in
  (forall s, source = Some s -> isPlayer (Game.objects g s) = true ->
     killedBy (Game.objects g' this) = Some s
     /\ kills (Game.objects g' s)
        = (if decide (s = this) then kills (Game.objects g s)
           else S (kills (Game.objects g s)))
     /\ Game.killFeedMessages g'
        = Game.killFeedMessages g ++ [KillKillFeedMessage this s weaponUsed]
     /\ exists rest, sent_since g g' = SendPacket s (KillPacket s this weaponUsed) :: rest)
  /\ ((forall s, source = Some s -> isPlayer (Game.objects g s) = false) ->
      killedBy (Game.objects g' this) = killedBy (Game.objects g this)
      /\ Game.killFeedMessages g' = Game.killFeedMessages g)
  /\ (forall r, (r < Game.nextRef g)%nat -> source <> Some r ->
        kills (Game.objects g' r) = kills (Game.objects g r)).
Proof.
  intros Hr Hsrc Hh Hfatal. cbv zeta.
  destruct (fatal_damage_spec this amount source weaponUsed g Hr Hsrc Hh Hfatal)
    as (_ & _ & _ & _ & _ & _ & _ & _ & _ & S10 & S11 & S12 & S13 & S14 & _).
  cbv zeta in S10, S11, S12, S13, S14.
  set (me := Game.objects g this) in *.
  set (credit := killer source g) in *.
  set (me1 := hurt this (damageAmount me amount) (bool_decide (is_Some credit)) me) in *.
  destruct (hurt_fields this (damageAmount me amount) (bool_decide (is_Some credit)) me)
    as (_ & _ & _ & _ & _ & _ & _ & _ & Hkills1 & Hkb1 & _).
  cbv zeta in Hkills1, Hkb1. fold me1 in Hkills1, Hkb1.
  destruct (fallen_fields credit me1)
    as (_ & _ & _ & _ & _ & _ & Fkb & _ & _ & _ & _ & Fkills & _).
  cbv zeta in Fkb, Fkills.
  assert (Hthis_kills : kills (Game.objects (damage this amount source weaponUsed g) this)
                        = kills me).
  { rewrite S12. cbn [kills with_items]. now rewrite Fkills, Hkills1. }
  split; [|split].
  - intros s Hs Hplayer.
    assert (Hc : credit = Some s) by (apply killer_some; auto).
    split.
    { rewrite S12. cbn [killedBy with_items]. now rewrite Fkb, Hc. }
    split.
    { destruct (decide (s = this)) as [->|Hne]; [exact Hthis_kills|].
      now rewrite (S13 s Hc Hne). }
    split; [rewrite S10, Hc; reflexivity|].
    eexists. apply sent_since_app. rewrite S11, Hc. reflexivity.
  - intros Hnone. assert (Hc : credit = None) by (apply killer_none; exact Hnone).
    split.
    { rewrite S12. cbn [killedBy with_items]. now rewrite Fkb, Hc, Hkb1. }
    rewrite S10, Hc. apply app_nil_r.
  - intros r Hlt Hne. destruct (decide (r = this)) as [->|Hnt]; [exact Hthis_kills|].
    rewrite S14; [reflexivity | exact Hlt | exact Hnt |].
    intros Hc. apply killer_some in Hc as [Hc _]. contradiction.
Qed.

Lemma kill_attribution_witness :
  let g := wounded_duel in
  let g' := damage 0%nat 50 (Some 1%nat) None g in
  (forall s, Some 1%nat = Some s -> isPlayer (Game.objects g s) = true ->
     killedBy (Game.objects g' 0%nat) = Some s
     /\ kills (Game.objects g' s)
        = (if decide (s = 0%nat) then kills (Game.objects g s)
           else S (kills (Game.objects g s)))
     /\ Game.killFeedMessages g'
        = Game.killFeedMessages g ++ [KillKillFeedMessage 0%nat s None]
     /\ exists rest, sent_since g g' = SendPacket s (KillPacket s 0%nat None) :: rest)
  /\ ((forall s, Some 1%nat = Some s -> isPlayer (Game.objects g s) = false) ->
      killedBy (Game.objects g' 0%nat) = killedBy (Game.objects g 0%nat)
      /\ Game.killFeedMessages g' = Game.killFeedMessages g)
  /\ (forall r, (r < Game.nextRef g)%nat -> Some 1%nat <> Some r ->
        kills (Game.objects g' r) = kills (Game.objects g r)).
Proof.
  cbv zeta.
  apply (kill_attribution 0%nat 50 (Some 1%nat) None wounded_duel).
  - cbn. lia.
  - intros s Hs. injection Hs as <-. cbn. lia.
  - cbn. split; discriminate.
  - unfold fatal. cbn. repeat split. discriminate.
Defined.

(** ** Health and statistics *)

(** The amount that counts: what the call takes from the health, or gives. *)
Lemma effective_amount (me : GameObject) (amount : Q) :
  0 <= health me <= 100 ->
  let a := damageAmount me amount in
  (if Qlt_bool 100 (health me - a) then 100 else health me - a) == health me - a
  /\ (dead me = true -> a == 0)
  /\ (dead me = false -> health me - amount <= 0 -> a == health me)
  /\ (dead me = false -> 0 <= health me - amount <= 100 -> a == amount)
  /\ (dead me = false -> 100 <= health me - amount -> a == health me - 100).
Proof.
  intros [H0 H100]. cbv zeta. unfold damageAmount.
  destruct (dead me).
  - assert (E : Qlt_bool 100 (health me - 0) = false) by (apply Qlt_bool_false; lra).
    rewrite E. split; [reflexivity|]. split; [reflexivity|].
    repeat split; intros Hd; discriminate Hd.
  - destruct (Qlt_bool 100 (health me - amount)) eqn:E1.
    + apply Qlt_bool_iff in E1.
      assert (E2 : Qle_bool (health me - - (100 - health me)) 0 = false).
      { destruct (Qle_bool _ 0) eqn:E; [|reflexivity]. apply Qle_bool_iff in E. lra. }
      rewrite E2.
      assert (E3 : Qlt_bool 100 (health me - - (100 - health me)) = false)
        by (apply Qlt_bool_false; lra).
      rewrite E3. split; [reflexivity|]. split; [intros Hd; discriminate Hd|].
      split; [intros _ H; lra|]. split; [intros _ H; lra | intros _ _; lra].
    + apply Qlt_bool_false in E1.
      destruct (Qle_bool (health me - amount) 0) eqn:E2.
      * apply Qle_bool_iff in E2.
        assert (E3 : Qlt_bool 100 (health me - health me) = false)
          by (apply Qlt_bool_false; lra).
        rewrite E3. split; [reflexivity|]. split; [intros Hd; discriminate Hd|].
        split; [intros _ _; reflexivity|]. split; [intros _ H; lra | intros _ H; lra].
      * assert (Hpos : 0 < health me - amount).
        { destruct (Qlt_le_dec 0 (health me - amount)) as [|Hle]; [assumption|].
          apply Qle_bool_iff in Hle. congruence. }
        assert (E3 : Qlt_bool 100 (health me - amount) = false)
          by (apply Qlt_bool_false; lra).
        rewrite E3. split; [reflexivity|]. split; [intros Hd; discriminate Hd|].
        split; [intros _ H; lra|]. split; [intros _ _; reflexivity | intros _ H; lra].
Qed.

Lemma damage_not_fatal_eq (this : ObjRef) (amount : Q) (source : option ObjRef)
    (weaponUsed : option nat) (g : Game.t) :
  0 <= health (Game.objects g this) <= 100 ->
  invulnerable (Game.objects g this) = false ->
  ~ fatal (Game.objects g this) amount ->
  damage this amount source weaponUsed g
  = applyDamage this (damageAmount (Game.objects g this) amount) source g.
Proof.
  intros Hh Hinv Hnot. unfold damage. rewrite Hinv. cbv zeta.
  set (me := Game.objects g this) in *.
  destruct (applyDamage_spec this (damageAmount me amount) source g)
    as (_ & _ & _ & _ & _ & _ & _ & _ & _ & _ & _ & _ & Hme & _).
  cbv zeta in Hme. fold me in Hme. rewrite Hme.
  destruct (hurt_fields this (damageAmount me amount)
              (bool_decide (is_Some (killer source g))) me)
    as (Hhealth & _ & _ & _ & Hd & _).
  cbv zeta in Hhealth, Hd. rewrite Hhealth, Hd.
  destruct (dead me) eqn:Hdead; [now rewrite andb_false_r|].
  destruct (damaged_health me amount Hh) as (_ & _ & _ & B4). cbv zeta in B4.
  rewrite B4; [reflexivity | exact Hdead|].
  destruct (Qlt_le_dec 0 (health me - amount)) as [Hpos|Hle]; [exact Hpos|].
  exfalso. apply Hnot. unfold fatal. auto.
Qed.

(** The player and the source after a call on a player that can be hurt. *)
Lemma damage_accounts (this : ObjRef) (amount : Q) (source : option ObjRef)
    (weaponUsed : option nat) (g : Game.t) :
  (this < Game.nextRef g)%nat ->
  (forall s, source = Some s -> (s < Game.nextRef g)%nat) ->
  0 <= health (Game.objects g this) <= 100 ->
  invulnerable (Game.objects g this) = false ->
  let g' := damage this amount source weaponUsed g in
  let me := Game.objects g this in
  let me' := Game.objects g' this in
  let a := damageAmount me amount in
  health me' == health me - a
  /\ damageTaken me' = (if Qlt_bool 0 a then damageTaken me + a else damageTaken me)
  /\ damageDone me' = damageDone me
  /\ hitEffect me'
     = (if Qlt_bool 0 a && bool_decide (is_Some (killer source g)) then true
        else hitEffect me)
  /\ (forall s, killer source g = Some s -> s <> this ->
        damageDone (Game.objects g' s) = damageDone (Game.objects g s) + a).
Proof.
  intros Hr Hsrc Hh Hinv. cbv zeta.
  set (me := Game.objects g this) in *. set (a := damageAmount me amount).
  set (credit := killer source g).
  destruct (hurt_fields this a (bool_decide (is_Some credit)) me)
    as (H1 & H2 & H3 & _ & _ & _ & _ & H8 & _).
  cbv zeta in H1, H2, H3, H8.
  destruct (effective_amount me amount Hh) as (Ea & _ & Ef & _).
  cbv zeta in Ea, Ef. fold a in Ea, Ef.
  destruct (dead me) eqn:Hdead.
  - assert (Hnot : ~ fatal me amount) by (intros (_ & Hd & _); congruence).
    rewrite (damage_not_fatal_eq this amount source weaponUsed g Hh Hinv Hnot).
    fold me. fold a.
    destruct (applyDamage_spec this a source g)
      as (_ & _ & _ & _ & _ & _ & _ & _ & _ & _ & _ & _ & D13 & _ & D15).
    cbv zeta in D13, D15. fold me a credit in D13, D15. rewrite D13, H1, H2, H3, H8.
    split; [exact Ea|]. repeat (split; [reflexivity|]).
    intros s Hs Hne. now rewrite (D15 s Hs Hne).
  - destruct (Qlt_le_dec 0 (health me - amount)) as [Hpos|Hle].
    + assert (Hnot : ~ fatal me amount) by (intros (_ & _ & Hl); lra).
      rewrite (damage_not_fatal_eq this amount source weaponUsed g Hh Hinv Hnot).
      fold me. fold a.
      destruct (applyDamage_spec this a source g)
        as (_ & _ & _ & _ & _ & _ & _ & _ & _ & _ & _ & _ & D13 & _ & D15).
      cbv zeta in D13, D15. fold me a credit in D13, D15. rewrite D13, H1, H2, H3, H8.
      split; [exact Ea|]. repeat (split; [reflexivity|]).
      intros s Hs Hne. now rewrite (D15 s Hs Hne).
    + assert (Hfatal : fatal me amount) by (unfold fatal; auto).
      destruct (fatal_damage_spec this amount source weaponUsed g Hr Hsrc Hh Hfatal)
        as (_ & _ & _ & _ & _ & _ & _ & _ & _ & _ & _ & S12 & S13 & _).
      cbv zeta in S12, S13. fold me a credit in S12, S13.
      destruct (fallen_fields credit (hurt this a (bool_decide (is_Some credit)) me))
        as (_ & Fh & _ & _ & _ & _ & _ & _ & _ & Ft & Fd & _ & Fe & _).
      cbv zeta in Fh, Ft, Fd, Fe.
      rewrite S12. cbn [health damageTaken damageDone hitEffect with_items].
      rewrite Fh, Ft, Fd, Fe, H2, H3, H8.
      split; [rewrite (Ef eq_refl Hle); lra|]. repeat (split; [reflexivity|]).
      intros s Hs Hne. now rewrite (S13 s Hs Hne).
Qed.

(** X18: for a player that can be hurt, alive with health in [0,100], the
    health after a call is the health less the amount, brought back into
    [0,100]; a dead player's health stays as it is. *)
Theorem damage_sets_health (this : ObjRef) (amount : Q) (source : option ObjRef)
    (weaponUsed : option nat) (g : Game.t) :
  (this < Game.nextRef g)%nat ->
  (forall s, source = Some s -> (s < Game.nextRef g)%nat) ->
  0 <= health (Game.objects g this) <= 100 ->
  invulnerable (Game.objects g this) = false ->
  let me := Game.objects g this in
  let me' := Game.objects (damage this amount source weaponUsed g) this in
  (dead me = true -> health me' == health me)
  /\ (dead me = false -> health me - amount <= 0 -> health me' == 0)
  /\ (dead me = false -> 0 <= health me - amount <= 100 ->
      health me' == health me - amount)
  /\ (dead me = false -> 100 <= health me - amount -> health me' == 100).
Proof.
  intros Hr Hsrc Hh Hinv. cbv zeta.
  destruct (damage_accounts this amount source weaponUsed g Hr Hsrc Hh Hinv) as (Hhealth & _).
  cbv zeta in Hhealth.
  destruct (effective_amount (Game.objects g this) amount Hh) as (_ & E1 & E2 & E3 & E4).
  cbv zeta in E1, E2, E3, E4.
  split; [intros Hd; rewrite Hhealth, (E1 Hd); lra|].
  split; [intros Hd Hle; rewrite Hhealth, (E2 Hd Hle); lra|].
  split; [intros Hd Hin; rewrite Hhealth, (E3 Hd Hin); lra|].
  intros Hd Hge. rewrite Hhealth, (E4 Hd Hge). lra.
Qed.

Lemma damage_sets_health_witness :
  let me := Game.objects wounded_duel 0%nat in
  let me' := Game.objects (damage 0%nat (-200) (Some 1%nat) None wounded_duel) 0%nat in
  (dead me = true -> health me' == health me)
  /\ (dead me = false -> health me - (-200) <= 0 -> health me' == 0)
  /\ (dead me = false -> 0 <= health me - (-200) <= 100 ->
      health me' == health me - (-200))
  /\ (dead me = false -> 100 <= health me - (-200) -> health me' == 100).
Proof.
  cbv zeta.
  apply (damage_sets_health 0%nat (-200) (Some 1%nat) None wounded_duel).
  - cbn. lia.
  - intros s Hs. injection Hs as <-. cbn. lia.
  - cbn. split; discriminate.
  - reflexivity.
Defined.

(** X19: the statistics count the health actually lost, not the amount asked
    for: with [d] the health lost by the call, the player's damage taken goes
    up by [d] when [d] is positive and stays otherwise, a source that is
    another player has its damage done changed by [d], and the player's own
    damage done never changes. *)
Theorem damage_statistics (this : ObjRef) (amount : Q) (source : option ObjRef)
    (weaponUsed : option nat) (g : Game.t) :
  (this < Game.nextRef g)%nat ->
  (forall s, source = Some s -> (s < Game.nextRef g)%nat) ->
  0 <= health (Game.objects g this) <= 100 ->
  invulnerable (Game.objects g this) = false ->
  let g' := damage this amount source weaponUsed g in
  let me := Game.objects g this in
  let me' := Game.objects g' this in
  let d := health me - health me' in
  (0 < d -> damageTaken me' == damageTaken me + d)
  /\ (d <= 0 -> damageTaken me' == damageTaken me)
  /\ damageDone me' = damageDone me
  /\ (forall s, source = Some s -> isPlayer (Game.objects g s) = true -> s <> this ->
        damageDone (Game.objects g' s) == damageDone (Game.objects g s) + d).
Proof.
  intros Hr Hsrc Hh Hinv. cbv zeta.
  destruct (damage_accounts this amount source weaponUsed g Hr Hsrc Hh Hinv)
    as (Hhealth & Htaken & Hdone & _ & Hsource).
  cbv zeta in Hhealth, Htaken, Hdone, Hsource.
  set (a := damageAmount (Game.objects g this) amount) in *.
  split; [|split; [|split]].
  - intros Hd. rewrite Htaken.
    assert (E : Qlt_bool 0 a = true) by (apply Qlt_bool_iff; lra).
    rewrite E, Hhealth. ring.
  - intros Hd. rewrite Htaken.
    assert (E : Qlt_bool 0 a = false) by (apply Qlt_bool_false; lra).
    rewrite E. reflexivity.
  - exact Hdone.
  - intros s Hs Hplayer Hne.
    rewrite (Hsource s ltac:(apply killer_some; auto) Hne), Hhealth. ring.
Qed.

Lemma damage_statistics_witness :
  let g := wounded_duel in
  let g' := damage 0%nat 50 (Some 1%nat) None g in
  let me := Game.objects g 0%nat in
  let me' := Game.objects g' 0%nat in
  let d := health me - health me' in
  (0 < d -> damageTaken me' == damageTaken me + d)
  /\ (d <= 0 -> damageTaken me' == damageTaken me)
  /\ damageDone me' = damageDone me
  /\ (forall s, Some 1%nat = Some s -> isPlayer (Game.objects g s) = true -> s <> 0%nat ->
        damageDone (Game.objects g' s) == damageDone (Game.objects g s) + d).
Proof.
  cbv zeta.
  apply (damage_statistics 0%nat 50 (Some 1%nat) None wounded_duel).
  - cbn. lia.
  - intros s Hs. injection Hs as <-. cbn. lia.
  - cbn. split; discriminate.
  - reflexivity.
Defined.

(** ** The end of the game and the loot *)

Lemma winning_effects_cases (started : bool) (living : gset ObjRef) :
  (started = true -> forall w, living = {[w]} ->
     winning_effects started living
     = [ScheduleEndGame; SendPacket w (GameOverPacket w true)])
  /\ (started = true -> living = ∅ -> winning_effects started living = [ScheduleEndGame])
  /\ (started = false \/ (2 <= size living)%nat -> winning_effects started living = []).
Proof.
  unfold winning_effects. split; [|split].
  - intros -> w ->. rewrite size_singleton, elements_singleton. reflexivity.
  - intros -> ->. rewrite size_empty. reflexivity.
  - intros [->|Hsize]; [reflexivity|]. destruct started; [|reflexivity].
    destruct (size living) as [|[|n]]; [lia | lia | reflexivity].
Qed.

Lemma winning_over_cases (started over : bool) (living : gset ObjRef) :
  (started = true -> (size living <= 1)%nat -> winning_over started over living = true)
  /\ (started = false \/ (2 <= size living)%nat -> winning_over started over living = over).
Proof.
  unfold winning_over. split.
  - intros -> Hsize. destruct (size living) as [|[|n]]; [reflexivity | reflexivity | lia].
  - intros [->|Hsize]; [reflexivity|]. destruct started; [|reflexivity].
    destruct (size living) as [|[|n]]; [lia | lia | reflexivity].
Qed.

Lemma first_effects_quiet (this : ObjRef) (credit : option ObjRef)
    (weaponUsed : option nat) (me : GameObject) (e : Effect) :
  e ∈ first_effects this credit weaponUsed me ->
  e <> ScheduleEndGame /\ forall w won, e <> SendPacket w (GameOverPacket w won).
Proof.
  unfold first_effects. intros He.
  repeat (apply elem_of_app in He as [He|He]).
  - destruct credit as [s|]; [|now apply elem_of_nil in He].
    apply list_elem_of_singleton in He as ->. split; [discriminate | intros w won; discriminate].
  - apply list_elem_of_singleton in He as ->. split; [discriminate | intros w won; discriminate].
  - destruct (action me); [|now apply elem_of_nil in He].
    apply list_elem_of_singleton in He as ->. split; [discriminate | intros w won; discriminate].
  - apply list_elem_of_singleton in He as ->. split; [discriminate | intros w won; discriminate].
Qed.

Lemma drops_quiet (this : ObjRef) (e : Effect) :
  e ∈ [DropWeapon this 0; DropWeapon this 1; DropWeapon this 2] ->
  e <> ScheduleEndGame /\ forall w won, e <> SendPacket w (GameOverPacket w won).
Proof.
  intros He. repeat (apply elem_of_cons in He as [->|He]);
    [split; [discriminate | intros w won; discriminate] ..|].
  now apply elem_of_nil in He.
Qed.

Lemma notify_effects_cases (this : ObjRef) (me : GameObject) (e : Effect) :
  e ∈ notify_effects this me
  <-> disconnected me = false /\ e = SendPacket this (GameOverPacket this false).
Proof.
  unfold notify_effects. destruct (disconnected me); cbn [negb].
  - split; [intros He; now apply elem_of_nil in He | intros [Hd _]; discriminate Hd].
  - rewrite list_elem_of_singleton. tauto.
Qed.

(** X20: when a started game is left with one living player by a death, the
    game is over, its end is scheduled once, and that player is told it has
    won; with none left the game is over and its end scheduled, and nobody is
    told so; with two or more left, or in a game not started, nothing of this
    happens. The dead player is told it has lost exactly when it is still
    connected. *)
Theorem last_player_standing (this : ObjRef) (amount : Q) (source : option ObjRef)
    (weaponUsed : option nat) (g : Game.t) :
  (this < Game.nextRef g)%nat ->
  (forall s, source = Some s -> (s < Game.nextRef g)%nat) ->
  0 <= health (Game.objects g this) <= 100 ->
  fatal (Game.objects g this) amount ->
  let g' := damage this amount source weaponUsed g in
  let living := Game.livingPlayers g ∖ {[this]} in
  let sent := sent_since g g' in
  (Game.started g = true -> forall w, living = {[w]} ->
     Game.over g' = true
     /\ (exists before after,
           sent = before ++ [ScheduleEndGame; SendPacket w (GameOverPacket w true)] ++ after
           /\ (ScheduleEndGame ∉ before) /\ (ScheduleEndGame ∉ after))
     /\ (forall v, SendPacket v (GameOverPacket v true) ∈ sent -> v = w))
  /\ (Game.started g = true -> living = ∅ ->
      Game.over g' = true
      /\ (ScheduleEndGame ∈ sent)
      /\ (forall v, SendPacket v (GameOverPacket v true) ∉ sent))
  /\ (Game.started g = false \/ (2 <= size living)%nat ->
      Game.over g' = Game.over g
      /\ (ScheduleEndGame ∉ sent)
      /\ (forall v, SendPacket v (GameOverPacket v true) ∉ sent))
  /\ (forall v, SendPacket v (GameOverPacket v false) ∈ sent
        <-> v = this /\ disconnected (Game.objects g this) = false).
Proof.
  intros Hr Hsrc Hh Hfatal. cbv zeta.
  destruct (fatal_damage_spec this amount source weaponUsed g Hr Hsrc Hh Hfatal)
    as (_ & _ & _ & _ & _ & _ & _ & _ & S9 & _ & S11 & _).
  cbv zeta in S11. apply sent_since_app in S11.
  set (me := Game.objects g this) in *.
  set (credit := killer source g) in *.
  set (living := Game.livingPlayers g ∖ {[this]}) in *.
  destruct (winning_effects_cases (Game.started g) living) as (W1 & W2 & W3).
  destruct (winning_over_cases (Game.started g) (Game.over g) living) as (O1 & O2).
  pose proof (first_effects_quiet this credit weaponUsed me) as Q1.
  pose proof (drops_quiet this) as Q2.
  pose proof (notify_effects_cases this me) as Q3.
  rewrite S9, S11. clear S9 S11.
  split; [|split; [|split]].
  - intros Hstarted w Hw. rewrite (W1 Hstarted w Hw).
    split; [apply O1; [exact Hstarted | rewrite Hw, size_singleton; lia]|].
    split.
    + exists (first_effects this credit weaponUsed me
              ++ [DropWeapon this 0; DropWeapon this 1; DropWeapon this 2]),
             (notify_effects this me).
      split; [now rewrite <- !app_assoc|]. split.
      * intros He. apply elem_of_app in He as [He|He].
        -- now apply Q1 in He as [He _].
        -- now apply Q2 in He as [He _].
      * intros He. apply Q3 in He as [_ He]. discriminate He.
    + intros v He. apply elem_of_app in He as [He|He]; [apply Q1 in He as [_ He]; now destruct (He v true)|].
      apply elem_of_app in He as [He|He]; [apply Q2 in He as [_ He]; now destruct (He v true)|].
      apply elem_of_app in He as [He|He]; [|apply Q3 in He as [_ He]; discriminate He].
      apply elem_of_cons in He as [He|He]; [discriminate He|].
      apply list_elem_of_singleton in He. now injection He as ->.
  - intros Hstarted Hempty. rewrite (W2 Hstarted Hempty).
    split; [apply O1; [exact Hstarted | rewrite Hempty, size_empty; lia]|].
    split.
    + apply elem_of_app; right. apply elem_of_app; right. apply elem_of_app; left.
      apply list_elem_of_singleton. reflexivity.
    + intros v He. apply elem_of_app in He as [He|He]; [apply Q1 in He as [_ He]; now destruct (He v true)|].
      apply elem_of_app in He as [He|He]; [apply Q2 in He as [_ He]; now destruct (He v true)|].
      apply elem_of_app in He as [He|He]; [|apply Q3 in He as [_ He]; discriminate He].
      apply list_elem_of_singleton in He. discriminate He.
  - intros Hcase. rewrite (W3 Hcase). split; [apply O2; exact Hcase|].
    split.
    + intros He. apply elem_of_app in He as [He|He]; [now apply Q1 in He as [He _]|].
      apply elem_of_app in He as [He|He]; [now apply Q2 in He as [He _]|].
      apply elem_of_app in He as [He|He]; [now apply elem_of_nil in He|].
      apply Q3 in He as [_ He]. discriminate He.
    + intros v He. apply elem_of_app in He as [He|He]; [apply Q1 in He as [_ He]; now destruct (He v true)|].
      apply elem_of_app in He as [He|He]; [apply Q2 in He as [_ He]; now destruct (He v true)|].
      apply elem_of_app in He as [He|He]; [now apply elem_of_nil in He|].
      apply Q3 in He as [_ He]. discriminate He.
  - intros v. split.
    + intros He. apply elem_of_app in He as [He|He]; [apply Q1 in He as [_ He]; now destruct (He v false)|].
      apply elem_of_app in He as [He|He]; [apply Q2 in He as [_ He]; now destruct (He v false)|].
      apply elem_of_app in He as [He|He].
      * exfalso. unfold winning_effects in He.
        destruct (Game.started g); [|now apply elem_of_nil in He].
        destruct (size living) as [|[|n]].
        -- apply list_elem_of_singleton in He. discriminate He.
        -- apply elem_of_cons in He as [He|He]; [discriminate He|].
           destruct (elements living) as [|x l]; [now apply elem_of_nil in He|].
           apply list_elem_of_singleton in He. discriminate He.
        -- now apply elem_of_nil in He.
      * apply Q3 in He as [Hd He]. injection He as ->. now split.
    + intros [-> Hd]. apply elem_of_app; right. apply elem_of_app; right.
      apply elem_of_app; right. apply Q3. now split.
Qed.

Lemma last_player_standing_witness :
  let g := wounded_duel in
  let g' := damage 0%nat 50 (Some 1%nat) None g in
  let living := Game.livingPlayers g ∖ {[0%nat]} in
  let sent := sent_since g g' in
  (Game.started g = true -> forall w, living = {[w]} ->
     Game.over g' = true
     /\ (exists before after,
           sent = before ++ [ScheduleEndGame; SendPacket w (GameOverPacket w true)] ++ after
           /\ (ScheduleEndGame ∉ before) /\ (ScheduleEndGame ∉ after))
     /\ (forall v, SendPacket v (GameOverPacket v true) ∈ sent -> v = w))
  /\ (Game.started g = true -> living = ∅ ->
      Game.over g' = true
      /\ (ScheduleEndGame ∈ sent)
      /\ (forall v, SendPacket v (GameOverPacket v true) ∉ sent))
  /\ (Game.started g = false \/ (2 <= size living)%nat ->
      Game.over g' = Game.over g
      /\ (ScheduleEndGame ∉ sent)
      /\ (forall v, SendPacket v (GameOverPacket v true) ∉ sent))
  /\ (forall v, SendPacket v (GameOverPacket v false) ∈ sent
        <-> v = 0%nat /\ disconnected (Game.objects g 0%nat) = false).
Proof.
  cbv zeta.
  apply (last_player_standing 0%nat 50 (Some 1%nat) None wounded_duel).
  - cbn. lia.
  - intros s Hs. injection Hs as <-. cbn. lia.
  - cbn. split; discriminate.
  - repeat split; cbn; discriminate.
Defined.

Lemma emptied_spec (held : list (string * Q)) :
  map fst (emptied held) = map fst held
  /\ Forall (fun item => snd item <= 0) (emptied held)
  /\ (forall i name count, held !! i = Some (name, count) ->
        emptied held !! i = Some (name, if Qlt_bool 0 count then 0 else count)).
Proof.
  unfold emptied. split; [|split].
  - rewrite map_map. reflexivity.
  - apply Forall_forall. intros item Hitem. apply list_elem_of_fmap in Hitem as (x & -> & _).
    cbn [snd]. destruct (Qlt_bool 0 (snd x)) eqn:E; [lra|].
    now apply Qlt_bool_false in E.
  - intros i name count Hi. change (map ?f held) with (f <$> held).
    rewrite list_lookup_fmap, Hi. reflexivity.
Qed.

(** X21: the loop over the inventory in the death sequence, from whatever
    state the three [dropWeapon] calls before it leave: it creates one loot
    object for every item held in positive number, each at the player's
    position and entered among the loot, the dynamic and the full-dirty
    objects, sends nothing and leaves every other object as it was; the
    inventory keeps its entries, none of them positive any more, and those
    that were not positive as they were. *)
Theorem item_loop_drops_held_items (this : ObjRef) (g : Game.t) :
  (this < Game.nextRef g)%nat ->
  let g' := dropItems this g in
  let me := Game.objects g this in
  let me' := Game.objects g' this in
  let n := dropped (items me) in
  Game.nextRef g' = (Game.nextRef g + n)%nat
  /\ (forall r, r ∈ Game.loot g'
        <-> r ∈ Game.loot g \/ (Game.nextRef g <= r < Game.nextRef g + n)%nat)
  /\ (forall r, (Game.nextRef g <= r < Game.nextRef g + n)%nat ->
        category (Game.objects g' r) = Loot_cat
        /\ position (Game.objects g' r) = position me
        /\ r ∈ Game.dynamicObjects g' /\ r ∈ Game.fullDirtyObjects g')
  /\ (forall r, (r < Game.nextRef g)%nat -> r <> this ->
        Game.objects g' r = Game.objects g r)
  /\ Game.effects g' = Game.effects g
  /\ map fst (items me') = map fst (items me)
  /\ Forall (fun item => snd item <= 0) (items me')
  /\ (forall i name count, items me !! i = Some (name, count) ->
        items me' !! i = Some (name, if Qlt_bool 0 count then 0 else count)).
Proof.
  intros Hr. cbv zeta. unfold dropItems.
  pose proof (drop_items_spawns this (items (Game.objects g this)) g Hr)
    as (S1 & S2 & S3 & S4 & S5 & S6 & _ & S8 & _).
  set (gm := fold_left _ (items (Game.objects g this)) g) in *.
  set (me := Game.objects g this) in *.
  destruct (emptied_spec (items me)) as (E1 & E2 & E3).
  split; [exact S1|]. split; [exact S4|]. split.
  { intros r Hin. rewrite objects_updObject_ne by lia. rewrite (S3 r Hin).
    split; [reflexivity|]. split; [reflexivity|].
    split; [apply S5; right; lia | apply S6; right; lia]. }
  split.
  { intros r Hlt Hne. rewrite objects_updObject_ne by congruence. now apply S2. }
  split; [exact S8|].
  rewrite objects_updObject. cbn [items with_items].
  split; [exact E1|]. split; [exact E2|]. exact E3.
Qed.

Lemma item_loop_drops_held_items_witness :
  let g := wounded_duel in
  let g' := dropItems 0%nat g in
  let me := Game.objects g 0%nat in
  let me' := Game.objects g' 0%nat in
  let n := dropped (items me) in
  Game.nextRef g' = (Game.nextRef g + n)%nat
  /\ (forall r, r ∈ Game.loot g'
        <-> r ∈ Game.loot g \/ (Game.nextRef g <= r < Game.nextRef g + n)%nat)
  /\ (forall r, (Game.nextRef g <= r < Game.nextRef g + n)%nat ->
        category (Game.objects g' r) = Loot_cat
        /\ position (Game.objects g' r) = position me
        /\ r ∈ Game.dynamicObjects g' /\ r ∈ Game.fullDirtyObjects g')
  /\ (forall r, (r < Game.nextRef g)%nat -> r <> 0%nat ->
        Game.objects g' r = Game.objects g r)
  /\ Game.effects g' = Game.effects g
  /\ map fst (items me') = map fst (items me)
  /\ Forall (fun item => snd item <= 0) (items me')
  /\ (forall i name count, items me !! i = Some (name, count) ->
        items me' !! i = Some (name, if Qlt_bool 0 count then 0 else count)).
Proof.
  cbv zeta. apply (item_loop_drops_held_items 0%nat wounded_duel). cbn. lia.
Defined.

(** ** The second loop of the tick *)

Lemma visitDynamicObject_game {A : Type} (proj : Game.t -> A) (this : ObjRef)
    (minX minY maxX maxY : Q) (nv : gset ObjRef) (g : Game.t) (ob : ObjRef) :
  (forall r f h, proj (updObject r f h) = proj h) ->
  proj (snd (visitDynamicObject this minX minY maxX maxY (nv, g) ob)) = proj g.
Proof.
  intros Hupd. unfold visitDynamicObject.
  destruct (in_window _ minX minY maxX maxY).
  - cbn [snd].
    set (g1 := if decide (ob ∈ visibleObjects (Game.objects g this)) then g else _).
    assert (H1 : proj g1 = proj g) by (subst g1; case_decide; [reflexivity | apply Hupd]).
    destruct (_ && _ && _); [rewrite Hupd|]; exact H1.
  - case_decide; cbn [snd]; [apply Hupd | reflexivity].
Qed.

Lemma fold_visit_game {A : Type} (proj : Game.t -> A) (this : ObjRef)
    (minX minY maxX maxY : Q) (l : list ObjRef) (nv : gset ObjRef) (g : Game.t) :
  (forall r f h, proj (updObject r f h) = proj h) ->
  proj (snd (fold_left (visitDynamicObject this minX minY maxX maxY) l (nv, g))) = proj g.
Proof.
  intros Hupd. revert nv g. induction l as [|ob l IH]; intros nv g; [reflexivity|].
  cbn [fold_left].
  pose proof (visitDynamicObject_game proj this minX minY maxX maxY nv g ob Hupd) as Hstep.
  destruct (visitDynamicObject this minX minY maxX maxY (nv, g) ob) as [nv1 g1].
  cbn [snd] in Hstep. now rewrite IH.
Qed.

(** [updateVisibleObjects] writes to objects only. *)
Lemma updateVisibleObjects_game {A : Type} (proj : Game.t -> A) (this : ObjRef)
    (g g' : Game.t) :
  (forall r f h, proj (updObject r f h) = proj h) ->
  updateVisibleObjects this g = Some g' -> proj g' = proj g.
Proof.
  intros Hupd. unfold updateVisibleObjects.
  set (g0 := updObject this (with_movesSinceLastUpdate 0%nat) g).
  destruct (getVisibleObjects _ 48 g0) as [near|]; [|intros H; discriminate H].
  cbn [mbind option_bind].
  set (g1 := updObject this (with_nearObjects near) g0).
  destruct (match Game.visibleObjects g1 !! _ with
            | Some visibleAtZoom => _
            | None => Some near
            end) as [start|]; [|intros H; discriminate H].
  cbn [mbind option_bind].
  match goal with
  | |- context [fold_left (visitDynamicObject this ?a ?b ?c ?d) ?l ?acc] =>
      pose proof (fold_visit_game proj this a b c d l start g1 Hupd) as Hfold;
      destruct (fold_left (visitDynamicObject this a b c d) l acc) as [nv g2]
  end.
  cbn [snd] in Hfold. intros H. injection H as <-.
  rewrite !Hupd, Hfold. subst g1 g0. now rewrite !Hupd.
Qed.

Lemma tickPlayerObjects_due (player : ObjRef) (g : Game.t) :
  joined (Game.objects g player) = true ->
  Game.updateObjects g = true
  \/ (8 < movesSinceLastUpdate (Game.objects g player))%nat ->
  tickPlayerObjects player g
  = (g1 ← updateVisibleObjects player g; Some (projectDirtyObjects player g1)).
Proof.
  intros Hj Hdue. unfold tickPlayerObjects. rewrite Hj. cbn [negb].
  assert (E : (8 <? movesSinceLastUpdate (Game.objects g player))%nat
              || Game.updateObjects g = true).
  { destruct Hdue as [->|H]; [apply orb_true_r|].
    apply Nat.ltb_lt in H. now rewrite H. }
  now rewrite E.
Qed.

(** What a due turn of the loop leaves with the player. *)
Lemma tickPlayerObjects_sets (player : ObjRef) (g g' : Game.t) :
  joined (Game.objects g player) = true ->
  Game.updateObjects g = true
  \/ (8 < movesSinceLastUpdate (Game.objects g player))%nat ->
  tickPlayerObjects player g = Some g' ->
  let p := Game.objects g player in
  let p' := Game.objects g' player in
  exists start,
    startingCell player g = Some start
    /\ (forall o, o ∈ visibleObjects p'
          <-> o ∈ start
              \/ (o ∈ Game.dynamicObjects g
                  /\ in_cull_window p (Game.objects g o) = true))
    /\ (forall o, o ∈ visibleObjects p' ->
          o ∉ visibleObjects p \/ o ∈ Game.fullDirtyObjects g ->
          o ∈ fullDirtyObjects p')
    /\ (forall o, o ∈ visibleObjects p -> o ∉ visibleObjects p' ->
          o ∈ deletedObjects p').
Proof.
  intros Hj Hdue Htick. cbv zeta.
  rewrite (tickPlayerObjects_due player g Hj Hdue) in Htick.
  destruct (updateVisibleObjects player g) as [g1|] eqn:Hg1; [|discriminate Htick].
  cbn [mbind option_bind] in Htick. injection Htick as <-.
  destruct (updateVisibleObjects_members player g g1 Hg1)
    as (near & start & _ & Hstart & Hmem & _).
  destruct (updateVisibleObjects_marks player g g1 Hg1) as (M1 & M2 & _).
  pose proof (updateVisibleObjects_game Game.fullDirtyObjects player g g1
                (fun _ _ _ => eq_refl) Hg1) as Hfull.
  destruct (projectDirtyObjects_sets player g1) as (V & F & _ & D).
  cbv zeta in V, F, D.
  exists start. split; [exact Hstart|]. rewrite V, F, D, Hfull.
  split; [exact Hmem|]. split.
  - intros o Ho [Hnew|Hdirty].
    + apply elem_of_union; right. now apply M1.
    + apply elem_of_union; left. apply elem_of_filter. now split.
  - intros o Hold Hgone. apply elem_of_union; right. now apply M2.
Qed.

(** X22: one turn of the tick's loop over the connected players, up to the
    packets. A player that has not joined is skipped. For a joined player
    with more than 8 moves since the last update, or when the game asks for
    an update, the turn throws exactly when the grid lookup does; otherwise
    the player sees the objects of its grid point and the dynamic objects in
    its cull window, every object it sees that it did not see before or that
    is full-dirty in the game is in its full-dirty set, and every object it
    no longer sees is in its deleted set. *)
Theorem tick_brings_player_up_to_date (player : ObjRef) (g : Game.t) :
  let p := Game.objects g player in
  (joined p = false -> tickPlayerObjects player g = Some g)
  /\ (joined p = true ->
      Game.updateObjects g = true \/ (8 < movesSinceLastUpdate p)%nat ->
      (tickPlayerObjects player g = None <-> startingCell player g = None)
      /\ forall g', tickPlayerObjects player g = Some g' ->
           let p' := Game.objects g' player in
           exists start,
             startingCell player g = Some start
             /\ (forall o, o ∈ visibleObjects p'
                   <-> o ∈ start
                       \/ (o ∈ Game.dynamicObjects g
                           /\ in_cull_window p (Game.objects g o) = true))
             /\ (forall o, o ∈ visibleObjects p' ->
                   o ∉ visibleObjects p \/ o ∈ Game.fullDirtyObjects g ->
                   o ∈ fullDirtyObjects p')
             /\ (forall o, o ∈ visibleObjects p -> o ∉ visibleObjects p' ->
                   o ∈ deletedObjects p')).
Proof.
  cbv zeta. split.
  - intros Hj. unfold tickPlayerObjects. now rewrite Hj.
  - intros Hj Hdue. split.
    + rewrite (tickPlayerObjects_due player g Hj Hdue),
        <- (updateVisibleObjects_throws player g).
      destruct (updateVisibleObjects player g); cbn [mbind option_bind];
        split; intros H; (discriminate H || reflexivity).
    + intros g' Htick. exact (tickPlayerObjects_sets player g g' Hj Hdue Htick).
Qed.

Lemma startingCell_scene (viewer : ObjRef) (g g' : Game.t) :
  scene_kept g g' -> (viewer < Game.nextRef g)%nat ->
  startingCell viewer g' = startingCell viewer g.
Proof.
  intros (Hset & _ & Hview) Hlt. specialize (Hview viewer Hlt).
  pose proof (view_position _ _ Hview) as Hpos.
  destruct (view_fields _ _ Hview) as (_ & _ & _ & _ & Hzoom & _).
  assert (Hvis : Game.visibleObjects g' = Game.visibleObjects g)
    by (unfold settings in Hset; now injection Hset).
  unfold startingCell, getVisibleObjects. now rewrite Hpos, Hzoom, Hvis.
Qed.

(** X23: the tick after a death, for a joined viewer on a map whose grid is in
    place. The turn of the loop succeeds. If the dying player was in the
    viewer's cull window, the viewer now sees the loot and the death marker
    and has them in its full-dirty set. If the viewer saw the dying player,
    and the player is not in the precomputed set of the viewer's grid point,
    the viewer sees it no longer and has it in its deleted set. *)
Theorem death_reaches_viewers (this viewer : ObjRef) (amount : Q)
    (source : option ObjRef) (weaponUsed : option nat) (g : Game.t) :
  (this < Game.nextRef g)%nat ->
  (forall s, source = Some s -> (s < Game.nextRef g)%nat) ->
  0 <= health (Game.objects g this) <= 100 ->
  fatal (Game.objects g this) amount ->
  viewer <> this -> (viewer < Game.nextRef g)%nat ->
  joined (Game.objects g viewer) = true ->
  grid_built g -> on_the_map (position (Game.objects g viewer)) ->
  let me := Game.objects g this in
  let marker := (Game.nextRef g + dropped (items me))%nat in
  exists g'',
    tickPlayerObjects viewer (damage this amount source weaponUsed g) = Some g''
    /\ (in_cull_window (Game.objects g viewer) me = true ->
        forall r, (Game.nextRef g <= r <= marker)%nat ->
          r ∈ visibleObjects (Game.objects g'' viewer)
          /\ r ∈ fullDirtyObjects (Game.objects g'' viewer))
    /\ (this ∈ visibleObjects (Game.objects g viewer) ->
        (forall start, startingCell viewer g = Some start -> this ∉ start) ->
        (this ∉ visibleObjects (Game.objects g'' viewer))
        /\ this ∈ deletedObjects (Game.objects g'' viewer)).
Proof.
  intros Hr Hsrc Hh Hfatal Hne Hv Hj Hgrid Hmap. cbv zeta.
  destruct (fatal_damage_spec this amount source weaponUsed g Hr Hsrc Hh Hfatal)
    as (_ & _ & S3 & S4 & _ & S6 & _ & _ & _ & _ & _ & _ & _ & _ & S15 & S16).
  cbv zeta in S3, S4, S15, S16.
  pose proof (scene_kept_damage this amount source weaponUsed g Hr) as Hscene.
  pose proof (startingCell_scene viewer _ _ Hscene Hv) as Hcell.
  destruct Hscene as (Hset & _ & Hview). specialize (Hview viewer Hv).
  set (g' := damage this amount source weaponUsed g) in *.
  set (me := Game.objects g this) in *.
  pose proof (view_position _ _ Hview) as Hpos.
  destruct (view_fields _ _ Hview)
    as (_ & _ & _ & Hseen & _ & Hxc & Hyc & Hjoined & _).
  assert (Hvis : Game.visibleObjects g' = Game.visibleObjects g)
    by (unfold settings in Hset; now injection Hset).
  assert (Hj' : joined (Game.objects g' viewer) = true) by now rewrite Hjoined.
  assert (Hgrid' : grid_built g').
  { destruct Hgrid as (pre & Hpre & Hg). exists pre. split; [exact Hpre|]. now rewrite Hvis. }
  assert (Hmap' : on_the_map (position (Game.objects g' viewer))) by now rewrite Hpos.
  destruct (updateVisibleObjects_defined viewer g' Hgrid' Hmap') as [g1 Hg1].
  assert (Htick : tickPlayerObjects viewer g' = Some (projectDirtyObjects viewer g1)).
  { rewrite (tickPlayerObjects_due viewer g' Hj' (or_introl S6)), Hg1. reflexivity. }
  exists (projectDirtyObjects viewer g1). split; [exact Htick|].
  destruct (tickPlayerObjects_sets viewer g' _ Hj' (or_introl S6) Htick)
    as (start & Hstart & Hmem & Hfull & Hdel).
  cbv zeta in Hmem, Hfull, Hdel.
  assert (Hwin : forall o, position (Game.objects g' o) = position me ->
            in_cull_window (Game.objects g' viewer) (Game.objects g' o)
            = in_cull_window (Game.objects g viewer) me).
  { intros o Ho. unfold in_cull_window. now rewrite Ho, Hpos, Hxc, Hyc. }
  split.
  - intros Hin r Hrange.
    assert (Hplace : position (Game.objects g' r) = position me).
    { destruct (decide (r = Game.nextRef g + dropped (items me))%nat) as [->|Hnm].
      - now rewrite S16.
      - rewrite S15 by lia. reflexivity. }
    assert (Hsees : r ∈ visibleObjects (Game.objects (projectDirtyObjects viewer g1) viewer)).
    { apply Hmem. right. split; [apply S3; right; lia|]. now rewrite (Hwin r Hplace). }
    split; [exact Hsees|]. apply Hfull; [exact Hsees|]. right. apply S4. right. lia.
  - intros Hsaw Hstatic.
    assert (Hgone : this ∉ visibleObjects (Game.objects (projectDirtyObjects viewer g1) viewer)).
    { intros Hin. apply Hmem in Hin as [Hin|[Hin _]].
      - rewrite Hcell in Hstart. exact (Hstatic start Hstart Hin).
      - apply S3 in Hin as [[_ Hin]|Hin]; [now apply Hin | lia]. }
    split; [exact Hgone|]. apply Hdel; [|exact Hgone]. now rewrite Hseen.
Qed.

Lemma death_reaches_viewers_witness :
  let g := watched_duel in
  let me := Game.objects g 0%nat in
  let marker := (Game.nextRef g + dropped (items me))%nat in
  exists g'',
    tickPlayerObjects 1%nat (damage 0%nat 50 (Some 1%nat) None g) = Some g''
    /\ (in_cull_window (Game.objects g 1%nat) me = true ->
        forall r, (Game.nextRef g <= r <= marker)%nat ->
          r ∈ visibleObjects (Game.objects g'' 1%nat)
          /\ r ∈ fullDirtyObjects (Game.objects g'' 1%nat))
    /\ (0%nat ∈ visibleObjects (Game.objects g 1%nat) ->
        (forall start, startingCell 1%nat g = Some start -> 0%nat ∉ start) ->
        (0%nat ∉ visibleObjects (Game.objects g'' 1%nat))
        /\ 0%nat ∈ deletedObjects (Game.objects g'' 1%nat)).
Proof.
  cbv zeta.
  apply (death_reaches_viewers 0%nat 1%nat 50 (Some 1%nat) None watched_duel).
  - cbn. lia.
  - intros s Hs. injection Hs as <-. cbn. lia.
  - cbn. split; discriminate.
  - repeat split; cbn; discriminate.
  - discriminate.
  - cbn. lia.
  - reflexivity.
  - eexists. split; [|reflexivity]. reflexivity.
  - unfold on_the_map. cbn. repeat split; discriminate.
Defined.

(** ** A player and its own deleted set *)




(** C10, as stated: a connected, joined player that has just died is put into
    its own deleted set by its turn of the loop, through
    [updateVisibleObjects], and so is sent a delete for its own object. *)
Lemma dead_player_receives_own_delete :
  let g := damage 0%nat 50 (Some 1%nat) None watched_duel in
  0%nat ∈ Game.connectedPlayers g
  /\ joined (Game.objects g 0%nat) = true
  /\ dead (Game.objects g 0%nat) = true
  /\ (0%nat ∉ deletedObjects (Game.objects g 0%nat))
  /\ exists g', tickPlayerObjects 0%nat g = Some g'
                /\ 0%nat ∈ deletedObjects (Game.objects g' 0%nat).
Proof.
  cbv zeta.
  assert (H : bool_decide (0%nat ∈ Game.connectedPlayers
                             (damage 0%nat 50 (Some 1%nat) None watched_duel))
              && joined (Game.objects (damage 0%nat 50 (Some 1%nat) None watched_duel) 0%nat)
              && dead (Game.objects (damage 0%nat 50 (Some 1%nat) None watched_duel) 0%nat)
              && negb (bool_decide
                         (0%nat ∈ deletedObjects
                            (Game.objects (damage 0%nat 50 (Some 1%nat) None watched_duel)
                               0%nat)))
              && match tickPlayerObjects 0%nat
                         (damage 0%nat 50 (Some 1%nat) None watched_duel) with
                 | Some g' => bool_decide (0%nat ∈ deletedObjects (Game.objects g' 0%nat))
                 | None => false
                 end = true) by (vm_compute; reflexivity).
  apply andb_true_iff in H as [Ha H5]. apply andb_true_iff in Ha as [Hb H4].
  apply andb_true_iff in Hb as [Hc H3]. apply andb_true_iff in Hc as [H1 H2].
  split; [now apply bool_decide_eq_true in H1|]. split; [exact H2|]. split; [exact H3|].
  split; [apply negb_true_iff, bool_decide_eq_false in H4; exact H4|].
  destruct (tickPlayerObjects 0%nat _) as [g'|]; [|discriminate H5].
  exists g'. split; [reflexivity|]. now apply bool_decide_eq_true in H5.
Qed.



(** ** Strings on the wire *)
















(** ** Typed pairs over float fields *)




Lemma written_field (b : nat) (k : Z) :
  (b <= 32)%nat -> (0 <= k < 2 ^ Z.of_nat b)%Z ->
  (ToInt32 (inject_Z k) mod 2 ^ Z.of_nat b = k)%Z.
Proof.
  intros Hb Hk. unfold ToInt32. rewrite wrap32_mod by exact Hb.
  rewrite trunc_inject_Z. now apply Z.mod_small.
Qed.



(** ** The typed helper pairs *)



(** ** Rounding to double precision *)

Lemma nearest_even_error (m : Q) :
  Qabs (inject_Z (Double.nearest_even m) - m) <= 1 # 2.
Proof.
  unfold Double.nearest_even.
  pose proof (Qfloor_le m) as Hlo. pose proof (Qlt_floor m) as Hhi.
  rewrite inject_Z_plus in Hhi. change (inject_Z 1) with 1 in Hhi.
  set (f := Qfloor m) in *.
  apply Qabs_Qle_condition.
  destruct (Qcompare_spec (m - inject_Z f) (1 # 2)) as [He|Hl|Hg].
  - destruct (Z.even f); [|rewrite inject_Z_plus; change (inject_Z 1) with 1]; lra.
  - lra.
  - rewrite inject_Z_plus. change (inject_Z 1) with 1. lra.
Qed.

Lemma two_power_pos (e : Z) : 0 < 2 ^ e.
Proof. apply Qpower_0_lt. reflexivity. Qed.

Lemma two_power_split (a b : Z) : 2 ^ (a + b) == 2 ^ a * 2 ^ b.
Proof. apply Qpower_plus. discriminate. Qed.

(** The power of two below [|q|]. *)
Lemma exponent_le (q : Q) : ~ q == 0 -> 2 ^ Double.exponent q <= Qabs q.
Proof.
  intros Hq. unfold Double.exponent.
  set (a := Z.log2 (Z.abs (Qnum q))). set (c := Z.log2 (Z.pos (Qden q))).
  destruct (Qle_bool (2 ^ (a - c)) (Qabs q)) eqn:E; [now apply Qle_bool_iff|].
  assert (Hn : (0 < Z.abs (Qnum q))%Z).
  { destruct q as [n d]. unfold Qeq in Hq. cbn in Hq |- *. lia. }
  assert (Ha : (2 ^ a <= Z.abs (Qnum q))%Z) by (apply Z.log2_spec; exact Hn).
  assert (Hc : (Z.pos (Qden q) < 2 ^ (c + 1))%Z).
  { pose proof (Z.log2_spec (Z.pos (Qden q)) ltac:(lia)) as [_ H].
    now rewrite <- Z.add_1_r in H. }
  assert (Ha0 : (0 <= a)%Z) by apply Z.log2_nonneg.
  assert (Hc0 : (0 <= c)%Z) by apply Z.log2_nonneg.
  assert (Eabs : Qabs q == inject_Z (Z.abs (Qnum q)) / inject_Z (Z.pos (Qden q))).
  { destruct q as [n d]. cbn [Qabs Qnum Qden]. apply Qmake_Qdiv. }
  rewrite Eabs.
  assert (Hd : 0 < inject_Z (Z.pos (Qden q))).
  { change 0 with (inject_Z 0). rewrite <- Zlt_Qlt. lia. }
  apply Qle_shift_div_l; [exact Hd|].
  assert (E1 : 2 ^ (a - c - 1) * 2 ^ (c + 1) == 2 ^ a).
  { rewrite <- two_power_split. replace (a - c - 1 + (c + 1))%Z with a by lia. reflexivity. }
  assert (E2 : 2 ^ (c + 1) == inject_Z (2 ^ (c + 1))).
  { rewrite Zpower_Qpower by lia. reflexivity. }
  assert (E3 : 2 ^ a == inject_Z (2 ^ a)).
  { rewrite Zpower_Qpower by lia. reflexivity. }
  assert (Hdq : inject_Z (Z.pos (Qden q)) <= 2 ^ (c + 1)).
  { rewrite E2, <- Zle_Qle. lia. }
  assert (Hnq : 2 ^ a <= inject_Z (Z.abs (Qnum q))).
  { rewrite E3, <- Zle_Qle. exact Ha. }
  pose proof (two_power_pos (a - c - 1)) as Hp.
  apply Qle_trans with (2 ^ (a - c - 1) * 2 ^ (c + 1)); [|rewrite E1; exact Hnq].
  apply Qmult_le_l; [exact Hp | exact Hdq].
Qed.

(** The standard model of floating-point arithmetic: rounding moves a number
    by at most the unit roundoff, relative to its size. *)
Lemma round_error (q : Q) :
  Qabs (Double.round q - q) <= unit_roundoff * Qabs q.
Proof.
  unfold Double.round.
  destruct (Qeq_bool q 0) eqn:E.
  - apply Qeq_bool_eq in E. rewrite E. vm_compute. discriminate.
  - apply Qeq_bool_neq in E. cbv zeta.
    pose proof (exponent_le q E) as He.
    set (e := Double.exponent q) in *.
    pose proof (two_power_pos (e - 52)) as Hu.
    set (ulp := 2 ^ (e - 52)) in *.
    pose proof (nearest_even_error (q / ulp)) as Hn.
    set (k := inject_Z (Double.nearest_even (q / ulp))) in *.
    assert (Eq1 : k * ulp - q == (k - q / ulp) * ulp) by (field; lra).
    rewrite Eq1, Qabs_Qmult, (Qabs_pos ulp) by lra.
    assert (Eu : ulp == 2 ^ e * (2 * unit_roundoff)).
    { subst ulp. replace (e - 52)%Z with (e + -52)%Z by lia.
      rewrite two_power_split. apply Qmult_comp; [reflexivity|]. reflexivity. }
    apply Qle_trans with ((1 # 2) * ulp).
    + apply Qmult_le_compat_r; [exact Hn | lra].
    + rewrite Eu.
      assert (Eh : (1 # 2) * (2 ^ e * (2 * unit_roundoff)) == unit_roundoff * 2 ^ e)
        by ring.
      rewrite Eh. apply Qmult_le_l; [reflexivity | exact He].
Qed.

(** ** The float fields under rounding *)

Section RoundingAnalysis.
Variable rnd : Q -> Q.
Hypothesis rnd_error : forall q, Qabs (rnd q - q) <= unit_roundoff * Qabs q.

Lemma rnd_nonneg (q : Q) :
  0 <= q ->
  q * (1 - unit_roundoff) <= rnd q /\ rnd q <= q * (1 + unit_roundoff).
Proof.
  intros H. pose proof (rnd_error q) as E. rewrite (Qabs_pos q H) in E.
  apply Qabs_Qle_condition in E. unfold unit_roundoff in *. lra.
Qed.

(** A quotient of two rounded numbers. *)
Lemma rounded_quotient (A D a d lo hi : Q) :
  0 <= A -> 0 < D ->
  A * lo <= a <= A * hi ->
  D * lo <= d <= D * hi ->
  0 < lo -> lo <= hi ->
  A / D * (lo / hi) <= a / d <= A / D * (hi / lo).
Proof.
  intros HA HD [Ha1 Ha2] [Hd1 Hd2] Hlo Hhi.
  assert (Hd : 0 < d) by nra.
  assert (Hh : 0 < hi) by lra.
  split.
  - apply Qle_shift_div_l; [exact Hd|].
    assert (E : A / D * (lo / hi) * d == A * lo * (d / (D * hi))) by (field; lra).
    rewrite E.
    assert (Hr : d / (D * hi) <= 1) by (apply Qle_shift_div_r; nra).
    assert (0 <= A * lo) by nra. nra.
  - apply Qle_shift_div_r; [exact Hd|].
    assert (E : A / D * (hi / lo) * d == A * hi * (d / (D * lo))) by (field; lra).
    rewrite E.
    assert (Hr : 1 <= d / (D * lo)) by (apply Qle_shift_div_l; nra).
    assert (0 <= A * hi) by nra. nra.
Qed.

(** What [writeFloat] hands to [writeBits], against the exact mapping. *)
Lemma rounded_field_near (value min max : Q) (b : nat) :
  (1 <= b <= 30)%nat -> min < max ->
  let R := inject_Z (2 ^ Z.of_nat b - 1) in
  let T := (clamped value min max - min) / (max - min) * R in
  T + (1 # 2) - (9 * R + 1) * unit_roundoff <= rounded_field rnd value min max b
  /\ rounded_field rnd value min max b <= T + (1 # 2) + (9 * R + 1) * unit_roundoff.
Proof.
  intros Hb Hmm. cbv zeta. unfold rounded_field. cbv zeta.
  destruct (range_pos b Hb) as [HR2 HR]. rewrite HR2 in *.
  pose proof (clamped_range value min max ltac:(lra)) as [Hc1 Hc2].
  set (c := clamped value min max) in *.
  set (R := inject_Z (2 ^ Z.of_nat b - 1)) in *.
  set (A := c - min). set (D := max - min).
  assert (HA : 0 <= A) by (subst A; lra).
  assert (HD : 0 < D) by (subst D; lra).
  assert (HAD : A <= D) by (subst A D; lra).
  destruct (rnd_nonneg A HA) as [Ha1 Ha2].
  destruct (rnd_nonneg D ltac:(lra)) as [Hd1 Hd2].
  set (a := rnd A) in *. set (d := rnd D) in *.
  set (t := A / D).
  assert (Ht : 0 <= t <= 1).
  { subst t. split; [apply Qle_shift_div_l; lra | apply Qle_shift_div_r; lra]. }
  destruct (rounded_quotient A D a d (1 - unit_roundoff) (1 + unit_roundoff) HA HD)
    as [Hw1 Hw2]; [split; assumption | split; assumption | reflexivity | discriminate|].
  fold t in Hw1, Hw2.
  set (w := a / d) in *.
  assert (Hlo : 1 - 3 * unit_roundoff
                <= (1 - unit_roundoff) / (1 + unit_roundoff)) by (vm_compute; discriminate).
  assert (Hhi : (1 + unit_roundoff) / (1 - unit_roundoff)
                <= 1 + 3 * unit_roundoff) by (vm_compute; discriminate).
  assert (Hw : t * (1 - 3 * unit_roundoff) <= w <= t * (1 + 3 * unit_roundoff)) by nra.
  assert (Hw0 : 0 <= w) by (unfold unit_roundoff in *; nra).
  destruct (rnd_nonneg w Hw0) as [Hq1 Hq2].
  set (q := rnd w) in *.
  assert (Hq : t * (1 - 5 * unit_roundoff) <= q <= t * (1 + 5 * unit_roundoff))
    by (unfold unit_roundoff in *; lra).
  set (T := t * R).
  assert (HT : 0 <= T <= R) by (subst T; nra).
  assert (Hy : T * (1 - 5 * unit_roundoff) <= q * R <= T * (1 + 5 * unit_roundoff))
    by (subst T; nra).
  assert (Hy0 : 0 <= q * R) by (unfold unit_roundoff in *; lra).
  destruct (rnd_nonneg (q * R) Hy0) as [Hm1 Hm2].
  set (m := rnd (q * R)) in *.
  assert (Hm : T * (1 - 7 * unit_roundoff) <= m <= T * (1 + 7 * unit_roundoff))
    by (unfold unit_roundoff in *; lra).
  assert (Hz0 : 0 <= m + (1 # 2)) by (unfold unit_roundoff in *; lra).
  destruct (rnd_nonneg (m + (1 # 2)) Hz0) as [Hs1 Hs2].
  unfold unit_roundoff in *. lra.
Qed.

(** What [readFloat] returns for the field [k], against the exact level. *)
Lemma rounded_level_near (min max : Q) (b : nat) (k : Z) :
  (1 <= b <= 30)%nat -> min < max -> (0 <= k <= 2 ^ Z.of_nat b - 1)%Z ->
  Qabs (rounded_level rnd min max b k - float_level min max b k)
  <= 7 * unit_roundoff * (max - min) + unit_roundoff * Qabs min.
Proof.
  intros Hb Hmm Hk. unfold rounded_level, float_level. cbv zeta.
  destruct (range_pos b Hb) as [HR2 HR]. rewrite HR2 in *.
  set (R := inject_Z (2 ^ Z.of_nat b - 1)) in *.
  set (D := max - min).
  assert (HD : 0 < D) by (subst D; lra).
  assert (Hkq : 0 <= inject_Z k <= R).
  { subst R. split; [change 0 with (inject_Z 0)|]; rewrite <- Zle_Qle; lia. }
  set (kq := inject_Z k) in *.
  destruct (rnd_nonneg D ltac:(lra)) as [Hd1 Hd2].
  set (d := rnd D) in *.
  set (P := D * kq).
  assert (HP : 0 <= P) by (subst P; nra).
  assert (Hx : P * (1 - unit_roundoff) <= d * kq <= P * (1 + unit_roundoff))
    by (subst P; nra).
  assert (Hx0 : 0 <= d * kq) by (unfold unit_roundoff in *; lra).
  destruct (rnd_nonneg (d * kq) Hx0) as [Hp1 Hp2].
  set (p := rnd (d * kq)) in *.
  assert (Hp : P * (1 - 3 * unit_roundoff) <= p <= P * (1 + 3 * unit_roundoff))
    by (unfold unit_roundoff in *; lra).
  set (G := P / R).
  assert (HG : 0 <= G <= D).
  { subst G. split; [apply Qle_shift_div_l; lra|].
    apply Qle_shift_div_r; [lra|]. subst P. nra. }
  assert (Hg : G * (1 - 3 * unit_roundoff) <= p / R <= G * (1 + 3 * unit_roundoff)).
  { assert (E1 : G * (1 - 3 * unit_roundoff) == P * (1 - 3 * unit_roundoff) / R)
      by (subst G; field; lra).
    assert (E2 : G * (1 + 3 * unit_roundoff) == P * (1 + 3 * unit_roundoff) / R)
      by (subst G; field; lra).
    rewrite E1, E2. split; apply Qdiv_le_mono; lra. }
  assert (Hg0 : 0 <= p / R) by (unfold unit_roundoff in *; lra).
  destruct (rnd_nonneg (p / R) Hg0) as [Hr1 Hr2].
  set (r := rnd (p / R)) in *.
  assert (Hr : G * (1 - 5 * unit_roundoff) <= r <= G * (1 + 5 * unit_roundoff))
    by (unfold unit_roundoff in *; lra).
  pose proof (rnd_error (min + r)) as Ho.
  pose proof (Qabs_triangle min r) as Htri.
  assert (Hrabs : Qabs r == r) by (apply Qabs_pos; unfold unit_roundoff in *; lra).
  rewrite Hrabs in Htri.
  pose proof (Qabs_nonneg min) as Hmin.
  apply Qabs_Qle_condition in Ho.
  apply Qabs_Qle_condition.
  assert (Hu : unit_roundoff * Qabs (min + r) <= unit_roundoff * (Qabs min + r)).
  { apply Qmult_le_l; [reflexivity | exact Htri]. }
  unfold unit_roundoff in *. lra.
Qed.

(** The field written is a legal field, and the level read back for it lies
    within [rounded_bound] of the input brought into [[min,max]]. *)
Lemma rounded_roundtrip (value min max : Q) (b : nat) :
  (1 <= b <= 30)%nat -> min < max ->
  let k := trunc (rounded_field rnd value min max b) in
  (0 <= k <= 2 ^ Z.of_nat b - 1)%Z
  /\ Qabs (rounded_level rnd min max b k - clamped value min max)
     <= rounded_bound min max b.
Proof.
  intros Hb Hmm. cbv zeta.
  destruct (rounded_field_near value min max b Hb Hmm) as [Hs1 Hs2]. cbv zeta in Hs1, Hs2.
  pose proof (clamped_range value min max ltac:(lra)) as [Hc1 Hc2].
  set (c := clamped value min max) in *.
  set (sv := rounded_field rnd value min max b) in *.
  set (R := inject_Z (2 ^ Z.of_nat b - 1)) in *.
  assert (HRz : (1 <= 2 ^ Z.of_nat b - 1 <= 2 ^ 30 - 1)%Z).
  { assert (2 ^ 1 <= 2 ^ Z.of_nat b)%Z by (apply Z.pow_le_mono_r; lia).
    assert (2 ^ Z.of_nat b <= 2 ^ 30)%Z by (apply Z.pow_le_mono_r; lia). lia. }
  assert (HR : 1 <= R <= 1073741823).
  { subst R. change 1 with (inject_Z 1). change 1073741823 with (inject_Z (2 ^ 30 - 1)).
    rewrite <- !Zle_Qle. exact HRz. }
  set (D := max - min) in *.
  assert (HD : 0 < D) by (subst D; lra).
  set (t := (c - min) / D) in *.
  assert (Ht : 0 <= t <= 1).
  { subst t. unfold D. split; [apply Qle_shift_div_l; lra | apply Qle_shift_div_r; lra]. }
  set (T := t * R) in *.
  assert (HT : 0 <= T <= R) by (subst T; nra).
  assert (Hsmall : (9 * R + 1) * unit_roundoff <= 1 # 4) by (unfold unit_roundoff; lra).
  assert (Hsv : 0 <= sv) by lra.
  rewrite (trunc_floor sv Hsv).
  pose proof (Qfloor_le sv) as Hfl. pose proof (Qlt_floor sv) as Hfu.
  rewrite inject_Z_plus in Hfu. change (inject_Z 1) with 1 in Hfu.
  set (k := Qfloor sv) in *.
  assert (Hk : (0 <= k <= 2 ^ Z.of_nat b - 1)%Z).
  { split.
    - assert (inject_Z (-1) < inject_Z k) by (change (inject_Z (-1)) with (-1); lra).
      rewrite <- Zlt_Qlt in *. lia.
    - assert (inject_Z k < inject_Z (2 ^ Z.of_nat b - 1 + 1)).
      { rewrite inject_Z_plus. fold R. change (inject_Z 1) with 1. lra. }
      rewrite <- Zlt_Qlt in *. lia. }
  split; [exact Hk|].
  pose proof (rounded_level_near min max b k Hb Hmm Hk) as Hlevel.
  assert (Elevel : float_level min max b k - c == D / R * (inject_Z k - T)).
  { unfold float_level. destruct (range_pos b Hb) as [HR2 _]. rewrite HR2. fold R D.
    subst T t. field. lra. }
  assert (Hstep : 0 <= D / R) by (apply Qle_shift_div_l; lra).
  assert (Hdiff : Qabs (inject_Z k - T) <= (1 # 2) + (9 * R + 1) * unit_roundoff).
  { apply Qabs_Qle_condition. lra. }
  assert (Hexact : Qabs (float_level min max b k - c)
                   <= D / R * ((1 # 2) + (9 * R + 1) * unit_roundoff)).
  { rewrite Elevel, Qabs_Qmult, (Qabs_pos (D / R)) by exact Hstep.
    rewrite !(Qmult_comm (D / R)). apply Qmult_le_compat_r; assumption. }
  unfold rounded_bound. cbv zeta. fold R D.
  assert (Esum : rounded_level rnd min max b k - c
                 == (rounded_level rnd min max b k - float_level min max b k)
                    + (float_level min max b k - c)) by ring.
  rewrite Esum.
  eapply Qle_trans; [apply Qabs_triangle|].
  eapply Qle_trans; [apply Qplus_le_compat; [exact Hlevel | exact Hexact]|].
  set (B := D / R * ((1 # 2) + (9 * R + 1) * unit_roundoff)).
  set (M := Qabs min). unfold D, unit_roundoff. lra.
Qed.
End RoundingAnalysis.

(** ** The float pairs in double precision *)

Lemma double_writeFloat_field (value min max : Q) (b : nat) (s : BitStream) :
  Double.writeFloat value min max b s
  = writeBits (rounded_field Double.round value min max b) b s.
Proof. reflexivity. Qed.

Lemma double_readFloat_level (min max : Q) (b : nat) (s : BitStream) :
  Double.readFloat min max b s
  = ('(k, s') ← readBits b s; Some (rounded_level Double.round min max b k, s')).
Proof. reflexivity. Qed.

(** What is read back after [writeFloat] in double precision: the rounded
    level of the field written, which is a legal field. *)
Lemma double_float_decodes (value min max : Q) (b : nat) (s : BitStream) :
  (1 <= b <= 30)%nat -> min < max ->
  readIndex s = writeIndex s ->
  (writeIndex s + b <= length (buffer s))%nat ->
  let k := trunc (rounded_field Double.round value min max b) in
  (0 <= k <= 2 ^ Z.of_nat b - 1)%Z
  /\ reads_back (Double.writeFloat value min max b) (Double.readFloat min max b) s
       (fun r => r = rounded_level Double.round min max b k)
  /\ (forall s', Double.writeFloat value min max b s = Some s' ->
        field_at s' (writeIndex s) b k).
Proof.
  intros Hb Hmm Hidx Hroom. cbv zeta.
  destruct (rounded_roundtrip Double.round round_error value min max b Hb Hmm) as [Hk _].
  cbv zeta in Hk.
  set (k := trunc (rounded_field Double.round value min max b)) in *.
  split; [exact Hk|].
  assert (Hw : Double.writeFloat value min max b s = writeBits (inject_Z k) b s).
  { rewrite double_writeFloat_field. apply writeBits_trunc. }
  split.
  - destruct (raw_roundtrip b k s ltac:(lia) ltac:(lia) Hidx Hroom)
      as (s1 & r & s2 & Hw1 & Hr & -> & Hcur).
    exists s1. eexists. exists s2. split; [now rewrite Hw|].
    rewrite double_readFloat_level, Hr. cbn [mbind option_bind].
    split; [reflexivity|]. split; [reflexivity | exact Hcur].
  - intros s' Hs'. rewrite Hw in Hs'.
    destruct (writeBits_spec (inject_Z k) b s Hroom) as (s1 & Hw1 & _ & _ & _ & Hf & _).
    rewrite Hw1 in Hs'. injection Hs' as <-.
    destruct Hf as [Hf Hl]. split; [|exact Hl]. rewrite Hf.
    unfold ToInt32. rewrite trunc_inject_Z.
    assert (Hwrap : wrap32 k = k).
    { unfold wrap32.
      assert (2 ^ Z.of_nat b <= 2 ^ 30)%Z by (apply Z.pow_le_mono_r; lia).
      rewrite Z.mod_small; lia. }
    now rewrite Hwrap.
Qed.

Lemma double_float_error (value min max : Q) (b : nat) (s : BitStream) :
  (1 <= b <= 30)%nat -> min < max ->
  readIndex s = writeIndex s ->
  (writeIndex s + b <= length (buffer s))%nat ->
  reads_back (Double.writeFloat value min max b) (Double.readFloat min max b) s
    (fun r => Qabs (r - clamped value min max) <= rounded_bound min max b).
Proof.
  intros Hb Hmm Hidx Hroom.
  destruct (double_float_decodes value min max b s Hb Hmm Hidx Hroom)
    as (_ & (s1 & r & s2 & Hw & Hr & -> & Hcur) & _).
  exists s1. eexists. exists s2. split; [exact Hw|]. split; [exact Hr|].
  split; [|exact Hcur].
  now destruct (rounded_roundtrip Double.round round_error value min max b Hb Hmm).
Qed.

(** The roundings take less than half a step when the bounds of the range
    are not too large for its width. *)
Lemma rounded_bound_step (min max : Q) (b : nat) :
  (1 <= b <= 30)%nat -> min < max ->
  Qabs min <= 1048576 * (max - min) ->
  rounded_bound min max b <= float_step min max b.
Proof.
  intros Hb Hmm Hmag. unfold rounded_bound, float_step. cbv zeta.
  assert (HRz : (1 <= 2 ^ Z.of_nat b - 1 <= 2 ^ 30 - 1)%Z).
  { assert (2 ^ 1 <= 2 ^ Z.of_nat b)%Z by (apply Z.pow_le_mono_r; lia).
    assert (2 ^ Z.of_nat b <= 2 ^ 30)%Z by (apply Z.pow_le_mono_r; lia). lia. }
  set (R := inject_Z (2 ^ Z.of_nat b - 1)).
  assert (HR : 1 <= R <= 1073741823).
  { subst R. change 1 with (inject_Z 1). change 1073741823 with (inject_Z (2 ^ 30 - 1)).
    rewrite <- !Zle_Qle. exact HRz. }
  set (D := max - min) in *.
  assert (HD : 0 < D) by (subst D; lra).
  set (S := D / R).
  assert (HS : S * R == D) by (subst S; field; lra).
  assert (HS0 : 0 < S) by (subst S; apply Qlt_shift_div_l; lra).
  pose proof (Qabs_nonneg min) as Hmin.
  set (M := Qabs min) in *.
  assert (HSD : D <= 1073741823 * S) by nra.
  unfold unit_roundoff. nra.
Qed.

Lemma clamped_lipschitz (a b min max : Q) :
  min <= max -> Qabs (clamped a min max - clamped b min max) <= Qabs (a - b).
Proof.
  intros Hmm.
  assert (He : - Qabs (a - b) <= a - b <= Qabs (a - b))
    by (apply Qabs_Qle_condition; apply Qle_refl).
  set (e := Qabs (a - b)) in *.
  apply Qabs_Qle_condition. unfold clamped.
  destruct (Qlt_bool a max) eqn:A1; destruct (Qlt_bool b max) eqn:B1;
    destruct (Qlt_bool min a) eqn:A2; destruct (Qlt_bool min b) eqn:B2;
    repeat match goal with
           | H : Qlt_bool _ _ = true |- _ => apply Qlt_bool_iff in H
           | H : Qlt_bool _ _ = false |- _ => apply Qlt_bool_false in H
           end; lra.
Qed.

(** Rounding the value before it is written moves what the position field
    stores by less than [2^-42]. *)
Lemma clamped_round (q : Q) :
  Qabs (clamped (Double.round q) 0 1024 - clamped q 0 1024) <= 1 # 4398046511104.
Proof.
  pose proof (round_error q) as He.
  destruct (Qlt_le_dec 2048 q) as [Hbig|Hle].
  - rewrite (Qabs_pos q) in He by lra. apply Qabs_Qle_condition in He.
    rewrite !clamped_high by (unfold unit_roundoff in He; lra).
    vm_compute. discriminate.
  - destruct (Qlt_le_dec q (-2048)) as [Hneg|Hge].
    + rewrite (Qabs_neg q) in He by lra. apply Qabs_Qle_condition in He.
      rewrite !clamped_low by (try reflexivity; unfold unit_roundoff in He; lra).
      vm_compute. discriminate.
    + eapply Qle_trans; [apply clamped_lipschitz; discriminate|].
      eapply Qle_trans; [exact He|].
      assert (Hq : Qabs q <= 2048) by (apply Qabs_Qle_condition; lra).
      unfold unit_roundoff. lra.
Qed.

(** Two float fields in double precision, written one after the other and
    read back in the same order. *)
Lemma double_vector_decodes (px py minX minY maxX maxY : Q) (b : nat) (s : BitStream) :
  (1 <= b <= 30)%nat -> minX < maxX -> minY < maxY ->
  readIndex s = writeIndex s ->
  (writeIndex s + 2 * b <= length (buffer s))%nat ->
  reads_back (Double.writeVector2 px py minX minY maxX maxY b)
             (Double.readVector minX minY maxX maxY b) s
    (fun p => Qabs (x p - clamped px minX maxX) <= rounded_bound minX maxX b
              /\ Qabs (y p - clamped py minY maxY) <= rounded_bound minY maxY b).
Proof.
  intros Hb Hx Hy Hidx Hroom.
  destruct (rounded_roundtrip Double.round round_error px minX maxX b Hb Hx) as [Hk1 He1].
  destruct (rounded_roundtrip Double.round round_error py minY maxY b Hb Hy) as [Hk2 He2].
  cbv zeta in Hk1, He1, Hk2, He2.
  set (k1 := trunc (rounded_field Double.round px minX maxX b)) in *.
  set (k2 := trunc (rounded_field Double.round py minY maxY b)) in *.
  destruct (writeBits_spec (inject_Z k1) b s ltac:(lia))
    as (s1 & Hw1 & Hwi1 & Hri1 & Hlen1 & Hf1 & _).
  destruct (writeBits_spec (inject_Z k2) b s1 ltac:(lia))
    as (s2 & Hw2 & Hwi2 & Hri2 & Hlen2 & Hf2 & Hfr2).
  exists s2. eexists. eexists. split.
  { unfold Double.writeVector2. rewrite double_writeFloat_field, writeBits_trunc. fold k1.
    rewrite Hw1. cbn [mbind option_bind].
    rewrite double_writeFloat_field, writeBits_trunc. exact Hw2. }
  unfold Double.readVector. rewrite double_readFloat_level.
  rewrite (readBits_spec b (ToInt32 (inject_Z k1)) s2).
  2:{ rewrite Hri2, Hri1, Hidx. apply Hfr2; [lia | exact Hf1]. }
  cbn [mbind option_bind]. rewrite double_readFloat_level.
  rewrite (readBits_spec b (ToInt32 (inject_Z k2))).
  2:{ cbn [readIndex buffer]. rewrite Hri2, Hri1, Hidx, <- Hwi1. exact Hf2. }
  cbn [mbind option_bind]. rewrite !written_field by lia.
  split; [reflexivity|]. cbn [x y readIndex writeIndex].
  split; [|lia]. split; assumption.
Qed.

Lemma rotation_top_level :
  reads_back (Double.writeRotation 4 4) (Double.readRotation 4) (alloc 1)
    (fun r => r == 3537118876014219 # 1125899906842624 /\ r < Double.Math_PI).
Proof.
  unfold reads_back. eexists. eexists. eexists.
  split; [vm_compute; reflexivity|].
  split; [vm_compute; reflexivity|].
  split; [|reflexivity]. split; reflexivity.
Qed.

Lemma scale_near_tie_level :
  reads_back (Double.writeScale scale_near_tie) Double.readScale (alloc 1)
    (fun r => r == 275955859520251 # 562949953421312
              /\ 7 # 2040 < Qabs (r - scale_near_tie)).
Proof.
  unfold reads_back. eexists. eexists. eexists.
  split; [vm_compute; reflexivity|].
  split; [vm_compute; reflexivity|].
  split; [|reflexivity]. split; reflexivity.
Qed.

(** X24: with every operation rounded to double precision, a float field of 1
    to 30 bits gives back a value within half a quantisation step of the
    input brought into [[min,max]], plus what the roundings add; that stays
    within one step whenever [|min|] is at most [2^20] times the width of the
    range. *)
Theorem double_float_bound (value min max : Q) (b : nat) (s : BitStream) :
  (1 <= b <= 30)%nat -> min < max ->
  readIndex s = writeIndex s ->
  (writeIndex s + b <= length (buffer s))%nat ->
  reads_back (Double.writeFloat value min max b) (Double.readFloat min max b) s
    (fun r => Qabs (r - clamped value min max) <= rounded_bound min max b
              /\ (Qabs min <= 1048576 * (max - min) ->
                  Qabs (r - clamped value min max) <= float_step min max b)).
Proof.
  intros Hb Hmm Hidx Hroom.
  destruct (double_float_error value min max b s Hb Hmm Hidx Hroom)
    as (s1 & r & s2 & Hw & Hr & Herr & Hcur).
  exists s1, r, s2. split; [exact Hw|]. split; [exact Hr|]. split; [|exact Hcur].
  split; [exact Herr|]. intros Hmag.
  eapply Qle_trans; [exact Herr|]. now apply rounded_bound_step.
Qed.

Lemma double_float_bound_witness :
  reads_back (Double.writeFloat (1 # 3) 0 1 8) (Double.readFloat 0 1 8) (alloc 1)
    (fun r => Qabs (r - clamped (1 # 3) 0 1) <= rounded_bound 0 1 8
              /\ (Qabs 0 <= 1048576 * (1 - 0) ->
                  Qabs (r - clamped (1 # 3) 0 1) <= float_step 0 1 8)).
Proof.
  apply (double_float_bound (1 # 3) 0 1 8 (alloc 1)).
  - lia.
  - reflexivity.
  - reflexivity.
  - simpl. lia.
Defined.

(** X2: in double precision an input at or above [max] is written as the
    field of all ones and an input at or below [min] as the field [0]; what is
    read back lies within a few roundings of [max] and of [min], and is not
    always [max] itself: the top of the 4-bit rotation field reads back as
    3.1415926535897922, below [Math.PI]. *)
Theorem double_float_saturates (value min max : Q) (b : nat) (s : BitStream) :
  (1 <= b <= 30)%nat -> min < max ->
  readIndex s = writeIndex s ->
  (writeIndex s + b <= length (buffer s))%nat ->
  reads_back (Double.writeFloat value min max b) (Double.readFloat min max b) s
    (fun r =>
       (max <= value ->
        Qabs (r - max) <= 7 * unit_roundoff * (max - min) + unit_roundoff * Qabs min)
       /\ (value <= min ->
           Qabs (r - min) <= 7 * unit_roundoff * (max - min) + unit_roundoff * Qabs min))
  /\ (forall s', Double.writeFloat value min max b s = Some s' ->
        (max <= value -> field_at s' (writeIndex s) b (2 ^ Z.of_nat b - 1))
        /\ (value <= min -> field_at s' (writeIndex s) b 0))
  /\ reads_back (Double.writeRotation 4 4) (Double.readRotation 4) (alloc 1)
       (fun r => r == 3537118876014219 # 1125899906842624 /\ r < Double.Math_PI).
Proof.
  intros Hb Hmm Hidx Hroom.
  destruct (double_float_decodes value min max b s Hb Hmm Hidx Hroom)
    as (Hk & (s1 & r & s2 & Hw & Hr & -> & Hcur) & Hfield).
  destruct (rounded_field_near Double.round round_error value min max b Hb Hmm)
    as [Hs1 Hs2].
  cbv zeta in Hk, Hfield, Hs1, Hs2.
  set (sv := rounded_field Double.round value min max b) in *.
  set (k := trunc sv) in *.
  assert (HRz : (1 <= 2 ^ Z.of_nat b - 1 <= 2 ^ 30 - 1)%Z).
  { assert (2 ^ 1 <= 2 ^ Z.of_nat b)%Z by (apply Z.pow_le_mono_r; lia).
    assert (2 ^ Z.of_nat b <= 2 ^ 30)%Z by (apply Z.pow_le_mono_r; lia). lia. }
  set (R := inject_Z (2 ^ Z.of_nat b - 1)) in *.
  assert (HR : 1 <= R <= 1073741823).
  { subst R. change 1 with (inject_Z 1). change 1073741823 with (inject_Z (2 ^ 30 - 1)).
    rewrite <- !Zle_Qle. exact HRz. }
  assert (Hsmall : (9 * R + 1) * unit_roundoff <= 1 # 4) by (unfold unit_roundoff; lra).
  assert (Hfloor : forall T : Z,
            inject_Z T + (1 # 2) - (9 * R + 1) * unit_roundoff <= sv ->
            sv <= inject_Z T + (1 # 2) + (9 * R + 1) * unit_roundoff ->
            (0 <= T)%Z -> k = T).
  { intros T H1 H2 HT.
    assert (HT0 : 0 <= inject_Z T) by (change 0 with (inject_Z 0); now rewrite <- Zle_Qle).
    subst k. rewrite trunc_floor by lra.
    pose proof (Qfloor_le sv) as Hfl. pose proof (Qlt_floor sv) as Hfu.
    assert (inject_Z (Qfloor sv) < inject_Z (T + 1))
      by (rewrite inject_Z_plus; change (inject_Z 1) with 1; lra).
    assert (inject_Z T < inject_Z (Qfloor sv + 1)) by lra.
    rewrite <- Zlt_Qlt in *. lia. }
  assert (Htop : max <= value -> k = (2 ^ Z.of_nat b - 1)%Z).
  { intros Hv. apply Hfloor; [| |lia].
    - rewrite (clamped_high value min max Hv) in Hs1.
      assert (E : (max - min) / (max - min) * R == R) by (field; lra).
      rewrite E in Hs1. exact Hs1.
    - rewrite (clamped_high value min max Hv) in Hs2.
      assert (E : (max - min) / (max - min) * R == R) by (field; lra).
      rewrite E in Hs2. exact Hs2. }
  assert (Hbottom : value <= min -> k = 0%Z).
  { intros Hv. apply Hfloor; [| |lia].
    - rewrite (clamped_low value min max Hmm Hv) in Hs1.
      assert (E : (min - min) / (max - min) * R == 0) by (field; lra).
      rewrite E in Hs1. change (inject_Z 0) with 0. lra.
    - rewrite (clamped_low value min max Hmm Hv) in Hs2.
      assert (E : (min - min) / (max - min) * R == 0) by (field; lra).
      rewrite E in Hs2. change (inject_Z 0) with 0. lra. }
  destruct (float_level_bounds min max b k Hb ltac:(lra) Hk) as (_ & E0 & E1).
  pose proof (rounded_level_near Double.round round_error min max b k Hb Hmm Hk) as Hnear.
  split; [|split].
  - exists s1. eexists. exists s2. split; [exact Hw|]. split; [exact Hr|].
    split; [|exact Hcur]. split.
    + intros Hv. rewrite (Htop Hv) in Hnear |- *. now rewrite E1 in Hnear.
    + intros Hv. rewrite (Hbottom Hv) in Hnear |- *. now rewrite E0 in Hnear.
  - intros s' Hs'. specialize (Hfield s' Hs'). split.
    + intros Hv. now rewrite <- (Htop Hv).
    + intros Hv. now rewrite <- (Hbottom Hv).
  - exact rotation_top_level.
Qed.

Lemma double_float_saturates_witness :
  reads_back (Double.writeFloat 7 0 1 8) (Double.readFloat 0 1 8) (alloc 1)
    (fun r =>
       (1 <= 7 ->
        Qabs (r - 1) <= 7 * unit_roundoff * (1 - 0) + unit_roundoff * Qabs 0)
       /\ (7 <= 0 ->
           Qabs (r - 0) <= 7 * unit_roundoff * (1 - 0) + unit_roundoff * Qabs 0))
  /\ (forall s', Double.writeFloat 7 0 1 8 (alloc 1) = Some s' ->
        (1 <= 7 -> field_at s' (writeIndex (alloc 1)) 8 (2 ^ Z.of_nat 8 - 1))
        /\ (7 <= 0 -> field_at s' (writeIndex (alloc 1)) 8 0))
  /\ reads_back (Double.writeRotation 4 4) (Double.readRotation 4) (alloc 1)
       (fun r => r == 3537118876014219 # 1125899906842624 /\ r < Double.Math_PI).
Proof.
  apply (double_float_saturates 7 0 1 8 (alloc 1)).
  - lia.
  - reflexivity.
  - reflexivity.
  - simpl. lia.
Defined.

(** X4: in double precision a scale is read back within 7/2040 plus 1e-14 of
    the scale written, brought into the bounds of the scale field; the 7/2040
    of exact arithmetic alone does not hold: the scale 0.48676470588235293 is
    written as the field 35, where exact arithmetic writes 34, and reads
    back as 0.4901960784313726. *)
Theorem double_scale_read_back (value : Q) (s : BitStream) :
  readIndex s = writeIndex s ->
  (writeIndex s + 8 <= length (buffer s))%nat ->
  reads_back (Double.writeScale value) Double.readScale s
    (fun r => Qabs (r - clamped value MIN_OBJECT_SCALE MAX_OBJECT_SCALE)
              <= (7 # 2040) + (1 # 100000000000000))
  /\ reads_back (Double.writeScale scale_near_tie) Double.readScale (alloc 1)
       (fun r => r == 275955859520251 # 562949953421312
                 /\ 7 # 2040 < Qabs (r - scale_near_tie))
  /\ trunc (rounded_field Double.round scale_near_tie
              MIN_OBJECT_SCALE MAX_OBJECT_SCALE 8) = 35%Z
  /\ float_field scale_near_tie MIN_OBJECT_SCALE MAX_OBJECT_SCALE 8 = 34%Z.
Proof.
  intros Hidx Hroom. split; [|split; [|split]].
  - destruct (double_float_error value MIN_OBJECT_SCALE MAX_OBJECT_SCALE 8 s
                ltac:(lia) ltac:(reflexivity) Hidx Hroom)
      as (s1 & r & s2 & Hw & Hr & Herr & Hcur).
    exists s1, r, s2. split; [exact Hw|]. split; [exact Hr|]. split; [|exact Hcur].
    eapply Qle_trans; [exact Herr|]. vm_compute. discriminate.
  - exact scale_near_tie_level.
  - vm_compute. reflexivity.
  - vm_compute. reflexivity.
Qed.

Lemma double_scale_read_back_witness :
  reads_back (Double.writeScale 1) Double.readScale (alloc 1)
    (fun r => Qabs (r - clamped 1 MIN_OBJECT_SCALE MAX_OBJECT_SCALE)
              <= (7 # 2040) + (1 # 100000000000000))
  /\ reads_back (Double.writeScale scale_near_tie) Double.readScale (alloc 1)
       (fun r => r == 275955859520251 # 562949953421312
                 /\ 7 # 2040 < Qabs (r - scale_near_tie))
  /\ trunc (rounded_field Double.round scale_near_tie
              MIN_OBJECT_SCALE MAX_OBJECT_SCALE 8) = 35%Z
  /\ float_field scale_near_tie MIN_OBJECT_SCALE MAX_OBJECT_SCALE 8 = 34%Z.
Proof.
  apply (double_scale_read_back 1 (alloc 1)).
  - reflexivity.
  - simpl. lia.
Defined.

(** X5: in double precision a vector is read back with each coordinate within
    the rounded bound of its own range, and a position as the point
    [(x, 720 - y)] brought into the world bounds, each coordinate within
    512/65535 plus 1e-11.  Rounding decides the field near a tie: the
    coordinate 0.5078202487220569 is written as the field 33 and
    0.007812619211108568 as the field 1, where exact arithmetic writes 32
    and 0. *)
Theorem double_vector_read_back (s : BitStream) :
  readIndex s = writeIndex s ->
  (writeIndex s + 60 <= length (buffer s))%nat ->
  (forall px py minX minY maxX maxY b,
     (1 <= b <= 30)%nat -> minX < maxX -> minY < maxY ->
     reads_back (Double.writeVector2 px py minX minY maxX maxY b)
                (Double.readVector minX minY maxX maxY b) s
       (fun p => Qabs (x p - clamped px minX maxX) <= rounded_bound minX maxX b
                 /\ Qabs (y p - clamped py minY maxY) <= rounded_bound minY maxY b))
  /\ (forall vector,
     reads_back (Double.writePosition vector) Double.readPosition s
       (fun p => Qabs (x p - clamped (x vector) 0 1024)
                 <= (512 # 65535) + (1 # 100000000000)
                 /\ Qabs (y p - clamped (720 - y vector) 0 1024)
                    <= (512 # 65535) + (1 # 100000000000)))
  /\ trunc (rounded_field Double.round coordinate_near_tie 0 1024 16) = 33%Z
  /\ float_field coordinate_near_tie 0 1024 16 = 32%Z
  /\ trunc (rounded_field Double.round coordinate_near_half 0 1024 16) = 1%Z
  /\ float_field coordinate_near_half 0 1024 16 = 0%Z.
Proof.
  intros Hidx Hroom. split; [|split].
  - intros px py minX minY maxX maxY b Hb Hx Hy.
    apply double_vector_decodes; [exact Hb | exact Hx | exact Hy | exact Hidx | lia].
  - intros vector.
    destruct (double_vector_decodes (x vector) (Double.sub 720 (y vector))
                0 0 1024 1024 16 s ltac:(lia) ltac:(reflexivity) ltac:(reflexivity)
                Hidx ltac:(lia)) as (s1 & p & s2 & Hw & Hr & [Hx Hy] & Hcur).
    exists s1, p, s2. split; [exact Hw|]. split; [exact Hr|]. split; [|exact Hcur].
    assert (Hb : rounded_bound 0 1024 16 <= (512 # 65535) + (1 # 500000000000))
      by (vm_compute; discriminate).
    split; [lra|].
    pose proof (clamped_round (720 - y vector)) as Hc.
    change (Double.round (720 - y vector)) with (Double.sub 720 (y vector)) in Hc.
    assert (Esum : y p - clamped (720 - y vector) 0 1024
                   == (y p - clamped (Double.sub 720 (y vector)) 0 1024)
                      + (clamped (Double.sub 720 (y vector)) 0 1024
                         - clamped (720 - y vector) 0 1024)) by ring.
    rewrite Esum. eapply Qle_trans; [apply Qabs_triangle|]. lra.
  - repeat split; vm_compute; reflexivity.
Qed.

Lemma double_vector_read_back_witness :
  (forall px py minX minY maxX maxY b,
     (1 <= b <= 30)%nat -> minX < maxX -> minY < maxY ->
     reads_back (Double.writeVector2 px py minX minY maxX maxY b)
                (Double.readVector minX minY maxX maxY b) (alloc 8)
       (fun p => Qabs (x p - clamped px minX maxX) <= rounded_bound minX maxX b
                 /\ Qabs (y p - clamped py minY maxY) <= rounded_bound minY maxY b))
  /\ (forall vector,
     reads_back (Double.writePosition vector) Double.readPosition (alloc 8)
       (fun p => Qabs (x p - clamped (x vector) 0 1024)
                 <= (512 # 65535) + (1 # 100000000000)
                 /\ Qabs (y p - clamped (720 - y vector) 0 1024)
                    <= (512 # 65535) + (1 # 100000000000)))
  /\ trunc (rounded_field Double.round coordinate_near_tie 0 1024 16) = 33%Z
  /\ float_field coordinate_near_tie 0 1024 16 = 32%Z
  /\ trunc (rounded_field Double.round coordinate_near_half 0 1024 16) = 1%Z
  /\ float_field coordinate_near_half 0 1024 16 = 0%Z.
Proof.
  apply (double_vector_read_back (alloc 8)).
  - reflexivity.
  - simpl. lia.
Defined.
